(** * TeamShuffle: the grouping engine, embedded and verified

    A shallow embedding of the TypeScript sources of TeamShuffle
    (StudentService, GroupingConditionsService, the four grouping
    handlers and the dialog validation), followed by the theorems about
    them.  The later parts each embed some more of the sources next to
    their theorems: the edits of the conditions and of the roster, the
    moves by hand, the leaders, the checks of the dialog and of the home
    page, and the conditions that StudentService validates.

    Conventions of the embedding.
    - A JavaScript string is a list of code units; only code units below
      256 are modelled ([ascii]).
    - A JavaScript number that holds a seat number or a count is an exact
      integer ([Z] or [nat]); [NaN] is [None].  This is exact below 2^53.
    - Arrays are lists.  An array that the source mutates is threaded
      through the functions explicitly.
    - [Math.random] is a stream of draws from the unit interval that is
      threaded through every function that calls it.
    - An exception is an outcome [Thrown]; the only loop that is not
      bounded by the length of an array runs on fuel and yields [Diverged]
      if the fuel runs out (it never does, see [femaleLoop_refines]). *)

From Stdlib Require Import Ascii String.
From Stdlib Require Import List Arith ZArith QArith Qround Bool Lia.
From Stdlib Require Import Permutation Sorted.
Import ListNotations.

Set Implicit Arguments.
Unset Strict Implicit.

Local Open Scope Z_scope.

(* ================================================================== *)
(** * JavaScript primitives                                            *)
(* ================================================================== *)

Module JS.

(** ** Strings *)

Definition str := list ascii.

Definition lit (s : string) : str := list_ascii_of_string s.

(** WhiteSpace and LineTerminator code units below 256: TAB, LF, VT, FF,
    CR, SP and NBSP.  [String.prototype.trim], the regular expression
    class [\s] and the prefix skipped by [parseInt] all use this set. *)
Definition isWhiteSpace (c : ascii) : bool :=
  existsb (Nat.eqb (nat_of_ascii c)) [9; 10; 11; 12; 13; 32; 160]%nat.

Fixpoint trimStart (s : str) : str :=
  match s with
  | [] => []
  | c :: s' => if isWhiteSpace c then trimStart s' else s
  end.

Definition trimEnd (s : str) : str := rev (trimStart (rev s)).

Definition trim (s : str) : str := trimEnd (trimStart s).

(** [s.split(sep)] for a separator of one code unit.  The result is never
    empty: the empty string splits into one empty piece. *)
Fixpoint split (sep : ascii) (s : str) : list str :=
  match s with
  | [] => [[]]
  | c :: s' =>
      if Ascii.eqb c sep then [] :: split sep s'
      else match split sep s' with
           | piece :: rest => (c :: piece) :: rest
           | [] => [[c]]
           end
  end.

(** [s.split(/[,\s]+/)]: the pieces between maximal runs of separator
    code units.  [inRun] holds while a run of separators is being
    skipped. *)
Definition isListSeparator (c : ascii) : bool :=
  Ascii.eqb c ","%char || isWhiteSpace c.

Fixpoint splitRunsFrom (inRun : bool) (s : str) : list str :=
  match s with
  | [] => [[]]
  | c :: s' =>
      if isListSeparator c then
        if inRun then splitRunsFrom true s' else [] :: splitRunsFrom true s'
      else match splitRunsFrom false s' with
           | piece :: rest => (c :: piece) :: rest
           | [] => [[c]]
           end
  end.

Definition splitCommaSpace (s : str) : list str := splitRunsFrom false s.

Definition includes (c : ascii) (s : str) : bool := existsb (Ascii.eqb c) s.

Definition nonEmpty (s : str) : bool :=
  match s with [] => false | _ => true end.

Definition startsWith (c : ascii) (s : str) : bool :=
  match s with c' :: _ => Ascii.eqb c' c | [] => false end.

Definition endsWith (c : ascii) (s : str) : bool := startsWith c (rev s).

(** [Array.prototype.join] with a separator of one code unit. *)
Fixpoint join (sep : ascii) (l : list str) : str :=
  match l with
  | [] => []
  | [s] => s
  | s :: rest => s ++ sep :: join sep rest
  end.

(** ** parseInt *)

Definition digitValue (c : ascii) : option Z :=
  let n := Z.of_nat (nat_of_ascii c) in
  if (48 <=? n) && (n <=? 57) then Some (n - 48)
  else if (97 <=? n) && (n <=? 102) then Some (n - 87)
  else if (65 <=? n) && (n <=? 70) then Some (n - 55)
  else None.

Definition radixDigit (radix : Z) (c : ascii) : option Z :=
  match digitValue c with
  | Some d => if d <? radix then Some d else None
  | None => None
  end.

(** The value of the longest prefix of digits; [acc] is [None] until a
    digit has been read. *)
Fixpoint parseDigits (radix : Z) (acc : option Z) (s : str) : option Z :=
  match s with
  | [] => acc
  | c :: s' =>
      match radixDigit radix c with
      | Some d =>
          parseDigits radix
            (Some (match acc with Some a => a * radix + d | None => d end)) s'
      | None => acc
      end
  end.

(** [parseInt(s)] without a radix: leading white space is skipped, then a
    sign, then a [0x] or [0X] prefix selects radix 16; [None] is [NaN]. *)
Definition parseInt (s : str) : option Z :=
  let s1 := trimStart s in
  let '(sign, s2) :=
    match s1 with
    | c :: r =>
        if Ascii.eqb c "-"%char then (-1, r)
        else if Ascii.eqb c "+"%char then (1, r)
        else (1, s1)
    | [] => (1, s1)
    end in
  let '(radix, s3) :=
    match s2 with
    | z :: x :: r =>
        if Ascii.eqb z "0"%char && (Ascii.eqb x "x"%char || Ascii.eqb x "X"%char)
        then (16, r) else (10, s2)
    | _ => (10, s2)
    end in
  option_map (Z.mul sign) (parseDigits radix None s3).

(** ** Sets of numbers

    A [Set<number>] keeps its elements in insertion order. *)

Definition NumSet := list Z.

Definition Set_has (s : NumSet) (x : Z) : bool := existsb (Z.eqb x) s.

Definition Set_add (s : NumSet) (x : Z) : NumSet :=
  if Set_has s x then s else s ++ [x].

(** [new Set(array)] followed by a spread. *)
Definition Set_of (l : list Z) : NumSet := fold_left Set_add l [].

(** ** Array.prototype.sort with a consistent comparator

    The sort is stable (ECMAScript 2019), so for a consistent comparator
    the result does not depend on the engine.  Insertion keeps an element
    in front of the later elements that compare equal to it. *)

Section Sort.
Variable A : Type.
Variable cmp : A -> A -> Z.

Fixpoint sortInsert (x : A) (l : list A) : list A :=
  match l with
  | [] => [x]
  | y :: l' => if cmp x y <=? 0 then x :: l else y :: sortInsert x l'
  end.

Definition Array_sort (l : list A) : list A := fold_right sortInsert [] l.
End Sort.

Definition sortNumbers : list Z -> list Z := Array_sort (fun a b => a - b).

(** ** Maps from numbers

    A [Map<number, number>] keeps its keys in insertion order; setting a
    key that is present replaces its value in place. *)

Definition NumMap := list (Z * nat).

Fixpoint Map_get (m : NumMap) (k : Z) : option nat :=
  match m with
  | [] => None
  | (k', v) :: m' => if k' =? k then Some v else Map_get m' k
  end.

Definition Map_has (m : NumMap) (k : Z) : bool :=
  match Map_get m k with Some _ => true | None => false end.

Fixpoint Map_set (m : NumMap) (k : Z) (v : nat) : NumMap :=
  match m with
  | [] => [(k, v)]
  | (k', v') :: m' => if k' =? k then (k', v) :: m' else (k', v') :: Map_set m' k v
  end.

(** [Array.from(new Set(map.values()))], and a [Set] of indices. *)
Definition IndexSet := list nat.

Definition IndexSet_has (s : IndexSet) (i : nat) : bool := existsb (Nat.eqb i) s.

Definition IndexSet_add (s : IndexSet) (i : nat) : IndexSet :=
  if IndexSet_has s i then s else s ++ [i].

(** [array.map((x, index) => ({ x, index }))] *)
Definition indexed (A : Type) (l : list A) : list (nat * A) :=
  combine (seq 0 (List.length l)) l.

(** The inclusive range pushed by
    [for (let i = lo; i <= hi; i++) numbers.push(i)]. *)
Definition range (lo hi : Z) : list Z :=
  map (fun k => lo + Z.of_nat k) (seq 0 (Z.to_nat (hi - lo + 1))).

Fixpoint str_eqb (a b : str) : bool :=
  match a, b with
  | [], [] => true
  | x :: a', y :: b' => Ascii.eqb x y && str_eqb a' b'
  | _, _ => false
  end.

(** ** Outcomes *)

Inductive exn := TypeError | Error (duplicates : list Z).

Inductive outcome (A : Type) :=
| Returned (a : A)
| Thrown (e : exn)
| Diverged.
Arguments Thrown {A} e.
Arguments Diverged {A}.

Definition bind {A B} (m : outcome A) (k : A -> outcome B) : outcome B :=
  match m with
  | Returned a => k a
  | Thrown e => Thrown e
  | Diverged => Diverged
  end.

(** [a[i]] as the receiver of a property access: [undefined] throws. *)
Definition deref {A} (o : option A) : outcome A :=
  match o with Some a => Returned a | None => Thrown TypeError end.

End JS.

Import JS.

Notation "x <- m ;; k" := (JS.bind m (fun x => k))
  (at level 61, m at next level, right associativity).
Notation "' pat <- m ;; k" := (JS.bind m (fun x => match x with pat => k end))
  (at level 61, pat pattern, m at next level, right associativity).

(* ================================================================== *)
(** * Math.random and the shuffles built on it                         *)
(* ================================================================== *)

(** One result of [Math.random()]: a number in the unit interval. *)
Record Draw := mkDraw {
  value : Q;
  value_range : (0 <= value)%Q /\ (value < 1)%Q
}.

(** The random source: the sequence of results still to come. *)
Record RandomSource := mkSource {
  draws : nat -> Draw;
  cursor : nat
}.

Definition Math_random (rs : RandomSource) : Draw * RandomSource :=
  (draws rs (cursor rs), {| draws := draws rs; cursor := S (cursor rs) |}).

Definition advance (n : nat) (rs : RandomSource) : RandomSource :=
  {| draws := draws rs; cursor := (n + cursor rs)%nat |}.

Lemma half_in_unit : (0 <= 1 # 2)%Q /\ (1 # 2 < 1)%Q.
Proof. split; [discriminate | reflexivity]. Qed.

Definition half : Draw := mkDraw half_in_unit.

(** The source that returns the midpoint value on every call. *)
Definition midpoint : RandomSource := {| draws := fun _ => half; cursor := 0 |}.

(** The comparator [() => Math.random() - 0.5], as the number it returns. *)
Definition randomComparator (rs : RandomSource) : Q * RandomSource :=
  let '(d, rs') := Math_random rs in ((value d - (1 # 2))%Q, rs').

(** [array.sort(() => Math.random() - 0.5)].  The comparator is not
    consistent, so the order of the result is defined by the engine.  An
    engine is any sort that returns a rearrangement of its input, draws
    from the source only by calling the comparator, and is stable: it
    keeps the input order when every comparison returns zero. *)
Class SortEngine := {
  sortRandom : forall A : Type, list A -> RandomSource -> list A * RandomSource;
  sortRandom_perm :
    forall (A : Type) (l : list A) rs, Permutation (fst (sortRandom l rs)) l;
  sortRandom_draws :
    forall (A : Type) (l : list A) rs,
      exists n, snd (sortRandom l rs) = advance n rs;
  sortRandom_stable :
    forall (A : Type) (l : list A) rs,
      (forall n, (value (draws rs n) == 1 # 2)%Q) -> fst (sortRandom l rs) = l
}.

(** The insertion sort of [JS.Array_sort], driven by the random
    comparator: one engine. *)
Fixpoint insertRandom (A : Type) (x : A) (l : list A) (rs : RandomSource)
  : list A * RandomSource :=
  match l with
  | [] => ([x], rs)
  | y :: l' =>
      let '(v, rs1) := randomComparator rs in
      if Qle_bool v 0 then (x :: l, rs1)
      else let '(r, rs2) := insertRandom x l' rs1 in (y :: r, rs2)
  end.

Fixpoint insertionSortRandom (A : Type) (l : list A) (rs : RandomSource)
  : list A * RandomSource :=
  match l with
  | [] => ([], rs)
  | x :: l' =>
      let '(sorted, rs1) := insertionSortRandom l' rs in
      insertRandom x sorted rs1
  end.

(** [GenderRatioHandler.shuffleArray]: the Fisher-Yates loop
    [for (i = n - 1; i > 0; i--) { j = floor(random() * (i + 1)); swap i j }]. *)
Fixpoint updateNth (A : Type) (i : nat) (v : A) (l : list A) : list A :=
  match l, i with
  | [], _ => []
  | _ :: l', O => v :: l'
  | x :: l', S i' => x :: updateNth i' v l'
  end.

(** [[a[i], a[j]] = [a[j], a[i]]] for indices inside the array (the loop
    never produces another one, see [randomIndex_le]). *)
Definition swap (A : Type) (i j : nat) (l : list A) : list A :=
  match nth_error l i, nth_error l j with
  | Some a, Some b => updateNth j a (updateNth i b l)
  | _, _ => l
  end.

Definition randomIndex (i : nat) (rs : RandomSource) : nat * RandomSource :=
  let '(d, rs') := Math_random rs in
  (Z.to_nat (Qfloor (value d * inject_Z (Z.of_nat i + 1))), rs').

Fixpoint shuffleFrom (A : Type) (i : nat) (l : list A) (rs : RandomSource)
  : list A * RandomSource :=
  match i with
  | O => (l, rs)
  | S i' =>
      let '(j, rs') := randomIndex i rs in
      shuffleFrom i' (swap i j l) rs'
  end.

Definition shuffleArray (A : Type) (l : list A) (rs : RandomSource)
  : list A * RandomSource :=
  shuffleFrom (length l - 1) l rs.

(* ================================================================== *)
(** * The data model (student.model.ts, grouping-handler.model.ts)     *)
(* ================================================================== *)

Inductive Gender := male | female.

Definition Gender_eqb (a b : Gender) : bool :=
  match a, b with
  | male, male | female, female => true
  | _, _ => false
  end.

(** A student object.  Its [isLeader] flag is a mutable property of the
    object that [performGrouping] clears on every roster object before it
    allocates and that no allocation step reads; the embedding identifies
    a student object with its seat number and gender and leaves the flag
    (and the never assigned [blockId]) out. *)
Module Student.
Record t := make { id : Z; gender : Gender }.
End Student.
Abbreviation Student := Student.t.

Definition isMale (s : Student) : bool := Gender_eqb (Student.gender s) male.
Definition isFemale (s : Student) : bool := Gender_eqb (Student.gender s) female.

(** [initializeGroups] prints the same number into [id] ("group-n") and
    into [name]; the embedding keeps the number. *)
Module Group.
Record t := make { id : nat; name : nat; students : list Student }.

Definition size (g : t) : nat := List.length (students g).

(** [{ ...g, students: l }] *)
Definition withStudents (l : list Student) (g : t) : t :=
  {| id := id g; name := name g; students := l |}.

(** [g.students.push(s)] *)
Definition push (s : Student) (g : t) : t := withStudents (students g ++ [s]) g.
End Group.
Abbreviation Group := Group.t.

(** A slot of the [blockInputs] array: writing past the end of an array
    leaves holes, and a spread turns a hole into [undefined]. *)
Inductive slot := Hole | Undefined | Str (s : str).

(** [GroupingConditionState] of GroupingConditionsService. *)
Module ConditionState.
Record t := make {
  id : str;
  type : str;
  enabled : bool;
  input : str;
  blockInputs : option (list slot)
}.
End ConditionState.
Abbreviation GroupingConditionState := ConditionState.t.

(** [GroupingCondition] as [performGrouping] builds it: [config] holds
    [input] and [blockInputs]. *)
Module Condition.
Record t := make {
  id : str;
  type : str;
  enabled : bool;
  priority : nat;
  config_input : str;
  config_blockInputs : option (list slot)
}.
End Condition.
Abbreviation GroupingCondition := Condition.t.

(** [GroupingContext] and [GroupingResult].  The [message] of a result is
    text for the user that no handler reads back; it is left out. *)
Module Context.
Record t := make {
  students : list Student;
  groups : list Group;
  conditions : list GroupingCondition;
  remainingStudents : list Student
}.
End Context.
Abbreviation GroupingContext := Context.t.

Module Result.
Record t := make {
  success : bool;
  groups : list Group;
  handled : bool;
  remainingStudents : list Student
}.
End Result.
Abbreviation GroupingResult := Result.t.

(** ** Operations on the array of groups shared by the handlers *)

Definition copyGroups (gs : list Group) : list Group :=
  map (fun g => Group.withStudents (Group.students g) g) gs.

Definition clearGroups (gs : list Group) : list Group :=
  map (Group.withStudents []) gs.

(** [groups[i].students.push(s)]; [groups[i]] may be [undefined]. *)
Definition pushStudent (i : nat) (s : Student) (gs : list Group)
  : outcome (list Group) :=
  g <- deref (nth_error gs i) ;;
  Returned (updateNth i (Group.push s g) gs).

Definition hasId (x : Z) (s : Student) : bool := Student.id s =? x.

(** [groups.reduce((min, cur) => cur.students.length < min.students.length
    ? cur : min)]: the first group of least size, as its index.  Reducing
    an empty array throws. *)
Fixpoint minIndexFrom (best bestSize i : nat) (gs : list Group) : nat :=
  match gs with
  | [] => best
  | g :: gs' =>
      if (Group.size g <? bestSize)%nat
      then minIndexFrom i (Group.size g) (S i) gs'
      else minIndexFrom best bestSize (S i) gs'
  end.

Definition leastOccupied (gs : list Group) : outcome nat :=
  match gs with
  | [] => Thrown TypeError
  | g :: gs' => Returned (minIndexFrom 0 (Group.size g) 1 gs')
  end.

(** [distributeRemainingStudents], the same in three handlers. *)
Fixpoint pushEachToLeast (l : list Student) (gs : list Group)
  : outcome (list Group) :=
  match l with
  | [] => Returned gs
  | s :: l' =>
      i <- leastOccupied gs ;;
      gs' <- pushStudent i s gs ;;
      pushEachToLeast l' gs'
  end.

Definition distributeRemainingStudents {E : SortEngine}
  (gs : list Group) (remainingStudents : list Student) (rs : RandomSource)
  : outcome (list Group * RandomSource) :=
  let '(shuffledStudents, rs') := sortRandom remainingStudents rs in
  gs' <- pushEachToLeast shuffledStudents gs ;;
  Returned (gs', rs').

(* ================================================================== *)
(** * Constraint parsers                                               *)
(* ================================================================== *)

(** One comma separated part of a number list: a range [a-b] or a single
    number.  The loop is the same in [StudentService.parseNumberInput]
    and in [BlockDistributionHandler.parseBlockInput]. *)
Definition expandPart (part : str) : list Z :=
  if includes "-"%char part then
    match map (fun n => parseInt (trim n)) (split "-"%char part) with
    | Some start :: Some end_ :: _ => range (Z.min start end_) (Z.max start end_)
    | _ => []
    end
  else
    match parseInt part with
    | Some num => [num]
    | None => []
    end.

(** [StudentService.parseNumberInput] *)
Definition parseNumberInput (input : str) : list Z :=
  let parts := map trim (split ","%char input) in
  sortNumbers (Set_of (flat_map expandPart parts)).

Definition newline : ascii := "010"%char.

(** [BlockDistributionHandler.parseBlockInput] *)
Definition parseBlockInput (input : str) : list Z :=
  if negb (nonEmpty (trim input)) then []
  else
    let lines := filter nonEmpty (map trim (split newline input)) in
    let numbers :=
      flat_map (fun line =>
                  let parts := filter nonEmpty (map trim (splitCommaSpace line)) in
                  flat_map expandPart parts)
               lines in
    sortNumbers (Set_of numbers).

(** The loop of [parseStudentNumbers] (the same in SameGroupHandler,
    DifferentGroupHandler and the dialog).  [seenNumbers] always holds the
    elements of [numbers], so [numbers] stands for both. *)
Definition scanPart (acc : list Z * NumSet) (part : str) : list Z * NumSet :=
  let '(numbers, duplicates) := acc in
  match parseInt part with
  | Some num =>
      if Set_has numbers num then (numbers, Set_add duplicates num)
      else (numbers ++ [num], duplicates)
  | None => acc
  end.

Definition parseStudentNumbers (input : str) : outcome (list Z) :=
  let parts := map trim (split ","%char input) in
  let '(numbers, duplicates) := fold_left scanPart parts ([], []) in
  match duplicates with
  | _ :: _ => Thrown (Error (sortNumbers duplicates))
  | [] => Returned (sortNumbers numbers)
  end.

(** [input.split(";").map(trim).filter(nonempty)] *)
Definition segments (input : str) : list str :=
  filter nonEmpty (map trim (split ";"%char input)).

(** The body of the [for (const group of groups)] loop with its
    [try]/[catch]: a cluster that throws is skipped. *)
Definition clusterOf (group : str) : list (list Z) :=
  match parseStudentNumbers group with
  | Returned studentNumbers =>
      if (2 <=? List.length studentNumbers)%nat then [studentNumbers] else []
  | _ => []
  end.

(** [SameGroupHandler.parseSameGroupInput] *)
Definition parseSameGroupInput (input : str) : list (list Z) :=
  if negb (nonEmpty (trim input)) then []
  else flat_map clusterOf (segments input).

(** [DifferentGroupHandler.parseDifferentGroupInput]: the same text. *)
Definition parseDifferentGroupInput (input : str) : list (list Z) :=
  if negb (nonEmpty (trim input)) then []
  else flat_map clusterOf (segments input).

(* ================================================================== *)
(** * The chain of handlers                                            *)
(* ================================================================== *)

(** A handler as seen by its predecessor: [handle(context)]. *)
Definition Handler : Type :=
  GroupingContext -> RandomSource -> outcome (GroupingResult * RandomSource).

(** [GroupingHandler.handle]: a result that is not a success is replaced
    by the next handler's result on the same context. *)
Definition handle (process : Handler) (nextHandler : option Handler) : Handler :=
  fun context rs =>
    '(result, rs') <- process context rs ;;
    match nextHandler with
    | Some next => if negb (Result.success result) then next context rs'
                   else Returned (result, rs')
    | None => Returned (result, rs')
    end.

(** [context.conditions.find((c) => c.type === type && c.enabled)] *)
Definition findCondition (type : string) (context : GroupingContext)
  : option GroupingCondition :=
  find (fun c => str_eqb (Condition.type c) (lit type) && Condition.enabled c)
       (Context.conditions context).

(** The result of a handler whose condition is absent or disabled. *)
Definition notEnabled (context : GroupingContext) : GroupingResult :=
  {| Result.success := false;
     Result.groups := Context.groups context;
     Result.handled := false;
     Result.remainingStudents := Context.remainingStudents context |}.

(** The result of a handler whose condition is enabled and empty. *)
Definition notConfigured (context : GroupingContext) : GroupingResult :=
  {| Result.success := true;
     Result.groups := Context.groups context;
     Result.handled := false;
     Result.remainingStudents := Context.remainingStudents context |}.

Definition unprocessed (processedStudentIds : NumSet) (l : list Student)
  : list Student :=
  filter (fun s => negb (Set_has processedStudentIds (Student.id s))) l.

(** The end of [process] in BlockDistributionHandler, SameGroupHandler and
    DifferentGroupHandler: pass what is left to the next handler, and if
    there is none or it did not handle, spread what is left over the least
    occupied groups. *)
Definition delegateOrDistribute {E : SortEngine}
  (nextHandler : option Handler) (context : GroupingContext)
  (groups : list Group) (finalRemainingStudents : list Student)
  (rs : RandomSource) : outcome (GroupingResult * RandomSource) :=
  let distribute rs0 :=
    '(groups', rs') <-
      match finalRemainingStudents with
      | _ :: _ => distributeRemainingStudents groups finalRemainingStudents rs0
      | [] => Returned (groups, rs0)
      end ;;
    Returned ({| Result.success := true;
                 Result.groups := groups';
                 Result.handled := true;
                 Result.remainingStudents := [] |}, rs') in
  match nextHandler, finalRemainingStudents with
  | Some next, _ :: _ =>
      let nextContext :=
        {| Context.students := Context.students context;
           Context.groups := groups;
           Context.conditions := Context.conditions context;
           Context.remainingStudents := finalRemainingStudents |} in
      '(nextResult, rs1) <- next nextContext rs ;;
      if Result.handled nextResult then
        Returned ({| Result.success := true;
                     Result.groups := Result.groups nextResult;
                     Result.handled := true;
                     Result.remainingStudents :=
                       Result.remainingStudents nextResult |}, rs1)
      else distribute rs1
  | _, _ => distribute rs
  end.

(** ** GenderRatioHandler *)

Module GenderRatioHandler.

(** One entry of [groupGenderStats]; [group] is the group at [index].  The
    field [genderDiff] is written and never read. *)
Record Stat := mkStat { index : nat; males : nat; females : nat; total : nat }.

Definition statOf (ig : nat * Group) : Stat :=
  let m := List.length (filter isMale (Group.students (snd ig))) in
  let f := List.length (filter isFemale (Group.students (snd ig))) in
  {| index := fst ig; males := m; females := f; total := (m + f)%nat |}.

Definition overCapacity (idealGroupSize : nat) (a : Stat) : Z :=
  Z.max 0 (Z.of_nat (total a) + 1 - Z.of_nat idealGroupSize).

(** The comparator of the sort that ranks the groups for a student of
    gender [g]. *)
Definition compareStats (g : Gender) (idealGroupSize : nat) (a b : Stat) : Z :=
  let overCapacityA := overCapacity idealGroupSize a in
  let overCapacityB := overCapacity idealGroupSize b in
  if negb (overCapacityA =? overCapacityB) then overCapacityA - overCapacityB
  else
    let diff s :=
      match g with
      | male => Z.of_nat (females s) - Z.of_nat (males s)
      | female => Z.of_nat (males s) - Z.of_nat (females s)
      end in
    if negb (diff a =? diff b) then diff b - diff a
    else Z.of_nat (total a) - Z.of_nat (total b).

Definition count (g : Gender) (s : Stat) : Stat :=
  match g with
  | male => {| index := index s; males := S (males s);
               females := females s; total := S (total s) |}
  | female => {| index := index s; males := males s;
                 females := S (females s); total := S (total s) |}
  end.

(** [for (const student of shuffled) { ... }]: the statistics are sorted
    in place, so the order left by one student is the input of the sort
    for the next one. *)
Fixpoint place (g : Gender) (idealGroupSize : nat) (shuffled : list Student)
  (stats : list Stat) (groups : list Group) : outcome (list Stat * list Group) :=
  match shuffled with
  | [] => Returned (stats, groups)
  | student :: rest =>
      match Array_sort (compareStats g idealGroupSize) stats with
      | [] => Thrown TypeError
      | targetGroupStat :: others =>
          groups' <- pushStudent (index targetGroupStat) student groups ;;
          place g idealGroupSize rest (count g targetGroupStat :: others) groups'
      end
  end.

Definition ceilDiv (a b : nat) : nat := ((a + b - 1) / b)%nat.

Definition process : Handler := fun context rs =>
  match findCondition "gender-ratio" context with
  | None => Returned (notEnabled context, rs)
  | Some _ =>
      let studentsToProcess := Context.remainingStudents context in
      let groups := copyGroups (Context.groups context) in
      let maleStudents := filter isMale studentsToProcess in
      let femaleStudents := filter isFemale studentsToProcess in
      let totalGroups := List.length groups in
      let maleCount := List.length maleStudents in
      let femaleCount := List.length femaleStudents in
      if (maleCount =? 0)%nat && (femaleCount =? 0)%nat then
        Returned ({| Result.success := true;
                     Result.groups := groups;
                     Result.handled := false;
                     Result.remainingStudents := [] |}, rs)
      else
        let '(shuffledMales, rs1) := shuffleArray maleStudents rs in
        let '(shuffledFemales, rs2) := shuffleArray femaleStudents rs1 in
        let groupGenderStats := map statOf (indexed groups) in
        let totalStudents :=
          (maleCount + femaleCount
           + fold_left (fun sum g => sum + Group.size g) groups 0)%nat in
        let idealGroupSize := ceilDiv totalStudents totalGroups in
        '(stats1, groups1) <-
          place male idealGroupSize shuffledMales groupGenderStats groups ;;
        '(stats2, groups2) <-
          place female idealGroupSize shuffledFemales stats1 groups1 ;;
        Returned ({| Result.success := true;
                     Result.groups := groups2;
                     Result.handled := true;
                     Result.remainingStudents := [] |}, rs2)
  end.

End GenderRatioHandler.

(** ** DifferentGroupHandler *)

Module DifferentGroupHandler.

(** [availableGroups.sort((a, b) => a.group.students.length -
    b.group.students.length)] *)
Definition bySize (a b : nat * Group) : Z :=
  Z.of_nat (Group.size (snd a)) - Z.of_nat (Group.size (snd b)).

(** The first loop of [assignToDifferentGroups]: where the members of the
    cluster sit now. *)
Definition recordGroup (studentIds : list Z) (groupIndex : nat)
  (m : NumMap) (student : Student) : NumMap :=
  if existsb (Z.eqb (Student.id student)) studentIds
  then Map_set m (Student.id student) groupIndex else m.

Definition buildStudentGroupMap (groups : list Group) (studentIds : list Z)
  : NumMap :=
  fold_left (fun m ig =>
               fold_left (recordGroup studentIds (fst ig))
                         (Group.students (snd ig)) m)
            (indexed groups) [].

(** [Array.from(new Set(studentGroupMap.values()))] *)
Definition valuesSet (m : NumMap) : IndexSet :=
  fold_left IndexSet_add (map snd m) [].

(** The loop that takes every member but the first out of the group in
    conflict and puts it back into the pool. *)
Fixpoint evict (conflictGroupIndex : nat) (ids : list Z)
  (groups : list Group) (remainingStudents : list Student)
  : outcome (list Group * list Student) :=
  match ids with
  | [] => Returned (groups, remainingStudents)
  | studentId :: ids' =>
      g <- deref (nth_error groups conflictGroupIndex) ;;
      match find (hasId studentId) (Group.students g) with
      | Some studentObj =>
          let kept := filter (fun s => negb (hasId studentId s)) (Group.students g) in
          evict conflictGroupIndex ids'
                (updateNth conflictGroupIndex (Group.withStudents kept g) groups)
                (remainingStudents ++ [studentObj])
      | None => evict conflictGroupIndex ids' groups remainingStudents
      end
  end.

(** [redistributeStudents] *)
Fixpoint redistributeStudents (groups : list Group) (studentIds : list Z)
  (remainingStudents : list Student) (avoidGroupIndex : nat) : list Group :=
  match studentIds with
  | [] => groups
  | studentId :: ids' =>
      match find (hasId studentId) remainingStudents with
      | None => redistributeStudents groups ids' remainingStudents avoidGroupIndex
      | Some student =>
          let availableGroups :=
            Array_sort bySize
              (filter (fun ig => negb (fst ig =? avoidGroupIndex)%nat)
                      (indexed groups)) in
          match availableGroups with
          | (i, g) :: _ =>
              redistributeStudents (updateNth i (Group.push student g) groups)
                                   ids' remainingStudents avoidGroupIndex
          | [] => redistributeStudents groups ids' remainingStudents avoidGroupIndex
          end
      end
  end.

(** The last loop of [assignToDifferentGroups]: the members that are
    still in the pool. *)
Fixpoint placeUnplaced (studentGroupMap : NumMap) (ids : list Z)
  (usedGroups : IndexSet) (groups : list Group)
  (remainingStudents : list Student) (processedStudentIds : NumSet)
  : outcome (list Group * NumSet) :=
  match ids with
  | [] => Returned (groups, processedStudentIds)
  | studentId :: ids' =>
      if Map_has studentGroupMap studentId then
        placeUnplaced studentGroupMap ids' usedGroups groups remainingStudents
                      (Set_add processedStudentIds studentId)
      else
        match find (hasId studentId) remainingStudents with
        | None =>
            placeUnplaced studentGroupMap ids' usedGroups groups
                          remainingStudents processedStudentIds
        | Some student =>
            let availableGroups :=
              Array_sort bySize
                (filter (fun ig => negb (IndexSet_has usedGroups (fst ig)))
                        (indexed groups)) in
            '(target, usedGroups') <-
              match availableGroups with
              | (i, _) :: _ => Returned (i, IndexSet_add usedGroups i)
              | [] => i <- leastOccupied groups ;; Returned (i, usedGroups)
              end ;;
            groups' <- pushStudent target student groups ;;
            placeUnplaced studentGroupMap ids' usedGroups' groups'
                          remainingStudents
                          (Set_add processedStudentIds studentId)
        end
  end.

(** [assignToDifferentGroups]; the three arrays it mutates are returned. *)
Definition assignToDifferentGroups (groups : list Group) (studentIds : list Z)
  (remainingStudents : list Student) (processedStudentIds : NumSet)
  : outcome (list Group * list Student * NumSet) :=
  let studentGroupMap := buildStudentGroupMap groups studentIds in
  let groupsWithStudents := valuesSet studentGroupMap in
  '(groups1, remaining1, processed1) <-
    match groupsWithStudents with
    | _ :: _ :: _ =>
        Returned (groups, remainingStudents,
                  fold_left (fun p studentId =>
                               if Map_has studentGroupMap studentId
                               then Set_add p studentId else p)
                            studentIds processedStudentIds)
    | [conflictGroupIndex] =>
        let studentsInConflictGroup :=
          filter (fun studentId =>
                    match Map_get studentGroupMap studentId with
                    | Some i => (i =? conflictGroupIndex)%nat
                    | None => false
                    end) studentIds in
        let studentsToReassign := tl studentsInConflictGroup in
        '(groups', remaining') <-
          evict conflictGroupIndex studentsToReassign groups remainingStudents ;;
        Returned (redistributeStudents groups' studentsToReassign remaining'
                                       conflictGroupIndex,
                  remaining',
                  fold_left Set_add studentIds processedStudentIds)
    | [] => Returned (groups, remainingStudents, processedStudentIds)
    end ;;
  let usedGroups := valuesSet studentGroupMap in
  '(groups2, processed2) <-
    placeUnplaced studentGroupMap studentIds usedGroups groups1 remaining1
                  processed1 ;;
  Returned (groups2, remaining1, processed2).

(** [for (const pair of differentGroupPairs) assignToDifferentGroups(...)] *)
Fixpoint assignAll (pairs : list (list Z)) (groups : list Group)
  (remainingStudents : list Student) (processedStudentIds : NumSet)
  : outcome (list Group * list Student * NumSet) :=
  match pairs with
  | [] => Returned (groups, remainingStudents, processedStudentIds)
  | aPair :: pairs' =>
      '(groups', remaining', processed') <-
        assignToDifferentGroups groups aPair remainingStudents
                                processedStudentIds ;;
      assignAll pairs' groups' remaining' processed'
  end.

Definition process {E : SortEngine} (nextHandler : option Handler) : Handler :=
  fun context rs =>
  match findCondition "different-group" context with
  | None => Returned (notEnabled context, rs)
  | Some differentGroupCondition =>
      let differentGroupPairs :=
        parseDifferentGroupInput (Condition.config_input differentGroupCondition) in
      match differentGroupPairs with
      | [] => Returned (notConfigured context, rs)
      | _ :: _ =>
          let groups := copyGroups (Context.groups context) in
          let remainingStudents := Context.remainingStudents context in
          '(groups', remaining', processedStudentIds) <-
            assignAll differentGroupPairs groups remainingStudents [] ;;
          let finalRemainingStudents := unprocessed processedStudentIds remaining' in
          delegateOrDistribute nextHandler context groups' finalRemainingStudents rs
      end
  end.

End DifferentGroupHandler.

(** ** SameGroupHandler *)

Module SameGroupHandler.

Definition maxStudentsPerGroup : nat := 8.

Definition canFitInGroup (group : Group) (requiredCapacity : nat) : bool :=
  (Group.size group + requiredCapacity <=? maxStudentsPerGroup)%nat.

(** [list.reduce((min, cur) => cur.students.length < min.students.length
    ? cur : min)] over groups that carry their index. *)
Definition leastOf (l : list (nat * Group)) : outcome nat :=
  match l with
  | [] => Thrown TypeError
  | first :: rest =>
      Returned
        (fst (fold_left
                (fun minGroup currentGroup =>
                   if (Group.size (snd currentGroup) <? Group.size (snd minGroup))%nat
                   then currentGroup else minGroup)
                rest first))
  end.

(** [findAvailableGroup], as the index of the group it returns. *)
Definition findAvailableGroup (groups : list Group) (requiredCapacity : nat)
  : outcome nat :=
  let availableGroups :=
    filter (fun ig => canFitInGroup (snd ig) requiredCapacity) (indexed groups) in
  match availableGroups with
  | _ :: _ => leastOf availableGroups
  | [] => leastOf (indexed groups)
  end.

(** [for (const studentId of availableStudents) { ... }] *)
Fixpoint addAll (target : nat) (availableStudents : list Z)
  (remainingStudents : list Student) (groups : list Group)
  (processedStudentIds : NumSet) : outcome (list Group * NumSet) :=
  match availableStudents with
  | [] => Returned (groups, processedStudentIds)
  | studentId :: ids' =>
      match find (hasId studentId) remainingStudents with
      | Some student =>
          groups' <- pushStudent target student groups ;;
          addAll target ids' remainingStudents groups'
                 (Set_add processedStudentIds studentId)
      | None => addAll target ids' remainingStudents groups processedStudentIds
      end
  end.

(** [for (const pair of sameGroupPairs) { ... }] *)
Fixpoint placePairs (pairs : list (list Z)) (remainingStudents : list Student)
  (groups : list Group) (processedStudentIds : NumSet)
  : outcome (list Group * NumSet) :=
  match pairs with
  | [] => Returned (groups, processedStudentIds)
  | aPair :: pairs' =>
      let availableStudents :=
        filter (fun studentId =>
                  existsb (hasId studentId) remainingStudents
                  && negb (Set_has processedStudentIds studentId)) aPair in
      match availableStudents with
      | [] => placePairs pairs' remainingStudents groups processedStudentIds
      | _ :: _ =>
          target <- findAvailableGroup groups (List.length availableStudents) ;;
          '(groups', processed') <-
            addAll target availableStudents remainingStudents groups
                   processedStudentIds ;;
          placePairs pairs' remainingStudents groups' processed'
      end
  end.

Definition process {E : SortEngine} (nextHandler : option Handler) : Handler :=
  fun context rs =>
  match findCondition "same-group" context with
  | None => Returned (notEnabled context, rs)
  | Some sameGroupCondition =>
      let sameGroupPairs :=
        parseSameGroupInput (Condition.config_input sameGroupCondition) in
      match sameGroupPairs with
      | [] => Returned (notConfigured context, rs)
      | _ :: _ =>
          let groups := copyGroups (Context.groups context) in
          let remainingStudents := Context.remainingStudents context in
          '(groups', processedStudentIds) <-
            placePairs sameGroupPairs remainingStudents groups [] ;;
          let finalRemainingStudents :=
            unprocessed processedStudentIds remainingStudents in
          delegateOrDistribute nextHandler context groups' finalRemainingStudents rs
      end
  end.

End SameGroupHandler.

(** ** BlockDistributionHandler *)

Module BlockDistributionHandler.

(** [blocks.forEach((block, blockIndex) => block.forEach((studentId) =>
    blockStudentMap.set(studentId, blockIndex)))] *)
Definition buildBlockStudentMap (blocks : list (list Z)) : NumMap :=
  fold_left (fun m ib => fold_left (fun m' studentId => Map_set m' studentId (fst ib))
                                   (snd ib) m)
            (indexed blocks) [].

(** [blockGroups[blockIndex].push(student)]; the index comes out of
    [blockStudentMap] and lies inside the array. *)
Definition pushAt (A : Type) (i : nat) (x : A) (ls : list (list A)) : list (list A) :=
  match nth_error ls i with
  | Some l => updateNth i (l ++ [x]) ls
  | None => ls
  end.

(** [for (const student of remainingStudents) { ... }] *)
Definition collect (blockStudentMap : NumMap)
  (acc : list (list Student) * NumSet) (student : Student)
  : list (list Student) * NumSet :=
  let '(blockGroups, processedStudentIds) := acc in
  match Map_get blockStudentMap (Student.id student) with
  | Some blockIndex =>
      (pushAt blockIndex student blockGroups,
       Set_add processedStudentIds (Student.id student))
  | None => acc
  end.

(** [for (const student of shuffledStudents) { ... }] for one block.  The
    third component is a ghost record of the assignments made: the seat
    number of each student with the index of the group it was pushed
    into. *)
Fixpoint assignStudents (totalGroups : nat) (shuffledStudents : list Student)
  (currentGroupIndex : nat) (groups : list Group)
  : outcome (list Group * nat * list (Z * nat)) :=
  match shuffledStudents with
  | [] => Returned (groups, currentGroupIndex, [])
  | student :: rest =>
      groups' <- pushStudent currentGroupIndex student groups ;;
      '(groups'', last, log) <-
        assignStudents totalGroups rest
                       ((currentGroupIndex + 1) mod totalGroups)%nat groups' ;;
      Returned (groups'', last, (Student.id student, currentGroupIndex) :: log)
  end.

(** [for (let blockIndex = 0; blockIndex < blockGroups.length;
    blockIndex++) { ... }]; [currentGroupIndex] is declared outside this
    loop. *)
Fixpoint assignBlocks {E : SortEngine} (totalGroups : nat)
  (blockGroups : list (list Student)) (currentGroupIndex : nat)
  (groups : list Group) (rs : RandomSource)
  : outcome (list Group * list (list (Z * nat)) * RandomSource) :=
  match blockGroups with
  | [] => Returned (groups, [], rs)
  | blockStudents :: blocks' =>
      let '(shuffledStudents, rs1) := sortRandom blockStudents rs in
      '(groups1, next, log) <-
        assignStudents totalGroups shuffledStudents currentGroupIndex groups ;;
      '(groups2, logs, rs2) <- assignBlocks totalGroups blocks' next groups1 rs1 ;;
      Returned (groups2, log :: logs, rs2)
  end.

(** [distributeBlockStudents], with the ghost record of [assignStudents]
    for every block. *)
Definition distributeBlockStudentsTraced {E : SortEngine}
  (groups : list Group) (blocks : list (list Z))
  (remainingStudents : list Student) (processedStudentIds : NumSet)
  (rs : RandomSource)
  : outcome (list Group * NumSet * list (list (Z * nat)) * RandomSource) :=
  let blockStudentMap := buildBlockStudentMap blocks in
  let '(blockGroups, processed') :=
    fold_left (collect blockStudentMap) remainingStudents
              (map (fun _ => []) blocks, processedStudentIds) in
  let totalGroups := List.length groups in
  '(groups', logs, rs') <- assignBlocks totalGroups blockGroups 0%nat groups rs ;;
  Returned (groups', processed', logs, rs').

Definition distributeBlockStudents {E : SortEngine}
  (groups : list Group) (blocks : list (list Z))
  (remainingStudents : list Student) (processedStudentIds : NumSet)
  (rs : RandomSource) : outcome (list Group * NumSet * RandomSource) :=
  '(groups', processed', _, rs') <-
    distributeBlockStudentsTraced groups blocks remainingStudents
                                  processedStudentIds rs ;;
  Returned (groups', processed', rs').

(** The blocks parsed from [config.blockInputs]. *)
Definition blockOf (input : slot) : list (list Z) :=
  match input with
  | Str text =>
      if nonEmpty (trim text) then
        let parsedBlock := parseBlockInput text in
        match parsedBlock with
        | _ :: _ => [parsedBlock]
        | [] => []
        end
      else []
  | _ => []
  end.

Definition parseBlocks (blockInputs : option (list slot)) : list (list Z) :=
  match blockInputs with
  | Some inputs => flat_map blockOf inputs
  | None => []
  end.

Definition process {E : SortEngine} (nextHandler : option Handler) : Handler :=
  fun context rs =>
  match findCondition "block-distribution" context with
  | None => Returned (notEnabled context, rs)
  | Some blockDistributionCondition =>
      let blocks :=
        parseBlocks (Condition.config_blockInputs blockDistributionCondition) in
      match blocks with
      | [] => Returned (notConfigured context, rs)
      | _ :: _ =>
          let groups := copyGroups (Context.groups context) in
          let remainingStudents := Context.remainingStudents context in
          '(groups', processedStudentIds, rs1) <-
            distributeBlockStudents groups blocks remainingStudents [] rs ;;
          let finalRemainingStudents :=
            unprocessed processedStudentIds remainingStudents in
          delegateOrDistribute nextHandler context groups' finalRemainingStudents rs1
      end
  end.

End BlockDistributionHandler.

(** ** The chain that [performGrouping] wires:
    block distribution, same group, different group, gender ratio *)

Definition genderRatioHandler : Handler :=
  handle GenderRatioHandler.process None.

Definition differentGroupHandler {E : SortEngine} : Handler :=
  handle (DifferentGroupHandler.process (Some genderRatioHandler))
         (Some genderRatioHandler).

Definition sameGroupHandler {E : SortEngine} : Handler :=
  handle (SameGroupHandler.process (Some differentGroupHandler))
         (Some differentGroupHandler).

Definition blockDistributionHandler {E : SortEngine} : Handler :=
  handle (BlockDistributionHandler.process (Some sameGroupHandler))
         (Some sameGroupHandler).

(* ================================================================== *)
(** * GroupingConditionsService                                        *)
(* ================================================================== *)

Module GroupingConditionsService.

Record State := mkState {
  savedConditions : list GroupingConditionState;
  editingConditions : list GroupingConditionState
}.

Definition defaults : list GroupingConditionState :=
  [ {| ConditionState.id := lit "block-distribution";
       ConditionState.type := lit "block-distribution";
       ConditionState.enabled := false;
       ConditionState.input := [];
       ConditionState.blockInputs := Some [Str []; Str []; Str []] |};
    {| ConditionState.id := lit "same-group";
       ConditionState.type := lit "same-group";
       ConditionState.enabled := false;
       ConditionState.input := [];
       ConditionState.blockInputs := None |};
    {| ConditionState.id := lit "different-group";
       ConditionState.type := lit "different-group";
       ConditionState.enabled := false;
       ConditionState.input := [];
       ConditionState.blockInputs := None |};
    {| ConditionState.id := lit "gender-ratio";
       ConditionState.type := lit "gender-ratio";
       ConditionState.enabled := false;
       ConditionState.input := [];
       ConditionState.blockInputs := None |} ].

Definition initial : State :=
  {| savedConditions := defaults; editingConditions := [] |}.

Definition startEditing (st : State) : State :=
  {| savedConditions := savedConditions st;
     editingConditions := savedConditions st |}.

Definition saveConditions (st : State) : State :=
  {| savedConditions := editingConditions st;
     editingConditions := editingConditions st |}.

Definition getEnabledConditions (st : State) : list GroupingConditionState :=
  filter ConditionState.enabled (savedConditions st).

(** [[...blockInputs]]: a spread reads a hole as [undefined]. *)
Definition spread (l : list slot) : list slot :=
  map (fun x => match x with Hole => Undefined | _ => x end) l.

(** [array[index] = value]: past the end the array grows and the slots in
    between are holes. *)
Definition assignAt (index : nat) (value : str) (l : list slot) : list slot :=
  if (index <? List.length l)%nat then updateNth index (Str value) l
  else l ++ repeat Hole (index - List.length l) ++ [Str value].

(** [newBlockInputs.filter((block) => block.trim())]: [filter] skips a
    hole and the callback throws on [undefined]. *)
Fixpoint nonBlankBlocks (l : list slot) : outcome (list str) :=
  match l with
  | [] => Returned []
  | Hole :: l' => nonBlankBlocks l'
  | Undefined :: _ => Thrown TypeError
  | Str block :: l' =>
      rest <- nonBlankBlocks l' ;;
      Returned (if nonEmpty (trim block) then block :: rest else rest)
  end.

(** The callback of [currentEditing.map] in [updateBlockInput]. *)
Definition withBlockInput (conditionId : str) (blockIndex : nat) (value : str)
  (condition : GroupingConditionState) : outcome GroupingConditionState :=
  match ConditionState.blockInputs condition with
  | Some blockInputs =>
      if str_eqb (ConditionState.id condition) conditionId then
        let newBlockInputs := assignAt blockIndex value (spread blockInputs) in
        kept <- nonBlankBlocks newBlockInputs ;;
        Returned {| ConditionState.id := ConditionState.id condition;
                    ConditionState.type := ConditionState.type condition;
                    ConditionState.enabled := ConditionState.enabled condition;
                    ConditionState.input := join newline kept;
                    ConditionState.blockInputs := Some newBlockInputs |}
      else Returned condition
  | None => Returned condition
  end.

Fixpoint mapOutcome (A B : Type) (f : A -> outcome B) (l : list A)
  : outcome (list B) :=
  match l with
  | [] => Returned []
  | x :: l' => y <- f x ;; ys <- mapOutcome f l' ;; Returned (y :: ys)
  end.

(** [condition?.blockInputs?.[blockIndex] === value] *)
Definition sameValue (condition : option GroupingConditionState)
  (blockIndex : nat) (value : str) : bool :=
  match condition with
  | Some c =>
      match ConditionState.blockInputs c with
      | Some blockInputs =>
          match nth_error blockInputs blockIndex with
          | Some (Str old) => str_eqb old value
          | _ => false
          end
      | None => false
      end
  | None => false
  end.

(** [updateBlockInput]; an exception leaves the state as it was. *)
Definition updateBlockInput (conditionId : str) (blockIndex : nat) (value : str)
  (st : State) : outcome State :=
  let currentEditing := editingConditions st in
  let condition :=
    find (fun c => str_eqb (ConditionState.id c) conditionId) currentEditing in
  if sameValue condition blockIndex value then Returned st
  else
    updatedConditions <-
      mapOutcome (withBlockInput conditionId blockIndex value) currentEditing ;;
    Returned {| savedConditions := savedConditions st;
                editingConditions := updatedConditions |}.

End GroupingConditionsService.

(* ================================================================== *)
(** * The dialog's validation of the same-group input                  *)
(* ================================================================== *)

Module GroupingConditionsDialog.

(** The messages of [validateSameGroupInput], by kind and with the data
    they print. *)
Inductive ValidationError :=
| OnlyDigitsCommasSemicolons
| UseTheFormat
| InvalidGroupFormat (group : str)
| OverGroupLimit (maxStudentsPerGroup : nat) (group : str) (people : nat)
| GroupHasError (group : str) (parseError : exn)
| RepeatedAcrossGroups (duplicateList : list Z).

(** [/^[\d,;\s]+$/] *)
Definition isDigit (c : ascii) : bool :=
  let n := nat_of_ascii c in (48 <=? n)%nat && (n <=? 57)%nat.

Definition isCommaOrSemicolon (c : ascii) : bool :=
  Ascii.eqb c ","%char || Ascii.eqb c ";"%char.

Definition onlyListCharacters (s : str) : bool :=
  nonEmpty s && forallb (fun c => isDigit c || isCommaOrSemicolon c || isWhiteSpace c) s.

(** [/[,;]{2,}/] *)
Fixpoint hasDoubledSeparator (s : str) : bool :=
  match s with
  | a :: ((b :: _) as s') =>
      (isCommaOrSemicolon a && isCommaOrSemicolon b) || hasDoubledSeparator s'
  | _ => false
  end.

(** [for (const group of groups) { try { ... } catch (parseError) { ... } }] *)
Fixpoint checkGroups (maxStudentsPerGroup : nat) (groups : list str)
  (allStudentNumbers crossGroupDuplicates : NumSet)
  : ValidationError + NumSet :=
  match groups with
  | [] => inr crossGroupDuplicates
  | group :: groups' =>
      match parseStudentNumbers group with
      | Returned students =>
          if (List.length students =? 0)%nat then inl (InvalidGroupFormat group)
          else if (maxStudentsPerGroup <? List.length students)%nat then
            inl (OverGroupLimit maxStudentsPerGroup group (List.length students))
          else
            let '(all', cross') :=
              fold_left (fun acc studentNumber =>
                           if Set_has (fst acc) studentNumber
                           then (fst acc, Set_add (snd acc) studentNumber)
                           else (Set_add (fst acc) studentNumber, snd acc))
                        students (allStudentNumbers, crossGroupDuplicates) in
            checkGroups maxStudentsPerGroup groups' all' cross'
      | Thrown parseError => inl (GroupHasError group parseError)
      | Diverged => inl UseTheFormat
      end
  end.

(** [validateSameGroupInput]; [None] is the result without [error]. *)
Definition validateSameGroupInput (input : str) (maxStudentsPerGroup : nat)
  : option ValidationError :=
  if negb (nonEmpty (trim input)) then None
  else
    let trimmedInput := trim input in
    if negb (onlyListCharacters trimmedInput) then Some OnlyDigitsCommasSemicolons
    else if hasDoubledSeparator trimmedInput
            || startsWith ","%char trimmedInput || endsWith ","%char trimmedInput
            || startsWith ";"%char trimmedInput || endsWith ";"%char trimmedInput
    then Some UseTheFormat
    else
      match checkGroups maxStudentsPerGroup (segments trimmedInput) [] [] with
      | inl e => Some e
      | inr [] => None
      | inr crossGroupDuplicates =>
          Some (RepeatedAcrossGroups (sortNumbers crossGroupDuplicates))
      end.

End GroupingConditionsDialog.

(* ================================================================== *)
(** * StudentService                                                   *)
(* ================================================================== *)

Module StudentService.

(** The signals of the service.  A block is modelled by its [students];
    its [id] and [name] are never read. *)
Record State := mkState {
  students : list Student;
  groups : list Group;
  blocks : list (list Student);
  absentStudents : list Z
}.

Definition initial : State :=
  {| students := []; groups := []; blocks := [[]]; absentStudents := [] |}.

(** [array.sort((a, b) => a.id - b.id)] *)
Definition byId (a b : Student) : Z := Student.id a - Student.id b.

Definition sortById : list Student -> list Student := Array_sort byId.

Definition initializeStudents (maleInput femaleInput : str) (st : State) : State :=
  let maleNumbers := parseNumberInput maleInput in
  let femaleNumbers := parseNumberInput femaleInput in
  let roster :=
    sortById (map (fun id => Student.make id male) maleNumbers
              ++ map (fun id => Student.make id female) femaleNumbers) in
  {| students := roster;
     groups := groups st;
     blocks := [roster];
     absentStudents := absentStudents st |}.

Definition initializeGroups (groupCount : nat) (st : State) : State :=
  {| students := students st;
     groups := map (fun i => Group.make (i + 1) (i + 1) []) (seq 0 groupCount);
     blocks := blocks st;
     absentStudents := absentStudents st |}.

Definition updateBlocksAfterStudentChange (st : State) : State :=
  let currentStudents := students st in
  {| students := students st;
     groups := groups st;
     blocks :=
       map (filter (fun s => existsb (hasId (Student.id s)) currentStudents))
           (blocks st);
     absentStudents := absentStudents st |}.

(** [addStudents]: the exception is thrown before any signal is
    written. *)
Definition addStudents (input : str) (gender : Gender) (st : State)
  : outcome State :=
  let newNumbers := parseNumberInput input in
  let existingIds := map Student.id (students st) in
  let duplicates := filter (fun id => existsb (Z.eqb id) existingIds) newNumbers in
  match duplicates with
  | _ :: _ => Thrown (Error duplicates)
  | [] =>
      let newStudents := map (fun id => Student.make id gender) newNumbers in
      Returned
        (updateBlocksAfterStudentChange
           {| students := sortById (students st ++ newStudents);
              groups := groups st;
              blocks := blocks st;
              absentStudents := absentStudents st |})
  end.

(** ** forceEqualDistribution *)

(** The first round: [groups.forEach((group) => { if (maleIndex <
    maleStudents.length) { group.students.push(maleStudents[maleIndex]);
    maleIndex++; } })]. *)
Fixpoint firstRound (groups : list Group) (maleStudents : list Student)
  (maleIndex : nat) : list Group * nat :=
  match groups with
  | [] => ([], maleIndex)
  | group :: groups' =>
      match nth_error maleStudents maleIndex with
      | Some m =>
          let '(rest, k) := firstRound groups' maleStudents (S maleIndex) in
          (Group.push m group :: rest, k)
      | None =>
          let '(rest, k) := firstRound groups' maleStudents maleIndex in
          (group :: rest, k)
      end
  end.

(** The second round: [while (maleIndex < maleStudents.length) { ... }],
    run on the students from [maleIndex] on. *)
Fixpoint maleLoop (groupCount : nat) (pending : list Student)
  (currentGroupIndex : nat) (groups : list Group) : outcome (list Group) :=
  match pending with
  | [] => Returned groups
  | m :: pending' =>
      groups' <- pushStudent currentGroupIndex m groups ;;
      maleLoop groupCount pending' ((currentGroupIndex + 1) mod groupCount)%nat groups'
  end.

(** [groups.every((group, index) => group.students.length >=
    targetSizes[index])] *)
Definition allGroupsFull (groups : list Group) (targetSizes : list nat) : bool :=
  forallb (fun gt => (snd gt <=? Group.size (fst gt))%nat)
          (combine groups targetSizes).

(** The third round: [while (femaleIndex < femaleStudents.length) { ... }],
    run on the students from [femaleIndex] on.  One unit of fuel is one
    test of the loop condition; the result holds the students that were
    not given a group. *)
Fixpoint femaleLoop (fuel : nat) (groupCount : nat) (targetSizes : list nat)
  (pending : list Student) (currentGroupIndex : nat) (groups : list Group)
  : outcome (list Group * list Student) :=
  match fuel with
  | O => Diverged
  | S fuel' =>
      match pending with
      | [] => Returned (groups, [])
      | f :: pending' =>
          group <- deref (nth_error groups currentGroupIndex) ;;
          let hasRoom :=
            match nth_error targetSizes currentGroupIndex with
            | Some targetSize => (Group.size group <? targetSize)%nat
            | None => false
            end in
          let '(groups', unplaced) :=
            if hasRoom
            then (updateNth currentGroupIndex (Group.push f group) groups, pending')
            else (groups, pending) in
          let next := ((currentGroupIndex + 1) mod groupCount)%nat in
          if allGroupsFull groups' targetSizes then Returned (groups', unplaced)
          else femaleLoop fuel' groupCount targetSizes unplaced next groups'
      end
  end.

Definition sortGroup (g : Group) : Group :=
  Group.withStudents (sortById (Group.students g)) g.

(** The inner loop of the last check: [while (group.students.length <
    targetSize && (maleIndex < ... || femaleIndex < ...)) { ... }], first
    for the case that no male student is left. *)
Fixpoint topUpFemales (targetSize : nat) (leftFemales : list Student)
  (group : Group) : Group * list Student :=
  match leftFemales with
  | f :: leftFemales' =>
      if (Group.size group <? targetSize)%nat
      then topUpFemales targetSize leftFemales' (Group.push f group)
      else (group, leftFemales)
  | [] => (group, [])
  end.

Fixpoint topUp (targetSize : nat) (leftMales leftFemales : list Student)
  (group : Group) : Group * list Student * list Student :=
  match leftMales with
  | m :: leftMales' =>
      if (Group.size group <? targetSize)%nat
      then topUp targetSize leftMales' leftFemales (Group.push m group)
      else (group, leftMales, leftFemales)
  | [] =>
      let '(group', leftFemales') := topUpFemales targetSize leftFemales group in
      (group', [], leftFemales')
  end.

(** The last check: [groups.forEach((group, index) => { while ...;
    group.students.sort(...) })]. *)
Fixpoint topUpAll (groups : list Group) (targetSizes : list nat)
  (leftMales leftFemales : list Student) : list Group :=
  match groups, targetSizes with
  | group :: groups', targetSize :: targets' =>
      let '(group', leftMales', leftFemales') :=
        topUp targetSize leftMales leftFemales group in
      sortGroup group' :: topUpAll groups' targets' leftMales' leftFemales'
  | _, _ => groups
  end.

(** [forceEqualDistribution(groups, allStudents)]; the result is the
    array [groups] after the call. *)
Definition forceEqualDistribution {E : SortEngine}
  (groups : list Group) (allStudents : list Student) (rs : RandomSource)
  : outcome (list Group * RandomSource) :=
  let assignedStudents := flat_map Group.students groups in
  let unassignedStudents :=
    filter (fun student =>
              negb (existsb (hasId (Student.id student)) assignedStudents))
           allStudents in
  let studentsToDistribute := assignedStudents ++ unassignedStudents in
  let '(maleStudents, rs1) := sortRandom (filter isMale studentsToDistribute) rs in
  let '(femaleStudents, rs2) := sortRandom (filter isFemale studentsToDistribute) rs1 in
  let totalStudents := List.length studentsToDistribute in
  let groupCount := List.length groups in
  let baseSize := (totalStudents / groupCount)%nat in
  let extra := (totalStudents mod groupCount)%nat in
  let cleared := clearGroups groups in
  let '(groups1, maleIndex) :=
    if (groupCount <=? List.length maleStudents)%nat
    then firstRound cleared maleStudents 0
    else (cleared, 0%nat) in
  groups2 <- maleLoop groupCount (skipn maleIndex maleStudents) 0 groups1 ;;
  let targetSizes :=
    map (fun index => (baseSize + (if (index <? extra)%nat then 1 else 0))%nat)
        (seq 0 groupCount) in
  '(groups3, leftFemales) <-
    femaleLoop (S (groupCount * List.length femaleStudents)) groupCount
               targetSizes femaleStudents 0 groups2 ;;
  let sorted := map sortGroup groups3 in
  match leftFemales with
  | [] => Returned (sorted, rs2)
  | _ :: _ => Returned (topUpAll sorted targetSizes [] leftFemales, rs2)
  end.

(** ** performGrouping *)

(** The conversion of an enabled condition "to the old format". *)
Definition toCondition (ic : nat * GroupingConditionState) : GroupingCondition :=
  let condition := snd ic in
  {| Condition.id := ConditionState.id condition;
     Condition.type := ConditionState.type condition;
     Condition.enabled := ConditionState.enabled condition;
     Condition.priority := (fst ic + 1)%nat;
     Condition.config_input := ConditionState.input condition;
     Condition.config_blockInputs := ConditionState.blockInputs condition |}.

Definition performGrouping {E : SortEngine}
  (conditionsService : GroupingConditionsService.State)
  (st : State) (rs : RandomSource) : outcome (State * RandomSource) :=
  let roster := students st in
  let emptied := clearGroups (groups st) in
  let enabledConditions :=
    GroupingConditionsService.getEnabledConditions conditionsService in
  let conditions := map toCondition (indexed enabledConditions) in
  let context :=
    {| Context.students := roster;
       Context.groups := clearGroups emptied;
       Context.conditions := conditions;
       Context.remainingStudents := roster |} in
  '(result, rs1) <- blockDistributionHandler context rs ;;
  let finalGroups :=
    if Result.handled result then Result.groups result
    else clearGroups emptied in
  '(finalGroups', rs2) <- forceEqualDistribution finalGroups roster rs1 ;;
  Returned ({| students := students st;
               groups := finalGroups';
               blocks := blocks st;
               absentStudents := absentStudents st |}, rs2).

End StudentService.

(* ================================================================== *)
(** * The insertion sort is a sort engine                              *)
(* ================================================================== *)

Section InsertionEngine.
Variable A : Type.

Lemma advance_0 rs : advance 0 rs = rs.
Proof. destruct rs; reflexivity. Qed.

Lemma advance_advance n m rs : advance n (advance m rs) = advance (n + m) rs.
Proof. unfold advance; simpl. f_equal. lia. Qed.

Lemma Math_random_advance rs : snd (Math_random rs) = advance 1 rs.
Proof. reflexivity. Qed.

Lemma insertRandom_perm (x : A) l rs :
  Permutation (fst (insertRandom x l rs)) (x :: l).
Proof.
  revert rs; induction l as [|y l IH]; intros rs; simpl.
  - apply Permutation_refl.
  - destruct (Qle_bool _ 0); simpl.
    + apply Permutation_refl.
    + match goal with
      | |- context [insertRandom x l ?r] =>
          specialize (IH r); destruct (insertRandom x l r) as [res rs2]
      end; simpl in *.
      eapply Permutation_trans; [apply perm_skip, IH | apply perm_swap].
Qed.

Lemma insertRandom_draws (x : A) l rs :
  exists n, snd (insertRandom x l rs) = advance n rs.
Proof.
  revert rs; induction l as [|y l IH]; intros rs; simpl.
  - exists 0%nat. now rewrite advance_0.
  - destruct (Qle_bool _ 0); simpl.
    + now exists 1%nat.
    + match goal with
      | |- context [insertRandom x l ?r] =>
          destruct (IH r) as [n Hn]; destruct (insertRandom x l r) as [res rs2]
      end; simpl in *.
      exists (n + 1)%nat. rewrite Hn. apply (advance_advance n 1 rs).
Qed.

Lemma insertRandom_stable (x : A) l rs :
  (forall n, (value (draws rs n) == 1 # 2)%Q) ->
  fst (insertRandom x l rs) = x :: l.
Proof.
  intros H. destruct l as [|y l]; simpl; [reflexivity|].
  assert (Hle : Qle_bool (value (draws rs (cursor rs)) - (1 # 2)) 0 = true).
  { apply Qle_bool_iff. rewrite (H (cursor rs)). discriminate. }
  now rewrite Hle.
Qed.

Lemma insertionSortRandom_perm (l : list A) rs :
  Permutation (fst (insertionSortRandom l rs)) l.
Proof.
  induction l as [|x l IH]; simpl; [constructor|].
  destruct (insertionSortRandom l rs) as [sorted rs1]; simpl in *.
  rewrite insertRandom_perm. now apply perm_skip.
Qed.

Lemma insertionSortRandom_draws (l : list A) rs :
  exists n, snd (insertionSortRandom l rs) = advance n rs.
Proof.
  induction l as [|x l [n Hn]]; simpl.
  - exists 0%nat. now rewrite advance_0.
  - destruct (insertionSortRandom l rs) as [sorted rs1]; simpl in *.
    destruct (insertRandom_draws x sorted rs1) as [m Hm].
    exists (m + n)%nat. rewrite Hm, Hn. apply advance_advance.
Qed.

Lemma insertionSortRandom_stable (l : list A) rs :
  (forall n, (value (draws rs n) == 1 # 2)%Q) ->
  fst (insertionSortRandom l rs) = l.
Proof.
  intros H. induction l as [|x l IH]; simpl; [reflexivity|].
  destruct (insertionSortRandom_draws l rs) as [n Hn].
  destruct (insertionSortRandom l rs) as [sorted rs1]; simpl in *.
  subst. apply insertRandom_stable. intros k. apply H.
Qed.

End InsertionEngine.

#[export] Instance insertionEngine : SortEngine := {|
  sortRandom := insertionSortRandom;
  sortRandom_perm := insertionSortRandom_perm;
  sortRandom_draws := insertionSortRandom_draws;
  sortRandom_stable := insertionSortRandom_stable
|}.

(* ================================================================== *)
(** * The final equalizer, as the specification words it               *)
(* ================================================================== *)

Module EqualizerSpec.

(** The target size of a group: [floor(total/groupCount)], and one more
    for the first [total mod groupCount] groups. *)
Definition targetSize (total groupCount index : nat) : nat :=
  (total / groupCount + (if index <? total mod groupCount then 1 else 0))%nat.

Definition give (i : nat) (s : Student) (groups : list Group) : list Group :=
  match nth_error groups i with
  | Some g => updateNth i (Group.push s g) groups
  | None => groups
  end.

(** "Give every group exactly one member first." *)
Fixpoint oneEach (groups : list Group) (pool : list Student)
  : list Group * list Student :=
  match groups, pool with
  | g :: groups', s :: pool' =>
      let '(served, rest) := oneEach groups' pool' in (Group.push s g :: served, rest)
  | _, _ => (groups, pool)
  end.

(** "Distribute round-robin": the student at position [j] of the pool
    goes to the group [j mod groupCount]. *)
Definition roundRobin (pool : list Student) (groups : list Group) : list Group :=
  fold_left (fun gs js => give (fst js mod List.length groups) (snd js) gs)
            (indexed pool) groups.

Definition hasRoom (total : nat) (groups : list Group) (i : nat) : bool :=
  match nth_error groups i with
  | Some g => (Group.size g <? targetSize total (List.length groups) i)%nat
  | None => false
  end.

(** The first group with room among [cur], [cur + 1], ... (cyclically,
    [tries] of them). *)
Fixpoint nextWithRoom (total : nat) (groups : list Group) (cur tries : nat)
  : option nat :=
  match tries with
  | O => None
  | S tries' =>
      if hasRoom total groups cur then Some cur
      else nextWithRoom total groups ((cur + 1) mod List.length groups) tries'
  end.

(** "Distribute round-robin, skipping any group that has already reached
    its target size." *)
Fixpoint roundRobinSkipping (total : nat) (pool : list Student) (cur : nat)
  (groups : list Group) : list Group :=
  match pool with
  | [] => groups
  | s :: pool' =>
      match nextWithRoom total groups cur (List.length groups) with
      | Some i =>
          roundRobinSkipping total pool' ((i + 1) mod List.length groups)
                             (give i s groups)
      | None => groups
      end
  end.

(** The whole redistribution for a pool that goes first and a pool that
    goes second; every group is listed by seat number at the end. *)
Definition redistribute (firstPool secondPool : list Student)
  (groups : list Group) : list Group :=
  let total := (List.length firstPool + List.length secondPool)%nat in
  let cleared := clearGroups groups in
  let '(served, rest) :=
    if (List.length groups <=? List.length firstPool)%nat
    then oneEach cleared firstPool else (cleared, firstPool) in
  map StudentService.sortGroup
      (roundRobinSkipping total secondPool 0 (roundRobin rest served)).

(** The claim's reading: the pool of the majority category goes first. *)
Definition majorityFirst (maleStudents femaleStudents : list Student)
  (groups : list Group) : list Group :=
  if (List.length maleStudents <? List.length femaleStudents)%nat
  then redistribute femaleStudents maleStudents groups
  else redistribute maleStudents femaleStudents groups.

End EqualizerSpec.

(* ================================================================== *)
(** * Lemmas on lists and arrays                                       *)
(* ================================================================== *)

Section ArrayFacts.
Variable A : Type.
Implicit Types (l : list A) (i j : nat).

Lemma updateNth_length i (v : A) l : List.length (updateNth i v l) = List.length l.
Proof.
  revert i; induction l as [|x l IH]; intros [|i]; simpl; auto.
Qed.

Lemma nth_error_updateNth_eq i (v : A) l :
  (i < List.length l)%nat -> nth_error (updateNth i v l) i = Some v.
Proof.
  revert i; induction l as [|x l IH]; intros [|i] H; simpl in *; try lia; auto.
  apply IH; lia.
Qed.

Lemma nth_error_updateNth_neq i j (v : A) l :
  i <> j -> nth_error (updateNth i v l) j = nth_error l j.
Proof.
  revert i j; induction l as [|x l IH]; intros [|i] [|j] H; simpl; auto.
  congruence.
Qed.

Lemma updateNth_split i (v : A) l x :
  nth_error l i = Some x ->
  exists l1 l2, l = l1 ++ x :: l2 /\ updateNth i v l = l1 ++ v :: l2
                /\ List.length l1 = i.
Proof.
  revert i; induction l as [|y l IH]; intros [|i] H; simpl in *; try discriminate.
  - inversion H; subst. now exists [], l.
  - destruct (IH _ H) as (l1 & l2 & -> & -> & <-).
    now exists (y :: l1), l2.
Qed.

Lemma nth_error_indexed l i :
  nth_error (indexed l) i = option_map (pair i) (nth_error l i).
Proof.
  unfold indexed.
  assert (G : forall k, nth_error (combine (seq k (List.length l)) l) i
                        = option_map (pair (k + i)%nat) (nth_error l i)).
  { revert i; induction l as [|x l IH]; intros [|i] k; simpl; auto.
    - now rewrite Nat.add_0_r.
    - rewrite IH. now rewrite Nat.add_succ_r. }
  apply (G 0%nat).
Qed.

Lemma indexed_length l : List.length (indexed l) = List.length l.
Proof. unfold indexed. rewrite length_combine, length_seq. lia. Qed.

Lemma indexed_app l x :
  indexed (l ++ [x]) = indexed l ++ [(List.length l, x)].
Proof.
  unfold indexed.
  assert (G : forall k, combine (seq k (List.length (l ++ [x]))) (l ++ [x])
                        = combine (seq k (List.length l)) l
                          ++ [((k + List.length l)%nat, x)]).
  { induction l as [|y l IH]; intros k; simpl.
    - now rewrite Nat.add_0_r.
    - rewrite IH. now rewrite Nat.add_succ_r. }
  apply (G 0%nat).
Qed.

Lemma In_indexed l i x : In (i, x) (indexed l) <-> nth_error l i = Some x.
Proof.
  split.
  - intros H. apply In_nth_error in H. destruct H as [k Hk].
    rewrite nth_error_indexed in Hk.
    destruct (nth_error l k) eqn:E; simpl in Hk; inversion Hk; subst. exact E.
  - intros H. apply nth_error_In with (n := i).
    rewrite nth_error_indexed, H. reflexivity.
Qed.

End ArrayFacts.

(** ** Stable sorting *)

Section SortFacts.
Variable A : Type.
Variable cmp : A -> A -> Z.

Lemma sortInsert_perm (x : A) l : Permutation (sortInsert cmp x l) (x :: l).
Proof.
  induction l as [|y l IH]; simpl; [apply Permutation_refl|].
  destruct (cmp x y <=? 0); [apply Permutation_refl|].
  eapply Permutation_trans; [apply perm_skip, IH | apply perm_swap].
Qed.

Lemma Array_sort_perm (l : list A) : Permutation (Array_sort cmp l) l.
Proof.
  induction l as [|x l IH]; simpl; [constructor|].
  eapply Permutation_trans; [apply sortInsert_perm | now apply perm_skip].
Qed.

Lemma Array_sort_length (l : list A) :
  List.length (Array_sort cmp l) = List.length l.
Proof. apply Permutation_length, Array_sort_perm. Qed.

Lemma Array_sort_In (l : list A) x : In x (Array_sort cmp l) <-> In x l.
Proof.
  split; apply Permutation_in;
    [apply Array_sort_perm | apply Permutation_sym, Array_sort_perm].
Qed.

End SortFacts.

(* ================================================================== *)
(** * The equalizer: sizes, members and refinement                     *)
(* ================================================================== *)

Import EqualizerSpec.
Import StudentService.

(** ** Arithmetic of the target sizes *)

Lemma sum_indicator r k :
  (r < k)%nat ->
  list_sum (map (fun i => if (i =? r)%nat then 1 else 0)%nat (seq 0 k)) = 1%nat.
Proof.
  intros H. induction k as [|k IH]; [lia|].
  rewrite seq_S, map_app, list_sum_app. simpl.
  destruct (Nat.eqb_spec k r).
  - subst. assert (Z : list_sum (map (fun i => if (i =? r)%nat then 1 else 0)%nat (seq 0 r)) = 0%nat).
    { clear. assert (forall k, (k <= r)%nat -> list_sum (map (fun i => if (i =? r)%nat then 1 else 0)%nat (seq 0 k)) = 0%nat).
      { induction k; intros; [reflexivity|]. rewrite seq_S, map_app, list_sum_app; simpl.
        destruct (Nat.eqb_spec k r); [lia|]. rewrite IHk; lia. }
      now apply H. }
    rewrite Z. reflexivity.
  - rewrite IH by lia. reflexivity.
Qed.

Lemma list_sum_map_add (f g : nat -> nat) l :
  list_sum (map (fun i => f i + g i)%nat l)
  = (list_sum (map f l) + list_sum (map g l))%nat.
Proof. induction l; simpl; lia. Qed.

Section TargetSizes.
Variable G : nat.
Hypothesis G_pos : (0 < G)%nat.

Lemma div_mod_succ n :
  ((n mod G + 1 < G /\ S n / G = n / G /\ S n mod G = n mod G + 1)
   \/ (n mod G + 1 = G /\ S n / G = n / G + 1 /\ S n mod G = 0))%nat.
Proof.
  pose proof (Nat.div_mod_eq n G) as E.
  pose proof (Nat.mod_upper_bound n G ltac:(lia)) as B.
  destruct (Nat.eq_dec (n mod G + 1) G) as [e|ne].
  - right. split; [exact e|].
    assert (S n = G * (n / G + 1) + 0)%nat as E' by nia.
    split.
    + symmetry. apply (Nat.div_unique (S n) G (n / G + 1) 0); lia.
    + symmetry. apply (Nat.mod_unique (S n) G (n / G + 1) 0); lia.
  - left. split; [lia|].
    assert (S n = G * (n / G) + (n mod G + 1))%nat as E' by nia.
    split.
    + symmetry. apply (Nat.div_unique (S n) G (n / G) (n mod G + 1)); lia.
    + symmetry. apply (Nat.mod_unique (S n) G (n / G) (n mod G + 1)); lia.
Qed.

Lemma targetSize_succ n i :
  (i < G)%nat ->
  targetSize (S n) G i
  = (targetSize n G i + (if (i =? n mod G)%nat then 1 else 0))%nat.
Proof.
  intros Hi. unfold targetSize.
  destruct (div_mod_succ n) as [(H1 & H2 & H3)|(H1 & H2 & H3)]; rewrite H2, H3.
  - destruct (Nat.ltb_spec i (n mod G + 1)), (Nat.ltb_spec i (n mod G)),
      (Nat.eqb_spec i (n mod G)); lia.
  - destruct (Nat.ltb_spec i 0), (Nat.ltb_spec i (n mod G)),
      (Nat.eqb_spec i (n mod G)); lia.
Qed.

Lemma targetSize_0 i : targetSize 0 G i = 0%nat.
Proof.
  unfold targetSize. rewrite Nat.Div0.div_0_l, Nat.Div0.mod_0_l by lia. reflexivity.
Qed.

Lemma targetSize_mono n m i :
  (i < G)%nat -> (n <= m)%nat -> (targetSize n G i <= targetSize m G i)%nat.
Proof.
  intros Hi H. induction H; [lia|].
  rewrite targetSize_succ by assumption. lia.
Qed.

Lemma targetSize_add_G n i :
  (i < G)%nat -> targetSize (G + n) G i = S (targetSize n G i).
Proof.
  intros Hi. unfold targetSize.
  replace (G + n)%nat with (n + 1 * G)%nat by lia.
  rewrite Nat.div_add, Nat.Div0.mod_add by lia. lia.
Qed.

Lemma targetSize_sum n :
  list_sum (map (targetSize n G) (seq 0 G)) = n.
Proof.
  induction n as [|n IH].
  - induction (seq 0 G); simpl; [reflexivity|]. rewrite targetSize_0. assumption.
  - rewrite (map_ext_in _ (fun i => targetSize n G i + (if (i =? n mod G)%nat then 1 else 0))%nat).
    + rewrite list_sum_map_add, IH, sum_indicator; [lia|].
      apply Nat.mod_upper_bound; lia.
    + intros i Hi. apply in_seq in Hi. apply targetSize_succ; lia.
Qed.

Lemma targetSize_spread n i j :
  (targetSize n G i <= targetSize n G j + 1)%nat.
Proof.
  unfold targetSize.
  destruct (i <? n mod G)%nat, (j <? n mod G)%nat; lia.
Qed.

End TargetSizes.


(** ** Rearrangements, by counting *)

Lemma Student_eq_dec (a b : Student) : {a = b} + {a <> b}.
Proof. decide equality; [decide equality | apply Z.eq_dec]. Defined.

Definition one (s x : Student) : nat := if Student_eq_dec s x then 1%nat else 0%nat.

Lemma count_occ_cons_one s l x :
  count_occ Student_eq_dec (s :: l) x = (one s x + count_occ Student_eq_dec l x)%nat.
Proof. unfold one; simpl. destruct (Student_eq_dec s x); reflexivity. Qed.

Ltac perm_hyps x :=
  repeat match goal with
         | H : Permutation ?a ?b |- _ =>
             let H' := fresh "Hc" in
             pose proof (proj1 (Permutation_count_occ Student_eq_dec a b) H x) as H';
             clear H
         end.

Ltac perm_count :=
  let x := fresh "x" in
  apply (Permutation_count_occ Student_eq_dec); intro x; perm_hyps x;
  repeat (rewrite ?count_occ_app, ?count_occ_cons_one in * );
  simpl count_occ in *; lia.

(** ** Sizes and members of the groups *)

Definition sizeAt (gs : list Group) (i : nat) : nat :=
  match nth_error gs i with Some g => Group.size g | None => 0%nat end.

Definition members (gs : list Group) : list Student := flat_map Group.students gs.

Lemma give_length i s gs : List.length (give i s gs) = List.length gs.
Proof.
  unfold give. destruct (nth_error gs i); [apply updateNth_length | reflexivity].
Qed.

Lemma push_size s g : Group.size (Group.push s g) = S (Group.size g).
Proof. unfold Group.size, Group.push; simpl. rewrite length_app; simpl; lia. Qed.

Lemma sizeAt_give i s gs j :
  (i < List.length gs)%nat ->
  sizeAt (give i s gs) j = (sizeAt gs j + (if (j =? i)%nat then 1 else 0))%nat.
Proof.
  intros Hi. unfold give, sizeAt.
  destruct (nth_error gs i) as [g|] eqn:E.
  2:{ apply nth_error_None in E. lia. }
  destruct (Nat.eqb_spec j i) as [->|ne].
  - rewrite nth_error_updateNth_eq by assumption. rewrite E, push_size. lia.
  - rewrite nth_error_updateNth_neq by congruence. lia.
Qed.

Lemma members_give i s gs :
  (i < List.length gs)%nat ->
  Permutation (members (give i s gs)) (s :: members gs).
Proof.
  intros Hi. unfold give.
  destruct (nth_error gs i) as [g|] eqn:E.
  2:{ apply nth_error_None in E. lia. }
  destruct (updateNth_split (Group.push s g) E) as (l1 & l2 & -> & -> & _).
  unfold members. rewrite !flat_map_app. simpl. perm_count.
Qed.

Section RoundRobin.
Variable G : nat.
Hypothesis G_pos : (0 < G)%nat.

Definition dealFrom (k : nat) (pool : list Student) (gs : list Group) : list Group :=
  fold_left (fun gs js => give (fst js mod G) (snd js) gs)
            (combine (seq k (List.length pool)) pool) gs.

Lemma dealFrom_snoc k pool x gs :
  dealFrom k (pool ++ [x]) gs
  = give ((k + List.length pool) mod G) x (dealFrom k pool gs).
Proof.
  unfold dealFrom.
  assert (E : combine (seq k (List.length (pool ++ [x]))) (pool ++ [x])
              = combine (seq k (List.length pool)) pool
                ++ [((k + List.length pool)%nat, x)]).
  { clear. revert k. induction pool as [|y l IH]; intros k; simpl.
    - now rewrite Nat.add_0_r.
    - rewrite IH. now rewrite Nat.add_succ_r. }
  rewrite E, fold_left_app. reflexivity.
Qed.

Lemma dealFrom_cons k x pool gs :
  dealFrom k (x :: pool) gs = dealFrom (S k) pool (give (k mod G) x gs).
Proof. reflexivity. Qed.

Lemma dealFrom_length k pool gs :
  List.length (dealFrom k pool gs) = List.length gs.
Proof.
  revert k gs; induction pool as [|x pool IH]; intros k gs; [reflexivity|].
  rewrite dealFrom_cons, IH. apply give_length.
Qed.

Lemma dealFrom_members k pool gs :
  List.length gs = G ->
  Permutation (members (dealFrom k pool gs)) (pool ++ members gs).
Proof.
  revert k gs; induction pool as [|x pool IH]; intros k gs HG.
  - apply Permutation_refl.
  - rewrite dealFrom_cons.
    assert (P1 := IH (S k) (give (k mod G) x gs) ltac:(now rewrite give_length)).
    assert (P2 : Permutation (members (give (k mod G) x gs)) (x :: members gs)).
    { apply members_give. rewrite HG. apply Nat.mod_upper_bound. lia. }
    perm_count.
Qed.

Lemma dealFrom_sizes pool gs j :
  List.length gs = G -> (j < G)%nat ->
  sizeAt (dealFrom 0 pool gs) j
  = (sizeAt gs j + targetSize (List.length pool) G j)%nat.
Proof.
  intros HG Hj. induction pool as [|x pool IH] using rev_ind.
  - simpl. rewrite targetSize_0 by assumption. unfold dealFrom; simpl. lia.
  - rewrite dealFrom_snoc, length_app; simpl.
    rewrite sizeAt_give.
    2:{ rewrite dealFrom_length, HG. apply Nat.mod_upper_bound; lia. }
    rewrite IH. replace (List.length pool + 1)%nat with (S (List.length pool)) by lia.
    rewrite targetSize_succ by assumption. lia.
Qed.

End RoundRobin.

Lemma roundRobin_dealFrom pool gs :
  roundRobin pool gs = dealFrom (List.length gs) 0 pool gs.
Proof. reflexivity. Qed.

Lemma clearGroups_length gs : List.length (clearGroups gs) = List.length gs.
Proof. apply length_map. Qed.

Lemma sizeAt_clearGroups gs j : sizeAt (clearGroups gs) j = 0%nat.
Proof.
  unfold sizeAt, clearGroups. rewrite nth_error_map.
  destruct (nth_error gs j); reflexivity.
Qed.

Lemma members_clearGroups gs : members (clearGroups gs) = [].
Proof. induction gs; simpl; auto. Qed.

Lemma oneEach_spec gs pool :
  (List.length gs <= List.length pool)%nat ->
  let '(served, rest) := oneEach gs pool in
  List.length served = List.length gs
  /\ rest = skipn (List.length gs) pool
  /\ (forall j, (j < List.length gs)%nat -> sizeAt served j = S (sizeAt gs j))
  /\ Permutation (members served ++ rest) (pool ++ members gs).
Proof.
  revert pool; induction gs as [|g gs IH]; intros pool H; simpl.
  - repeat split; try lia. rewrite app_nil_r. apply Permutation_refl.
  - destruct pool as [|s pool]; simpl in H; [lia|].
    specialize (IH pool ltac:(lia)).
    destruct (oneEach gs pool) as [served rest].
    destruct IH as (L & R & Sz & P). simpl.
    repeat split; try lia; auto.
    + intros [|j] Hj; unfold sizeAt in *; simpl.
      * apply push_size.
      * apply Sz. lia.
    + unfold members in *; simpl. perm_count.
Qed.

Lemma list_sum_pointwise (f g : nat -> nat) r k :
  (r < k)%nat ->
  (forall j, (j < k)%nat -> f j = (g j + (if (j =? r)%nat then 1 else 0))%nat) ->
  list_sum (map f (seq 0 k)) = S (list_sum (map g (seq 0 k))).
Proof.
  intros Hr H.
  rewrite (map_ext_in f (fun j => g j + (if (j =? r)%nat then 1 else 0))%nat).
  - rewrite list_sum_map_add, sum_indicator by assumption. lia.
  - intros j Hj. apply in_seq in Hj. apply H. lia.
Qed.

Lemma list_sum_pos_ex (f : nat -> nat) k :
  (0 < list_sum (map f (seq 0 k)))%nat -> exists j, (j < k)%nat /\ (0 < f j)%nat.
Proof.
  induction k as [|k IH]; [simpl; lia|].
  rewrite seq_S, map_app, list_sum_app; simpl. intros H.
  destruct (Nat.eq_dec (f k) 0) as [e|ne].
  - destruct IH as (j & Hj & Hf); [lia|]. exists j. split; [lia|assumption].
  - exists k. split; lia.
Qed.

Lemma list_sum_0_all (f : nat -> nat) k :
  list_sum (map f (seq 0 k)) = 0%nat -> forall j, (j < k)%nat -> f j = 0%nat.
Proof.
  induction k as [|k IH]; [lia|].
  rewrite seq_S, map_app, list_sum_app; simpl. intros H j Hj.
  destruct (Nat.eq_dec j k) as [->|ne]; [lia|]. apply IH; lia.
Qed.

Section Skipping.
Variables T G : nat.
Hypothesis G_pos : (0 < G)%nat.

Definition slack (gs : list Group) : nat :=
  list_sum (map (fun j => targetSize T G j - sizeAt gs j)%nat (seq 0 G)).

Definition fits (gs : list Group) : Prop :=
  forall j, (j < G)%nat -> (sizeAt gs j <= targetSize T G j)%nat.

Lemma hasRoom_iff gs i :
  List.length gs = G ->
  hasRoom T gs i = true <-> (i < G)%nat /\ (sizeAt gs i < targetSize T G i)%nat.
Proof.
  intros HG. unfold hasRoom, sizeAt. rewrite HG.
  destruct (nth_error gs i) as [g|] eqn:E.
  - assert (i < G)%nat by (rewrite <- HG; apply nth_error_Some; congruence).
    rewrite Nat.ltb_lt. tauto.
  - apply nth_error_None in E. split; [discriminate|lia].
Qed.

Lemma slack_give gs i s :
  List.length gs = G -> hasRoom T gs i = true ->
  slack gs = S (slack (give i s gs)).
Proof.
  intros HG H. apply hasRoom_iff in H; [|assumption]. destruct H as [Hi Hlt].
  unfold slack. apply list_sum_pointwise with (r := i); [assumption|].
  intros j Hj. rewrite sizeAt_give by lia.
  destruct (Nat.eqb_spec j i); [subst|]; lia.
Qed.

Lemma fits_give gs i s :
  List.length gs = G -> hasRoom T gs i = true -> fits gs -> fits (give i s gs).
Proof.
  intros HG H F j Hj. apply hasRoom_iff in H; [|assumption]. destruct H as [Hi Hlt].
  rewrite sizeAt_give by lia. specialize (F j Hj).
  destruct (Nat.eqb_spec j i); [subst|]; lia.
Qed.

Lemma slack_pos_room gs :
  List.length gs = G -> (0 < slack gs)%nat -> exists j, hasRoom T gs j = true.
Proof.
  intros HG H. apply list_sum_pos_ex in H. destruct H as (j & Hj & Hf).
  exists j. apply hasRoom_iff; [assumption|]. split; lia.
Qed.

Lemma slack_0_full gs :
  fits gs -> slack gs = 0%nat ->
  forall j, (j < G)%nat -> sizeAt gs j = targetSize T G j.
Proof.
  intros F H j Hj. pose proof (list_sum_0_all H Hj) as E. simpl in E.
  specialize (F j Hj). lia.
Qed.

Lemma nextWithRoom_sound gs cur tries i :
  nextWithRoom T gs cur tries = Some i -> hasRoom T gs i = true.
Proof.
  revert cur; induction tries as [|t IH]; intros cur; simpl; [discriminate|].
  destruct (hasRoom T gs cur) eqn:E; [intros [= <-]; exact E | apply IH].
Qed.

Lemma nextWithRoom_none gs cur tries :
  List.length gs = G -> (cur < G)%nat ->
  nextWithRoom T gs cur tries = None ->
  forall k, (k < tries)%nat -> hasRoom T gs ((cur + k) mod G) = false.
Proof.
  intros HG. revert cur; induction tries as [|t IH]; intros cur Hc H k Hk; [lia|].
  simpl in H. destruct (hasRoom T gs cur) eqn:E; [discriminate|].
  destruct k as [|k].
  - rewrite Nat.add_0_r, Nat.mod_small by assumption. exact E.
  - rewrite HG in H.
    assert (Hc' : ((cur + 1) mod G < G)%nat) by (apply Nat.mod_upper_bound; lia).
    specialize (IH _ Hc' H k ltac:(lia)).
    rewrite Nat.Div0.add_mod_idemp_l in IH.
    replace (cur + S k)%nat with (cur + 1 + k)%nat by lia. exact IH.
Qed.

Lemma nextWithRoom_complete gs cur j :
  List.length gs = G -> (cur < G)%nat -> hasRoom T gs j = true ->
  exists i, nextWithRoom T gs cur G = Some i.
Proof.
  intros HG Hc Hj.
  destruct (nextWithRoom T gs cur G) as [i|] eqn:E; [now exists i|].
  exfalso.
  pose proof (proj1 (hasRoom_iff j HG) Hj) as [Hlt _].
  pose proof (nextWithRoom_none HG Hc E) as N.
  destruct (Nat.le_gt_cases cur j) as [le|gt].
  - specialize (N (j - cur)%nat ltac:(lia)).
    replace (cur + (j - cur))%nat with j in N by lia.
    rewrite Nat.mod_small in N by assumption. congruence.
  - specialize (N (j + G - cur)%nat ltac:(lia)).
    replace (cur + (j + G - cur))%nat with (j + 1 * G)%nat in N by lia.
    rewrite Nat.Div0.mod_add, Nat.mod_small in N by assumption. congruence.
Qed.

Lemma roundRobinSkipping_spec pool :
  forall cur gs,
    List.length gs = G -> (cur < G)%nat -> fits gs ->
    slack gs = List.length pool ->
    let gs' := roundRobinSkipping T pool cur gs in
    List.length gs' = G
    /\ (forall j, (j < G)%nat -> sizeAt gs' j = targetSize T G j)
    /\ Permutation (members gs') (pool ++ members gs).
Proof.
  induction pool as [|s pool IH]; intros cur gs HG Hc F S0; simpl.
  - repeat split; [assumption | | apply Permutation_refl].
    apply slack_0_full; assumption.
  - simpl in S0.
    destruct (slack_pos_room HG ltac:(lia)) as [j Hj].
    rewrite HG.
    destruct (nextWithRoom_complete HG Hc Hj) as [i Hi]. rewrite Hi.
    pose proof (nextWithRoom_sound Hi) as Ri.
    pose proof (proj1 (hasRoom_iff i HG) Ri) as [Hlt _].
    pose proof (slack_give s HG Ri) as S1.
    destruct (IH ((i + 1) mod G)%nat (give i s gs)) as (L & Sz & P).
    + now rewrite give_length.
    + apply Nat.mod_upper_bound; lia.
    + now apply fits_give.
    + lia.
    + repeat split; [assumption | assumption |].
      assert (P2 : Permutation (members (give i s gs)) (s :: members gs)).
      { apply members_give. lia. }
      perm_count.
Qed.

End Skipping.

Lemma list_sum_sub (f g : nat -> nat) k :
  (forall j, (j < k)%nat -> (g j <= f j)%nat) ->
  (list_sum (map (fun j => f j - g j) (seq 0 k)) + list_sum (map g (seq 0 k))
   = list_sum (map f (seq 0 k)))%nat.
Proof.
  induction k as [|k IH]; intros H; [reflexivity|].
  rewrite seq_S, !map_app, !list_sum_app; simpl.
  specialize (IH ltac:(intros; apply H; lia)). specialize (H k ltac:(lia)). lia.
Qed.

Lemma list_sum_ext (f g : nat -> nat) k :
  (forall j, (j < k)%nat -> f j = g j) ->
  list_sum (map f (seq 0 k)) = list_sum (map g (seq 0 k)).
Proof.
  intros H. f_equal. apply map_ext_in. intros j Hj. apply in_seq in Hj.
  apply H. lia.
Qed.


Lemma sortGroup_size g : Group.size (sortGroup g) = Group.size g.
Proof. unfold sortGroup, Group.size; simpl. apply Array_sort_length. Qed.

Lemma sizeAt_map_sortGroup gs j : sizeAt (map sortGroup gs) j = sizeAt gs j.
Proof.
  unfold sizeAt. rewrite nth_error_map.
  destruct (nth_error gs j); simpl; [apply sortGroup_size | reflexivity].
Qed.

Lemma members_map_sortGroup gs : Permutation (members (map sortGroup gs)) (members gs).
Proof.
  induction gs as [|g gs IH]; simpl; [constructor|].
  apply Permutation_app; [apply Array_sort_perm | exact IH].
Qed.

(** What the first pool leaves behind: every group holds its share of a
    round-robin deal of the whole pool. *)
Lemma firstPool_dealt (firstPool : list Student) (groups : list Group) :
  (0 < List.length groups)%nat ->
  let G := List.length groups in
  let cleared := clearGroups groups in
  let '(served, rest) :=
    if (G <=? List.length firstPool)%nat
    then oneEach cleared firstPool else (cleared, firstPool) in
  let gs := roundRobin rest served in
  List.length gs = G
  /\ (forall j, (j < G)%nat -> sizeAt gs j = targetSize (List.length firstPool) G j)
  /\ Permutation (members gs) firstPool.
Proof.
  intros HG G cleared.
  destruct (Nat.leb_spec G (List.length firstPool)) as [le|gt].
  - pose proof (@oneEach_spec cleared firstPool) as O.
    unfold cleared in O at 1. rewrite clearGroups_length in O.
    specialize (O le). fold cleared in O.
    destruct (oneEach cleared firstPool) as [served rest].
    destruct O as (L & R & Sz & P). unfold cleared in L, R, Sz, P.
    rewrite clearGroups_length in L, R, Sz. rewrite members_clearGroups in P.
    fold G in L, R, Sz.
    rewrite roundRobin_dealFrom, L.
    split; [now rewrite dealFrom_length|]. split.
    + intros j Hj. rewrite dealFrom_sizes by (assumption || lia).
      rewrite Sz, sizeAt_clearGroups by assumption.
      assert (E : List.length firstPool = (G + List.length rest)%nat).
      { subst rest. rewrite length_skipn. lia. }
      rewrite E, targetSize_add_G by (assumption || lia). lia.
    + pose proof (@dealFrom_members G HG 0%nat rest served L) as P2.
      rewrite app_nil_r in P. perm_count.
  - unfold cleared. rewrite roundRobin_dealFrom, clearGroups_length. fold G.
    split; [rewrite dealFrom_length; apply clearGroups_length|]. split.
    + intros j Hj.
      rewrite dealFrom_sizes by (assumption || apply clearGroups_length).
      now rewrite sizeAt_clearGroups.
    + pose proof (@dealFrom_members G HG 0%nat firstPool (clearGroups groups)
                    (clearGroups_length groups)) as P2.
      rewrite members_clearGroups, app_nil_r in P2. exact P2.
Qed.

Lemma redistribute_spec (firstPool secondPool : list Student) (groups : list Group) :
  (0 < List.length groups)%nat ->
  let G := List.length groups in
  let T := (List.length firstPool + List.length secondPool)%nat in
  let gs' := redistribute firstPool secondPool groups in
  List.length gs' = G
  /\ (forall j, (j < G)%nat -> sizeAt gs' j = targetSize T G j)
  /\ Permutation (members gs') (firstPool ++ secondPool).
Proof.
  intros HG G T. unfold redistribute.
  pose proof (firstPool_dealt firstPool HG) as D. cbv zeta in D.
  destruct (if (List.length groups <=? List.length firstPool)%nat
            then oneEach (clearGroups groups) firstPool
            else (clearGroups groups, firstPool)) as [served rest].
  destruct D as (L & Sz & P). fold T. fold G in L, Sz.
  set (gs := roundRobin rest served) in *.
  destruct (@roundRobinSkipping_spec T G HG secondPool 0%nat gs) as (L' & Sz' & P').
  - assumption.
  - assumption.
  - intros j Hj. rewrite Sz by assumption.
    apply targetSize_mono; (assumption || lia).
  - unfold slack.
    rewrite (list_sum_ext (g := fun j => targetSize T G j
                                        - targetSize (List.length firstPool) G j)%nat).
    2:{ intros j Hj. now rewrite Sz. }
    pose proof (list_sum_sub (f := targetSize T G)
                             (g := targetSize (List.length firstPool) G) (k := G)) as E.
    rewrite !targetSize_sum in E by assumption.
    specialize (E ltac:(intros; apply targetSize_mono; (assumption || lia))). lia.
  - cbv zeta. rewrite length_map. split; [assumption|]. split.
    + intros j Hj. rewrite sizeAt_map_sortGroup. now apply Sz'.
    + pose proof (members_map_sortGroup (roundRobinSkipping T secondPool 0 gs)) as P3.
      perm_count.
Qed.

(** ** The code of the equalizer refines the specification *)

Lemma bind_Returned (A B : Type) (a : A) (k : A -> outcome B) :
  JS.bind (Returned a) k = k a.
Proof. reflexivity. Qed.

Lemma pushStudent_give i s gs :
  (i < List.length gs)%nat -> pushStudent i s gs = Returned (give i s gs).
Proof.
  intros H. unfold pushStudent, give.
  destruct (nth_error gs i) eqn:E; [reflexivity|].
  apply nth_error_None in E. lia.
Qed.

Lemma skipn_nth_error (A : Type) (l : list A) k x :
  nth_error l k = Some x -> skipn k l = x :: skipn (S k) l.
Proof.
  revert k; induction l as [|y l IH]; intros [|k] H; simpl in *; try discriminate.
  - now inversion H.
  - now apply IH.
Qed.

Lemma firstRound_oneEach gs maleStudents k :
  (k + List.length gs <= List.length maleStudents)%nat ->
  firstRound gs maleStudents k
  = (fst (oneEach gs (skipn k maleStudents)), (k + List.length gs)%nat)
  /\ snd (oneEach gs (skipn k maleStudents))
     = skipn (k + List.length gs) maleStudents.
Proof.
  revert k; induction gs as [|g gs IH]; intros k H; simpl in *.
  - rewrite Nat.add_0_r. split; reflexivity.
  - destruct (nth_error maleStudents k) as [m|] eqn:E.
    2:{ apply nth_error_None in E. lia. }
    rewrite (skipn_nth_error E).
    destruct (IH (S k) ltac:(lia)) as [E1 E2]. rewrite E1.
    destruct (oneEach gs (skipn (S k) maleStudents)) as [served rest].
    cbn [fst snd] in *. rewrite Nat.add_succ_r. split; [reflexivity|].
    rewrite E2. reflexivity.
Qed.

Lemma allFull_from (f : nat -> nat) gs :
  forall k,
    forallb (fun gt => (snd gt <=? Group.size (fst gt))%nat)
            (combine gs (map f (seq k (List.length gs)))) = true
    <-> forall j, (j < List.length gs)%nat -> (f (k + j)%nat <= sizeAt gs j)%nat.
Proof.
  induction gs as [|g gs IH]; intros k; simpl.
  - split; [intros _ j Hj; lia | reflexivity].
  - rewrite andb_true_iff, Nat.leb_le, IH. split.
    + intros [H0 H] [|j] Hj.
      * rewrite Nat.add_0_r. exact H0.
      * replace (k + S j)%nat with (S k + j)%nat by lia. apply H. lia.
    + intros H. split.
      * specialize (H 0%nat ltac:(lia)). now rewrite Nat.add_0_r in H.
      * intros j Hj. specialize (H (S j) ltac:(lia)).
        now replace (k + S j)%nat with (S k + j)%nat in H by lia.
Qed.

Section Refinement.
Variables T G : nat.
Hypothesis G_pos : (0 < G)%nat.

Lemma maleLoop_dealFrom pending :
  forall k gs,
    List.length gs = G ->
    maleLoop G pending (k mod G) gs = Returned (dealFrom G k pending gs).
Proof.
  induction pending as [|m pending IH]; intros k gs HG; simpl; [reflexivity|].
  rewrite pushStudent_give by (rewrite HG; apply Nat.mod_upper_bound; lia).
  simpl. rewrite Nat.Div0.add_mod_idemp_l.
  replace (k + 1)%nat with (S k) by lia.
  rewrite IH by (now rewrite give_length). reflexivity.
Qed.

Lemma maleLoop_dealFrom0 pending gs :
  List.length gs = G ->
  maleLoop G pending 0 gs = Returned (dealFrom G 0 pending gs).
Proof.
  intros HG. pose proof (@maleLoop_dealFrom pending 0%nat gs HG) as E.
  now rewrite Nat.Div0.mod_0_l in E.
Qed.

Definition targetSizes : list nat := map (targetSize T G) (seq 0 G).

Lemma allGroupsFull_iff gs :
  List.length gs = G ->
  allGroupsFull gs targetSizes = true
  <-> forall j, (j < G)%nat -> (targetSize T G j <= sizeAt gs j)%nat.
Proof.
  intros HG. unfold allGroupsFull, targetSizes.
  pose proof (allFull_from (targetSize T G) gs 0) as K.
  rewrite HG in K. exact K.
Qed.

Lemma allGroupsFull_slack gs :
  List.length gs = G -> allGroupsFull gs targetSizes = true <-> slack T G gs = 0%nat.
Proof.
  intros HG. rewrite allGroupsFull_iff by assumption. split.
  - intros H. unfold slack.
    rewrite (list_sum_ext (g := fun _ => 0%nat)).
    + clear. induction (seq 0 G); simpl; auto.
    + intros j Hj. specialize (H j Hj). lia.
  - intros H j Hj. pose proof (list_sum_0_all H Hj) as E. simpl in E. lia.
Qed.

Lemma nth_error_targetSizes j :
  (j < G)%nat -> nth_error targetSizes j = Some (targetSize T G j).
Proof.
  intros Hj. unfold targetSizes. rewrite nth_error_map.
  rewrite nth_error_seq. destruct (Nat.ltb_spec j G); [reflexivity | lia].
Qed.

(** One pass of the loop body on a group that is full: nothing changes and
    the pointer moves on. *)
Lemma femaleLoop_skip gs f rest :
  List.length gs = G -> (0 < slack T G gs)%nat ->
  forall tries cur fuel i,
    (cur < G)%nat ->
    nextWithRoom T gs cur tries = Some i ->
    (tries <= fuel)%nat ->
    exists fuel',
      (fuel + 1 <= fuel' + tries)%nat
      /\ femaleLoop fuel G targetSizes (f :: rest) cur gs
         = femaleLoop fuel' G targetSizes (f :: rest) i gs.
Proof.
  intros HG Hs. induction tries as [|t IH]; intros cur fuel i Hc H Hf; [discriminate|].
  simpl in H. destruct (hasRoom T gs cur) eqn:R.
  - inversion H; subst. exists fuel. split; [lia | reflexivity].
  - destruct fuel as [|fuel1]; [lia|]. rewrite HG in H.
    destruct (IH ((cur + 1) mod G)%nat fuel1 i) as (fuel' & Hf' & E).
    + apply Nat.mod_upper_bound; lia.
    + exact H.
    + lia.
    + exists fuel'. split; [lia|]. rewrite <- E. simpl.
      unfold hasRoom in R. rewrite HG in R.
      destruct (nth_error gs cur) as [g|] eqn:Eg.
      2:{ apply nth_error_None in Eg. lia. }
      simpl. rewrite nth_error_targetSizes by assumption. rewrite R.
      destruct (allGroupsFull gs targetSizes) eqn:F; [|reflexivity].
      apply allGroupsFull_slack in F; [lia | assumption].
Qed.

Lemma femaleLoop_refines pending :
  forall fuel cur gs,
    List.length gs = G -> (cur < G)%nat -> fits T G gs ->
    slack T G gs = List.length pending ->
    (G * List.length pending + 1 <= fuel)%nat ->
    femaleLoop fuel G targetSizes pending cur gs
    = Returned (roundRobinSkipping T pending cur gs, []).
Proof.
  induction pending as [|f rest IH]; intros fuel cur gs HG Hc F S0 Hf.
  - destruct fuel; [lia | reflexivity].
  - simpl in S0. simpl roundRobinSkipping. rewrite HG.
    assert (exists j, hasRoom T gs j = true) as [j Hj]
        by (eapply slack_pos_room; (eassumption || lia)).
    assert (exists i, nextWithRoom T gs cur G = Some i) as [i Hi]
        by (eapply nextWithRoom_complete; eassumption).
    rewrite Hi.
    pose proof (nextWithRoom_sound Hi) as Ri.
    assert (Hlt : (i < G)%nat) by (eapply hasRoom_iff; eassumption).
    assert (exists fuel',
               (fuel + 1 <= fuel' + G)%nat
               /\ femaleLoop fuel G targetSizes (f :: rest) cur gs
                  = femaleLoop fuel' G targetSizes (f :: rest) i gs)
      as (fuel' & Hf' & E).
    { eapply femaleLoop_skip; try eassumption; simpl in Hf; nia. }
    rewrite E. destruct fuel' as [|f2]; [simpl in Hf; nia|].
    simpl. pose proof Ri as Ri'. unfold hasRoom in Ri. rewrite HG in Ri.
    destruct (nth_error gs i) as [g|] eqn:Eg; [|discriminate].
    simpl. rewrite nth_error_targetSizes by assumption. rewrite Ri.
    assert (Eq : updateNth i (Group.push f g) gs = give i f gs).
    { unfold give. now rewrite Eg. }
    rewrite Eq.
    assert (S1 : slack T G gs = S (slack T G (give i f gs)))
      by (eapply slack_give; eassumption).
    destruct (allGroupsFull (give i f gs) targetSizes) eqn:Full.
    + apply allGroupsFull_slack in Full; [|now rewrite give_length].
      destruct rest; [reflexivity | simpl in *; lia].
    + apply IH.
      * now rewrite give_length.
      * apply Nat.mod_upper_bound; lia.
      * eapply fits_give; eassumption.
      * lia.
      * simpl in Hf. nia.
Qed.

End Refinement.

(** The students the equalizer redistributes, and the two shuffled
    pools. *)
Definition studentsToDistribute (groups : list Group) (allStudents : list Student)
  : list Student :=
  let assignedStudents := flat_map Group.students groups in
  assignedStudents
    ++ filter (fun student =>
                 negb (existsb (hasId (Student.id student)) assignedStudents))
              allStudents.

Definition shuffledPools {E : SortEngine} (groups : list Group)
  (allStudents : list Student) (rs : RandomSource)
  : list Student * list Student * RandomSource :=
  let pool := studentsToDistribute groups allStudents in
  let '(maleStudents, rs1) := sortRandom (filter isMale pool) rs in
  let '(femaleStudents, rs2) := sortRandom (filter isFemale pool) rs1 in
  (maleStudents, femaleStudents, rs2).

Lemma gender_split (l : list Student) :
  (List.length (filter isMale l) + List.length (filter isFemale l))%nat
  = List.length l.
Proof.
  induction l as [|s l IH]; simpl; [reflexivity|].
  unfold isMale, isFemale in *. destruct (Student.gender s); simpl; lia.
Qed.

Lemma gender_perm (l : list Student) :
  Permutation (filter isMale l ++ filter isFemale l) l.
Proof.
  induction l as [|s l IH]; simpl; [constructor|].
  unfold isMale, isFemale in *. destruct (Student.gender s); simpl.
  - now apply perm_skip.
  - eapply Permutation_trans; [apply Permutation_sym, Permutation_middle|].
    now apply perm_skip.
Qed.

Lemma shuffledPools_perm {E : SortEngine} groups allStudents rs :
  let '(maleStudents, femaleStudents, _) := shuffledPools groups allStudents rs in
  Permutation (maleStudents ++ femaleStudents)
              (studentsToDistribute groups allStudents).
Proof.
  unfold shuffledPools.
  set (pool := studentsToDistribute groups allStudents).
  pose proof (sortRandom_perm (filter isMale pool) rs) as P1.
  destruct (sortRandom (filter isMale pool) rs) as [m rs1].
  pose proof (sortRandom_perm (filter isFemale pool) rs1) as P2.
  destruct (sortRandom (filter isFemale pool) rs1) as [f rs2].
  simpl in *. pose proof (gender_perm pool) as P3. perm_count.
Qed.

Lemma forceEqualDistribution_refines {E : SortEngine} groups allStudents rs :
  (0 < List.length groups)%nat ->
  let '(maleStudents, femaleStudents, rs') := shuffledPools groups allStudents rs in
  forceEqualDistribution groups allStudents rs
  = Returned (redistribute maleStudents femaleStudents groups, rs').
Proof.
  intros HG. pose proof (shuffledPools_perm groups allStudents rs) as PP.
  unfold forceEqualDistribution, shuffledPools in *.
  fold (studentsToDistribute groups allStudents) in *.
  set (pool := studentsToDistribute groups allStudents) in *.
  destruct (sortRandom (filter isMale pool) rs) as [m rs1].
  destruct (sortRandom (filter isFemale pool) rs1) as [f rs2].
  set (G := List.length groups) in *.
  assert (ET : List.length pool = (List.length m + List.length f)%nat).
  { apply Permutation_length in PP. rewrite length_app in PP. lia. }
  rewrite ET. set (T := (List.length m + List.length f)%nat).
  unfold redistribute. fold G. fold T.
  pose proof (firstPool_dealt m HG) as D. cbv zeta in D. fold G in D.
  assert (EM :
    (let '(groups1, maleIndex) :=
       if (G <=? List.length m)%nat
       then firstRound (clearGroups groups) m 0 else (clearGroups groups, 0%nat) in
     maleLoop G (skipn maleIndex m) 0 groups1)
    = (let '(served, rest) :=
         if (G <=? List.length m)%nat
         then oneEach (clearGroups groups) m else (clearGroups groups, m) in
       Returned (roundRobin rest served))).
  { destruct (Nat.leb_spec G (List.length m)) as [le|gt].
    - destruct (@firstRound_oneEach (clearGroups groups) m 0) as [E1 E2].
      { rewrite clearGroups_length. fold G. lia. }
      cbn [skipn Nat.add] in E1, E2. rewrite clearGroups_length in E1, E2.
      fold G in E1, E2. rewrite E1.
      pose proof (@oneEach_spec (clearGroups groups) m) as O.
      rewrite clearGroups_length in O. specialize (O le).
      destruct (oneEach (clearGroups groups) m) as [served rest].
      cbn [fst snd] in E2 |- *.
      destruct O as (L & _). fold G in L. rewrite <- E2.
      rewrite maleLoop_dealFrom0 by (lia || assumption).
      rewrite roundRobin_dealFrom, L. reflexivity.
    - simpl skipn.
      rewrite maleLoop_dealFrom0 by (lia || apply clearGroups_length).
      rewrite roundRobin_dealFrom, clearGroups_length. reflexivity. }
  destruct (if (G <=? List.length m)%nat
            then firstRound (clearGroups groups) m 0
            else (clearGroups groups, 0%nat)) as [groups1 maleIndex].
  rewrite EM. clear EM.
  destruct (if (G <=? List.length m)%nat
            then oneEach (clearGroups groups) m
            else (clearGroups groups, m)) as [served rest].
  destruct D as (L & Sz & P). rewrite bind_Returned.
  change (map (fun index => (T / G + (if (index <? T mod G)%nat then 1 else 0))%nat)
              (seq 0 G)) with (targetSizes T G).
  rewrite (@femaleLoop_refines T G HG f).
  - reflexivity.
  - assumption.
  - assumption.
  - intros j Hj. rewrite Sz by assumption.
    apply targetSize_mono; (assumption || lia).
  - unfold slack.
    rewrite (list_sum_ext (g := fun j => targetSize T G j
                                        - targetSize (List.length m) G j)%nat).
    2:{ intros j Hj. now rewrite Sz. }
    pose proof (list_sum_sub (f := targetSize T G)
                             (g := targetSize (List.length m) G) (k := G)) as E0.
    rewrite !targetSize_sum in E0 by assumption.
    specialize (E0 ltac:(intros; apply targetSize_mono; (assumption || lia))). lia.
  - lia.
Qed.

(* ================================================================== *)
(** * The chain keeps the partial assignment well formed               *)
(* ================================================================== *)

(** ** Counting the students that carry a seat number *)

Definition cnt (z : Z) (l : list Student) : nat :=
  count_occ Z.eq_dec (map Student.id l) z.

Definition idIs (z : Z) (s : Student) : nat :=
  if Z.eq_dec (Student.id s) z then 1%nat else 0%nat.

Lemma cnt_nil z : cnt z [] = 0%nat.
Proof. reflexivity. Qed.

Lemma cnt_cons z s l : cnt z (s :: l) = (idIs z s + cnt z l)%nat.
Proof. unfold cnt, idIs; simpl. destruct (Z.eq_dec (Student.id s) z); reflexivity. Qed.

Lemma cnt_app z l1 l2 : cnt z (l1 ++ l2) = (cnt z l1 + cnt z l2)%nat.
Proof. unfold cnt. now rewrite map_app, count_occ_app. Qed.

Lemma cnt_perm z l1 l2 : Permutation l1 l2 -> cnt z l1 = cnt z l2.
Proof.
  intros P. unfold cnt.
  apply (Permutation_count_occ Z.eq_dec). now apply Permutation_map.
Qed.

Lemma cnt_pos_In z l : (0 < cnt z l)%nat <-> In z (map Student.id l).
Proof. unfold cnt. symmetry. apply count_occ_In. Qed.

Lemma cnt_0_notIn z l : cnt z l = 0%nat <-> ~ In z (map Student.id l).
Proof. unfold cnt. symmetry. apply count_occ_not_In. Qed.

Lemma cnt_filter_id z (p : Z -> bool) l :
  cnt z (filter (fun s => p (Student.id s)) l)
  = if p z then cnt z l else 0%nat.
Proof.
  induction l as [|s l IH]; simpl; [now destruct (p z)|].
  destruct (p (Student.id s)) eqn:E.
  - rewrite !cnt_cons, IH. unfold idIs.
    destruct (Z.eq_dec (Student.id s) z) as [e|ne];
      [rewrite <- e, E | destruct (p z)]; lia.
  - rewrite cnt_cons, IH. unfold idIs.
    destruct (Z.eq_dec (Student.id s) z) as [e|ne];
      [rewrite <- e, E | destruct (p z)]; lia.
Qed.

Lemma cnt_unprocessed z P l :
  cnt z (unprocessed P l) = if Set_has P z then 0%nat else cnt z l.
Proof.
  unfold unprocessed.
  rewrite (cnt_filter_id z (fun x => negb (Set_has P x))).
  now destruct (Set_has P z).
Qed.

Lemma find_hasId_Some x l s :
  find (hasId x) l = Some s -> In s l /\ Student.id s = x.
Proof.
  intros H. apply find_some in H. destruct H as [H1 H2].
  split; [assumption|]. unfold hasId in H2. now apply Z.eqb_eq in H2.
Qed.

Lemma find_hasId_None x l : find (hasId x) l = None -> cnt x l = 0%nat.
Proof.
  intros H. apply cnt_0_notIn. intros I. apply in_map_iff in I.
  destruct I as (s & E & I). pose proof (find_none _ _ H _ I) as N.
  unfold hasId in N. apply Z.eqb_neq in N. congruence.
Qed.

Lemma idIs_id s : idIs (Student.id s) s = 1%nat.
Proof. unfold idIs. destruct (Z.eq_dec (Student.id s) (Student.id s)); congruence. Qed.

Lemma idIs_other z s : Student.id s <> z -> idIs z s = 0%nat.
Proof. unfold idIs. destruct (Z.eq_dec (Student.id s) z); congruence. Qed.

(** ** Sets and maps *)

Lemma Set_has_In P z : Set_has P z = true <-> In z P.
Proof.
  unfold Set_has. rewrite existsb_exists. split.
  - intros (y & I & E). apply Z.eqb_eq in E. now subst.
  - intros I. exists z. split; [assumption | apply Z.eqb_refl].
Qed.

Lemma Set_add_In P x z : In z (Set_add P x) <-> z = x \/ In z P.
Proof.
  unfold Set_add. destruct (Set_has P x) eqn:E.
  - apply Set_has_In in E. split; [tauto | intros [->|]; assumption].
  - rewrite in_app_iff; simpl. intuition.
Qed.

Lemma Set_has_add P x z :
  Set_has (Set_add P x) z = (z =? x) || Set_has P z.
Proof.
  apply eq_true_iff_eq. rewrite orb_true_iff, !Set_has_In, Set_add_In, Z.eqb_eq.
  tauto.
Qed.

Lemma Map_get_set m k v k' :
  Map_get (Map_set m k v) k' = if k =? k' then Some v else Map_get m k'.
Proof.
  induction m as [|[a b] m IH]; simpl.
  - reflexivity.
  - destruct (a =? k) eqn:E; simpl.
    + apply Z.eqb_eq in E; subst. destruct (k =? k'); reflexivity.
    + rewrite IH. destruct (a =? k') eqn:E'; [|reflexivity].
      apply Z.eqb_eq in E'; subst. rewrite Z.eqb_sym, E. reflexivity.
Qed.

(** ** Groups *)

Lemma members_app gs1 gs2 : members (gs1 ++ gs2) = members gs1 ++ members gs2.
Proof. apply flat_map_app. Qed.

Lemma cnt_members_update z i g g' gs :
  nth_error gs i = Some g ->
  (cnt z (members (updateNth i g' gs)) + cnt z (Group.students g)
   = cnt z (members gs) + cnt z (Group.students g'))%nat.
Proof.
  intros E. destruct (updateNth_split g' E) as (l1 & l2 & -> & -> & _).
  rewrite !members_app. simpl. unfold members. simpl.
  rewrite !cnt_app. lia.
Qed.

Lemma In_members_update s i g g' gs :
  nth_error gs i = Some g ->
  In s (members (updateNth i g' gs)) ->
  In s (members gs) \/ In s (Group.students g').
Proof.
  intros E. destruct (updateNth_split g' E) as (l1 & l2 & -> & -> & _).
  rewrite !members_app. unfold members; simpl. rewrite !in_app_iff. tauto.
Qed.

Lemma copyGroups_id gs : copyGroups gs = gs.
Proof.
  unfold copyGroups. rewrite <- (map_id gs) at 2. apply map_ext.
  now intros [].
Qed.

Lemma pushStudent_Returned i s gs gs' :
  pushStudent i s gs = Returned gs' ->
  gs' = give i s gs /\ (i < List.length gs)%nat.
Proof.
  unfold pushStudent, give. destruct (nth_error gs i) eqn:E; simpl; [|discriminate].
  intros [= <-]. split; [reflexivity|]. apply nth_error_Some. congruence.
Qed.

Lemma cnt_members_give z i s gs :
  (i < List.length gs)%nat ->
  cnt z (members (give i s gs)) = (idIs z s + cnt z (members gs))%nat.
Proof.
  intros H. rewrite (cnt_perm z (members_give s H)). apply cnt_cons.
Qed.

Lemma In_members_give x i s gs :
  In x (members (give i s gs)) -> x = s \/ In x (members gs).
Proof.
  unfold give. destruct (nth_error gs i) as [g|] eqn:E; [|tauto].
  intros H. apply (In_members_update E) in H. destruct H as [H|H]; [tauto|].
  simpl in H. apply in_app_iff in H. destruct H as [H|[H|[]]]; [|now left; subst].
  right. unfold members. apply in_flat_map. exists g. split; [|assumption].
  eapply nth_error_In; eassumption.
Qed.

(** ** The Fisher-Yates shuffle rearranges *)

Lemma updateNth_perm (A : Type) (l : list A) i a v :
  nth_error l i = Some a -> Permutation (v :: l) (a :: updateNth i v l).
Proof.
  intros E. destruct (updateNth_split v E) as (l1 & l2 & -> & -> & _).
  eapply Permutation_trans; [apply Permutation_middle|].
  eapply Permutation_trans; [|apply Permutation_sym, Permutation_middle].
  apply Permutation_app_head, perm_swap.
Qed.

Lemma swap_perm (A : Type) (i j : nat) (l : list A) : Permutation (swap i j l) l.
Proof.
  unfold swap.
  destruct (nth_error l i) as [a|] eqn:Ei; [|apply Permutation_refl].
  destruct (nth_error l j) as [b|] eqn:Ej; [|apply Permutation_refl].
  assert (Ej' : nth_error (updateNth i b l) j = Some b).
  { destruct (Nat.eq_dec i j) as [->|ne].
    - apply nth_error_updateNth_eq. apply nth_error_Some. congruence.
    - rewrite nth_error_updateNth_neq by assumption. exact Ej. }
  pose proof (updateNth_perm b Ei) as P1.
  pose proof (updateNth_perm a Ej') as P2.
  apply Permutation_sym, (Permutation_cons_inv (a := b)).
  eapply Permutation_trans; [exact P1 | exact P2].
Qed.

Lemma shuffleFrom_perm (A : Type) i (l : list A) rs :
  Permutation (fst (shuffleFrom i l rs)) l.
Proof.
  revert l rs; induction i as [|i IH]; intros l rs; simpl; [apply Permutation_refl|].
  destruct (randomIndex (S i) rs) as [j rs'].
  eapply Permutation_trans; [apply IH | apply swap_perm].
Qed.

Lemma shuffleArray_perm (A : Type) (l : list A) rs :
  Permutation (fst (shuffleArray l rs)) l.
Proof. apply shuffleFrom_perm. Qed.

(** The index drawn by the loop lies in the part of the array that is
    still to be shuffled. *)
Lemma randomIndex_le i rs : (fst (randomIndex i rs) <= i)%nat.
Proof.
  unfold randomIndex, Math_random. cbn [fst].
  destruct (draws rs (cursor rs)) as [v [H0 H1]]. cbn [value].
  assert (B : (Qfloor (v * inject_Z (Z.of_nat i + 1)) < Z.of_nat i + 1)%Z).
  { rewrite Zlt_Qlt.
    eapply Qle_lt_trans; [apply Qfloor_le|].
    rewrite <- (Qmult_1_l (inject_Z (Z.of_nat i + 1))) at 2.
    apply Qmult_lt_compat_r; [|assumption].
    change 0%Q with (inject_Z 0). rewrite <- Zlt_Qlt. lia. }
  lia.
Qed.

(** ** The parsed clusters have no repeated seat number *)

Lemma scanPart_NoDup parts : forall numbers duplicates,
  NoDup numbers -> NoDup (fst (fold_left scanPart parts (numbers, duplicates))).
Proof.
  induction parts as [|p parts IH]; intros numbers duplicates H; simpl; [assumption|].
  destruct (parseInt p) as [num|]; [|now apply IH].
  destruct (Set_has numbers num) eqn:E; [now apply IH|].
  apply IH. apply NoDup_app; [assumption | repeat constructor; auto | ].
  intros x Hx [<-|[]]. apply Set_has_In in Hx. congruence.
Qed.

Lemma parseStudentNumbers_NoDup input l :
  parseStudentNumbers input = Returned l -> NoDup l.
Proof.
  unfold parseStudentNumbers.
  pose proof (@scanPart_NoDup (map trim (split ","%char input)) [] [] (NoDup_nil _)) as H.
  destruct (fold_left scanPart _ _) as [numbers duplicates]; simpl in H.
  destruct duplicates; [|discriminate]. intros [= <-].
  eapply Permutation_NoDup; [apply Permutation_sym, Array_sort_perm | assumption].
Qed.

Lemma clusterOf_NoDup group : Forall (@NoDup Z) (clusterOf group).
Proof.
  unfold clusterOf. destruct (parseStudentNumbers group) eqn:E; try constructor.
  destruct (2 <=? List.length a)%nat; constructor; [|constructor].
  eapply parseStudentNumbers_NoDup; eassumption.
Qed.

Lemma parseSameGroupInput_NoDup input : Forall (@NoDup Z) (parseSameGroupInput input).
Proof.
  unfold parseSameGroupInput. destruct (negb _); [constructor|].
  induction (segments input) as [|g l IH]; simpl; [constructor|].
  apply Forall_app. split; [apply clusterOf_NoDup | exact IH].
Qed.

Lemma parseDifferentGroupInput_NoDup input :
  Forall (@NoDup Z) (parseDifferentGroupInput input).
Proof. exact (parseSameGroupInput_NoDup input). Qed.

(** ** The map from the members of a cluster to their groups *)

Lemma Map_has_set m k v k' :
  Map_has (Map_set m k v) k' = (k =? k') || Map_has m k'.
Proof.
  unfold Map_has. rewrite Map_get_set. destruct (k =? k'); reflexivity.
Qed.

Lemma mem_In (l : list Z) (z : Z) : existsb (Z.eqb z) l = true <-> In z l.
Proof. exact (Set_has_In l z). Qed.

Section StudentGroupMap.
Variable studentIds : list Z.

Lemma recordGroup_get i ss : forall m x c,
  Map_get (fold_left (DifferentGroupHandler.recordGroup studentIds i) ss m) x = Some c ->
  Map_get m x = Some c
  \/ (c = i /\ In x studentIds /\ In x (map Student.id ss)).
Proof.
  induction ss as [|s ss IH]; intros m x c H; simpl in *; [now left|].
  apply IH in H. destruct H as [H|(-> & H1 & H2)]; [|right; auto].
  unfold DifferentGroupHandler.recordGroup in H.
  destruct (existsb (Z.eqb (Student.id s)) studentIds) eqn:E; [|now left].
  rewrite Map_get_set in H. destruct (Z.eqb_spec (Student.id s) x) as [e|ne].
  - inversion H; subst. right. split; [reflexivity|].
    split; [now apply mem_In | now left].
  - now left.
Qed.

Lemma recordGroup_has i ss : forall m x,
  Map_has m x = true \/ (In x studentIds /\ In x (map Student.id ss)) ->
  Map_has (fold_left (DifferentGroupHandler.recordGroup studentIds i) ss m) x = true.
Proof.
  induction ss as [|s ss IH]; intros m x H; simpl in *.
  - destruct H as [H|[_ []]]. exact H.
  - apply IH. unfold DifferentGroupHandler.recordGroup.
    destruct H as [H|[H1 [H2|H2]]].
    + left. destruct (existsb _ studentIds); [|assumption].
      rewrite Map_has_set, H. apply orb_true_r.
    + left. subst x. apply mem_In in H1. rewrite H1.
      rewrite Map_has_set, Z.eqb_refl. reflexivity.
    + right. auto.
Qed.

Lemma scanGroups_get (l : list (nat * Group)) : forall m x c,
  Map_get (fold_left (fun m ig =>
                        fold_left (DifferentGroupHandler.recordGroup studentIds (fst ig))
                                  (Group.students (snd ig)) m) l m) x = Some c ->
  Map_get m x = Some c
  \/ exists g, In (c, g) l /\ In x studentIds /\ In x (map Student.id (Group.students g)).
Proof.
  induction l as [|[i g] l IH]; intros m x c H; simpl in *; [now left|].
  apply IH in H. destruct H as [H|(g' & H1 & H2)].
  - apply recordGroup_get in H. destruct H as [H|(-> & H1 & H2)]; [now left|].
    right. exists g. auto.
  - right. exists g'. auto.
Qed.

Lemma scanGroups_has (l : list (nat * Group)) : forall m x,
  Map_has m x = true
  \/ (In x studentIds
      /\ exists ig, In ig l /\ In x (map Student.id (Group.students (snd ig)))) ->
  Map_has (fold_left (fun m ig =>
                        fold_left (DifferentGroupHandler.recordGroup studentIds (fst ig))
                                  (Group.students (snd ig)) m) l m) x = true.
Proof.
  induction l as [|[i g] l IH]; intros m x H; simpl in *.
  - destruct H as [H|(_ & ig & [] & _)]. exact H.
  - apply IH. destruct H as [H|(H1 & ig & [<-|H2] & H3)].
    + left. apply recordGroup_has. now left.
    + left. apply recordGroup_has. right. auto.
    + right. split; [assumption|]. exists ig. auto.
Qed.

Lemma studentGroupMap_get gs x c :
  Map_get (DifferentGroupHandler.buildStudentGroupMap gs studentIds) x = Some c ->
  exists g, nth_error gs c = Some g /\ In x (map Student.id (Group.students g)).
Proof.
  intros H. apply scanGroups_get in H. destruct H as [H|(g & H1 & _ & H2)].
  - discriminate.
  - exists g. split; [now apply In_indexed | assumption].
Qed.

Lemma studentGroupMap_has gs x :
  In x studentIds -> (0 < cnt x (members gs))%nat ->
  Map_has (DifferentGroupHandler.buildStudentGroupMap gs studentIds) x = true.
Proof.
  intros H1 H2. apply scanGroups_has. right. split; [assumption|].
  apply cnt_pos_In in H2. apply in_map_iff in H2. destruct H2 as (s & E & I).
  unfold members in I. apply in_flat_map in I. destruct I as (g & Ig & Is).
  apply In_nth_error in Ig. destruct Ig as [i Ei].
  exists (i, g). split; [now apply In_indexed|]. simpl. subst x. now apply in_map.
Qed.

End StudentGroupMap.


(** ** Well-formed partial assignments *)

Section Chain.
Variable roster : list Student.

(** Nobody sits in two places, and everybody comes from the roster. *)
Definition wf (gs : list Group) (rem : list Student) : Prop :=
  (forall z, (cnt z (members gs) + cnt z rem <= 1)%nat)
  /\ incl (members gs) roster /\ incl rem roster.

(** What every handler of the chain does for an array of at least one
    group: it returns, it keeps the number of groups, and it keeps the
    partial assignment well formed. *)
Definition sound (h : Handler) : Prop :=
  forall context rs,
    (0 < List.length (Context.groups context))%nat ->
    exists result rs',
      h context rs = Returned (result, rs')
      /\ List.length (Result.groups result) = List.length (Context.groups context)
      /\ (wf (Context.groups context) (Context.remainingStudents context) ->
          wf (Result.groups result) (Result.remainingStudents result)).

Lemma sound_handle_last process : sound process -> sound (handle process None).
Proof.
  intros Hp context rs HG. destruct (Hp context rs HG) as (res & rs' & E & L & W).
  exists res, rs'. unfold handle. rewrite E. simpl. auto.
Qed.

Lemma sound_handle process next :
  sound process -> sound next -> sound (handle process (Some next)).
Proof.
  intros Hp Hn context rs HG. destruct (Hp context rs HG) as (res & rs' & E & L & W).
  unfold handle. rewrite E. simpl.
  destruct (Result.success res); simpl.
  - exists res, rs'. auto.
  - apply Hn. assumption.
Qed.

Lemma wf_of gs pool gs' pool' :
  (forall z, (cnt z (members gs') + cnt z pool'
              <= cnt z (members gs) + cnt z pool)%nat) ->
  incl (members gs' ++ pool') (members gs ++ pool) ->
  wf gs pool -> wf gs' pool'.
Proof.
  intros Hc Hi (C & I1 & I2). split; [|split].
  - intros z. specialize (Hc z). specialize (C z). lia.
  - intros x Hx. specialize (Hi x (in_or_app _ _ _ (or_introl Hx))).
    apply in_app_or in Hi. destruct Hi; auto.
  - intros x Hx. specialize (Hi x (in_or_app _ _ _ (or_intror Hx))).
    apply in_app_or in Hi. destruct Hi; auto.
Qed.

Lemma wf_perm gs pool gs' pool' :
  Permutation (members gs' ++ pool') (members gs ++ pool) ->
  wf gs pool -> wf gs' pool'.
Proof.
  intros P. apply wf_of.
  - intros z. pose proof (cnt_perm z P) as E. rewrite !cnt_app in E. lia.
  - intros x. apply Permutation_in. exact P.
Qed.

(** *** The least occupied group *)

Lemma minIndexFrom_range gs : forall best bestSize i,
  let r := minIndexFrom best bestSize i gs in
  r = best \/ (i <= r < i + List.length gs)%nat.
Proof.
  induction gs as [|g gs IH]; intros best bestSize i; simpl; [now left|].
  destruct (Group.size g <? bestSize)%nat.
  - destruct (IH i (Group.size g) (S i)) as [E|E]; right; lia.
  - destruct (IH best bestSize (S i)) as [E|E]; [now left | right; lia].
Qed.

Lemma leastOccupied_ok gs :
  (0 < List.length gs)%nat ->
  exists i, leastOccupied gs = Returned i /\ (i < List.length gs)%nat.
Proof.
  destruct gs as [|g gs]; simpl; [lia|]. intros _.
  eexists. split; [reflexivity|].
  destruct (minIndexFrom_range gs 0 (Group.size g) 1) as [E|E]; lia.
Qed.

Lemma pushEachToLeast_ok l : forall gs,
  (0 < List.length gs)%nat ->
  exists gs', pushEachToLeast l gs = Returned gs'
              /\ List.length gs' = List.length gs
              /\ Permutation (members gs') (l ++ members gs).
Proof.
  induction l as [|s l IH]; intros gs HG; simpl.
  - exists gs. repeat split. apply Permutation_refl.
  - destruct (leastOccupied_ok HG) as (i & -> & Hi). simpl.
    rewrite pushStudent_give by assumption. simpl.
    destruct (IH (give i s gs)) as (gs' & E & L & P).
    { now rewrite give_length. }
    exists gs'. split; [assumption|]. split; [now rewrite L, give_length|].
    pose proof (members_give s Hi) as P2. perm_count.
Qed.

Lemma distributeRemainingStudents_ok {E : SortEngine} gs l rs :
  (0 < List.length gs)%nat ->
  exists gs' rs', distributeRemainingStudents gs l rs = Returned (gs', rs')
                  /\ List.length gs' = List.length gs
                  /\ Permutation (members gs') (l ++ members gs).
Proof.
  intros HG. unfold distributeRemainingStudents.
  pose proof (sortRandom_perm l rs) as P0.
  destruct (sortRandom l rs) as [shuffled rs']; simpl in P0.
  destruct (pushEachToLeast_ok shuffled HG) as (gs' & -> & L & P). simpl.
  exists gs', rs'. repeat split; [assumption|]. perm_count.
Qed.

Lemma delegateOrDistribute_ok {E : SortEngine} nextHandler context gs final rs :
  (forall next, nextHandler = Some next -> sound next) ->
  (0 < List.length gs)%nat ->
  exists result rs',
    delegateOrDistribute nextHandler context gs final rs = Returned (result, rs')
    /\ List.length (Result.groups result) = List.length gs
    /\ (wf gs final -> wf (Result.groups result) (Result.remainingStudents result)).
Proof.
  intros Hn HG.
  assert (D : forall rs0,
    exists result rs',
      ('(groups', rs'0) <-
         match final with
         | _ :: _ => distributeRemainingStudents gs final rs0
         | [] => Returned (gs, rs0)
         end ;;
       Returned ({| Result.success := true; Result.groups := groups';
                    Result.handled := true; Result.remainingStudents := [] |}, rs'0))
      = Returned (result, rs')
      /\ List.length (Result.groups result) = List.length gs
      /\ (wf gs final -> wf (Result.groups result) (Result.remainingStudents result))).
  { intros rs0. destruct final as [|s final].
    - simpl. eexists _, _. split; [reflexivity|]. simpl. split; [reflexivity|].
      intros W. exact W.
    - destruct (distributeRemainingStudents_ok (s :: final) rs0 HG)
        as (gs' & rs' & -> & L & P). simpl.
      eexists _, _. split; [reflexivity|]. simpl. split; [assumption|].
      apply wf_perm. rewrite app_nil_r.
      eapply Permutation_trans; [exact P | apply Permutation_app_comm]. }
  unfold delegateOrDistribute.
  destruct nextHandler as [next|]; [|apply D].
  destruct final as [|s final]; [apply D|].
  specialize (Hn next eq_refl).
  match goal with
  | |- context [next ?c rs] => destruct (Hn c rs) as (nres & rs1 & -> & L & W)
  end; [assumption|]. simpl in L, W. simpl JS.bind.
  destruct (Result.handled nres).
  - eexists _, _. split; [reflexivity|]. simpl. auto.
  - apply D.
Qed.

(** *** GenderRatioHandler *)

Lemma place_ok g ideal shuffled : forall stats gs,
  stats <> [] ->
  Forall (fun st => (GenderRatioHandler.index st < List.length gs)%nat) stats ->
  exists stats' gs',
    GenderRatioHandler.place g ideal shuffled stats gs = Returned (stats', gs')
    /\ stats' <> []
    /\ Forall (fun st => (GenderRatioHandler.index st < List.length gs')%nat) stats'
    /\ List.length gs' = List.length gs
    /\ Permutation (members gs') (shuffled ++ members gs).
Proof.
  induction shuffled as [|s shuffled IH]; intros stats gs Hne HF; simpl.
  - exists stats, gs. repeat split; auto.
  - pose proof (Array_sort_perm (GenderRatioHandler.compareStats g ideal) stats) as PS.
    destruct (Array_sort (GenderRatioHandler.compareStats g ideal) stats)
      as [|target others] eqn:ES.
    { apply Permutation_nil in PS. congruence. }
    assert (HF' : Forall (fun st => (GenderRatioHandler.index st < List.length gs)%nat)
                         (target :: others)).
    { eapply Permutation_Forall; [apply Permutation_sym, PS | exact HF]. }
    inversion HF' as [|? ? Ht Ho]; subst.
    rewrite pushStudent_give by assumption. simpl.
    destruct (IH (GenderRatioHandler.count g target :: others)
                 (give (GenderRatioHandler.index target) s gs))
      as (stats' & gs' & E & Hne' & HF'' & L & P).
    { discriminate. }
    { rewrite give_length. constructor; [|assumption]. now destruct g. }
    exists stats', gs'. rewrite give_length in L.
    repeat split; auto.
    pose proof (members_give s Ht) as P2. perm_count.
Qed.

Lemma GenderRatioHandler_sound : sound GenderRatioHandler.process.
Proof.
  intros context rs HG. unfold GenderRatioHandler.process.
  destruct (findCondition "gender-ratio" context).
  2:{ eexists _, _. split; [reflexivity|]. simpl. auto. }
  rewrite copyGroups_id.
  set (pool := Context.remainingStudents context).
  pose proof (gender_split pool) as GS. pose proof (gender_perm pool) as GP.
  destruct (Nat.eqb_spec (List.length (filter isMale pool)) 0) as [e0|n0];
    [destruct (Nat.eqb_spec (List.length (filter isFemale pool)) 0) as [e1|n1]|]; simpl.
  { eexists _, _. split; [reflexivity|]. simpl. split; [reflexivity|].
    assert (pool = []) by (apply length_zero_iff_nil; lia).
    fold pool. now rewrite H. }
  all: pose proof (shuffleArray_perm (filter isMale pool) rs) as PM;
    destruct (shuffleArray (filter isMale pool) rs) as [sm rs1];
    pose proof (shuffleArray_perm (filter isFemale pool) rs1) as PF;
    destruct (shuffleArray (filter isFemale pool) rs1) as [sf rs2];
    simpl in PM, PF;
    match goal with
    | |- context [GenderRatioHandler.place male ?ideal sm ?stats ?gs] =>
        destruct (@place_ok male ideal sm stats gs) as (st1 & g1 & -> & N1 & F1 & L1 & P1);
        [ destruct gs; [simpl in HG; lia | discriminate]
        | apply Forall_forall; intros st Hst; apply in_map_iff in Hst;
          destruct Hst as ([i x] & <- & Hix); apply In_indexed in Hix; simpl;
          apply nth_error_Some; congruence
        | ];
        simpl JS.bind;
        destruct (@place_ok female ideal sf st1 g1) as (st2 & g2 & -> & N2 & F2 & L2 & P2);
        [assumption | assumption | ]
    end;
    simpl; eexists _, _; (split; [reflexivity|]); simpl;
    (split; [lia|]); apply wf_perm; rewrite app_nil_r; fold pool; perm_count.
Qed.

(** *** SameGroupHandler *)

Lemma leastOf_ok (l : list (nat * Group)) n :
  l <> [] -> (forall p, In p l -> (fst p < n)%nat) ->
  exists i, SameGroupHandler.leastOf l = Returned i /\ (i < n)%nat.
Proof.
  destruct l as [|first rest]; [congruence|]. intros _ H. simpl.
  eexists. split; [reflexivity|].
  assert (K : forall rest first,
             In (fold_left
                   (fun minGroup currentGroup : nat * Group =>
                      if (Group.size (snd currentGroup) <? Group.size (snd minGroup))%nat
                      then currentGroup else minGroup) rest first) (first :: rest)).
  { clear. induction rest as [|c rest IH]; intros first; simpl; [now left|].
    destruct (Group.size (snd c) <? Group.size (snd first))%nat.
    - destruct (IH c) as [E|I]; [right; left; exact E | right; right; exact I].
    - destruct (IH first) as [E|I]; [left; exact E | right; right; exact I]. }
  apply H, K.
Qed.

Lemma findAvailableGroup_ok gs required :
  (0 < List.length gs)%nat ->
  exists i, SameGroupHandler.findAvailableGroup gs required = Returned i
            /\ (i < List.length gs)%nat.
Proof.
  intros HG. unfold SameGroupHandler.findAvailableGroup.
  assert (V : forall p, In p (indexed gs) -> (fst p < List.length gs)%nat).
  { intros [i g] I. apply In_indexed in I. simpl. apply nth_error_Some. congruence. }
  destruct (filter _ (indexed gs)) as [|a l] eqn:EF.
  - apply leastOf_ok; [|exact V].
    destruct gs; [simpl in HG; lia | discriminate].
  - apply leastOf_ok; [discriminate|].
    intros p I. apply V. rewrite <- EF in I. apply filter_In in I. tauto.
Qed.

Lemma addAll_ok target pool : forall available gs P,
  (target < List.length gs)%nat ->
  NoDup available ->
  (forall x, In x available -> Set_has P x = false) ->
  exists gs' P',
    SameGroupHandler.addAll target available pool gs P = Returned (gs', P')
    /\ List.length gs' = List.length gs
    /\ (wf gs (unprocessed P pool) -> wf gs' (unprocessed P' pool)).
Proof.
  induction available as [|x available IH]; intros gs P Ht ND HP; simpl.
  - exists gs, P. auto.
  - inversion ND as [|? ? Hx ND']; subst.
    destruct (find (hasId x) pool) as [s|] eqn:Ef.
    + rewrite pushStudent_give by assumption. simpl.
      destruct (IH (give target s gs) (Set_add P x)) as (gs' & P' & E & L & W).
      { now rewrite give_length. }
      { assumption. }
      { intros y Hy. rewrite Set_has_add. rewrite (HP y (or_intror Hy)).
        destruct (Z.eqb_spec y x); [subst; contradiction | reflexivity]. }
      exists gs', P'. split; [assumption|]. split; [now rewrite L, give_length|].
      intros W0. apply W. clear W E IH.
      apply find_hasId_Some in Ef. destruct Ef as [Is Es].
      assert (Hpx : Set_has P x = false) by (apply HP; now left).
      assert (Iu : In s (unprocessed P pool)).
      { apply filter_In. split; [assumption|]. now rewrite Es, Hpx. }
      destruct W0 as (C & I1 & I2). split; [|split].
      * intros z. specialize (C z). rewrite cnt_members_give by assumption.
        rewrite cnt_unprocessed in *. rewrite Set_has_add.
        destruct (Z.eqb_spec z x) as [->|ne]; simpl.
        -- rewrite Hpx in C. rewrite <- Es in *. rewrite idIs_id.
           assert (0 < cnt (Student.id s) pool)%nat.
           { apply cnt_pos_In. now apply in_map. }
           lia.
        -- rewrite idIs_other by congruence. exact C.
      * intros y Hy. apply In_members_give in Hy.
        destruct Hy as [->|Hy]; [apply I2, Iu | now apply I1].
      * intros y Hy. apply I2. apply filter_In in Hy. apply filter_In.
        split; [tauto|]. destruct Hy as [_ Hy]. rewrite Set_has_add in Hy.
        destruct (Set_has P (Student.id y)); [|reflexivity].
        now rewrite orb_true_r in Hy.
    + apply IH; auto. intros y Hy. apply HP. now right.
Qed.

Lemma placePairs_ok pool : forall pairs gs P,
  (0 < List.length gs)%nat ->
  Forall (@NoDup Z) pairs ->
  exists gs' P',
    SameGroupHandler.placePairs pairs pool gs P = Returned (gs', P')
    /\ List.length gs' = List.length gs
    /\ (wf gs (unprocessed P pool) -> wf gs' (unprocessed P' pool)).
Proof.
  induction pairs as [|aPair pairs IH]; intros gs P HG HN; simpl.
  - exists gs, P. auto.
  - inversion HN as [|? ? N1 N2]; subst.
    set (available := filter _ aPair).
    assert (NA : NoDup available) by (apply NoDup_filter; assumption).
    assert (PA : forall x, In x available -> Set_has P x = false).
    { intros x Hx. apply filter_In in Hx. destruct Hx as [_ Hx].
      apply andb_true_iff in Hx. destruct Hx as [_ Hx].
      now apply negb_true_iff in Hx. }
    destruct available as [|a avail]; [now apply IH|].
    destruct (findAvailableGroup_ok (List.length (a :: avail)) HG)
      as (t & -> & Ht). rewrite bind_Returned.
    destruct (@addAll_ok t pool (a :: avail) gs P Ht NA PA)
      as (gs1 & P1 & -> & L1 & W1). rewrite bind_Returned.
    destruct (IH gs1 P1) as (gs2 & P2 & E2 & L2 & W2); [lia | assumption |].
    exists gs2, P2. split; [assumption|]. split; [lia|]. auto.
Qed.

Lemma unprocessed_nil (l : list Student) : unprocessed [] l = l.
Proof.
  induction l as [|s l IH]; [reflexivity|].
  unfold unprocessed in *. simpl. f_equal. exact IH.
Qed.

Lemma SameGroupHandler_sound {E : SortEngine} nextHandler :
  (forall next, nextHandler = Some next -> sound next) ->
  sound (SameGroupHandler.process nextHandler).
Proof.
  intros Hn context rs HG. unfold SameGroupHandler.process.
  destruct (findCondition "same-group" context) as [c|].
  2:{ eexists _, _. split; [reflexivity|]. simpl. auto. }
  pose proof (parseSameGroupInput_NoDup (Condition.config_input c)) as ND.
  destruct (parseSameGroupInput (Condition.config_input c)) as [|p pairs].
  { eexists _, _. split; [reflexivity|]. simpl. auto. }
  rewrite copyGroups_id.
  destruct (@placePairs_ok (Context.remainingStudents context) (p :: pairs)
              (Context.groups context) [] HG ND) as (gs1 & P1 & -> & L1 & W1).
  rewrite bind_Returned.
  destruct (@delegateOrDistribute_ok _ nextHandler context gs1
              (unprocessed P1 (Context.remainingStudents context)) rs Hn)
    as (res & rs' & -> & L & W); [lia|].
  exists res, rs'. split; [reflexivity|]. split; [lia|].
  intros W0. apply W, W1. now rewrite unprocessed_nil.
Qed.

(** *** BlockDistributionHandler *)

Lemma assignStudents_ok G shuffled : forall cur gs,
  List.length gs = G -> (cur < G)%nat ->
  exists gs' last log,
    BlockDistributionHandler.assignStudents G shuffled cur gs
    = Returned (gs', last, log)
    /\ List.length gs' = G /\ (last < G)%nat
    /\ Permutation (members gs') (shuffled ++ members gs).
Proof.
  induction shuffled as [|s shuffled IH]; intros cur gs HG Hc; simpl.
  - exists gs, cur, []. repeat split; auto.
  - rewrite pushStudent_give by lia. rewrite bind_Returned.
    destruct (IH ((cur + 1) mod G)%nat (give cur s gs))
      as (gs' & last & log & -> & L & Hl & P).
    { now rewrite give_length. }
    { apply Nat.mod_upper_bound. lia. }
    rewrite bind_Returned. eexists _, _, _. split; [reflexivity|].
    repeat split; auto.
    pose proof (@members_give cur s gs ltac:(lia)) as P2. perm_count.
Qed.

Lemma assignBlocks_ok {E : SortEngine} G blockGroups : forall cur gs rs,
  List.length gs = G -> (cur < G)%nat ->
  exists gs' logs rs',
    BlockDistributionHandler.assignBlocks G blockGroups cur gs rs
    = Returned (gs', logs, rs')
    /\ List.length gs' = G
    /\ Permutation (members gs') (concat blockGroups ++ members gs).
Proof.
  induction blockGroups as [|b blockGroups IH]; intros cur gs rs HG Hc; simpl.
  - exists gs, [], rs. repeat split; auto.
  - pose proof (sortRandom_perm b rs) as P0.
    destruct (sortRandom b rs) as [shuffled rs1]; simpl in P0.
    destruct (@assignStudents_ok G shuffled cur gs HG Hc)
      as (gs1 & next & log & -> & L1 & Hn & P1).
    rewrite bind_Returned.
    destruct (IH next gs1 rs1 L1 Hn) as (gs2 & logs & rs2 & -> & L2 & P2).
    rewrite bind_Returned. eexists _, _, _. split; [reflexivity|].
    split; [assumption|]. perm_count.
Qed.

Lemma pushAt_cnt z k s (bg : list (list Student)) :
  (cnt z (concat (BlockDistributionHandler.pushAt k s bg))
   <= idIs z s + cnt z (concat bg))%nat.
Proof.
  unfold BlockDistributionHandler.pushAt.
  destruct (nth_error bg k) as [l|] eqn:E; [|lia].
  destruct (updateNth_split (l ++ [s]) E) as (l1 & l2 & -> & -> & _).
  rewrite !concat_app. simpl. rewrite !cnt_app, cnt_cons, cnt_nil. lia.
Qed.

Lemma pushAt_In x k s (bg : list (list Student)) :
  In x (concat (BlockDistributionHandler.pushAt k s bg)) ->
  x = s \/ In x (concat bg).
Proof.
  unfold BlockDistributionHandler.pushAt.
  destruct (nth_error bg k) as [l|] eqn:E; [|tauto].
  destruct (updateNth_split (l ++ [s]) E) as (l1 & l2 & -> & -> & _).
  rewrite !concat_app. simpl. rewrite !in_app_iff. simpl.
  intuition (subst; auto).
Qed.

Lemma collect_fold M l : forall bg P,
  let '(bg', P') := fold_left (BlockDistributionHandler.collect M) l (bg, P) in
  (forall z, Set_has P z = true -> Set_has P' z = true)
  /\ (forall z, (cnt z (concat bg')
                 <= cnt z (concat bg) + (if Set_has P' z then cnt z l else 0))%nat)
  /\ incl (concat bg') (concat bg ++ l).
Proof.
  induction l as [|s l IH]; intros bg P; simpl.
  - repeat split; auto.
    + intros z. destruct (Set_has P z); lia.
    + rewrite app_nil_r. apply incl_refl.
  - destruct (Map_get M (Student.id s)) as [k|] eqn:EM.
    + specialize (IH (BlockDistributionHandler.pushAt k s bg)
                     (Set_add P (Student.id s))).
      destruct (fold_left _ l _) as [bg' P']. destruct IH as (S1 & C1 & I1).
      split; [|split].
      * intros z Hz. apply S1. rewrite Set_has_add, Hz. apply orb_true_r.
      * intros z. specialize (C1 z). pose proof (pushAt_cnt z k s bg) as C2.
        rewrite cnt_cons. destruct (Z.eq_dec (Student.id s) z) as [e|ne].
        -- assert (HP : Set_has P' z = true).
           { apply S1. rewrite Set_has_add, e, Z.eqb_refl. reflexivity. }
           rewrite HP in *. lia.
        -- rewrite idIs_other in * by assumption. destruct (Set_has P' z); lia.
      * intros x Hx. apply I1 in Hx. apply in_app_or in Hx.
        destruct Hx as [Hx|Hx].
        -- apply pushAt_In in Hx. apply in_or_app.
           destruct Hx as [->|Hx]; [right; now left | now left].
        -- apply in_or_app. right. now right.
    + specialize (IH bg P).
      destruct (fold_left _ l _) as [bg' P']. destruct IH as (S1 & C1 & I1).
      split; [assumption|]. split.
      * intros z. specialize (C1 z). rewrite cnt_cons.
        destruct (Set_has P' z); lia.
      * intros x Hx. apply I1 in Hx. apply in_app_or in Hx. apply in_or_app.
        destruct Hx; [now left | right; now right].
Qed.

Lemma concat_empties (A B : Type) (l : list B) :
  concat (map (fun _ => @nil A) l) = [].
Proof. induction l; simpl; auto. Qed.

Lemma BlockDistributionHandler_sound {E : SortEngine} nextHandler :
  (forall next, nextHandler = Some next -> sound next) ->
  sound (BlockDistributionHandler.process nextHandler).
Proof.
  intros Hn context rs HG. unfold BlockDistributionHandler.process.
  destruct (findCondition "block-distribution" context) as [c|].
  2:{ eexists _, _. split; [reflexivity|]. simpl. auto. }
  destruct (BlockDistributionHandler.parseBlocks (Condition.config_blockInputs c))
    as [|b blocks].
  { eexists _, _. split; [reflexivity|]. simpl. auto. }
  rewrite copyGroups_id.
  unfold BlockDistributionHandler.distributeBlockStudents,
    BlockDistributionHandler.distributeBlockStudentsTraced.
  set (pool := Context.remainingStudents context).
  set (M := BlockDistributionHandler.buildBlockStudentMap (b :: blocks)).
  pose proof (@collect_fold M pool (map (fun _ => []) (b :: blocks)) []) as CF.
  destruct (fold_left (BlockDistributionHandler.collect M) pool _) as [bg P'].
  destruct CF as (_ & C1 & I1). rewrite concat_empties in C1, I1.
  destruct (@assignBlocks_ok _ (List.length (Context.groups context)) bg 0%nat
              (Context.groups context) rs eq_refl HG)
    as (gs1 & logs & rs1 & -> & L1 & P1).
  rewrite !bind_Returned.
  destruct (@delegateOrDistribute_ok _ nextHandler context gs1
              (unprocessed P' pool) rs1 Hn)
    as (res & rs' & -> & L & W); [lia|].
  exists res, rs'. split; [reflexivity|]. split; [lia|].
  intros W0. apply W. revert W0. apply wf_of.
  - intros z. rewrite (cnt_perm z P1), cnt_app, cnt_unprocessed.
    specialize (C1 z). rewrite cnt_nil in C1. fold pool.
    destruct (Set_has P' z); lia.
  - intros x Hx. apply in_app_or in Hx. apply in_or_app. destruct Hx as [Hx|Hx].
    + apply (Permutation_in _ P1) in Hx. apply in_app_or in Hx.
      destruct Hx as [Hx|Hx]; [right; now apply I1 | now left].
    + right. apply filter_In in Hx. tauto.
Qed.

(** *** DifferentGroupHandler *)
(** The invariant of [assignToDifferentGroups]: a student of the pool
    whose seat number is processed, or is among the [pending] ones, does
    not count as unplaced. *)
Definition keeps (pending : list Z) (gs : list Group) (pool : list Student)
  (P : NumSet) : Prop :=
  (forall z, (cnt z (members gs)
              + (if Set_has P z || Set_has pending z then 0 else cnt z pool)
              <= 1)%nat)
  /\ incl (members gs) roster /\ incl pool roster.

Lemma keeps_mono pending pending' gs pool P P' :
  (forall z, Set_has P z || Set_has pending z = true ->
             Set_has P' z || Set_has pending' z = true) ->
  keeps pending gs pool P -> keeps pending' gs pool P'.
Proof.
  intros H (C & I1 & I2). split; [|auto]. intros z. specialize (C z).
  specialize (H z). destruct (Set_has P z || Set_has pending z).
  - rewrite H by reflexivity. lia.
  - destruct (Set_has P' z || Set_has pending' z); lia.
Qed.

Lemma Set_has_cons x l z : Set_has (x :: l) z = (z =? x) || Set_has l z.
Proof. reflexivity. Qed.

Lemma fold_Set_add_has l : forall P z,
  Set_has (fold_left Set_add l P) z = Set_has P z || Set_has l z.
Proof.
  induction l as [|x l IH]; intros P z.
  - simpl. unfold Set_has at 2. simpl. now rewrite orb_false_r.
  - simpl fold_left. rewrite IH, Set_has_add, Set_has_cons.
    destruct (z =? x), (Set_has P z), (Set_has l z); reflexivity.
Qed.

(** **** Taking members out of the group in conflict *)

Definition removeIds (E : list Z) (g : Group) : Group :=
  Group.withStudents
    (filter (fun s => negb (Set_has E (Student.id s))) (Group.students g)) g.

Lemma filter_filter_id (p q : Student -> bool) l :
  filter p (filter q l) = filter (fun s => q s && p s) l.
Proof.
  induction l as [|s l IH]; simpl; [reflexivity|].
  destruct (q s); simpl; [destruct (p s)|]; now rewrite IH.
Qed.

Lemma removeIds_nil g : removeIds [] g = g.
Proof.
  unfold removeIds, Group.withStudents. destruct g as [i n ss]; simpl. f_equal.
  induction ss; simpl; congruence.
Qed.

Lemma updateNth_same (A : Type) (l : list A) i x :
  nth_error l i = Some x -> updateNth i x l = l.
Proof.
  revert i; induction l as [|y l IH]; intros [|i] H; simpl in *; try discriminate.
  - now inversion H.
  - f_equal. now apply IH.
Qed.

Lemma updateNth_twice (A : Type) (l : list A) i x y :
  updateNth i x (updateNth i y l) = updateNth i x l.
Proof.
  revert i; induction l as [|z l IH]; intros [|i]; simpl; auto. f_equal. apply IH.
Qed.

Lemma evict_ok c E : forall gs pool g,
  nth_error gs c = Some g ->
  exists objs,
    DifferentGroupHandler.evict c E gs pool
    = Returned (updateNth c (removeIds E g) gs, pool ++ objs)
    /\ Forall (fun o => In o (Group.students g) /\ In (Student.id o) E) objs.
Proof.
  induction E as [|x E IH]; intros gs pool g Hg; simpl.
  - exists []. rewrite app_nil_r, removeIds_nil, updateNth_same by assumption.
    split; [reflexivity | constructor].
  - rewrite Hg. simpl.
    destruct (find (hasId x) (Group.students g)) as [obj|] eqn:Ef.
    + set (g1 := Group.withStudents
                   (filter (fun s => negb (hasId x s)) (Group.students g)) g).
      destruct (IH (updateNth c g1 gs) (pool ++ [obj]) g1) as (objs & -> & F).
      { apply nth_error_updateNth_eq. apply nth_error_Some. congruence. }
      exists (obj :: objs). rewrite updateNth_twice, <- app_assoc. simpl.
      split.
      * f_equal. f_equal. f_equal. unfold removeIds, g1, Group.withStudents; simpl.
        f_equal. rewrite filter_filter_id. apply filter_ext. intros s.
        unfold Set_has, hasId. simpl. now rewrite negb_orb.
      * apply find_hasId_Some in Ef. destruct Ef as [Io Eo].
        constructor; [split; [assumption | left; congruence]|].
        eapply Forall_impl; [|exact F]. intros o [H1 H2]. split; [|now right].
        unfold g1 in H1. simpl in H1. apply filter_In in H1. tauto.
    + destruct (IH gs pool g Hg) as (objs & -> & F).
      exists objs. split.
      * f_equal. f_equal. f_equal. unfold removeIds. f_equal.
        apply filter_ext_in. intros s Hs.
        pose proof (find_none _ _ Ef _ Hs) as N. unfold hasId in N.
        unfold Set_has. simpl. now rewrite N.
      * eapply Forall_impl; [|exact F]. intros o [H1 H2]. split; [assumption|now right].
Qed.

Lemma cnt_removeIds z E g :
  cnt z (Group.students (removeIds E g))
  = if Set_has E z then 0%nat else cnt z (Group.students g).
Proof.
  unfold removeIds; simpl.
  rewrite (cnt_filter_id z (fun x => negb (Set_has E x))).
  now destruct (Set_has E z).
Qed.

(** **** Giving the members taken out a new group *)

Lemma available_head (p : nat * Group -> bool) gs i g rest :
  Array_sort DifferentGroupHandler.bySize (filter p (indexed gs)) = (i, g) :: rest ->
  nth_error gs i = Some g.
Proof.
  intros H. apply In_indexed.
  assert (I : In (i, g) (Array_sort DifferentGroupHandler.bySize (filter p (indexed gs))))
    by (rewrite H; now left).
  apply Array_sort_In in I. apply filter_In in I. tauto.
Qed.

Lemma redistributeStudents_ok pending c pool P : forall E gs,
  NoDup E ->
  (forall x, In x E -> Set_has pending x = true /\ cnt x (members gs) = 0%nat) ->
  keeps pending gs pool P ->
  let gs' := DifferentGroupHandler.redistributeStudents gs E pool c in
  keeps pending gs' pool P
  /\ List.length gs' = List.length gs
  /\ (forall z, ~ In z E -> cnt z (members gs') = cnt z (members gs)).
Proof.
  induction E as [|x E IH]; intros gs ND HE K; simpl.
  - auto.
  - inversion ND as [|? ? Hx ND']; subst.
    assert (HE' : forall y, In y E -> Set_has pending y = true /\ cnt y (members gs) = 0%nat)
      by (intros y Hy; apply HE; now right).
    destruct (find (hasId x) pool) as [s|] eqn:Ef.
    2:{ destruct (IH gs ND' HE' K) as (K' & L & U).
        split; [exact K'|]. split; [exact L|].
        intros z Hz. apply U. intros I. apply Hz. now right. }
    destruct (Array_sort _ _) as [|[i g] rest] eqn:EA.
    { destruct (IH gs ND' HE' K) as (K' & L & U).
      split; [exact K'|]. split; [exact L|].
      intros z Hz. apply U. intros I. apply Hz. now right. }
    apply available_head in EA.
    assert (Hi : (i < List.length gs)%nat) by (apply nth_error_Some; congruence).
    assert (Eg : updateNth i (Group.push s g) gs = give i s gs).
    { unfold give. now rewrite EA. }
    rewrite Eg. apply find_hasId_Some in Ef. destruct Ef as [Is Es].
    destruct (HE x (or_introl eq_refl)) as [Hp Hc].
    destruct (IH (give i s gs)) as (K' & L & U).
    + assumption.
    + intros y Hy. destruct (HE' y Hy) as [H1 H2]. split; [assumption|].
      rewrite cnt_members_give by assumption. rewrite idIs_other; [lia|].
      intros e. apply Hx. congruence.
    + destruct K as (C & I1 & I2). split; [|split].
      * intros z. specialize (C z). rewrite cnt_members_give by assumption.
        destruct (Z.eq_dec (Student.id s) z) as [e|ne].
        -- subst z. rewrite Es in *. rewrite Hp, orb_true_r in *.
           rewrite <- Es at 1. rewrite idIs_id. lia.
        -- rewrite idIs_other by assumption. exact C.
      * intros y Hy. apply In_members_give in Hy.
        destruct Hy as [->|Hy]; [now apply I2 | now apply I1].
      * assumption.
    + split; [assumption|]. split; [now rewrite L, give_length|].
      intros z Hz. rewrite U by (intros I; apply Hz; now right).
      rewrite cnt_members_give by assumption.
      rewrite idIs_other; [reflexivity|]. intros e. apply Hz. left. congruence.
Qed.

(** **** Placing the members that are still in the pool *)

Lemma Set_has_nil z : Set_has [] z = false.
Proof. reflexivity. Qed.

Lemma placeUnplaced_ok M pool : forall L used gs P,
  (0 < List.length gs)%nat ->
  NoDup L ->
  exists gs' P',
    DifferentGroupHandler.placeUnplaced M L used gs pool P = Returned (gs', P')
    /\ List.length gs' = List.length gs
    /\ ((forall x, In x L -> Map_has M x = false -> cnt x (members gs) = 0%nat) ->
        keeps [] gs pool P -> keeps [] gs' pool P').
Proof.
  induction L as [|x L IH]; intros used gs P HG ND; simpl.
  - exists gs, P. auto.
  - inversion ND as [|? ? Hx ND']; subst.
    destruct (Map_has M x) eqn:EM.
    { destruct (IH used gs (Set_add P x) HG ND') as (gs' & P' & E & L' & K').
      exists gs', P'. split; [assumption|]. split; [assumption|].
      intros HL K. apply K'; [intros y Hy; apply HL; now right|].
      revert K. apply keeps_mono. intros z Hz.
      rewrite Set_has_add. rewrite Set_has_nil, orb_false_r in *.
      rewrite Hz. apply orb_true_r. }
    destruct (find (hasId x) pool) as [s|] eqn:Ef.
    2:{ destruct (IH used gs P HG ND') as (gs' & P' & E & L' & K').
        exists gs', P'. split; [assumption|]. split; [assumption|].
        intros HL K. apply K'; [intros y Hy; apply HL; now right | assumption]. }
    apply find_hasId_Some in Ef. destruct Ef as [Is Es].
    assert (T : exists i used',
               (match Array_sort DifferentGroupHandler.bySize
                        (filter (fun ig => negb (IndexSet_has used (fst ig)))
                                (indexed gs)) with
                | (i, _) :: _ => Returned (i, IndexSet_add used i)
                | [] => i <- leastOccupied gs ;; Returned (i, used)
                end) = Returned (i, used') /\ (i < List.length gs)%nat).
    { destruct (Array_sort _ _) as [|[i g] rest] eqn:EA.
      - destruct (leastOccupied_ok HG) as (i & -> & Hi). simpl. eauto.
      - apply available_head in EA. eexists _, _. split; [reflexivity|].
        apply nth_error_Some. congruence. }
    destruct T as (i & used' & -> & Hi). rewrite bind_Returned.
    rewrite pushStudent_give by assumption. rewrite bind_Returned.
    destruct (IH used' (give i s gs) (Set_add P x)) as (gs' & P' & E & L' & K').
    { now rewrite give_length. }
    { assumption. }
    exists gs', P'. split; [assumption|]. split; [now rewrite L', give_length|].
    intros HL K.
    assert (Hc : cnt x (members gs) = 0%nat) by (apply HL; [now left | assumption]).
    apply K'.
    + intros y Hy Hm. rewrite cnt_members_give by assumption.
      rewrite (HL y (or_intror Hy) Hm). rewrite idIs_other; [reflexivity|].
      intros e. apply Hx. congruence.
    + destruct K as (C & I1 & I2). split; [|split].
      * intros z. specialize (C z). rewrite cnt_members_give by assumption.
        rewrite Set_has_add. rewrite Set_has_nil, orb_false_r in *.
        destruct (Z.eqb_spec z x) as [->|ne]; simpl.
        -- rewrite <- Es at 1. rewrite idIs_id. lia.
        -- rewrite idIs_other by congruence. exact C.
      * intros y Hy. apply In_members_give in Hy.
        destruct Hy as [->|Hy]; [now apply I2 | now apply I1].
      * assumption.
Qed.

Lemma redistributeStudents_length c pool : forall E gs,
  List.length (DifferentGroupHandler.redistributeStudents gs E pool c)
  = List.length gs.
Proof.
  induction E as [|x E IH]; intros gs; simpl; [reflexivity|].
  destruct (find (hasId x) pool); [|apply IH].
  destruct (Array_sort _ _) as [|[i g] rest]; [apply IH|].
  rewrite IH. apply updateNth_length.
Qed.

Lemma fold_IndexSet_add_head l : forall a acc,
  exists rest, fold_left IndexSet_add l (a :: acc) = a :: rest.
Proof.
  induction l as [|x l IH]; intros a acc; simpl; [now exists acc|].
  unfold IndexSet_add at 2. destruct (IndexSet_has (a :: acc) x).
  - apply IH.
  - simpl. apply IH.
Qed.

Lemma valuesSet_head (M : NumMap) c rest :
  DifferentGroupHandler.valuesSet M = c :: rest -> exists x, Map_get M x = Some c.
Proof.
  unfold DifferentGroupHandler.valuesSet. destruct M as [|[k v] M]; simpl; [discriminate|].
  unfold IndexSet_add at 2. simpl.
  destruct (fold_IndexSet_add_head (map snd M) v []) as (r & ->).
  intros [= <- _]. exists k. now rewrite Z.eqb_refl.
Qed.

(** **** One cluster, and all of them *)

Lemma fold_mark_mono M ids : forall P z,
  Set_has P z = true ->
  Set_has (fold_left (fun p studentId =>
                        if Map_has M studentId then Set_add p studentId else p)
                     ids P) z = true.
Proof.
  induction ids as [|x ids IH]; intros P z H; simpl; [assumption|].
  apply IH. destruct (Map_has M x); [|assumption].
  rewrite Set_has_add, H. apply orb_true_r.
Qed.

Lemma assignToDifferentGroups_ok gs ids pool P :
  (0 < List.length gs)%nat ->
  NoDup ids ->
  exists gs' pool' P',
    DifferentGroupHandler.assignToDifferentGroups gs ids pool P
    = Returned (gs', pool', P')
    /\ List.length gs' = List.length gs
    /\ (keeps [] gs pool P -> keeps [] gs' pool' P').
Proof.
  intros HG ND. unfold DifferentGroupHandler.assignToDifferentGroups.
  set (M := DifferentGroupHandler.buildStudentGroupMap gs ids).
  assert (HM : forall x, In x ids -> Map_has M x = false -> cnt x (members gs) = 0%nat).
  { intros x Hx Hm. destruct (cnt x (members gs)) eqn:Ec; [reflexivity|].
    pose proof (@studentGroupMap_has ids gs x Hx ltac:(lia)) as T.
    fold M in T. congruence. }
  destruct (DifferentGroupHandler.valuesSet M) as [|c [|c' more]] eqn:EV.
  - (* nobody of the cluster sits in a group *)
    rewrite bind_Returned.
    destruct (@placeUnplaced_ok M pool ids [] gs P HG ND)
      as (gs' & P' & -> & L & K').
    rewrite bind_Returned. eexists _, _, _. split; [reflexivity|]. auto.
  - (* the members that sit in a group sit in one group *)
    set (E := tl (filter (fun studentId =>
                            match Map_get M studentId with
                            | Some i => (i =? c)%nat
                            | None => false
                            end) ids)).
    assert (HE : forall x, In x E -> In x ids /\ Map_get M x = Some c).
    { intros x Hx. unfold E in Hx.
      assert (I : In x (filter (fun studentId =>
                                  match Map_get M studentId with
                                  | Some i => (i =? c)%nat
                                  | None => false
                                  end) ids)).
      { destruct (filter _ ids); [destruct Hx | now right]. }
      apply filter_In in I. destruct I as [I1 I2]. split; [assumption|].
      destruct (Map_get M x); [|discriminate].
      apply Nat.eqb_eq in I2. now subst. }
    assert (NE : NoDup E).
    { unfold E. assert (N : NoDup (filter (fun studentId =>
                                  match Map_get M studentId with
                                  | Some i => (i =? c)%nat
                                  | None => false
                                  end) ids)) by (now apply NoDup_filter).
      destruct (filter _ ids); [constructor | now inversion N]. }
    assert (Hc : exists g, nth_error gs c = Some g).
    { destruct (valuesSet_head EV) as (x1 & Hx1).
      destruct (studentGroupMap_get Hx1) as (g & Eg & _). now exists g. }
    destruct Hc as (g & Eg).
    destruct (@evict_ok c E gs pool g Eg) as (objs & -> & F). rewrite !bind_Returned.
    set (gs1 := updateNth c (removeIds E g) gs).
    set (gs2 := DifferentGroupHandler.redistributeStudents gs1 E (pool ++ objs) c).
    assert (L2 : List.length gs2 = List.length gs).
    { unfold gs2. rewrite redistributeStudents_length. apply updateNth_length. }
    destruct (@placeUnplaced_ok M (pool ++ objs) ids [c] gs2 (fold_left Set_add ids P))
      as (gs' & P' & -> & L & K'); [lia | assumption |].
    rewrite bind_Returned. eexists _, _, _. split; [reflexivity|].
    split; [lia|]. intros K.
    assert (C1 : forall z, (cnt z (members gs1) + cnt z (Group.students g)
                            = cnt z (members gs)
                              + (if Set_has E z then 0 else cnt z (Group.students g)))%nat).
    { intros z. unfold gs1. rewrite (cnt_members_update z (removeIds E g) Eg).
      now rewrite cnt_removeIds. }
    assert (Ig : incl (Group.students g) (members gs)).
    { intros y Hy. unfold members. apply in_flat_map. exists g.
      split; [eapply nth_error_In; eassumption | assumption]. }
    assert (K1 : keeps ids gs1 (pool ++ objs) P).
    { destruct K as (C & I1 & I2). split; [|split].
      - intros z. specialize (C z). specialize (C1 z).
        rewrite Set_has_nil, orb_false_r in C. rewrite cnt_app.
        assert (Co : Set_has ids z = false -> cnt z objs = 0%nat).
        { intros Hz. apply cnt_0_notIn. intros I. apply in_map_iff in I.
          destruct I as (o & Eo & Io). rewrite Forall_forall in F.
          destruct (F o Io) as [_ Ho]. apply HE in Ho. destruct Ho as [Ho _].
          apply Set_has_In in Ho. congruence. }
        destruct (Set_has P z), (Set_has ids z), (Set_has E z); simpl;
          try specialize (Co eq_refl); lia.
      - intros y Hy. unfold gs1 in Hy. apply (In_members_update Eg) in Hy.
        destruct Hy as [Hy|Hy]; [now apply I1|]. apply I1, Ig.
        unfold removeIds in Hy; simpl in Hy. apply filter_In in Hy. tauto.
      - intros y Hy. apply in_app_or in Hy. destruct Hy as [Hy|Hy]; [now apply I2|].
        rewrite Forall_forall in F. destruct (F y Hy) as [Hs _]. apply I1, Ig, Hs. }
    assert (Z1 : forall x, In x E -> Set_has ids x = true /\ cnt x (members gs1) = 0%nat).
    { intros x Hx. destruct (HE x Hx) as [Hi Hm]. split; [now apply Set_has_In|].
      destruct (studentGroupMap_get Hm) as (g' & Eg' & Ix).
      assert (g' = g) by congruence. subst g'.
      apply cnt_pos_In in Ix. specialize (C1 x).
      assert (Set_has E x = true) by now apply Set_has_In.
      destruct K as (C & _). specialize (C x).
      rewrite H in C1. lia. }
    destruct (@redistributeStudents_ok ids c (pool ++ objs) P E gs1 NE Z1 K1)
      as (K2 & _ & U2). fold gs2 in K2, U2.
    apply K'.
    + intros x Hx Hm.
      assert (NI : ~ In x E).
      { intros I. destruct (HE x I) as [_ Hg]. unfold Map_has in Hm.
        now rewrite Hg in Hm. }
      rewrite (U2 x NI). specialize (C1 x). specialize (HM x Hx Hm).
      destruct (Set_has E x); lia.
    + revert K2. apply keeps_mono. intros z Hz.
      rewrite fold_Set_add_has, Set_has_nil, orb_false_r. exact Hz.
  - (* the cluster is spread already *)
    rewrite bind_Returned.
    destruct (@placeUnplaced_ok M pool ids (DifferentGroupHandler.valuesSet M) gs
                (fold_left (fun p studentId =>
                              if Map_has M studentId then Set_add p studentId else p)
                           ids P) HG ND)
      as (gs' & P' & E' & L & K').
    rewrite EV in E'. rewrite E'.
    rewrite bind_Returned. eexists _, _, _. split; [reflexivity|].
    split; [assumption|]. intros K. apply K'; [assumption|].
    revert K. apply keeps_mono. intros z Hz.
    rewrite Set_has_nil, orb_false_r in *. now apply fold_mark_mono.
Qed.

Lemma assignAll_ok pairs : forall gs pool P,
  (0 < List.length gs)%nat ->
  Forall (@NoDup Z) pairs ->
  exists gs' pool' P',
    DifferentGroupHandler.assignAll pairs gs pool P = Returned (gs', pool', P')
    /\ List.length gs' = List.length gs
    /\ (keeps [] gs pool P -> keeps [] gs' pool' P').
Proof.
  induction pairs as [|aPair pairs IH]; intros gs pool P HG HN; simpl.
  - exists gs, pool, P. auto.
  - inversion HN as [|? ? N1 N2]; subst.
    destruct (@assignToDifferentGroups_ok gs aPair pool P HG N1)
      as (gs1 & pool1 & P1 & -> & L1 & K1).
    rewrite bind_Returned.
    destruct (IH gs1 pool1 P1) as (gs2 & pool2 & P2 & -> & L2 & K2);
      [lia | assumption |].
    eexists _, _, _. split; [reflexivity|]. split; [lia | auto].
Qed.

Lemma DifferentGroupHandler_sound {E : SortEngine} nextHandler :
  (forall next, nextHandler = Some next -> sound next) ->
  sound (DifferentGroupHandler.process nextHandler).
Proof.
  intros Hn context rs HG. unfold DifferentGroupHandler.process.
  destruct (findCondition "different-group" context) as [c|].
  2:{ eexists _, _. split; [reflexivity|]. simpl. auto. }
  pose proof (parseDifferentGroupInput_NoDup (Condition.config_input c)) as ND.
  destruct (parseDifferentGroupInput (Condition.config_input c)) as [|p pairs].
  { eexists _, _. split; [reflexivity|]. simpl. auto. }
  rewrite copyGroups_id.
  destruct (@assignAll_ok (p :: pairs) (Context.groups context)
              (Context.remainingStudents context) [] HG ND)
    as (gs1 & pool1 & P1 & -> & L1 & K1).
  rewrite bind_Returned.
  destruct (@delegateOrDistribute_ok _ nextHandler context gs1
              (unprocessed P1 pool1) rs Hn)
    as (res & rs' & -> & L & W); [lia|].
  exists res, rs'. split; [reflexivity|]. split; [lia|].
  intros (C0 & J1 & J2). apply W.
  destruct K1 as (C & I1 & I2).
  { split; [|auto]. intros z. apply C0. }
  split; [|split].
  - intros z. specialize (C z). rewrite cnt_unprocessed.
    now rewrite Set_has_nil, orb_false_r in C.
  - assumption.
  - intros y Hy. apply I2. apply filter_In in Hy. tauto.
Qed.

(** *** The whole chain *)

Lemma chain_sound {E : SortEngine} : sound blockDistributionHandler.
Proof.
  assert (S4 : sound genderRatioHandler)
    by (apply sound_handle_last, GenderRatioHandler_sound).
  assert (S3 : sound differentGroupHandler).
  { apply sound_handle; [|assumption].
    apply DifferentGroupHandler_sound. now intros next [= <-]. }
  assert (S2 : sound sameGroupHandler).
  { apply sound_handle; [|assumption].
    apply SameGroupHandler_sound. now intros next [= <-]. }
  apply sound_handle; [|assumption].
  apply BlockDistributionHandler_sound. now intros next [= <-].
Qed.

End Chain.

(* ================================================================== *)
(** * performGrouping                                                  *)
(* ================================================================== *)

Lemma clearGroups_members_nil gs z : cnt z (members (clearGroups gs)) = 0%nat.
Proof. now rewrite members_clearGroups. Qed.

Lemma NoDup_ids_cnt (l : list Student) :
  NoDup (map Student.id l) <-> forall z, (cnt z l <= 1)%nat.
Proof. unfold cnt. apply NoDup_count_occ. Qed.

(** The chain, as [performGrouping] starts it, returns; the groups it
    hands to the equalizer are as many as before, and when the seat
    numbers of the roster are distinct they hold students of the roster,
    nobody twice. *)
Lemma chain_result {E : SortEngine} (roster : list Student) (gs : list Group)
  (conditions : list GroupingCondition) rs :
  (0 < List.length gs)%nat ->
  exists result rs1,
    blockDistributionHandler
      {| Context.students := roster;
         Context.groups := clearGroups (clearGroups gs);
         Context.conditions := conditions;
         Context.remainingStudents := roster |} rs
    = Returned (result, rs1)
    /\ let finalGroups :=
         if Result.handled result then Result.groups result
         else clearGroups (clearGroups gs) in
       List.length finalGroups = List.length gs
       /\ (NoDup (map Student.id roster) ->
           NoDup (map Student.id (members finalGroups))
           /\ incl (members finalGroups) roster).
Proof.
  intros HG.
  destruct (@chain_sound roster E
              {| Context.students := roster;
                 Context.groups := clearGroups (clearGroups gs);
                 Context.conditions := conditions;
                 Context.remainingStudents := roster |} rs)
    as (result & rs1 & -> & L & W).
  { simpl. now rewrite !clearGroups_length. }
  simpl in L, W. rewrite !clearGroups_length in L.
  exists result, rs1. split; [reflexivity|]. cbv zeta.
  destruct (Result.handled result).
  - split; [assumption|]. intros ND.
    destruct W as (C & I1 & I2).
    { split; [|split].
      - intros z. rewrite clearGroups_members_nil. simpl.
        now apply NoDup_ids_cnt.
      - rewrite members_clearGroups. intros x [].
      - apply incl_refl. }
    split; [|assumption]. apply NoDup_ids_cnt. intros z. specialize (C z). lia.
  - rewrite !clearGroups_length. split; [reflexivity|]. intros _.
    rewrite members_clearGroups. split; [constructor | intros x []].
Qed.

(** The students the equalizer redistributes are the roster. *)
Lemma studentsToDistribute_perm (gs : list Group) (roster : list Student) :
  NoDup (map Student.id roster) ->
  NoDup (map Student.id (members gs)) ->
  incl (members gs) roster ->
  Permutation (studentsToDistribute gs roster) roster.
Proof.
  intros NR NA IA. unfold studentsToDistribute. fold (members gs).
  set (A := members gs) in *.
  apply NoDup_Permutation.
  - apply NoDup_app.
    + eapply NoDup_map_inv; eassumption.
    + apply NoDup_filter. eapply NoDup_map_inv; eassumption.
    + intros x Hx Hf. apply filter_In in Hf. destruct Hf as [_ Hf].
      apply negb_true_iff in Hf.
      assert (T : existsb (hasId (Student.id x)) A = true).
      { apply existsb_exists. exists x. split; [assumption|].
        unfold hasId. apply Z.eqb_refl. }
      congruence.
  - eapply NoDup_map_inv; eassumption.
  - intros x. rewrite in_app_iff, filter_In. split.
    + intros [H|[H _]]; [now apply IA | assumption].
    + intros H.
      destruct (existsb (hasId (Student.id x)) A) eqn:EX; [|right; auto].
      left. apply existsb_exists in EX. destruct EX as (a & Ia & Ea).
      unfold hasId in Ea. apply Z.eqb_eq in Ea.
      assert (a = x); [|now subst].
      apply IA in Ia. clear -NR Ia H Ea.
      induction roster as [|r roster IH]; [destruct H|].
      simpl in NR. inversion NR as [|? ? N1 N2]; subst.
      destruct Ia as [->|Ia], H as [->|H]; auto.
      * exfalso. apply N1. rewrite Ea. now apply in_map.
      * exfalso. apply N1. rewrite <- Ea. now apply in_map.
Qed.

Definition balanced (gs : list Group) : Prop :=
  forall g g', In g gs -> In g' gs -> (Group.size g <= Group.size g' + 1)%nat.

Lemma sizes_balanced T gs :
  (forall j, (j < List.length gs)%nat -> sizeAt gs j = targetSize T (List.length gs) j) ->
  balanced gs.
Proof.
  intros H g g' Ig Ig'.
  apply In_nth_error in Ig, Ig'. destruct Ig as [i Ei], Ig' as [j Ej].
  assert (Hi : (i < List.length gs)%nat) by (apply nth_error_Some; congruence).
  assert (Hj : (j < List.length gs)%nat) by (apply nth_error_Some; congruence).
  pose proof (H i Hi) as Si. pose proof (H j Hj) as Sj.
  unfold sizeAt in Si, Sj. rewrite Ei in Si. rewrite Ej in Sj.
  rewrite Si, Sj. apply targetSize_spread; lia.
Qed.

(** The equalizer on any array of at least one group, whatever it holds:
    it returns, and the sizes differ by one at most. *)
Lemma forceEqualDistribution_balanced {E : SortEngine} gs allStudents rs :
  (0 < List.length gs)%nat ->
  exists gs' rs',
    forceEqualDistribution gs allStudents rs = Returned (gs', rs')
    /\ List.length gs' = List.length gs
    /\ balanced gs'
    /\ Permutation (members gs') (studentsToDistribute gs allStudents).
Proof.
  intros HG.
  pose proof (forceEqualDistribution_refines allStudents rs HG) as R.
  pose proof (shuffledPools_perm gs allStudents rs) as P.
  destruct (shuffledPools gs allStudents rs) as [[m f] rs'].
  destruct (redistribute_spec m f HG) as (L & Sz & P2).
  exists (redistribute m f gs), rs'. split; [assumption|]. split; [assumption|].
  split.
  - eapply sizes_balanced. rewrite L. exact Sz.
  - eapply Permutation_trans; eassumption.
Qed.

(** The largest and the smallest size over an array of groups. *)
Definition maxSize (gs : list Group) : nat :=
  fold_right Nat.max 0%nat (map Group.size gs).

Definition minSize (gs : list Group) : nat :=
  match map Group.size gs with
  | [] => 0%nat
  | n :: sizes => fold_right Nat.min n sizes
  end.

Lemma maxSize_attained gs : gs <> [] -> exists g, In g gs /\ Group.size g = maxSize gs.
Proof.
  induction gs as [|g gs IH]; [congruence|]. intros _.
  destruct gs as [|h gs].
  - exists g. split; [now left|]. unfold maxSize; simpl. lia.
  - destruct (IH ltac:(discriminate)) as (m & Im & Em).
    unfold maxSize in *. simpl in *.
    destruct (Nat.max_spec (Group.size g)
                (Nat.max (Group.size h) (fold_right Nat.max 0%nat (map Group.size gs))))
      as [[_ ->]|[_ ->]].
    + exists m. split; [now right | assumption].
    + exists g. split; [now left | reflexivity].
Qed.

Lemma fold_min_attained (l : list nat) n :
  fold_right Nat.min n l = n \/ In (fold_right Nat.min n l) l.
Proof.
  induction l as [|x l IH]; simpl; [now left|].
  destruct (Nat.min_spec x (fold_right Nat.min n l)) as [[_ ->]|[_ ->]].
  - right. now left.
  - destruct IH as [IH|IH]; [now left | right; now right].
Qed.

Lemma minSize_attained gs : gs <> [] -> exists g, In g gs /\ Group.size g = minSize gs.
Proof.
  destruct gs as [|g gs]; [congruence|]. intros _. unfold minSize. simpl.
  destruct (fold_min_attained (map Group.size gs) (Group.size g)) as [->|I].
  - exists g. split; [now left | reflexivity].
  - apply in_map_iff in I. destruct I as (h & Eh & Ih).
    exists h. split; [now right | assumption].
Qed.

Lemma balanced_max_min gs : balanced gs -> (maxSize gs - minSize gs <= 1)%nat.
Proof.
  intros B. destruct gs as [|g gs]; [unfold maxSize, minSize; simpl; lia|].
  destruct (@maxSize_attained (g :: gs) ltac:(discriminate)) as (a & Ia & <-).
  destruct (@minSize_attained (g :: gs) ltac:(discriminate)) as (b & Ib & <-).
  specialize (B a b Ia Ib). lia.
Qed.

(** C2.  For every roster and every array of at least one group,
    [performGrouping] returns, and over the groups it stores the largest
    size exceeds the smallest by one at most, whatever conditions are
    enabled; the same holds for the equalizer on any array of groups,
    whatever the chain left in it. *)
Theorem performGrouping_sizes_balanced {E : SortEngine}
  (conditionsService : GroupingConditionsService.State) (st : State)
  (rs : RandomSource) :
  (0 < List.length (groups st))%nat ->
  (exists st' rs',
      performGrouping conditionsService st rs = Returned (st', rs')
      /\ List.length (groups st') = List.length (groups st)
      /\ (maxSize (groups st') - minSize (groups st') <= 1)%nat)
  /\ (forall chainGroups rs0,
         List.length chainGroups = List.length (groups st) ->
         exists gs' rs',
           forceEqualDistribution chainGroups (students st) rs0 = Returned (gs', rs')
           /\ (maxSize gs' - minSize gs' <= 1)%nat).
Proof.
  intros HG. split.
  - unfold performGrouping.
    destruct (@chain_result E (students st) (groups st)
                (map toCondition
                     (indexed (GroupingConditionsService.getEnabledConditions
                                 conditionsService))) rs HG)
      as (result & rs1 & -> & L & _).
    rewrite bind_Returned. cbv zeta in L.
    destruct (@forceEqualDistribution_balanced E _ (students st) rs1
                ltac:(rewrite L; exact HG))
      as (gs' & rs' & -> & L' & B & _).
    rewrite bind_Returned. eexists _, _. split; [reflexivity|]. simpl.
    split; [lia | now apply balanced_max_min].
  - intros chainGroups rs0 L.
    destruct (@forceEqualDistribution_balanced E chainGroups (students st) rs0
                ltac:(rewrite L; exact HG))
      as (gs' & rs' & -> & _ & B & _).
    eexists _, _. split; [reflexivity | now apply balanced_max_min].
Qed.

(** C1.  For every roster with distinct seat numbers and every array of
    at least one group, [performGrouping] returns and the groups it
    stores, taken together, are a rearrangement of the roster: every
    student sits in a group, nobody sits twice, nobody else sits. *)
Theorem performGrouping_partitions_roster {E : SortEngine}
  (conditionsService : GroupingConditionsService.State) (st : State)
  (rs : RandomSource) :
  (0 < List.length (groups st))%nat ->
  NoDup (map Student.id (students st)) ->
  exists st' rs',
    performGrouping conditionsService st rs = Returned (st', rs')
    /\ students st' = students st
    /\ Permutation (members (groups st')) (students st)
    /\ NoDup (members (groups st')).
Proof.
  intros HG ND. unfold performGrouping.
  destruct (@chain_result E (students st) (groups st)
              (map toCondition
                   (indexed (GroupingConditionsService.getEnabledConditions
                               conditionsService))) rs HG)
    as (result & rs1 & -> & L & W).
  rewrite bind_Returned. cbv zeta in L, W. destruct (W ND) as [NA IA].
  destruct (@forceEqualDistribution_balanced E _ (students st) rs1
              ltac:(rewrite L; exact HG))
    as (gs' & rs' & -> & _ & _ & P).
  rewrite bind_Returned. eexists _, _. split; [reflexivity|]. simpl.
  split; [reflexivity|].
  assert (P' : Permutation (members gs') (students st)).
  { eapply Permutation_trans; [exact P|].
    now apply studentsToDistribute_perm. }
  split; [assumption|].
  eapply Permutation_NoDup; [apply Permutation_sym, P'|].
  eapply NoDup_map_inv; eassumption.
Qed.

(** ** A source that returns the midpoint on every call *)

Definition alwaysMidpoint (rs : RandomSource) : Prop :=
  forall n, (value (draws rs n) == 1 # 2)%Q.

Lemma midpoint_alwaysMidpoint : alwaysMidpoint midpoint.
Proof. intros n. reflexivity. Qed.

Lemma shuffledPools_midpoint {E : SortEngine} gs allStudents rs :
  alwaysMidpoint rs ->
  exists rs',
    shuffledPools gs allStudents rs
    = (filter isMale (studentsToDistribute gs allStudents),
       filter isFemale (studentsToDistribute gs allStudents), rs').
Proof.
  intros H. unfold shuffledPools.
  set (pool := studentsToDistribute gs allStudents).
  pose proof (sortRandom_stable (filter isMale pool) H) as S1.
  destruct (sortRandom_draws (filter isMale pool) rs) as [n D1].
  destruct (sortRandom (filter isMale pool) rs) as [m rs1]; simpl in S1, D1.
  assert (H1 : alwaysMidpoint rs1) by (subst rs1; exact H).
  pose proof (sortRandom_stable (filter isFemale pool) H1) as S2.
  destruct (sortRandom (filter isFemale pool) rs1) as [f rs2]; simpl in S2.
  subst m f. now exists rs2.
Qed.

(** With no condition in the context every handler declines. *)
Lemma chain_without_conditions {E : SortEngine} context rs :
  Context.conditions context = [] ->
  blockDistributionHandler context rs = Returned (notEnabled context, rs).
Proof.
  intros H.
  unfold blockDistributionHandler, sameGroupHandler, differentGroupHandler,
    genderRatioHandler, handle, BlockDistributionHandler.process,
    SameGroupHandler.process, DifferentGroupHandler.process,
    GenderRatioHandler.process, findCondition.
  rewrite H. reflexivity.
Qed.

Lemma studentsToDistribute_cleared gs (roster : list Student) :
  studentsToDistribute (clearGroups gs) roster = roster.
Proof.
  unfold studentsToDistribute. fold (members (clearGroups gs)).
  rewrite members_clearGroups. simpl.
  induction roster as [|s roster IH]; simpl; congruence.
Qed.

Definition seatNumbers (gs : list Group) : list (list Z) :=
  map (fun g => map Student.id (Group.students g)) gs.

Lemma performGrouping_without_conditions {E : SortEngine}
  (conditionsService : GroupingConditionsService.State) (st : State) rs :
  GroupingConditionsService.getEnabledConditions conditionsService = [] ->
  (0 < List.length (groups st))%nat ->
  alwaysMidpoint rs ->
  exists st' rs',
    performGrouping conditionsService st rs = Returned (st', rs')
    /\ groups st'
       = redistribute (filter isMale (students st)) (filter isFemale (students st))
                      (clearGroups (clearGroups (groups st))).
Proof.
  intros HC HG HM. unfold performGrouping. rewrite HC.
  rewrite chain_without_conditions by reflexivity.
  rewrite bind_Returned. cbn [Result.handled notEnabled].
  set (gs := clearGroups (clearGroups (groups st))).
  assert (HG' : (0 < List.length gs)%nat)
    by (unfold gs; now rewrite !clearGroups_length).
  pose proof (forceEqualDistribution_refines (students st) rs HG') as R.
  destruct (shuffledPools_midpoint gs (students st) HM) as [rs' SP].
  rewrite SP in R. rewrite R, bind_Returned.
  eexists _, _. split; [reflexivity|]. simpl.
  unfold gs. now rewrite studentsToDistribute_cleared.
Qed.

(** ** The scenarios of the specification *)

Definition scenario (maleInput femaleInput : string) (groupCount : nat) : State :=
  initializeGroups groupCount
    (initializeStudents (lit maleInput) (lit femaleInput) initial).

(** C4.  Roster with category A = {1, 3} and category B = {2, 4}, two
    groups, no condition enabled, and a random source that returns the
    midpoint on every call: [performGrouping] stores the groups {1, 2} and
    {3, 4}, whichever of the two categories is the male one, and whatever
    stable sort the engine runs. *)
Theorem end_to_end_scenario {E : SortEngine} (rs : RandomSource) :
  alwaysMidpoint rs ->
  (exists st' rs',
      performGrouping GroupingConditionsService.initial (scenario "1,3" "2,4" 2) rs
      = Returned (st', rs')
      /\ seatNumbers (groups st') = [[1; 2]; [3; 4]])
  /\ (exists st' rs',
         performGrouping GroupingConditionsService.initial (scenario "2,4" "1,3" 2) rs
         = Returned (st', rs')
         /\ seatNumbers (groups st') = [[1; 2]; [3; 4]]).
Proof.
  intros HM. split.
  - destruct (@performGrouping_without_conditions E GroupingConditionsService.initial
                (scenario "1,3" "2,4" 2) rs eq_refl ltac:(simpl; lia) HM)
      as (st' & rs' & -> & EG).
    exists st', rs'. split; [reflexivity|]. rewrite EG. reflexivity.
  - destruct (@performGrouping_without_conditions E GroupingConditionsService.initial
                (scenario "2,4" "1,3" 2) rs eq_refl ltac:(simpl; lia) HM)
      as (st' & rs' & -> & EG).
    exists st', rs'. split; [reflexivity|]. rewrite EG. reflexivity.
Qed.

Lemma end_to_end_scenario_witness :
  alwaysMidpoint midpoint
  /\ exists st' rs',
      performGrouping (E := insertionEngine) GroupingConditionsService.initial
                      (scenario "1,3" "2,4" 2) midpoint
      = Returned (st', rs')
      /\ seatNumbers (groups st') = [[1; 2]; [3; 4]].
Proof.
  split; [intros n; reflexivity|].
  apply (@end_to_end_scenario insertionEngine midpoint). intros n; reflexivity.
Defined.

Lemma scenario_NoDup : NoDup (map Student.id (students (scenario "1,3" "2,4" 2))).
Proof.
  assert (E : map Student.id (students (scenario "1,3" "2,4" 2)) = [1; 2; 3; 4])
    by (vm_compute; reflexivity).
  rewrite E. repeat constructor; simpl; intuition discriminate.
Qed.

Lemma performGrouping_partitions_roster_witness :
  exists st' rs',
    performGrouping (E := insertionEngine) GroupingConditionsService.initial
                    (scenario "1,3" "2,4" 2) midpoint
    = Returned (st', rs')
    /\ students st' = students (scenario "1,3" "2,4" 2)
    /\ Permutation (members (groups st')) (students (scenario "1,3" "2,4" 2))
    /\ NoDup (members (groups st')).
Proof.
  apply (@performGrouping_partitions_roster insertionEngine).
  - simpl. lia.
  - exact scenario_NoDup.
Defined.

Lemma performGrouping_sizes_balanced_witness :
  exists st' rs',
    performGrouping (E := insertionEngine) GroupingConditionsService.initial
                    (scenario "1,3" "2,4" 2) midpoint
    = Returned (st', rs')
    /\ List.length (groups st') = 2%nat
    /\ (maxSize (groups st') - minSize (groups st') <= 1)%nat.
Proof.
  apply (@performGrouping_sizes_balanced insertionEngine
           GroupingConditionsService.initial (scenario "1,3" "2,4" 2) midpoint).
  simpl. lia.
Defined.

(** ** The equalizer deals the male pool first *)

(** The claim's reading of the equalizer: the majority pool goes first. *)
Definition dealsMajorityFirst {E : SortEngine} (gs : list Group)
  (allStudents : list Student) (rs : RandomSource) : Prop :=
  let '(maleStudents, femaleStudents, rs') := shuffledPools gs allStudents rs in
  forceEqualDistribution gs allStudents rs
  = Returned (majorityFirst maleStudents femaleStudents gs, rs').

(** C3, as stated, fails.  One male student (1) and five female students
    (2 to 6) in two groups, nothing shuffled: the code seats 1 first and
    stores {1, 2, 4} and {3, 5, 6}; dealing the majority first would give
    {2, 4, 6} and {1, 3, 5}. *)
Lemma equalizer_not_majority_first :
  let st := scenario "1" "2-6" 2 in
  ~ dealsMajorityFirst (E := insertionEngine) (groups st) (students st) midpoint
  /\ (exists gs' rs',
         forceEqualDistribution (E := insertionEngine) (groups st) (students st) midpoint
         = Returned (gs', rs')
         /\ seatNumbers gs' = [[1; 2; 4]; [3; 5; 6]])
  /\ seatNumbers (majorityFirst (filter isMale (students st))
                                (filter isFemale (students st)) (groups st))
     = [[2; 4; 6]; [1; 3; 5]].
Proof.
  cbv zeta. split; [|split].
  - unfold dealsMajorityFirst. vm_compute. intros H. discriminate H.
  - eexists _, _. split; [vm_compute; reflexivity | reflexivity].
  - vm_compute. reflexivity.
Qed.

(** C3, amended.  For an array of at least one group the equalizer
    returns the redistribution in which the shuffled pool of the male
    students goes first, whether or not it is the larger one: one male
    student for every group if there are enough, the other male students
    round-robin, then the female students round-robin past the groups
    that are full; and every group ends at its target size. *)
Theorem equalizer_deals_males_first {E : SortEngine} (gs : list Group)
  (allStudents : list Student) (rs : RandomSource) :
  (0 < List.length gs)%nat ->
  let '(maleStudents, femaleStudents, rs') := shuffledPools gs allStudents rs in
  forceEqualDistribution gs allStudents rs
  = Returned (redistribute maleStudents femaleStudents gs, rs')
  /\ forall j, (j < List.length gs)%nat ->
               sizeAt (redistribute maleStudents femaleStudents gs) j
               = targetSize (List.length (studentsToDistribute gs allStudents))
                            (List.length gs) j.
Proof.
  intros HG.
  pose proof (forceEqualDistribution_refines allStudents rs HG) as R.
  pose proof (shuffledPools_perm gs allStudents rs) as P.
  destruct (shuffledPools gs allStudents rs) as [[m f] rs'].
  split; [exact R|].
  destruct (redistribute_spec m f HG) as (_ & Sz & _).
  intros j Hj. rewrite (Sz j Hj). f_equal.
  apply Permutation_length in P. now rewrite length_app in P.
Qed.

Lemma equalizer_deals_males_first_witness :
  let st := scenario "1" "2-6" 2 in
  let '(maleStudents, femaleStudents, rs') :=
    shuffledPools (E := insertionEngine) (groups st) (students st) midpoint in
  forceEqualDistribution (E := insertionEngine) (groups st) (students st) midpoint
  = Returned (redistribute maleStudents femaleStudents (groups st), rs')
  /\ forall j, (j < 2)%nat ->
               sizeAt (redistribute maleStudents femaleStudents (groups st)) j
               = targetSize 6 2 j.
Proof.
  apply (@equalizer_deals_males_first insertionEngine
           (groups (scenario "1" "2-6" 2)) (students (scenario "1" "2-6" 2)) midpoint).
  simpl. lia.
Defined.

(** ** DifferentGroupHandler: members taken out of a group in conflict *)

Definition seated (ids : list Z) (gender : Gender) : list Student :=
  map (fun id => Student.make id gender) ids.

(** Three groups as the same-group handler leaves them for the clusters
    1, 2, 3 and 4, 5: the first group holds 1, 2, 3, the second 4, 5, the
    third is empty. *)
Definition crowdedGroups : list Group :=
  [ Group.make 1 1 (seated [1; 2; 3] male);
    Group.make 2 2 (seated [4; 5] female);
    Group.make 3 3 [] ].

Definition groupOf (id : Z) (gs : list Group) : list nat :=
  map fst (filter (fun ig => existsb (hasId id) (Group.students (snd ig)))
                  (indexed gs)).

Definition enabledCondition (type input : string) : GroupingCondition :=
  {| Condition.id := lit type;
     Condition.type := lit type;
     Condition.enabled := true;
     Condition.priority := 1;
     Condition.config_input := lit input;
     Condition.config_blockInputs := None |}.

(** The roster 1, 2, 3, 6 (male) and 4, 5 (female) with three groups, the
    clusters 1, 2, 3 and 4, 5 to be kept together and the cluster 1, 2, 3
    to be kept apart. *)
Definition crowdedContext : GroupingContext :=
  let st := scenario "1-3,6" "4,5" 3 in
  {| Context.students := students st;
     Context.groups := clearGroups (groups st);
     Context.conditions :=
       [ enabledCondition "same-group" "1,2,3;4,5";
         enabledCondition "different-group" "1,2,3" ];
     Context.remainingStudents := students st |}.

(** C5.  [assignToDifferentGroups] on the cluster 1, 2, 3 that sits in the
    first of three groups, the second holding two students and the third
    empty: student 1 stays, 2 and 3 are taken out, and
    [redistributeStudents] pushes both of them into the third group.  It
    only avoids the group in conflict; it does not record the groups the
    cluster has used, so two members of the cluster share a group although
    the second group is free of the cluster.  The chain reaches this state
    by itself: with the clusters 1, 2, 3 and 4, 5 kept together and
    1, 2, 3 kept apart it returns the groups {1, 6}, {4, 5}, {2, 3}. *)
Theorem redistributeStudents_shares_a_group :
  (exists gs' pool' processed',
      DifferentGroupHandler.assignToDifferentGroups
        crowdedGroups [1; 2; 3] (seated [6] male) []
      = Returned (gs', pool', processed')
      /\ seatNumbers gs' = [[1]; [4; 5]; [2; 3]]
      /\ groupOf 1 gs' = [0%nat]
      /\ groupOf 2 gs' = [2%nat] /\ groupOf 3 gs' = [2%nat])
  /\ (exists result rs',
         blockDistributionHandler (E := insertionEngine) crowdedContext midpoint
         = Returned (result, rs')
         /\ seatNumbers (Result.groups result) = [[1; 6]; [4; 5]; [2; 3]]).
Proof.
  split.
  - eexists _, _, _. split; [vm_compute; reflexivity|]. repeat split.
  - eexists _, _. split; [vm_compute; reflexivity | reflexivity].
Qed.

(** With one group only [redistributeStudents] finds no group at all for
    the members it took out: 2 and 3 are in no group when
    [assignToDifferentGroups] returns. *)
Example redistributeStudents_drops_members :
  exists gs' pool' processed',
    DifferentGroupHandler.assignToDifferentGroups
      [ Group.make 1 1 (seated [1; 2; 3] male) ] [1; 2; 3] [] []
    = Returned (gs', pool', processed')
    /\ seatNumbers gs' = [[1]].
Proof.
  eexists _, _, _. split; [vm_compute; reflexivity|]. reflexivity.
Qed.

(** The scenario of two groups: the cluster 1, 2 in the first group ends
    with 1 in the first and 2 in the second. *)
Example assignToDifferentGroups_two_groups :
  exists gs' pool' processed',
    DifferentGroupHandler.assignToDifferentGroups
      [ Group.make 1 1 (seated [1; 2] male); Group.make 2 2 (seated [3; 4] female) ]
      [1; 2] [] []
    = Returned (gs', pool', processed')
    /\ seatNumbers gs' = [[1]; [3; 4; 2]].
Proof.
  eexists _, _, _. split; [vm_compute; reflexivity|]. reflexivity.
Qed.

(** The members that are still in the pool are placed by [placeUnplaced],
    which does record the groups used: the cluster 1, 2, 3 of the pool goes
    to three groups. *)
Example placeUnplaced_distinct_groups :
  exists gs' pool' processed',
    DifferentGroupHandler.assignToDifferentGroups
      [ Group.make 1 1 []; Group.make 2 2 []; Group.make 3 3 (seated [4; 5] female) ]
      [1; 2; 3] (seated [1; 2; 3] male) []
    = Returned (gs', pool', processed')
    /\ seatNumbers gs' = [[1]; [2]; [4; 5; 3]].
Proof.
  eexists _, _, _. split; [vm_compute; reflexivity|]. reflexivity.
Qed.

(** ** BlockDistributionHandler: the pointer that runs over the blocks *)

(** The records of one block and of all the blocks; the theorem on the
    pointer follows with the students of the blocks, after the part on
    the round-robin shares. *)

Definition replay (assignments : list (Student * nat)) (gs : list Group)
  : list Group :=
  fold_left (fun acc sg => give (snd sg) (fst sg) acc) assignments gs.

Lemma nth_error_map_seq (A : Type) (f : nat -> A) n k i :
  (i < n)%nat -> nth_error (map f (seq k n)) i = Some (f (k + i)%nat).
Proof.
  intros H. rewrite nth_error_map, nth_error_seq.
  destruct (Nat.ltb_spec i n); [reflexivity | lia].
Qed.

Lemma pointer_at (A : Type) (f : nat -> nat) (log l1 l2 : list (A * nat)) x :
  map snd log = map f (seq 0 (List.length log)) ->
  log = l1 ++ x :: l2 -> snd x = f (List.length l1).
Proof.
  intros H ->.
  assert (K : nth_error (map snd (l1 ++ x :: l2)) (List.length l1) = Some (snd x)).
  { rewrite nth_error_map, nth_error_app2 by lia.
    now rewrite Nat.sub_diag. }
  rewrite H, nth_error_map_seq in K.
  - simpl in K. congruence.
  - rewrite length_app. simpl. lia.
Qed.

Lemma combine_app (A B : Type) (l1 l2 : list A) (m1 m2 : list B) :
  List.length l1 = List.length m1 ->
  combine (l1 ++ l2) (m1 ++ m2) = combine l1 m1 ++ combine l2 m2.
Proof.
  revert m1; induction l1 as [|x l1 IH]; intros [|y m1] H; simpl in *;
    try discriminate; [reflexivity|].
  f_equal. apply IH. lia.
Qed.

Lemma assignStudents_log G shuffled : forall k gs gs' last log,
  BlockDistributionHandler.assignStudents G shuffled (k mod G)%nat gs
  = Returned (gs', last, log) ->
  last = ((k + List.length shuffled) mod G)%nat
  /\ map fst log = map Student.id shuffled
  /\ map snd log = map (fun j => (j mod G)%nat) (seq k (List.length shuffled))
  /\ gs' = replay (combine shuffled (map snd log)) gs.
Proof.
  induction shuffled as [|s shuffled IH]; intros k gs gs' last log; simpl.
  - intros [= <- <- <-]. rewrite Nat.add_0_r. repeat split.
  - destruct (pushStudent (k mod G) s gs) as [gs1| |] eqn:P; simpl; try discriminate.
    apply pushStudent_Returned in P. destruct P as [-> _].
    replace ((k mod G + 1) mod G)%nat with (S k mod G)%nat
      by (rewrite Nat.Div0.add_mod_idemp_l; f_equal; lia).
    destruct (BlockDistributionHandler.assignStudents G shuffled (S k mod G)%nat
                (give (k mod G) s gs)) as [[[gs2 l2] log2]| |] eqn:R;
      simpl; try discriminate.
    intros [= <- <- <-].
    destruct (IH _ _ _ _ _ R) as (-> & F & Sn & ->).
    simpl. rewrite F, Sn. repeat split. f_equal. lia.
Qed.

Lemma assignBlocks_log {E : SortEngine} G blockGroups : forall k gs rs gs' logs rs',
  BlockDistributionHandler.assignBlocks G blockGroups (k mod G)%nat gs rs
  = Returned (gs', logs, rs') ->
  List.length logs = List.length blockGroups
  /\ map snd (concat logs)
     = map (fun j => (j mod G)%nat) (seq k (List.length (concat logs)))
  /\ exists shuffledBlocks,
       Forall2 (@Permutation Student) shuffledBlocks blockGroups
       /\ map (map fst) logs = map (map Student.id) shuffledBlocks
       /\ gs' = replay (combine (concat shuffledBlocks) (map snd (concat logs))) gs.
Proof.
  induction blockGroups as [|b blockGroups IH]; intros k gs rs gs' logs rs'; simpl.
  - intros [= <- <- <-]. repeat split. exists []. repeat split. constructor.
  - pose proof (sortRandom_perm b rs) as P0.
    destruct (sortRandom b rs) as [shuffled rs1]; simpl in P0.
    destruct (BlockDistributionHandler.assignStudents G shuffled (k mod G)%nat gs)
      as [[[gs1 next] log]| |] eqn:R; simpl; try discriminate.
    destruct (assignStudents_log R) as (-> & F & Sn & ->).
    destruct (BlockDistributionHandler.assignBlocks G blockGroups
                ((k + List.length shuffled) mod G)%nat _ rs1)
      as [[[gs2 logs2] rs2]| |] eqn:R2; simpl; try discriminate.
    intros [= <- <- <-].
    destruct (IH _ _ _ _ _ _ R2) as (L & Sn2 & sbs & F2 & M2 & ->).
    assert (Ll : List.length log = List.length shuffled).
    { rewrite <- (length_map fst log), F. apply length_map. }
    split; [simpl; congruence|]. split.
    + simpl. rewrite map_app, length_app, seq_app, map_app, Sn, Sn2, Ll.
      reflexivity.
    + exists (shuffled :: sbs). split; [constructor; assumption|].
      split; [simpl; congruence|].
      simpl. rewrite map_app. unfold replay.
      rewrite combine_app by (now rewrite length_map).
      now rewrite fold_left_app.
Qed.

(** The scenario of the blocks {1, 2, 3} and {4, 5} with two groups and
    nothing shuffled: the first block ends at group 0, the second begins at
    group 1. *)
Example block_pointer_scenario :
  exists gs' processed' rs',
    BlockDistributionHandler.distributeBlockStudentsTraced (E := insertionEngine)
      (groups (scenario "1,3,5" "2,4" 2)) [[1; 2; 3]; [4; 5]]
      (students (scenario "1,3,5" "2,4" 2)) [] midpoint
    = Returned (gs', processed',
                [ [(1, 0%nat); (2, 1%nat); (3, 0%nat)]; [(4, 1%nat); (5, 0%nat)] ],
                rs')
    /\ seatNumbers gs' = [[1; 3; 5]; [2; 4]].
Proof.
  eexists _, _, _. split; [vm_compute; reflexivity|]. reflexivity.
Qed.

(** ** performGrouping checks neither the roster nor the group count *)

Lemma members_nil_all_empty gs :
  members gs = [] -> Forall (fun g => Group.students g = []) gs.
Proof.
  induction gs as [|g gs IH]; simpl; intros H; constructor.
  - now apply app_eq_nil in H.
  - apply IH. now apply app_eq_nil in H.
Qed.

Lemma maleLoop_no_groups pending :
  pending <> [] -> maleLoop 0 pending 0 [] = Thrown TypeError.
Proof. destruct pending; [congruence | reflexivity]. Qed.

Lemma femaleLoop_no_groups fuel pending :
  pending <> [] -> femaleLoop (S fuel) 0 [] pending 0 [] = Thrown TypeError.
Proof. destruct pending; [congruence | reflexivity]. Qed.

Lemma forceEqualDistribution_no_groups {E : SortEngine} allStudents rs :
  allStudents <> [] -> forceEqualDistribution [] allStudents rs = Thrown TypeError.
Proof.
  intros HN. unfold forceEqualDistribution.
  change (flat_map Group.students []) with (@nil Student).
  cbn [app existsb negb].
  assert (F : filter (fun _ : Student => true) allStudents = allStudents).
  { clear. induction allStudents; simpl; congruence. }
  rewrite F.
  pose proof (sortRandom_perm (filter isMale allStudents) rs) as P1.
  destruct (sortRandom (filter isMale allStudents) rs) as [m rs1].
  pose proof (sortRandom_perm (filter isFemale allStudents) rs1) as P2.
  destruct (sortRandom (filter isFemale allStudents) rs1) as [f rs2].
  cbn [fst] in P1, P2. cbn [List.length clearGroups map Nat.leb firstRound skipn].
  destruct m as [|x m].
  - destruct f as [|y f].
    + exfalso. apply Permutation_nil in P1, P2.
      pose proof (gender_split allStudents) as GS. rewrite P1, P2 in GS.
      destruct allStudents; [congruence | discriminate].
    + reflexivity.
  - reflexivity.
Qed.

(** With a roster and groups that pass no check, the claim's reading:
    the call throws. *)
Definition rejectsStructurallyInvalid {E : SortEngine}
  (conditionsService : GroupingConditionsService.State) (st : State)
  (rs : RandomSource) : Prop :=
  students st = [] \/ groups st = [] ->
  exists e, performGrouping conditionsService st rs = Thrown e.

(** C8, as stated, fails.  With an empty roster and two groups
    [performGrouping] returns: it stores two groups without students. *)
Lemma empty_roster_not_rejected :
  let st := scenario "" "" 2 in
  students st = []
  /\ ~ rejectsStructurallyInvalid (E := insertionEngine)
         GroupingConditionsService.initial st midpoint
  /\ exists st' rs',
       performGrouping (E := insertionEngine) GroupingConditionsService.initial
                       st midpoint
       = Returned (st', rs')
       /\ seatNumbers (groups st') = [[]; []].
Proof.
  cbv zeta. split; [reflexivity|]. split.
  - unfold rejectsStructurallyInvalid. intros H.
    destruct (H (or_introl eq_refl)) as [e He]. vm_compute in He. discriminate He.
  - eexists _, _. split; [vm_compute; reflexivity | reflexivity].
Qed.

(** C8, amended.  [performGrouping] validates nothing.  An empty roster
    with at least one group is not rejected: the call returns and stores as
    many groups as before, all of them without students, whatever
    conditions are enabled.  No group at all, with a roster that is not
    empty and no condition enabled, ends in the [TypeError] of the
    equalizer's access to [groups[0]], raised before the groups are
    stored. *)
Theorem performGrouping_validates_nothing {E : SortEngine}
  (conditionsService : GroupingConditionsService.State) (st : State)
  (rs : RandomSource) :
  (students st = [] -> (0 < List.length (groups st))%nat ->
   exists st' rs',
     performGrouping conditionsService st rs = Returned (st', rs')
     /\ List.length (groups st') = List.length (groups st)
     /\ Forall (fun g => Group.students g = []) (groups st'))
  /\ (groups st = [] -> students st <> [] ->
      GroupingConditionsService.getEnabledConditions conditionsService = [] ->
      performGrouping conditionsService st rs = Thrown TypeError).
Proof.
  split.
  - intros HS HG. unfold performGrouping.
    destruct (@chain_result E (students st) (groups st)
                (map toCondition
                     (indexed (GroupingConditionsService.getEnabledConditions
                                 conditionsService))) rs HG)
      as (result & rs1 & -> & L & W).
    rewrite bind_Returned. cbv zeta in L, W.
    assert (ND : NoDup (map Student.id (students st)))
      by (rewrite HS; constructor).
    destruct (W ND) as [NA IA].
    destruct (@forceEqualDistribution_balanced E _ (students st) rs1
                ltac:(rewrite L; exact HG))
      as (gs' & rs' & -> & L' & _ & P).
    rewrite bind_Returned. eexists _, _. split; [reflexivity|]. simpl.
    split; [congruence|].
    apply members_nil_all_empty.
    assert (P' : Permutation (members gs') (students st)).
    { eapply Permutation_trans; [exact P|].
      now apply studentsToDistribute_perm. }
    rewrite HS in P'. now apply Permutation_sym, Permutation_nil in P'.
  - intros HG HS HC. unfold performGrouping.
    rewrite chain_without_conditions by (simpl; now rewrite HC).
    rewrite bind_Returned. cbn [notEnabled Result.handled].
    rewrite HG. cbn [clearGroups map].
    now rewrite forceEqualDistribution_no_groups.
Qed.

Lemma performGrouping_validates_nothing_witness :
  (exists st' rs',
      performGrouping (E := insertionEngine) GroupingConditionsService.initial
                      (scenario "" "" 2) midpoint
      = Returned (st', rs')
      /\ List.length (groups st') = 2%nat
      /\ Forall (fun g => Group.students g = []) (groups st'))
  /\ performGrouping (E := insertionEngine) GroupingConditionsService.initial
                     (scenario "1,3" "2,4" 0) midpoint
     = Thrown TypeError.
Proof.
  split.
  - apply (@performGrouping_validates_nothing insertionEngine
             GroupingConditionsService.initial (scenario "" "" 2) midpoint).
    + reflexivity.
    + simpl. lia.
  - apply (@performGrouping_validates_nothing insertionEngine
             GroupingConditionsService.initial (scenario "1,3" "2,4" 0) midpoint).
    + reflexivity.
    + vm_compute. discriminate.
    + reflexivity.
Defined.

(** ** addStudents *)

Lemma Set_add_NoDup P x : NoDup P -> NoDup (Set_add P x).
Proof.
  intros H. unfold Set_add. destruct (Set_has P x) eqn:E; [assumption|].
  apply NoDup_app; [assumption | repeat constructor; auto | ].
  intros y Hy [<-|[]]. apply Set_has_In in Hy. congruence.
Qed.

Lemma Set_of_NoDup l : NoDup (Set_of l).
Proof.
  unfold Set_of. assert (K : forall P, NoDup P -> NoDup (fold_left Set_add l P)).
  { induction l as [|x l IH]; intros P H; simpl; [assumption|].
    apply IH. now apply Set_add_NoDup. }
  apply K. constructor.
Qed.

Lemma parseNumberInput_NoDup input : NoDup (parseNumberInput input).
Proof.
  unfold parseNumberInput, sortNumbers.
  eapply Permutation_NoDup; [apply Permutation_sym, Array_sort_perm|].
  apply Set_of_NoDup.
Qed.

Lemma sortInsert_byId_sorted x l :
  Sorted Z.le (map Student.id l) ->
  Sorted Z.le (map Student.id (sortInsert byId x l)).
Proof.
  induction l as [|y l IH]; simpl; intros H.
  - repeat constructor.
  - unfold byId at 1. destruct (Z.leb_spec (Student.id x - Student.id y) 0).
    + simpl. constructor; [assumption|]. constructor. lia.
    + simpl. apply Sorted_inv in H. destruct H as [H1 H2].
      constructor; [now apply IH|].
      destruct l as [|z l]; simpl.
      * constructor. lia.
      * unfold byId at 1. destruct (Z.leb_spec (Student.id x - Student.id z) 0);
          simpl; constructor; try lia.
        now inversion H2.
Qed.

Lemma sortById_sorted l : Sorted Z.le (map Student.id (sortById l)).
Proof.
  unfold sortById, Array_sort.
  induction l as [|x l IH]; simpl; [constructor|].
  now apply sortInsert_byId_sorted.
Qed.

Lemma filter_nil_iff (A : Type) (f : A -> bool) l :
  filter f l = [] <-> forall x, In x l -> f x = false.
Proof.
  induction l as [|y l IH]; simpl.
  - split; [intros _ x [] | reflexivity].
  - destruct (f y) eqn:E.
    + split; [discriminate|]. intros H. specialize (H y (or_introl eq_refl)).
      congruence.
    + rewrite IH. split.
      * intros H x [<-|Hx]; auto.
      * intros H x Hx. apply H. now right.
Qed.

(** C10.  [addStudents] throws exactly when a seat number parsed from the
    input is in the roster already, and then with the list of these
    numbers; the exception carries no state, the signals are as before the
    call.  Otherwise it returns: the roster stored is the old one with
    the new students, ascending by seat number, and if the seat numbers
    of the old roster are distinct so are those of the new one; the groups
    are left as they are. *)
Theorem addStudents_throws_or_sorts (input : str) (gender : Gender) (st : State) :
  NoDup (map Student.id (students st)) ->
  match addStudents input gender st with
  | Thrown e =>
      (exists id, In id (parseNumberInput input)
                  /\ In id (map Student.id (students st)))
      /\ e = Error (filter (fun id => existsb (Z.eqb id)
                                              (map Student.id (students st)))
                           (parseNumberInput input))
  | Returned st' =>
      (forall id, In id (parseNumberInput input) ->
                  ~ In id (map Student.id (students st)))
      /\ Permutation (students st')
                     (students st
                      ++ map (fun id => Student.make id gender)
                             (parseNumberInput input))
      /\ Sorted Z.le (map Student.id (students st'))
      /\ NoDup (map Student.id (students st'))
      /\ groups st' = groups st
  | Diverged => False
  end.
Proof.
  intros ND. unfold addStudents.
  destruct (filter _ (parseNumberInput input)) as [|d ds] eqn:EF.
  - pose proof (proj1 (filter_nil_iff _ _) EF) as K. simpl.
    assert (Fresh : forall id, In id (parseNumberInput input) ->
                               ~ In id (map Student.id (students st))).
    { intros id Hid Hin. specialize (K id Hid). apply mem_In in Hin. congruence. }
    split; [exact Fresh|]. split; [apply Array_sort_perm|].
    split; [apply sortById_sorted|]. split; [|reflexivity].
    eapply Permutation_NoDup.
    { apply Permutation_map, Permutation_sym, Array_sort_perm. }
    rewrite map_app, map_map. simpl. rewrite map_id.
    apply NoDup_app; [assumption | apply parseNumberInput_NoDup |].
    intros x Hx Hn. exact (Fresh x Hn Hx).
  - split; [|reflexivity].
    assert (I : In d (filter (fun id => existsb (Z.eqb id)
                                                (map Student.id (students st)))
                             (parseNumberInput input)))
      by (rewrite EF; now left).
    apply filter_In in I. destruct I as [I1 I2]. exists d. split; [assumption|].
    now apply mem_In.
Qed.

Lemma addStudents_throws_or_sorts_witness :
  NoDup (map Student.id (students (scenario "1,3" "2,4" 2)))
  /\ match addStudents (lit "5,0") male (scenario "1,3" "2,4" 2) with
     | Thrown e =>
         (exists id, In id (parseNumberInput (lit "5,0"))
                     /\ In id (map Student.id (students (scenario "1,3" "2,4" 2))))
         /\ e = Error (filter (fun id =>
                                 existsb (Z.eqb id)
                                   (map Student.id
                                        (students (scenario "1,3" "2,4" 2))))
                              (parseNumberInput (lit "5,0")))
     | Returned st' =>
         (forall id, In id (parseNumberInput (lit "5,0")) ->
                     ~ In id (map Student.id (students (scenario "1,3" "2,4" 2))))
         /\ Permutation (students st')
                        (students (scenario "1,3" "2,4" 2)
                         ++ map (fun id => Student.make id male)
                                (parseNumberInput (lit "5,0")))
         /\ Sorted Z.le (map Student.id (students st'))
         /\ NoDup (map Student.id (students st'))
         /\ groups st' = groups (scenario "1,3" "2,4" 2)
     | Diverged => False
     end.
Proof.
  split; [exact scenario_NoDup|].
  apply (@addStudents_throws_or_sorts (lit "5,0") male (scenario "1,3" "2,4" 2)).
  exact scenario_NoDup.
Defined.

(** Seat number 2 is in the roster: the call throws and names it.  Seat
    numbers 5 and 0 are not: the roster becomes 0, 1, 2, 3, 4, 5. *)
Example addStudents_scenarios :
  addStudents (lit "5,2") male (scenario "1,3" "2,4" 2) = Thrown (Error [2])
  /\ exists st', addStudents (lit "5,0") male (scenario "1,3" "2,4" 2) = Returned st'
                 /\ map Student.id (students st') = [0; 1; 2; 3; 4; 5].
Proof.
  split; [vm_compute; reflexivity|].
  eexists. split; [vm_compute; reflexivity | reflexivity].
Qed.

(* ================================================================== *)
(** * Strings: trim and split                                          *)
(* ================================================================== *)

(** A string of white space only. *)
Definition blank (w : str) : Prop := forallb isWhiteSpace w = true.

Lemma blank_nil : blank [].
Proof. reflexivity. Qed.

Lemma blank_cons c w : blank (c :: w) <-> isWhiteSpace c = true /\ blank w.
Proof. unfold blank. simpl. now rewrite andb_true_iff. Qed.

Lemma blank_app w1 w2 : blank (w1 ++ w2) <-> blank w1 /\ blank w2.
Proof. unfold blank. rewrite forallb_app. now rewrite andb_true_iff. Qed.

Lemma blank_rev w : blank w -> blank (rev w).
Proof.
  unfold blank. rewrite !forallb_forall. intros H x Hx. apply H.
  now apply in_rev.
Qed.

Lemma trimStart_blank w s : blank w -> trimStart (w ++ s) = trimStart s.
Proof.
  induction w as [|c w IH]; simpl; intros H; [reflexivity|].
  apply blank_cons in H. destruct H as [-> H]. now apply IH.
Qed.

Lemma trimStart_all_blank w : blank w -> trimStart w = [].
Proof.
  intros H. rewrite <- (app_nil_r w). now rewrite trimStart_blank.
Qed.

Lemma trimStart_decompose s : exists w, blank w /\ s = w ++ trimStart s.
Proof.
  induction s as [|c s (w & B & E)]; simpl.
  - exists []. split; [apply blank_nil | reflexivity].
  - destruct (isWhiteSpace c) eqn:W.
    + exists (c :: w). split; [now apply blank_cons|]. simpl. congruence.
    + exists []. split; [apply blank_nil | reflexivity].
Qed.

Lemma trimStart_nil_blank s : trimStart s = [] -> blank s.
Proof.
  intros H. destruct (trimStart_decompose s) as (w & B & E).
  rewrite H, app_nil_r in E. now subst.
Qed.

Lemma trimStart_app s w : trimStart s <> [] -> trimStart (s ++ w) = trimStart s ++ w.
Proof.
  induction s as [|c s IH]; simpl; intros H; [congruence|].
  destruct (isWhiteSpace c); [now apply IH | reflexivity].
Qed.

Lemma trimEnd_blank s w : blank w -> trimEnd (s ++ w) = trimEnd s.
Proof.
  intros H. unfold trimEnd. rewrite rev_app_distr.
  now rewrite trimStart_blank by (now apply blank_rev).
Qed.

Lemma trimEnd_decompose s : exists w, blank w /\ s = trimEnd s ++ w.
Proof.
  destruct (trimStart_decompose (rev s)) as (w & B & E).
  exists (rev w). split; [now apply blank_rev|].
  unfold trimEnd. rewrite <- rev_app_distr, <- E. now rewrite rev_involutive.
Qed.

Lemma trim_blank_l w s : blank w -> trim (w ++ s) = trim s.
Proof. intros H. unfold trim. now rewrite trimStart_blank. Qed.

Lemma trim_blank_r s w : blank w -> trim (s ++ w) = trim s.
Proof.
  intros H. unfold trim. destruct (trimStart s) as [|c t] eqn:E.
  - rewrite trimStart_all_blank; [reflexivity|].
    apply blank_app. split; [now apply trimStart_nil_blank | assumption].
  - rewrite trimStart_app by congruence. rewrite E. now apply trimEnd_blank.
Qed.

Lemma trim_blank w : blank w -> trim w = [].
Proof. intros H. unfold trim. now rewrite trimStart_all_blank. Qed.

Lemma trim_decompose s :
  exists w1 w2, blank w1 /\ blank w2 /\ s = w1 ++ trim s ++ w2.
Proof.
  destruct (trimStart_decompose s) as (w1 & B1 & E1).
  destruct (trimEnd_decompose (trimStart s)) as (w2 & B2 & E2).
  exists w1, w2. repeat split; try assumption. unfold trim. rewrite <- E2. exact E1.
Qed.

Lemma split_nonnil sep s : split sep s <> [].
Proof.
  induction s as [|c s IH]; simpl; [discriminate|].
  destruct (Ascii.eqb c sep); [discriminate|].
  destruct (split sep s); discriminate.
Qed.

Lemma split_app sep a b :
  split sep (a ++ b)
  = removelast (split sep a)
      ++ (last (split sep a) [] ++ hd [] (split sep b)) :: tl (split sep b).
Proof.
  induction a as [|c a IH].
  - simpl. pose proof (@split_nonnil sep b) as N.
    destruct (split sep b); [now elim N | reflexivity].
  - cbn [app split]. destruct (Ascii.eqb c sep).
    + rewrite IH. pose proof (@split_nonnil sep a) as N.
      destruct (split sep a) as [|p r] eqn:E; [now elim N|]. reflexivity.
    + rewrite IH. pose proof (@split_nonnil sep a) as N.
      destruct (split sep a) as [|p r] eqn:E; [now elim N|].
      destruct r as [|q r]; reflexivity.
Qed.

Lemma split_none sep w : includes sep w = false -> split sep w = [w].
Proof.
  unfold includes. induction w as [|c w IH]; simpl; intros H; [reflexivity|].
  apply orb_false_iff in H. destruct H as [H1 H2].
  rewrite Ascii.eqb_sym, H1. now rewrite IH.
Qed.

Lemma split_sep sep a b :
  split sep (a ++ sep :: b) = split sep a ++ split sep b.
Proof.
  rewrite split_app. cbn [split]. rewrite Ascii.eqb_refl. cbn [hd tl].
  rewrite app_nil_r.
  rewrite (app_removelast_last [] (@split_nonnil sep a)) at 3.
  now rewrite <- app_assoc.
Qed.

Lemma split_blank sep w : blank w -> Forall blank (split sep w).
Proof.
  induction w as [|c w IH]; simpl; intros H.
  - repeat constructor.
  - apply blank_cons in H. destruct H as [Hc H]. specialize (IH H).
    destruct (Ascii.eqb c sep); [constructor; [apply blank_nil | assumption]|].
    destruct (split sep w) as [|p r]; [repeat constructor; now apply blank_cons|].
    inversion IH; subst. constructor; [now apply blank_cons | assumption].
Qed.

(** The pieces that are left of [s.split(sep).map(trim).filter(nonempty)]. *)
Definition pieces (sep : ascii) (s : str) : list str :=
  filter nonEmpty (map trim (split sep s)).

Lemma pieces_all_blank (l : list str) :
  Forall blank l -> filter nonEmpty (map trim l) = [].
Proof.
  induction 1 as [|w l B _ IH]; simpl; [reflexivity|].
  now rewrite trim_blank.
Qed.

Lemma Forall_removelast (A : Type) (P : A -> Prop) l :
  Forall P l -> Forall P (removelast l).
Proof.
  induction 1 as [|x l H F IH]; simpl; [constructor|].
  destruct l; constructor; assumption.
Qed.

Lemma Forall_last (A : Type) (P : A -> Prop) l d :
  P d -> Forall P l -> P (last l d).
Proof.
  intros Hd. induction 1 as [|x l H F IH]; simpl; [assumption|].
  destruct l; assumption.
Qed.

Lemma Forall_hd (A : Type) (P : A -> Prop) l d :
  P d -> Forall P l -> P (hd d l).
Proof. intros Hd [|x l' H F]; assumption. Qed.

Lemma Forall_tl (A : Type) (P : A -> Prop) l : Forall P l -> Forall P (tl l).
Proof. intros [|x l' H F]; [constructor | assumption]. Qed.

Lemma pieces_blank_l sep w s : blank w -> pieces sep (w ++ s) = pieces sep s.
Proof.
  intros B. unfold pieces. rewrite split_app.
  pose proof (split_blank sep B) as F.
  rewrite map_app, filter_app.
  rewrite pieces_all_blank by (now apply Forall_removelast).
  cbn [app map]. rewrite trim_blank_l by (apply Forall_last; [apply blank_nil | assumption]).
  pose proof (@split_nonnil sep s) as N.
  destruct (split sep s); [now elim N | reflexivity].
Qed.

Lemma pieces_blank_r sep s w : blank w -> pieces sep (s ++ w) = pieces sep s.
Proof.
  intros B. unfold pieces. rewrite split_app.
  pose proof (split_blank sep B) as F.
  rewrite (app_removelast_last [] (@split_nonnil sep s)) at 3.
  rewrite !map_app, !filter_app. f_equal.
  cbn [map filter].
  rewrite trim_blank_r by (apply Forall_hd; [apply blank_nil | assumption]).
  rewrite pieces_all_blank by (now apply Forall_tl).
  reflexivity.
Qed.

Lemma pieces_trim sep s : pieces sep (trim s) = pieces sep s.
Proof.
  destruct (trim_decompose s) as (w1 & w2 & B1 & B2 & E).
  rewrite E at 2. now rewrite pieces_blank_l, pieces_blank_r.
Qed.


Lemma segments_trim input : segments (trim input) = segments input.
Proof. exact (pieces_trim ";"%char input). Qed.

(* ================================================================== *)
(** * A cluster that names a seat number twice                         *)
(* ================================================================== *)

Import GroupingConditionsDialog.

(** The numbers read from the parts of one cluster, in the order of the
    text. *)
Definition numberOf (part : str) : list Z :=
  match parseInt part with Some num => [num] | None => [] end.

Definition idsOf (group : str) : list Z :=
  flat_map numberOf (map trim (split ","%char group)).

Lemma Set_add_nonnil P x : Set_add P x <> [].
Proof.
  unfold Set_add. destruct (Set_has P x) eqn:E.
  - intros ->. discriminate E.
  - destruct P; discriminate.
Qed.

Lemma scanPart_spec parts : forall numbers duplicates,
  NoDup numbers ->
  (snd (fold_left scanPart parts (numbers, duplicates)) = []
   <-> duplicates = [] /\ NoDup (numbers ++ flat_map numberOf parts))
  /\ (NoDup (numbers ++ flat_map numberOf parts) ->
      fst (fold_left scanPart parts (numbers, duplicates))
      = numbers ++ flat_map numberOf parts).
Proof.
  induction parts as [|p parts IH]; intros numbers duplicates ND.
  - simpl. rewrite app_nil_r. tauto.
  - change (fold_left scanPart (p :: parts) (numbers, duplicates))
      with (fold_left scanPart parts (scanPart (numbers, duplicates) p)).
    change (flat_map numberOf (p :: parts))
      with (numberOf p ++ flat_map numberOf parts).
    assert (S1 : scanPart (numbers, duplicates) p
                 = match parseInt p with
                   | Some num =>
                       if Set_has numbers num then (numbers, Set_add duplicates num)
                       else (numbers ++ [num], duplicates)
                   | None => (numbers, duplicates)
                   end) by reflexivity.
    rewrite S1. clear S1.
    assert (N1 : numberOf p
                 = match parseInt p with Some num => [num] | None => [] end)
      by reflexivity.
    rewrite N1. clear N1.
    destruct (parseInt p) as [num|].
    + destruct (Set_has numbers num) eqn:E.
      * assert (Bad : ~ NoDup (numbers ++ [num] ++ flat_map numberOf parts)).
        { intros H. apply NoDup_remove_2 in H. apply H.
          apply in_app_iff. left. now apply Set_has_In. }
        destruct (IH numbers (Set_add duplicates num) ND) as [I1 I2].
        split; [|intros H; now elim Bad].
        rewrite I1. split.
        -- intros [H _]. now apply Set_add_nonnil in H.
        -- intros [_ H]. now elim Bad.
      * assert (ND' : NoDup (numbers ++ [num])).
        { apply NoDup_app; [assumption | repeat constructor; auto | ].
          intros x Hx [<-|[]]. apply Set_has_In in Hx. congruence. }
        destruct (IH (numbers ++ [num]) duplicates ND') as [I1 I2].
        rewrite <- app_assoc in I1, I2. split; assumption.
    + cbn [app]. now apply IH.
Qed.

Lemma parseStudentNumbers_spec group :
  (NoDup (idsOf group) ->
   parseStudentNumbers group = Returned (sortNumbers (idsOf group)))
  /\ (~ NoDup (idsOf group) ->
      exists duplicates,
        duplicates <> []
        /\ parseStudentNumbers group = Thrown (Error (sortNumbers duplicates))).
Proof.
  unfold parseStudentNumbers, idsOf.
  destruct (@scanPart_spec (map trim (split ","%char group)) [] [] (NoDup_nil _))
    as [I1 I2].
  cbn [app] in I1, I2.
  destruct (fold_left scanPart _ _) as [numbers duplicates]. cbn [fst snd] in I1, I2.
  split.
  - intros ND. rewrite (I2 ND).
    destruct duplicates; [reflexivity|].
    destruct I1 as [_ I1]. now specialize (I1 (conj eq_refl ND)).
  - intros ND. destruct duplicates as [|d ds].
    + elim ND. now apply I1.
    + exists (d :: ds). split; [discriminate | reflexivity].
Qed.

Lemma clusterOf_spec group cluster :
  In cluster (clusterOf group) ->
  NoDup (idsOf group) /\ cluster = sortNumbers (idsOf group)
  /\ (2 <= List.length cluster)%nat.
Proof.
  unfold clusterOf. destruct (parseStudentNumbers_spec group) as [S1 S2].
  destruct (ListDec.NoDup_dec Z.eq_dec (idsOf group)) as [ND|ND].
  - rewrite (S1 ND).
    destruct (Nat.leb_spec 2 (List.length (sortNumbers (idsOf group))));
      simpl; [|tauto].
    intros [<-|[]]. auto.
  - destruct (S2 ND) as (d & _ & ->). simpl. tauto.
Qed.

Lemma segments_nothing input : trim input = [] -> segments input = [].
Proof. intros H. rewrite <- segments_trim, H. reflexivity. Qed.

Lemma parseSameGroupInput_segments input :
  parseSameGroupInput input = flat_map clusterOf (segments input).
Proof.
  unfold parseSameGroupInput. destruct (trim input) eqn:E; [|reflexivity].
  now rewrite segments_nothing.
Qed.

Lemma str_eqb_eq a b : str_eqb a b = true <-> a = b.
Proof.
  revert b; induction a as [|x a IH]; intros [|y b]; simpl;
    try (split; [discriminate | discriminate]); [tauto|].
  rewrite andb_true_iff, Ascii.eqb_eq, IH. split; [intros [-> ->] | intros [= -> ->]]; auto.
Qed.



(** The input of the scenario: nothing is parsed from it, and the dialog
    reports the number that is there twice.  What the dialog answers in
    general is the subject of the last part. *)
Example duplicate_cluster_scenario :
  parseSameGroupInput (lit "1,1,2") = []
  /\ parseSameGroupInput (lit "3,4; 1,1,2") = [[3; 4]]
  /\ validateSameGroupInput (lit "1,1,2") 5
     = Some (GroupHasError (lit "1,1,2") (Error [1])).
Proof. repeat split; vm_compute; reflexivity. Qed.

(* ================================================================== *)
(** * Edits of a block input that change white space only              *)
(* ================================================================== *)

Import GroupingConditionsService.



(** The editing state after the first block was set to "1,2". *)
Definition editedOnce : State :=
  match updateBlockInput (lit "block-distribution") 0 (lit "1,2")
                         (startEditing initial) with
  | Returned st => st
  | _ => startEditing initial
  end.








(** The value that is stored is ignored: the state is the same object. *)
Example same_value_is_ignored :
  updateBlockInput (lit "block-distribution") 0 (lit "1,2") editedOnce
  = Returned editedOnce
  /\ updateBlockInput (lit "block-distribution") 0 [] (startEditing initial)
     = Returned (startEditing initial).
Proof. split; reflexivity. Qed.

(* ================================================================== *)
(** * The number parsers                                               *)
(* ================================================================== *)

Lemma sortInsert_numbers_sorted x l :
  Sorted Z.le l -> Sorted Z.le (sortInsert (fun a b => a - b) x l).
Proof.
  induction l as [|y l IH]; simpl; intros H.
  - repeat constructor.
  - destruct (Z.leb_spec (x - y) 0).
    + constructor; [assumption|]. constructor. lia.
    + apply Sorted_inv in H. destruct H as [H1 H2].
      constructor; [now apply IH|].
      destruct l as [|z l]; simpl.
      * constructor. lia.
      * destruct (Z.leb_spec (x - z) 0); constructor; try lia.
        now inversion H2.
Qed.

Lemma sortNumbers_sorted l : Sorted Z.le (sortNumbers l).
Proof.
  unfold sortNumbers, Array_sort.
  induction l as [|x l IH]; simpl; [constructor|].
  now apply sortInsert_numbers_sorted.
Qed.

Lemma sortNumbers_In l z : In z (sortNumbers l) <-> In z l.
Proof. apply Array_sort_In. Qed.

Lemma Sorted_le_NoDup_lt l : Sorted Z.le l -> NoDup l -> Sorted Z.lt l.
Proof.
  induction l as [|x l IH]; intros S N; [constructor|].
  apply Sorted_inv in S. destruct S as [S H]. inversion N as [|? ? Nx N']; subst.
  constructor; [now apply IH|].
  destruct l as [|y l]; constructor.
  inversion H; subst. assert (x <> y) by (intros ->; apply Nx; now left). lia.
Qed.

Lemma sortNumbers_ascending l : NoDup l -> Sorted Z.lt (sortNumbers l).
Proof.
  intros N. apply Sorted_le_NoDup_lt; [apply sortNumbers_sorted|].
  eapply Permutation_NoDup; [apply Permutation_sym, Array_sort_perm | assumption].
Qed.

Lemma Set_of_In l z : In z (Set_of l) <-> In z l.
Proof.
  unfold Set_of. rewrite <- !Set_has_In, fold_Set_add_has. now rewrite Set_has_nil.
Qed.

Lemma range_In lo hi z : In z (range lo hi) <-> lo <= z <= hi.
Proof.
  unfold range. rewrite in_map_iff. split.
  - intros (k & <- & Hk). apply in_seq in Hk. lia.
  - intros H. exists (Z.to_nat (z - lo)). split; [lia|]. apply in_seq. lia.
Qed.

(** [parseInt] reads a sign only from a minus or plus character: a
    string without a minus gives no negative number. *)
Lemma digitValue_nonneg c d : digitValue c = Some d -> 0 <= d.
Proof.
  unfold digitValue.
  repeat match goal with
         | |- context [if ?b then _ else _] => destruct b eqn:?
         end; intros [= <-]; lia.
Qed.

Lemma parseDigits_nonneg radix s : forall acc n,
  0 < radix ->
  match acc with Some a => 0 <= a | None => True end ->
  parseDigits radix acc s = Some n -> 0 <= n.
Proof.
  induction s as [|c s IH]; simpl; intros acc n R A.
  - intros ->. exact A.
  - unfold radixDigit. destruct (digitValue c) as [d|] eqn:D.
    + pose proof (digitValue_nonneg D). destruct (d <? radix).
      * apply IH; [assumption|]. destruct acc; nia.
      * intros ->. exact A.
    + intros ->. exact A.
Qed.

Lemma trimStart_includes c s : includes c s = false -> includes c (trimStart s) = false.
Proof.
  unfold includes. induction s as [|x s IH]; simpl; [reflexivity|].
  intros H. apply orb_false_iff in H. destruct H as [H1 H2].
  destruct (isWhiteSpace x); [now apply IH|]. cbn [existsb]. now rewrite H1, H2.
Qed.

Lemma unsigned_nonneg radix s n :
  0 < radix -> option_map (Z.mul 1) (parseDigits radix None s) = Some n -> 0 <= n.
Proof.
  intros R. destruct (parseDigits radix None s) as [m|] eqn:P; [|discriminate].
  cbn [option_map]. intros [= <-].
  assert (0 <= m); [|destruct m; lia].
  eapply parseDigits_nonneg; [exact R | | exact P]. exact I.
Qed.

Lemma parseInt_nonneg s n :
  includes "-"%char s = false -> parseInt s = Some n -> 0 <= n.
Proof.
  intros H. apply trimStart_includes in H. unfold parseInt.
  destruct (trimStart s) as [|c r].
  - cbn [option_map parseDigits]. discriminate.
  - unfold includes in H. cbn [existsb] in H.
    apply orb_false_iff in H. destruct H as [H _].
    rewrite Ascii.eqb_sym, H.
    destruct (Ascii.eqb c "+"%char).
    + destruct r as [|z [|x r0]]; try (apply unsigned_nonneg; lia).
      destruct (Ascii.eqb z "0" && (Ascii.eqb x "x" || Ascii.eqb x "X"))%char;
        apply unsigned_nonneg; lia.
    + destruct r as [|x r0]; try (apply unsigned_nonneg; lia).
      destruct (Ascii.eqb c "0" && (Ascii.eqb x "x" || Ascii.eqb x "X"))%char;
        apply unsigned_nonneg; lia.
Qed.

Lemma split_pieces_clean sep s piece :
  In piece (split sep s) -> includes sep piece = false.
Proof.
  revert piece. induction s as [|c s IH]; simpl; intros piece.
  - intros [<-|[]]. reflexivity.
  - destruct (Ascii.eqb c sep) eqn:E.
    + intros [<-|H]; [reflexivity | now apply IH].
    + pose proof (@split_nonnil sep s) as N.
      destruct (split sep s) as [|p r]; [now elim N|].
      intros [<-|H].
      * unfold includes. cbn [existsb]. rewrite Ascii.eqb_sym, E.
        cbn [orb]. apply (IH p). now left.
      * apply IH. now right.
Qed.

Lemma trimStart_keeps_clean c s : includes c s = false -> includes c (trim s) = false.
Proof.
  intros H. destruct (trim_decompose s) as (w1 & w2 & _ & _ & E).
  unfold includes in *. rewrite E in H. rewrite !existsb_app in H.
  apply orb_false_iff in H. destruct H as [_ H].
  apply orb_false_iff in H. tauto.
Qed.

Lemma expandPart_nonneg part z : In z (expandPart part) -> 0 <= z.
Proof.
  unfold expandPart. destruct (includes "-"%char part) eqn:I.
  - destruct (split "-"%char part) as [|a [|b rest]] eqn:E; simpl.
    + intros [].
    + destruct (parseInt (trim a)); intros [].
    + assert (Ca : includes "-"%char a = false)
        by (apply (@split_pieces_clean "-"%char part); rewrite E; now left).
      assert (Cb : includes "-"%char b = false)
        by (apply (@split_pieces_clean "-"%char part); rewrite E; right; now left).
      apply trimStart_keeps_clean in Ca, Cb.
      destruct (parseInt (trim a)) as [x|] eqn:Pa; [|intros []].
      destruct (parseInt (trim b)) as [y|] eqn:Pb; [|intros []].
      apply parseInt_nonneg in Pa, Pb; try assumption.
      intros H. apply range_In in H. lia.
  - destruct (parseInt part) as [n|] eqn:P; [|intros []].
    intros [<-|[]]. eapply parseInt_nonneg; eassumption.
Qed.

(** A range expands inclusively, whichever side is larger. *)
Lemma expandPart_range part a b rest z :
  includes "-"%char part = true ->
  map (fun n => parseInt (trim n)) (split "-"%char part)
  = Some a :: Some b :: rest ->
  In z (expandPart part) <-> Z.min a b <= z <= Z.max a b.
Proof.
  intros I E. unfold expandPart. rewrite I, E. apply range_In.
Qed.

(** X1.  [parseNumberInput] returns the numbers of its comma separated
    parts in strictly ascending order, each once: a number is in the
    result exactly when a part expands to it.  A part [a-b] whose two sides
    parse expands to every number between the smaller and the larger side,
    in whichever order they are written.  No negative number is ever
    returned: a minus is read as the range separator. *)
Theorem parseNumberInput_ascending (input : str) :
  Sorted Z.lt (parseNumberInput input)
  /\ (forall z, In z (parseNumberInput input)
                <-> exists part, In part (split ","%char input)
                                 /\ In z (expandPart (trim part)))
  /\ (forall z, In z (parseNumberInput input) -> 0 <= z)
  /\ (forall part a b rest z,
         includes "-"%char part = true ->
         map (fun n => parseInt (trim n)) (split "-"%char part)
         = Some a :: Some b :: rest ->
         (In z (expandPart part) <-> Z.min a b <= z <= Z.max a b)).
Proof.
  unfold parseNumberInput.
  assert (M : forall z,
             In z (sortNumbers (Set_of (flat_map expandPart
                                          (map trim (split ","%char input)))))
             <-> exists part, In part (split ","%char input)
                              /\ In z (expandPart (trim part))).
  { intros z. rewrite sortNumbers_In, Set_of_In, in_flat_map. split.
    - intros (p & Hp & Hz). apply in_map_iff in Hp. destruct Hp as (q & <- & Hq).
      now exists q.
    - intros (q & Hq & Hz). exists (trim q). split; [now apply in_map|assumption]. }
  split; [apply sortNumbers_ascending, Set_of_NoDup|]. split; [exact M|].
  split.
  - intros z Hz. apply M in Hz. destruct Hz as (p & _ & Hz).
    eapply expandPart_nonneg; eassumption.
  - intros part a b rest z. apply expandPart_range.
Qed.

Example parseNumberInput_scenarios :
  parseNumberInput (lit "5-3, 1, 4") = [1; 3; 4; 5]
  /\ parseNumberInput (lit "-5") = []
  /\ parseNumberInput (lit " 7 ,x, 7") = [7].
Proof. repeat split; vm_compute; reflexivity. Qed.

(** X2.  [parseBlockInput] returns strictly ascending numbers, each once,
    none negative; a number is in the result exactly when a part of a line
    (lines split at newlines, parts at runs of commas and white space)
    expands to it; and an input of white space only gives the empty
    list. *)
Theorem parseBlockInput_ascending (input : str) :
  Sorted Z.lt (parseBlockInput input)
  /\ (forall z, In z (parseBlockInput input)
                <-> exists line part,
                      In line (pieces newline input)
                      /\ In part (filter nonEmpty (map trim (splitCommaSpace line)))
                      /\ In z (expandPart part))
  /\ (forall z, In z (parseBlockInput input) -> 0 <= z)
  /\ (blank input -> parseBlockInput input = []).
Proof.
  assert (M : forall z, In z (parseBlockInput input)
                <-> exists line part,
                      In line (pieces newline input)
                      /\ In part (filter nonEmpty (map trim (splitCommaSpace line)))
                      /\ In z (expandPart part)).
  { intros z. unfold parseBlockInput.
    destruct (trim input) as [|c t] eqn:ET.
    - cbn [nonEmpty negb]. split; [intros []|].
      intros (line & part & Hl & _).
      rewrite <- (pieces_trim newline input), ET in Hl. destruct Hl.
    - cbn [nonEmpty negb]. rewrite sortNumbers_In, Set_of_In, in_flat_map.
      split.
      + intros (line & Hl & Hz). apply in_flat_map in Hz.
        destruct Hz as (part & Hp & Hz). now exists line, part.
      + intros (line & part & Hl & Hp & Hz). exists line. split; [exact Hl|].
        apply in_flat_map. now exists part. }
  split; [|split; [exact M|split]].
  - unfold parseBlockInput. destruct (negb _); [constructor|].
    apply sortNumbers_ascending, Set_of_NoDup.
  - intros z Hz. apply M in Hz. destruct Hz as (l & p & _ & _ & Hz).
    eapply expandPart_nonneg; eassumption.
  - intros B. unfold parseBlockInput. now rewrite (trim_blank B).
Qed.

Example parseBlockInput_scenarios :
  parseBlockInput (lit "3-1, 2 5") = [1; 2; 3; 5]
  /\ parseBlockInput (lit "  ") = [].
Proof. split; vm_compute; reflexivity. Qed.

(** ** parseStudentNumbers: what is returned and what is thrown *)

Lemma count_occ_snoc (l : list Z) x z :
  count_occ Z.eq_dec (l ++ [x]) z
  = (count_occ Z.eq_dec l z + if Z.eq_dec x z then 1 else 0)%nat.
Proof. rewrite count_occ_app. simpl. destruct (Z.eq_dec x z); lia. Qed.

(** The loop of [parseStudentNumbers] after the numbers [scanned] have been
    read: [numbers] holds those read at least once, [duplicates] those
    read at least twice. *)
Lemma scanPart_counts parts : forall numbers duplicates scanned,
  (forall z, In z numbers <-> In z scanned) ->
  (forall z, In z duplicates <-> (2 <= count_occ Z.eq_dec scanned z)%nat) ->
  NoDup duplicates ->
  let result := fold_left scanPart parts (numbers, duplicates) in
  (forall z, In z (fst result) <-> In z (scanned ++ flat_map numberOf parts))
  /\ (forall z, In z (snd result)
                <-> (2 <= count_occ Z.eq_dec (scanned ++ flat_map numberOf parts) z)%nat)
  /\ NoDup (snd result).
Proof.
  induction parts as [|p parts IH]; intros numbers duplicates scanned HN HD ND.
  - cbn [fold_left flat_map fst snd]. rewrite app_nil_r. auto.
  - change (fold_left scanPart (p :: parts) (numbers, duplicates))
      with (fold_left scanPart parts (scanPart (numbers, duplicates) p)).
    change (flat_map numberOf (p :: parts))
      with (numberOf p ++ flat_map numberOf parts).
    assert (S1 : scanPart (numbers, duplicates) p
                 = match parseInt p with
                   | Some num =>
                       if Set_has numbers num then (numbers, Set_add duplicates num)
                       else (numbers ++ [num], duplicates)
                   | None => (numbers, duplicates)
                   end) by reflexivity.
    rewrite S1. clear S1.
    assert (N1 : numberOf p
                 = match parseInt p with Some num => [num] | None => [] end)
      by reflexivity.
    rewrite N1. clear N1.
    destruct (parseInt p) as [num|]; [|now apply IH].
    rewrite app_assoc.
    destruct (Set_has numbers num) eqn:E.
    + apply Set_has_In in E. apply IH.
      * intros z. rewrite in_app_iff, HN. simpl. split; [tauto|].
        intros [H|[<-|[]]]; [assumption | now apply HN].
      * intros z. rewrite Set_add_In, HD, count_occ_snoc.
        apply HN in E. apply (count_occ_In Z.eq_dec) in E.
        destruct (Z.eq_dec num z) as [->|NE].
        -- split; [intros _; lia | intros _; now left].
        -- split; [intros [H|H]; [congruence | lia] | intros H; right; lia].
      * now apply Set_add_NoDup.
    + assert (NI : ~ In num scanned).
      { intros H. apply HN, Set_has_In in H. congruence. }
      apply IH; [| |assumption].
      * intros z. rewrite !in_app_iff, HN. reflexivity.
      * intros z. rewrite HD, count_occ_snoc.
        apply (count_occ_not_In Z.eq_dec) in NI.
        destruct (Z.eq_dec num z); [subst|]; lia.
Qed.

(** X3.  [parseStudentNumbers] returns exactly when no number is read
    twice from the comma separated parts, and then the numbers read, in
    strictly ascending order.  Otherwise it throws the error that lists,
    strictly ascending, exactly the numbers that were read at least
    twice. *)
Theorem parseStudentNumbers_outcome (input : str) :
  match parseStudentNumbers input with
  | Returned numbers =>
      NoDup (idsOf input) /\ Sorted Z.lt numbers
      /\ (forall z, In z numbers <-> In z (idsOf input))
  | Thrown e =>
      ~ NoDup (idsOf input)
      /\ exists duplicateList,
           e = Error duplicateList /\ duplicateList <> []
           /\ Sorted Z.lt duplicateList
           /\ (forall z, In z duplicateList
                         <-> (2 <= count_occ Z.eq_dec (idsOf input) z)%nat)
  | Diverged => False
  end.
Proof.
  destruct (parseStudentNumbers_spec input) as [S1 S2].
  pose proof (@scanPart_counts (map trim (split ","%char input)) [] [] []) as C.
  cbv zeta in C. cbn [app] in C. fold (idsOf input) in C.
  destruct C as (C1 & C2 & C3).
  { intros z. reflexivity. }
  { intros z. simpl. split; [intros [] | lia]. }
  { constructor. }
  destruct (ListDec.NoDup_dec Z.eq_dec (idsOf input)) as [ND|ND].
  - rewrite (S1 ND). split; [assumption|]. split.
    + now apply sortNumbers_ascending.
    + intros z. apply sortNumbers_In.
  - destruct (S2 ND) as (d & Hd & E).
    unfold parseStudentNumbers in E |- *.
    destruct (fold_left scanPart _ _) as [numbers duplicates].
    cbn [fst snd] in C1, C2, C3.
    destruct duplicates as [|d0 ds]; [discriminate|]. clear E.
    split; [assumption|].
    exists (sortNumbers (d0 :: ds)). split; [reflexivity|]. split.
    { intros H. apply (f_equal (@List.length Z)) in H.
      unfold sortNumbers in H. rewrite Array_sort_length in H. discriminate. }
    split; [now apply sortNumbers_ascending|].
    intros z. rewrite sortNumbers_In. apply C2.
Qed.

Example parseStudentNumbers_scenarios :
  parseStudentNumbers (lit "3, 1,2") = Returned [1; 2; 3]
  /\ parseStudentNumbers (lit "2,1,2,1,3") = Thrown (Error [1; 2])
  /\ parseStudentNumbers (lit "x,,") = Returned [].
Proof. repeat split; vm_compute; reflexivity. Qed.

(** ** validateSameGroupInput accepts only what the handler keeps *)

(** The inner loop of [validateSameGroupInput] over the numbers of one
    group. *)
Definition noteNumber (acc : NumSet * NumSet) (studentNumber : Z)
  : NumSet * NumSet :=
  if Set_has (fst acc) studentNumber
  then (fst acc, Set_add (snd acc) studentNumber)
  else (Set_add (fst acc) studentNumber, snd acc).

Lemma noteNumbers_clean students : forall allStudentNumbers cross,
  NoDup allStudentNumbers ->
  snd (fold_left noteNumber students (allStudentNumbers, cross)) = [] ->
  cross = []
  /\ fst (fold_left noteNumber students (allStudentNumbers, cross))
     = allStudentNumbers ++ students
  /\ NoDup (allStudentNumbers ++ students).
Proof.
  induction students as [|x students IH]; intros allNumbers cross ND H.
  - simpl in *. rewrite app_nil_r. auto.
  - cbn [fold_left] in H |- *.
    assert (St : noteNumber (allNumbers, cross) x
                 = if Set_has allNumbers x then (allNumbers, Set_add cross x)
                   else (Set_add allNumbers x, cross)) by reflexivity.
    rewrite St in H |- *. clear St.
    destruct (Set_has allNumbers x) eqn:E.
    + destruct (IH allNumbers (Set_add cross x) ND H) as (K & _).
      now apply Set_add_nonnil in K.
    + assert (SA : Set_add allNumbers x = allNumbers ++ [x])
        by (unfold Set_add; now rewrite E).
      rewrite SA in H |- *.
      assert (ND' : NoDup (allNumbers ++ [x])).
      { rewrite <- SA. now apply Set_add_NoDup. }
      destruct (IH (allNumbers ++ [x]) cross ND' H) as (K1 & K2 & K3).
      rewrite <- app_assoc in K2, K3. auto.
Qed.

Lemma checkGroups_accepts maxStudentsPerGroup groups :
  forall allStudentNumbers cross,
  NoDup allStudentNumbers ->
  checkGroups maxStudentsPerGroup groups allStudentNumbers cross = inr [] ->
  cross = []
  /\ Forall (fun group =>
               NoDup (idsOf group)
               /\ (1 <= List.length (idsOf group) <= maxStudentsPerGroup)%nat)
            groups
  /\ NoDup (allStudentNumbers ++ flat_map idsOf groups).
Proof.
  induction groups as [|g groups IH]; intros allNumbers cross ND H.
  - simpl in *. injection H as ->. rewrite app_nil_r. auto.
  - cbn [checkGroups] in H.
    destruct (parseStudentNumbers_spec g) as [S1 S2].
    destruct (ListDec.NoDup_dec Z.eq_dec (idsOf g)) as [NDg|NDg].
    2:{ destruct (S2 NDg) as (dup & _ & T). rewrite T in H. discriminate H. }
    clear S2. rewrite (S1 NDg) in H.
    assert (L : List.length (sortNumbers (idsOf g)) = List.length (idsOf g))
      by apply Array_sort_length.
    rewrite L in H.
    destruct (Nat.eqb_spec (List.length (idsOf g)) 0); [discriminate|].
    destruct (Nat.ltb_spec maxStudentsPerGroup (List.length (idsOf g)));
      [discriminate|].
    change (fold_left _ (sortNumbers (idsOf g)) (allNumbers, cross))
      with (fold_left noteNumber (sortNumbers (idsOf g)) (allNumbers, cross)) in H.
    destruct (fold_left noteNumber (sortNumbers (idsOf g)) (allNumbers, cross))
      as [all' cross'] eqn:F.
    assert (ND0 : NoDup all' /\ (cross' = [] -> cross = []
                   /\ all' = allNumbers ++ sortNumbers (idsOf g)
                   /\ NoDup (allNumbers ++ sortNumbers (idsOf g)))).
    { split.
      - clear - ND F. revert allNumbers cross ND F.
        generalize (sortNumbers (idsOf g)) as l.
        induction l as [|x l IHl]; intros a c ND F.
        + simpl in F. now injection F as <- _.
        + cbn [fold_left] in F.
          assert (St : noteNumber (a, c) x
                       = if Set_has a x then (a, Set_add c x)
                         else (Set_add a x, c)) by reflexivity.
          rewrite St in F. clear St.
          destruct (Set_has a x); eapply IHl; try exact F; try assumption.
          now apply Set_add_NoDup.
      - intros ->. pose proof (@noteNumbers_clean (sortNumbers (idsOf g))
                                 allNumbers cross ND) as K.
        rewrite F in K. cbn [fst snd] in K. now apply K. }
    destruct ND0 as [ND' K].
    destruct (IH all' cross' ND' H) as (-> & FA & NDA).
    destruct (K eq_refl) as (-> & -> & _).
    split; [reflexivity|]. split.
    + constructor; [|assumption]. split; [assumption | lia].
    + cbn [flat_map]. eapply Permutation_NoDup; [|exact NDA].
      rewrite !app_assoc. apply Permutation_app_tail, Permutation_app_head.
      apply Array_sort_perm.
Qed.

Lemma NoDup_app_apart (A : Type) (l1 l2 : list A) z :
  NoDup (l1 ++ l2) -> In z l1 -> In z l2 -> False.
Proof.
  induction l1 as [|x l1 IH]; simpl; intros N [] H2.
  - subst. inversion N as [|? ? Nx _]; subst. apply Nx, in_app_iff. now right.
  - inversion N; subst. now apply IH.
Qed.

(** X4.  An input of the same-group condition that [validateSameGroupInput]
    accepts is kept whole by the handler's parser:
    no cluster of it names a number twice, every cluster names between one
    and [maxStudentsPerGroup] numbers, no number is in two clusters, and
    [parseSameGroupInput] returns, in the order of the text, the sorted
    numbers of every cluster that names at least two. *)
Theorem validateSameGroupInput_sound (input : str) (maxStudentsPerGroup : nat) :
  validateSameGroupInput input maxStudentsPerGroup = None ->
  Forall (fun group =>
            NoDup (idsOf group)
            /\ (1 <= List.length (idsOf group) <= maxStudentsPerGroup)%nat)
         (segments input)
  /\ NoDup (flat_map idsOf (segments input))
  /\ parseSameGroupInput input
     = map (fun group => sortNumbers (idsOf group))
           (filter (fun group => (2 <=? List.length (idsOf group))%nat)
                   (segments input))
  /\ NoDup (concat (parseSameGroupInput input)).
Proof.
  intros V.
  assert (K : Forall (fun group =>
                        NoDup (idsOf group)
                        /\ (1 <= List.length (idsOf group) <= maxStudentsPerGroup)%nat)
                     (segments input)
              /\ NoDup (flat_map idsOf (segments input))).
  { unfold validateSameGroupInput in V.
    destruct (trim input) as [|c t] eqn:ET.
    { rewrite segments_nothing by assumption. split; constructor. }
    cbn [nonEmpty negb] in V. rewrite <- ET in V.
    destruct (negb (onlyListCharacters (trim input))); [discriminate|].
    destruct (hasDoubledSeparator (trim input) || _ || _ || _ || _);
      [discriminate|].
    rewrite segments_trim in V.
    destruct (checkGroups maxStudentsPerGroup (segments input) [] [])
      as [e|cross] eqn:CG; [discriminate|].
    destruct cross; [|discriminate].
    destruct (@checkGroups_accepts maxStudentsPerGroup (segments input) [] []
                (NoDup_nil _) CG) as (_ & F & N).
    split; assumption. }
  destruct K as [F N]. split; [exact F|]. split; [exact N|].
  assert (P : parseSameGroupInput input
              = map (fun group => sortNumbers (idsOf group))
                    (filter (fun group => (2 <=? List.length (idsOf group))%nat)
                            (segments input))).
  { rewrite parseSameGroupInput_segments.
    clear N V. induction F as [|g l [NDg _] _ IH]; [reflexivity|].
    cbn [flat_map filter]. rewrite IH. unfold clusterOf.
    rewrite (proj1 (parseStudentNumbers_spec g) NDg).
    unfold sortNumbers at 1. rewrite Array_sort_length.
    destruct (2 <=? List.length (idsOf g))%nat; reflexivity. }
  split; [exact P|]. rewrite P. clear P V F.
  induction (segments input) as [|g l IH]; [constructor|].
  cbn [flat_map] in N. cbn [filter].
  assert (Nl : NoDup (flat_map idsOf l)) by (eapply NoDup_app_remove_l; exact N).
  destruct (2 <=? List.length (idsOf g))%nat; [|now apply IH].
  cbn [map concat].
  eapply Permutation_NoDup with (l := idsOf g ++ concat (map (fun group => sortNumbers (idsOf group)) (filter (fun group => (2 <=? List.length (idsOf group))%nat) l))).
  { apply Permutation_app_tail, Permutation_sym, Array_sort_perm. }
  apply NoDup_app.
  - eapply NoDup_app_remove_r; exact N.
  - now apply IH.
  - intros z Hz Hc. apply in_concat in Hc. destruct Hc as (c & Hc & Hzc).
    apply in_map_iff in Hc. destruct Hc as (g' & <- & Hg').
    apply filter_In in Hg'. destruct Hg' as [Hg' _].
    rewrite sortNumbers_In in Hzc.
    apply (NoDup_app_apart N Hz). apply in_flat_map.
    exists g'. split; assumption.
Qed.

Lemma validateSameGroupInput_sound_witness :
  Forall (fun group =>
            NoDup (idsOf group) /\ (1 <= List.length (idsOf group) <= 3)%nat)
         (segments (lit "1,2,3;4,7"))
  /\ NoDup (flat_map idsOf (segments (lit "1,2,3;4,7")))
  /\ parseSameGroupInput (lit "1,2,3;4,7")
     = map (fun group => sortNumbers (idsOf group))
           (filter (fun group => (2 <=? List.length (idsOf group))%nat)
                   (segments (lit "1,2,3;4,7")))
  /\ NoDup (concat (parseSameGroupInput (lit "1,2,3;4,7"))).
Proof.
  apply (@validateSameGroupInput_sound (lit "1,2,3;4,7") 3).
  vm_compute. reflexivity.
Defined.

(** ** The dialog's validation of the different-group input *)

Module DifferentGroupDialog.

(** The messages of [validateDifferentGroupInput], by kind and with the
    data they print. *)
Inductive DifferentGroupError :=
| FormatCharacters
| FormatSeparators
| InvalidCluster (group : str)
| RepeatedNumber (group : str)
| OverTotalGroups (group : str) (totalGroups : nat)
| RepeatedAcrossClusters (duplicateList : list Z).

(** [parseDifferentGroupNumbers]: the numbers of the parts, each once,
    ascending. *)
Definition parseDifferentGroupNumbers (input : str) : list Z :=
  let parts := map trim (split ","%char input) in
  let numbers :=
    flat_map (fun part => match parseInt part with
                          | Some num => [num]
                          | None => []
                          end) parts in
  sortNumbers (Set_of numbers).

(** The first loop: [for (const group of groups) { ... }]. *)
Fixpoint checkEach (totalGroups : nat) (groups : list str)
  : option DifferentGroupError :=
  match groups with
  | [] => None
  | group :: groups' =>
      let students := parseDifferentGroupNumbers group in
      if (List.length students =? 0)%nat then Some (InvalidCluster group)
      else
        let originalParts :=
          flat_map (fun part => match parseInt (trim part) with
                                | Some num => [num]
                                | None => []
                                end) (split ","%char group) in
        let uniqueParts := Set_of originalParts in
        if negb (List.length originalParts =? List.length uniqueParts)%nat
        then Some (RepeatedNumber group)
        else if (totalGroups <? List.length students)%nat
             then Some (OverTotalGroups group totalGroups)
             else checkEach totalGroups groups'
  end.

(** The second loop: the numbers that are in more than one cluster. *)
Definition noteStudent (acc : list Z * NumSet) (studentNum : Z)
  : list Z * NumSet :=
  let '(allStudentNumbers, duplicates) := acc in
  if existsb (Z.eqb studentNum) allStudentNumbers
  then (allStudentNumbers, Set_add duplicates studentNum)
  else (allStudentNumbers ++ [studentNum], duplicates).

Definition crossDuplicates (groups : list str) : NumSet :=
  snd (fold_left (fun acc group =>
                    fold_left noteStudent (parseDifferentGroupNumbers group) acc)
                 groups ([], [])).

(** [validateDifferentGroupInput]; [None] is the result without [error].
    Nothing inside its [try] throws. *)
Definition validateDifferentGroupInput (input : str) (totalGroups : nat)
  : option DifferentGroupError :=
  if negb (nonEmpty (trim input)) then None
  else
    let trimmedInput := trim input in
    if negb (onlyListCharacters trimmedInput) then Some FormatCharacters
    else if hasDoubledSeparator trimmedInput
            || startsWith ","%char trimmedInput || endsWith ","%char trimmedInput
            || startsWith ";"%char trimmedInput || endsWith ";"%char trimmedInput
    then Some FormatSeparators
    else
      let groups := segments trimmedInput in
      match checkEach totalGroups groups with
      | Some e => Some e
      | None =>
          match crossDuplicates groups with
          | [] => None
          | duplicates => Some (RepeatedAcrossClusters (sortNumbers duplicates))
          end
      end.

End DifferentGroupDialog.

Import DifferentGroupDialog.

Lemma parseDifferentGroupNumbers_ids group :
  parseDifferentGroupNumbers group = sortNumbers (Set_of (idsOf group)).
Proof. reflexivity. Qed.

Lemma originalParts_ids group :
  flat_map (fun part => match parseInt (trim part) with
                        | Some num => [num]
                        | None => []
                        end) (split ","%char group)
  = idsOf group.
Proof.
  unfold idsOf, numberOf. induction (split ","%char group) as [|p l IH];
    [reflexivity|].
  cbn [map flat_map]. now rewrite IH.
Qed.

Lemma Set_of_incl l : incl (Set_of l) l.
Proof. intros z. apply Set_of_In. Qed.

Lemma Set_of_same_length l :
  List.length l = List.length (Set_of l) -> NoDup l /\ Set_of l = l.
Proof.
  intros H.
  assert (ND : NoDup l).
  { eapply NoDup_incl_NoDup; [apply (Set_of_NoDup l) | lia | apply Set_of_incl]. }
  split; [assumption|].
  unfold Set_of. assert (K : forall acc, NoDup (acc ++ l) ->
                             fold_left Set_add l acc = acc ++ l).
  { clear. induction l as [|x l IH]; intros acc N; simpl.
    - now rewrite app_nil_r.
    - assert (E : Set_has acc x = false).
      { destruct (Set_has acc x) eqn:E; [|reflexivity].
        apply Set_has_In in E. exfalso.
        apply (NoDup_app_apart N E). now left. }
      unfold Set_add. rewrite E. rewrite IH; rewrite <- app_assoc; [reflexivity|].
      exact N. }
  now apply (K []).
Qed.

Lemma checkEach_accepts totalGroups groups :
  checkEach totalGroups groups = None ->
  Forall (fun group =>
            NoDup (idsOf group)
            /\ (1 <= List.length (idsOf group) <= totalGroups)%nat
            /\ parseDifferentGroupNumbers group = sortNumbers (idsOf group))
         groups.
Proof.
  induction groups as [|g groups IH]; [constructor|].
  cbn [checkEach]. rewrite originalParts_ids, parseDifferentGroupNumbers_ids.
  unfold sortNumbers at 1 2. rewrite !Array_sort_length.
  destruct (Nat.eqb_spec (List.length (Set_of (idsOf g))) 0); [discriminate|].
  destruct (Nat.eqb_spec (List.length (idsOf g)) (List.length (Set_of (idsOf g))))
    as [E|]; [|discriminate].
  cbn [negb]. destruct (Set_of_same_length E) as [ND SE]. rewrite SE in *.
  destruct (Nat.ltb_spec totalGroups (List.length (idsOf g))); [discriminate|].
  intros HC. constructor; [|now apply IH].
  split; [assumption|]. split; [lia|].
  now rewrite parseDifferentGroupNumbers_ids, SE.
Qed.

Lemma noteStudent_noteNumber acc x : noteStudent acc x = noteNumber acc x.
Proof.
  destruct acc as [a d]. unfold noteStudent, noteNumber, Set_add, Set_has.
  cbn [fst snd]. now destruct (existsb (Z.eqb x) a).
Qed.

Lemma noteStudents_noteNumbers l : forall acc,
  fold_left noteStudent l acc = fold_left noteNumber l acc.
Proof.
  induction l as [|x l IH]; intros acc; [reflexivity|].
  cbn [fold_left]. now rewrite noteStudent_noteNumber, IH.
Qed.

Lemma noteNumbers_NoDup l : forall a c,
  NoDup a -> NoDup (fst (fold_left noteNumber l (a, c))).
Proof.
  induction l as [|x l IH]; intros a c ND; [assumption|].
  cbn [fold_left].
  assert (St : noteNumber (a, c) x
               = if Set_has a x then (a, Set_add c x) else (Set_add a x, c))
    by reflexivity.
  rewrite St. destruct (Set_has a x); apply IH; [assumption|].
  now apply Set_add_NoDup.
Qed.

Lemma crossScan_clean (groups : list str) : forall allNumbers cross,
  NoDup allNumbers ->
  snd (fold_left (fun acc group =>
                    fold_left noteStudent (parseDifferentGroupNumbers group) acc)
                 groups (allNumbers, cross)) = [] ->
  cross = []
  /\ NoDup (allNumbers ++ flat_map parseDifferentGroupNumbers groups).
Proof.
  induction groups as [|g groups IH]; intros allNumbers cross ND H.
  - simpl in *. rewrite app_nil_r. auto.
  - cbn [fold_left] in H. rewrite noteStudents_noteNumbers in H.
    pose proof (@noteNumbers_NoDup (parseDifferentGroupNumbers g)
                  allNumbers cross ND) as ND'.
    pose proof (@noteNumbers_clean (parseDifferentGroupNumbers g)
                  allNumbers cross ND) as K.
    destruct (fold_left noteNumber (parseDifferentGroupNumbers g)
                        (allNumbers, cross)) as [all' cross'].
    cbn [fst snd] in ND', K.
    destruct (IH all' cross' ND' H) as (-> & N).
    destruct (K eq_refl) as (-> & -> & _).
    split; [reflexivity|]. cbn [flat_map]. now rewrite app_assoc.
Qed.

(** X5.  An input of the different-group condition that
    [validateDifferentGroupInput] accepts is kept whole by the handler's
    parser and can be satisfied: no cluster of it names a number twice,
    every cluster names between one and [totalGroups] numbers, no number is
    in two clusters, and [parseDifferentGroupInput] returns, in the order
    of the text, the sorted numbers of every cluster that names at least
    two. *)
Theorem validateDifferentGroupInput_sound (input : str) (totalGroups : nat) :
  validateDifferentGroupInput input totalGroups = None ->
  Forall (fun group =>
            NoDup (idsOf group)
            /\ (1 <= List.length (idsOf group) <= totalGroups)%nat)
         (segments input)
  /\ NoDup (flat_map idsOf (segments input))
  /\ parseDifferentGroupInput input
     = map (fun group => sortNumbers (idsOf group))
           (filter (fun group => (2 <=? List.length (idsOf group))%nat)
                   (segments input))
  /\ Forall (fun cluster => (List.length cluster <= totalGroups)%nat)
            (parseDifferentGroupInput input).
Proof.
  intros V.
  assert (K : Forall (fun group =>
                        NoDup (idsOf group)
                        /\ (1 <= List.length (idsOf group) <= totalGroups)%nat
                        /\ parseDifferentGroupNumbers group
                           = sortNumbers (idsOf group))
                     (segments input)
              /\ NoDup (flat_map parseDifferentGroupNumbers (segments input))).
  { unfold validateDifferentGroupInput in V.
    destruct (trim input) as [|c t] eqn:ET.
    { rewrite segments_nothing by assumption. split; constructor. }
    cbn [nonEmpty negb] in V. rewrite <- ET in V.
    destruct (negb (onlyListCharacters (trim input))); [discriminate|].
    destruct (hasDoubledSeparator (trim input) || _ || _ || _ || _);
      [discriminate|].
    rewrite segments_trim in V.
    destruct (checkEach totalGroups (segments input)) eqn:CE; [discriminate|].
    destruct (crossDuplicates (segments input)) eqn:CD; [|discriminate].
    split; [now apply checkEach_accepts|].
    unfold crossDuplicates in CD.
    now destruct (@crossScan_clean (segments input) [] [] (NoDup_nil _) CD). }
  destruct K as [F N].
  assert (F' : Forall (fun group =>
                         NoDup (idsOf group)
                         /\ (1 <= List.length (idsOf group) <= totalGroups)%nat)
                      (segments input)).
  { eapply Forall_impl; [|exact F]. intros g (A & B & _). auto. }
  assert (N' : NoDup (flat_map idsOf (segments input))).
  { eapply Permutation_NoDup; [|exact N]. clear N F'.
    induction F as [|g l (_ & _ & E) _ IH]; [constructor|].
    cbn [flat_map]. rewrite E.
    apply Permutation_app; [apply Array_sort_perm | exact IH]. }
  assert (P : parseDifferentGroupInput input
              = map (fun group => sortNumbers (idsOf group))
                    (filter (fun group => (2 <=? List.length (idsOf group))%nat)
                            (segments input))).
  { change (parseDifferentGroupInput input) with (parseSameGroupInput input).
    rewrite parseSameGroupInput_segments.
    clear N V N' F. induction F' as [|g l [NDg _] _ IH]; [reflexivity|].
    cbn [flat_map filter]. rewrite IH. unfold clusterOf.
    rewrite (proj1 (parseStudentNumbers_spec g) NDg).
    unfold sortNumbers at 1. rewrite Array_sort_length.
    destruct (2 <=? List.length (idsOf g))%nat; reflexivity. }
  split; [exact F'|]. split; [exact N'|]. split; [exact P|].
  rewrite P. apply Forall_forall. intros c Hc. apply in_map_iff in Hc.
  destruct Hc as (g & <- & Hg). apply filter_In in Hg. destruct Hg as [Hg _].
  rewrite Forall_forall in F'. unfold sortNumbers. rewrite Array_sort_length.
  apply (F' g Hg).
Qed.

Lemma validateDifferentGroupInput_sound_witness :
  Forall (fun group =>
            NoDup (idsOf group) /\ (1 <= List.length (idsOf group) <= 3)%nat)
         (segments (lit "1,2,3;4,7"))
  /\ NoDup (flat_map idsOf (segments (lit "1,2,3;4,7")))
  /\ parseDifferentGroupInput (lit "1,2,3;4,7")
     = map (fun group => sortNumbers (idsOf group))
           (filter (fun group => (2 <=? List.length (idsOf group))%nat)
                   (segments (lit "1,2,3;4,7")))
  /\ Forall (fun cluster => (List.length cluster <= 3)%nat)
            (parseDifferentGroupInput (lit "1,2,3;4,7")).
Proof.
  apply (@validateDifferentGroupInput_sound (lit "1,2,3;4,7") 3).
  vm_compute. reflexivity.
Defined.

Example validateDifferentGroupInput_scenarios :
  validateDifferentGroupInput (lit "1,2,3;4,7") 2
  = Some (OverTotalGroups (lit "1,2,3") 2)
  /\ validateDifferentGroupInput (lit "1,1") 3 = Some (RepeatedNumber (lit "1,1"))
  /\ validateDifferentGroupInput (lit "1,2;2,3") 3
     = Some (RepeatedAcrossClusters [2])
  /\ validateDifferentGroupInput (lit "1,2;") 3 = Some FormatSeparators
  /\ validateDifferentGroupInput (lit "1-2") 3 = Some FormatCharacters.
Proof. repeat split; vm_compute; reflexivity. Qed.

(* ================================================================== *)
(** * The chain, the spreading of the rest and the shuffle             *)
(* ================================================================== *)

Lemma findCondition_disabled type context :
  (forall c, In c (Context.conditions context) -> Condition.enabled c = false) ->
  findCondition type context = None.
Proof.
  intros H. unfold findCondition.
  induction (Context.conditions context) as [|c l IH]; [reflexivity|].
  cbn [find]. rewrite (H c (or_introl eq_refl)), andb_false_r.
  apply IH. intros c' Hc'. apply H. now right.
Qed.

(** X6.  The chain of the four handlers, started on an array of at least
    one group in which nobody sits twice and nobody of the pool sits
    already, returns for every list of conditions and every random source;
    it keeps the number of groups; in its result nobody sits twice and
    everybody placed or left over was in the groups or in the pool before.
    With no condition enabled it changes nothing and reports that nothing
    was handled. *)
Theorem chain_never_duplicates {E : SortEngine} (context : GroupingContext)
  (rs : RandomSource) :
  (0 < List.length (Context.groups context))%nat ->
  NoDup (map Student.id (members (Context.groups context)
                         ++ Context.remainingStudents context)) ->
  exists result rs',
    blockDistributionHandler context rs = Returned (result, rs')
    /\ List.length (Result.groups result) = List.length (Context.groups context)
    /\ NoDup (map Student.id (members (Result.groups result)
                              ++ Result.remainingStudents result))
    /\ incl (members (Result.groups result) ++ Result.remainingStudents result)
            (members (Context.groups context) ++ Context.remainingStudents context)
    /\ ((forall c, In c (Context.conditions context) -> Condition.enabled c = false) ->
        Result.handled result = false
        /\ Result.groups result = Context.groups context
        /\ Result.remainingStudents result = Context.remainingStudents context).
Proof.
  intros HG ND.
  set (roster := members (Context.groups context) ++ Context.remainingStudents context).
  destruct (@chain_sound roster E context rs HG) as (result & rs' & R & L & W).
  assert (W0 : wf roster (Context.groups context) (Context.remainingStudents context)).
  { split; [|split].
    - intros z. apply NoDup_ids_cnt with (z := z) in ND.
      unfold roster in ND. now rewrite cnt_app in ND.
    - intros x Hx. apply in_app_iff. now left.
    - intros x Hx. apply in_app_iff. now right. }
  destruct (W W0) as (C & I1 & I2).
  exists result, rs'. split; [exact R|]. split; [exact L|]. split; [|split].
  - apply NoDup_ids_cnt. intros z. rewrite cnt_app. apply C.
  - intros x Hx. apply in_app_iff in Hx. destruct Hx; [now apply I1 | now apply I2].
  - intros HD.
    assert (R0 : blockDistributionHandler context rs
                 = Returned (notEnabled context, rs)).
    { unfold blockDistributionHandler, sameGroupHandler, differentGroupHandler,
        genderRatioHandler, handle, BlockDistributionHandler.process,
        SameGroupHandler.process, DifferentGroupHandler.process,
        GenderRatioHandler.process.
      rewrite !findCondition_disabled by assumption. reflexivity. }
    rewrite R0 in R. injection R as <- _. repeat split.
Qed.

Lemma chain_never_duplicates_witness :
  exists result rs',
    blockDistributionHandler (E := insertionEngine) crowdedContext midpoint
    = Returned (result, rs')
    /\ List.length (Result.groups result)
       = List.length (Context.groups crowdedContext)
    /\ NoDup (map Student.id (members (Result.groups result)
                              ++ Result.remainingStudents result))
    /\ incl (members (Result.groups result) ++ Result.remainingStudents result)
            (members (Context.groups crowdedContext)
             ++ Context.remainingStudents crowdedContext)
    /\ ((forall c, In c (Context.conditions crowdedContext) ->
                   Condition.enabled c = false) ->
        Result.handled result = false
        /\ Result.groups result = Context.groups crowdedContext
        /\ Result.remainingStudents result
           = Context.remainingStudents crowdedContext).
Proof.
  apply (@chain_never_duplicates insertionEngine crowdedContext midpoint).
  - vm_compute. lia.
  - vm_compute. repeat constructor; simpl; intuition discriminate.
Defined.

(** ** distributeRemainingStudents *)

Lemma minIndexFrom_least (pre gs : list Group) : forall best bestSize,
  (best < List.length pre)%nat ->
  sizeAt (pre ++ gs) best = bestSize ->
  (forall j, (j < List.length pre)%nat -> (bestSize <= sizeAt (pre ++ gs) j)%nat) ->
  let r := minIndexFrom best bestSize (List.length pre) gs in
  (r < List.length (pre ++ gs))%nat
  /\ forall j, (j < List.length (pre ++ gs))%nat ->
               (sizeAt (pre ++ gs) r <= sizeAt (pre ++ gs) j)%nat.
Proof.
  revert pre. induction gs as [|g gs IH]; intros pre best bestSize Hb Hs Hmin.
  - cbn [minIndexFrom]. rewrite app_nil_r in *. split; [assumption|].
    intros j Hj. rewrite Hs. now apply Hmin.
  - cbn [minIndexFrom].
    assert (Eg : sizeAt (pre ++ g :: gs) (List.length pre) = Group.size g).
    { unfold sizeAt. now rewrite nth_error_app2, Nat.sub_diag by lia. }
    assert (Ea : pre ++ g :: gs = (pre ++ [g]) ++ gs) by now rewrite <- app_assoc.
    assert (El : List.length (pre ++ [g]) = S (List.length pre))
      by (rewrite length_app; simpl; lia).
    rewrite Ea in *. rewrite <- El.
    destruct (Nat.ltb_spec (Group.size g) bestSize).
    + apply IH.
      * rewrite El. lia.
      * exact Eg.
      * intros j Hj. rewrite El in Hj.
        destruct (Nat.eq_dec j (List.length pre)) as [->|]; [lia|].
        specialize (Hmin j ltac:(lia)). lia.
    + apply IH.
      * rewrite El. lia.
      * assumption.
      * intros j Hj. rewrite El in Hj.
        destruct (Nat.eq_dec j (List.length pre)) as [->|]; [lia|].
        apply Hmin. lia.
Qed.

Lemma leastOccupied_least gs i :
  leastOccupied gs = Returned i ->
  (i < List.length gs)%nat
  /\ forall j, (j < List.length gs)%nat -> (sizeAt gs i <= sizeAt gs j)%nat.
Proof.
  destruct gs as [|g gs]; [discriminate|]. cbn [leastOccupied]. intros [= <-].
  apply (@minIndexFrom_least [g] gs 0%nat (Group.size g)).
  - simpl. lia.
  - reflexivity.
  - intros j Hj. simpl in Hj. assert (j = 0)%nat as -> by lia. reflexivity.
Qed.

(** The sizes of any two groups differ by [d] at most. *)
Definition spreadWithin (d : nat) (gs : list Group) : Prop :=
  forall i j, (i < List.length gs)%nat -> (j < List.length gs)%nat ->
              (sizeAt gs i <= sizeAt gs j + d)%nat.

Lemma pushEachToLeast_spread d l : forall gs gs',
  (1 <= d)%nat -> spreadWithin d gs ->
  pushEachToLeast l gs = Returned gs' ->
  spreadWithin d gs'
  /\ forall j, (sizeAt gs j <= sizeAt gs' j)%nat.
Proof.
  induction l as [|s l IH]; intros gs gs' Hd S0; cbn [pushEachToLeast].
  - intros [= <-]. auto.
  - destruct (leastOccupied gs) as [i| |] eqn:EL; try discriminate.
    destruct (leastOccupied_least EL) as [Hi Hmin].
    rewrite bind_Returned, pushStudent_give, bind_Returned by assumption.
    intros R. apply IH in R; [| assumption |].
    + destruct R as [S1 M]. split; [assumption|].
      intros j. specialize (M j).
      destruct (Nat.lt_ge_cases j (List.length gs)) as [Hj|Hj].
      * rewrite sizeAt_give in M by assumption. lia.
      * assert (sizeAt gs j = 0%nat); [|lia].
        unfold sizeAt. now rewrite (proj2 (nth_error_None gs j)) by lia.
    + intros a b Ha Hb. rewrite give_length in Ha, Hb.
      rewrite !sizeAt_give by assumption.
      specialize (S0 a b Ha Hb). pose proof (Hmin b Hb).
      destruct (Nat.eqb_spec a i), (Nat.eqb_spec b i); subst; lia.
Qed.

(** X7.  [distributeRemainingStudents] on an array of at least one group
    returns; it keeps the number of groups, takes nobody out of a group and
    adds every student of the rest exactly once; and since every student
    goes to a group that is least occupied at that moment, sizes that
    differed by [d >= 1] at most before differ by [d] at most after. *)
Theorem distributeRemainingStudents_levels {E : SortEngine} (gs : list Group)
  (remainingStudents : list Student) (rs : RandomSource) (d : nat) :
  (0 < List.length gs)%nat -> (1 <= d)%nat -> spreadWithin d gs ->
  exists gs' rs',
    distributeRemainingStudents gs remainingStudents rs = Returned (gs', rs')
    /\ List.length gs' = List.length gs
    /\ Permutation (members gs') (remainingStudents ++ members gs)
    /\ (forall j, (sizeAt gs j <= sizeAt gs' j)%nat)
    /\ spreadWithin d gs'.
Proof.
  intros HG Hd S0.
  destruct (@distributeRemainingStudents_ok E gs remainingStudents rs HG)
    as (gs' & rs' & R & L & P).
  exists gs', rs'. split; [exact R|]. split; [exact L|]. split; [exact P|].
  unfold distributeRemainingStudents in R.
  destruct (sortRandom remainingStudents rs) as [shuffled rs1].
  destruct (pushEachToLeast shuffled gs) as [gs1| |] eqn:EP; try discriminate.
  rewrite bind_Returned in R. injection R as <- _.
  destruct (pushEachToLeast_spread Hd S0 EP) as [S1 M]. auto.
Qed.

Lemma distributeRemainingStudents_levels_witness :
  exists gs' rs',
    distributeRemainingStudents (E := insertionEngine)
      (groups (scenario "" "" 2)) (students (scenario "1,3,5" "2,4" 2)) midpoint
    = Returned (gs', rs')
    /\ List.length gs' = List.length (groups (scenario "" "" 2))
    /\ Permutation (members gs')
                   (students (scenario "1,3,5" "2,4" 2)
                    ++ members (groups (scenario "" "" 2)))
    /\ (forall j, (sizeAt (groups (scenario "" "" 2)) j <= sizeAt gs' j)%nat)
    /\ spreadWithin 1 gs'.
Proof.
  apply (@distributeRemainingStudents_levels insertionEngine
           (groups (scenario "" "" 2)) (students (scenario "1,3,5" "2,4" 2))
           midpoint 1).
  - simpl. lia.
  - lia.
  - assert (Z0 : forall j, sizeAt (groups (scenario "" "" 2)) j = 0%nat)
      by (intros [|[|[|j]]]; reflexivity).
    intros i j _ _. rewrite !Z0. lia.
Defined.

(** ** shuffleArray *)

Lemma shuffleFrom_draws (A : Type) i : forall (l : list A) rs,
  snd (shuffleFrom i l rs) = advance i rs.
Proof.
  induction i as [|i IH]; intros l rs; cbn [shuffleFrom].
  - now rewrite advance_0.
  - unfold randomIndex, Math_random.
    rewrite IH. unfold advance. cbn [draws cursor]. f_equal. lia.
Qed.

Lemma shuffleFrom_short (A : Type) i : forall (l : list A) rs,
  (List.length l <= 1)%nat -> fst (shuffleFrom i l rs) = l.
Proof.
  induction i as [|i IH]; intros l rs H; cbn [shuffleFrom]; [reflexivity|].
  destruct (randomIndex (S i) rs) as [j rs'].
  assert (E : swap (S i) j l = l).
  { unfold swap. now rewrite (proj2 (nth_error_None l (S i))) by lia. }
  rewrite E. now apply IH.
Qed.

(** X8.  [shuffleArray] (the Fisher-Yates loop of the gender-ratio
    handler) returns a rearrangement of the array for every random source:
    no element is lost or repeated.  It calls [Math.random] once for every
    element but the first, and every index it draws for position [i] lies
    between 0 and [i], inside the array. *)
Theorem shuffleArray_rearranges (A : Type) (l : list A) (rs : RandomSource) :
  Permutation (fst (shuffleArray l rs)) l
  /\ List.length (fst (shuffleArray l rs)) = List.length l
  /\ snd (shuffleArray l rs) = advance (List.length l - 1) rs
  /\ (forall i rs0, (fst (randomIndex i rs0) <= i)%nat).
Proof.
  split; [apply shuffleArray_perm|]. split.
  - apply Permutation_length, shuffleArray_perm.
  - split; [apply shuffleFrom_draws | apply randomIndex_le].
Qed.

(* ================================================================== *)
(** * What the equalizer leaves in every group                         *)
(* ================================================================== *)

(** The number of students of group [j] that satisfy [p]. *)
Definition countAt (p : Student -> bool) (gs : list Group) (j : nat) : nat :=
  match nth_error gs j with
  | Some g => List.length (filter p (Group.students g))
  | None => 0%nat
  end.

Lemma countAt_give p i s gs j :
  (i < List.length gs)%nat ->
  countAt p (give i s gs) j
  = (countAt p gs j + if (j =? i)%nat then (if p s then 1 else 0) else 0)%nat.
Proof.
  intros Hi. unfold give, countAt.
  destruct (nth_error gs i) as [g|] eqn:E.
  2:{ apply nth_error_None in E. lia. }
  destruct (Nat.eqb_spec j i) as [->|ne].
  - rewrite nth_error_updateNth_eq by assumption. rewrite E.
    unfold Group.push, Group.withStudents. cbn [Group.students].
    rewrite filter_app, length_app. simpl. destruct (p s); simpl; lia.
  - rewrite nth_error_updateNth_neq by congruence. lia.
Qed.

Lemma filter_perm_length (A : Type) (p : A -> bool) l l' :
  Permutation l l' -> List.length (filter p l) = List.length (filter p l').
Proof.
  induction 1 as [|x l l' _ IH|x y l|l l' l'' _ IH1 _ IH2]; simpl.
  - reflexivity.
  - destruct (p x); simpl; congruence.
  - destruct (p x), (p y); reflexivity.
  - congruence.
Qed.

Lemma countAt_map_sortGroup p gs j :
  countAt p (map sortGroup gs) j = countAt p gs j.
Proof.
  unfold countAt. rewrite nth_error_map.
  destruct (nth_error gs j) as [g|]; [|reflexivity]. cbn [option_map].
  unfold sortGroup, Group.withStudents. cbn [Group.students].
  apply filter_perm_length, Array_sort_perm.
Qed.

Lemma countAt_all p gs j :
  (forall s, In s (members gs) -> p s = true) -> countAt p gs j = sizeAt gs j.
Proof.
  intros H. unfold countAt, sizeAt, Group.size.
  destruct (nth_error gs j) as [g|] eqn:E; [|reflexivity].
  f_equal. assert (F : forall l, (forall s, In s l -> p s = true) -> filter p l = l).
  { induction l as [|x l IH]; intros K; [reflexivity|]. simpl.
    rewrite (K x (or_introl eq_refl)). f_equal. apply IH.
    intros s Hs. apply K. now right. }
  apply F. intros s Hs. apply H. unfold members. apply in_flat_map.
  exists g. split; [eapply nth_error_In; eassumption | assumption].
Qed.

Lemma hasRoom_inside T gs i : hasRoom T gs i = true -> (i < List.length gs)%nat.
Proof.
  unfold hasRoom. destruct (nth_error gs i) eqn:E; [|discriminate].
  intros _. apply nth_error_Some. congruence.
Qed.

Lemma countAt_roundRobinSkipping p T pool : forall cur gs j,
  (forall s, In s pool -> p s = false) ->
  countAt p (roundRobinSkipping T pool cur gs) j = countAt p gs j.
Proof.
  induction pool as [|s pool IH]; intros cur gs j H; cbn [roundRobinSkipping];
    [reflexivity|].
  destruct (nextWithRoom T gs cur (List.length gs)) as [i|] eqn:N; [|reflexivity].
  rewrite IH by (intros s' Hs'; apply H; now right).
  rewrite countAt_give by (eapply hasRoom_inside, nextWithRoom_sound; eassumption).
  rewrite (H s (or_introl eq_refl)). destruct (j =? i)%nat; lia.
Qed.

Lemma gender_exclusive s : isMale s = negb (isFemale s).
Proof. unfold isMale, isFemale. now destruct (Student.gender s). Qed.

(** The redistribution with the male students first: the male students
    of every group are its share of a round-robin deal of all of them. *)
Lemma redistribute_males (m f : list Student) (gs : list Group) j :
  (0 < List.length gs)%nat -> (j < List.length gs)%nat ->
  (forall s, In s m -> isMale s = true) ->
  (forall s, In s f -> isMale s = false) ->
  countAt isMale (redistribute m f gs) j
  = targetSize (List.length m) (List.length gs) j.
Proof.
  intros HG Hj Hm Hf. unfold redistribute.
  pose proof (firstPool_dealt m HG) as D. cbv zeta in D.
  destruct (if (List.length gs <=? List.length m)%nat
            then oneEach (clearGroups gs) m else (clearGroups gs, m))
    as [served rest].
  destruct D as (L & Sz & P).
  rewrite countAt_map_sortGroup, countAt_roundRobinSkipping by assumption.
  rewrite countAt_all; [now apply Sz|].
  intros s Hs. apply Hm. eapply Permutation_in; eassumption.
Qed.

Definition malesAt : list Group -> nat -> nat := countAt isMale.
Definition femalesAt : list Group -> nat -> nat := countAt isFemale.

Lemma males_and_females gs j : (malesAt gs j + femalesAt gs j = sizeAt gs j)%nat.
Proof.
  unfold malesAt, femalesAt, countAt, sizeAt, Group.size.
  destruct (nth_error gs j); [apply gender_split | reflexivity].
Qed.

Lemma targetSize_at_least total G j : (total / G <= targetSize total G j)%nat.
Proof. unfold targetSize. lia. Qed.

(** X9.  [performGrouping] on at least one group and a roster of distinct
    seat numbers stores groups of known make-up, whatever conditions are
    enabled and whatever the random source: group [j] holds its round-robin
    share of the male students and is filled with female students up to
    its target size.  So the numbers of male students of two groups differ
    by one at most, and with at least as many male students as groups
    every group has one. *)
Theorem performGrouping_gender_counts {E : SortEngine}
  (conditionsService : GroupingConditionsService.State)
  (st : StudentService.State) (rs : RandomSource) :
  (0 < List.length (groups st))%nat ->
  NoDup (map Student.id (students st)) ->
  let G := List.length (groups st) in
  let M := List.length (filter isMale (students st)) in
  let T := List.length (students st) in
  exists st' rs',
    performGrouping conditionsService st rs = Returned (st', rs')
    /\ (forall j, (j < G)%nat ->
          malesAt (groups st') j = targetSize M G j
          /\ femalesAt (groups st') j = (targetSize T G j - targetSize M G j)%nat)
    /\ (forall i j, (i < G)%nat -> (j < G)%nat ->
          (malesAt (groups st') i <= malesAt (groups st') j + 1)%nat)
    /\ ((G <= M)%nat -> forall j, (j < G)%nat -> (1 <= malesAt (groups st') j)%nat).
Proof.
  intros HG ND G M T. unfold performGrouping.
  destruct (@chain_result E (students st) (groups st)
              (map toCondition
                   (indexed (GroupingConditionsService.getEnabledConditions
                               conditionsService))) rs HG)
    as (result & rs1 & -> & L & W).
  rewrite bind_Returned. cbv zeta in L, W. destruct (W ND) as [NA IA].
  set (finalGroups := if Result.handled result then Result.groups result
                      else clearGroups (clearGroups (groups st))) in *.
  assert (HF : (0 < List.length finalGroups)%nat) by (rewrite L; exact HG).
  pose proof (forceEqualDistribution_refines (students st) rs1 HF) as R.
  pose proof (shuffledPools_perm finalGroups (students st) rs1) as SP.
  pose proof (studentsToDistribute_perm ND NA IA) as PR.
  unfold shuffledPools in R, SP.
  set (pool := studentsToDistribute finalGroups (students st)) in *.
  pose proof (sortRandom_perm (filter isMale pool) rs1) as P1.
  destruct (sortRandom (filter isMale pool) rs1) as [m rs2].
  pose proof (sortRandom_perm (filter isFemale pool) rs2) as P2.
  destruct (sortRandom (filter isFemale pool) rs2) as [f rs3].
  cbn [fst] in P1, P2. rewrite R, bind_Returned.
  eexists _, _. split; [reflexivity|]. cbn [groups].
  assert (Hm : forall s, In s m -> isMale s = true).
  { intros s Hs. eapply Permutation_in in Hs; [|exact P1].
    now apply filter_In in Hs. }
  assert (Hf : forall s, In s f -> isMale s = false).
  { intros s Hs. eapply Permutation_in in Hs; [|exact P2].
    apply filter_In in Hs. rewrite gender_exclusive. now rewrite (proj2 Hs). }
  assert (Lm : List.length m = M).
  { rewrite (Permutation_length P1). apply filter_perm_length. exact PR. }
  assert (LT : (List.length m + List.length f = T)%nat).
  { rewrite <- length_app, (Permutation_length SP). now apply Permutation_length. }
  destruct (redistribute_spec m f HF) as (L' & Sz & _).
  assert (Males : forall j, (j < G)%nat ->
            malesAt (redistribute m f finalGroups) j = targetSize M G j).
  { intros j Hj. unfold malesAt.
    rewrite redistribute_males by (assumption || (rewrite L; exact Hj)).
    now rewrite Lm, L. }
  split; [|split].
  - intros j Hj. split; [now apply Males|].
    pose proof (males_and_females (redistribute m f finalGroups) j) as MF.
    rewrite Males in MF by assumption.
    rewrite Sz, LT, L in MF by (rewrite L; exact Hj). fold G in MF. lia.
  - intros i j Hi Hj. rewrite !Males by assumption.
    apply targetSize_spread; assumption.
  - intros GM j Hj. rewrite Males by assumption.
    pose proof (targetSize_at_least M G j).
    assert (1 <= M / G)%nat; [|lia].
    apply Nat.div_le_lower_bound; lia.
Qed.

Lemma performGrouping_gender_counts_witness :
  exists st' rs',
    performGrouping (E := insertionEngine) GroupingConditionsService.initial
                    (scenario "1,3" "2,4" 2) midpoint
    = Returned (st', rs')
    /\ (forall j, (j < 2)%nat ->
          malesAt (groups st') j = targetSize 2 2 j
          /\ femalesAt (groups st') j = (targetSize 4 2 j - targetSize 2 2 j)%nat)
    /\ (forall i j, (i < 2)%nat -> (j < 2)%nat ->
          (malesAt (groups st') i <= malesAt (groups st') j + 1)%nat)
    /\ ((2 <= 2)%nat -> forall j, (j < 2)%nat -> (1 <= malesAt (groups st') j)%nat).
Proof.
  apply (@performGrouping_gender_counts insertionEngine
           GroupingConditionsService.initial (scenario "1,3" "2,4" 2) midpoint).
  - simpl. lia.
  - exact scenario_NoDup.
Defined.

(** ** The groups keep their names; their students are listed by seat *)

Definition labels (gs : list Group) : list (nat * nat) :=
  map (fun g => (Group.id g, Group.name g)) gs.

Lemma labels_give i s gs : labels (give i s gs) = labels gs.
Proof.
  unfold give. destruct (nth_error gs i) as [g|] eqn:E; [|reflexivity].
  destruct (updateNth_split (Group.push s g) E) as (l1 & l2 & -> & -> & _).
  unfold labels. now rewrite !map_app.
Qed.

Lemma labels_clearGroups gs : labels (clearGroups gs) = labels gs.
Proof. unfold labels, clearGroups. rewrite map_map. reflexivity. Qed.

Lemma labels_sortGroup gs : labels (map sortGroup gs) = labels gs.
Proof. unfold labels. rewrite map_map. reflexivity. Qed.

Lemma labels_oneEach gs : forall pool, labels (fst (oneEach gs pool)) = labels gs.
Proof.
  induction gs as [|g gs IH]; intros [|s pool]; try reflexivity.
  cbn [oneEach]. specialize (IH pool).
  destruct (oneEach gs pool) as [served rest]. cbn [fst] in *.
  unfold labels in *. cbn [map]. now rewrite IH.
Qed.

Lemma labels_fold_give (A : Type) (f : A -> nat) (g : A -> Student) l :
  forall gs, labels (fold_left (fun acc x => give (f x) (g x) acc) l gs) = labels gs.
Proof.
  induction l as [|x l IH]; intros gs; [reflexivity|].
  cbn [fold_left]. now rewrite IH, labels_give.
Qed.

Lemma labels_roundRobinSkipping T pool : forall cur gs,
  labels (roundRobinSkipping T pool cur gs) = labels gs.
Proof.
  induction pool as [|s pool IH]; intros cur gs; [reflexivity|].
  cbn [roundRobinSkipping].
  destruct (nextWithRoom T gs cur (List.length gs)); [|reflexivity].
  now rewrite IH, labels_give.
Qed.

Lemma labels_redistribute m f gs : labels (redistribute m f gs) = labels gs.
Proof.
  unfold redistribute.
  pose proof (labels_oneEach (clearGroups gs) m) as O.
  destruct (if (List.length gs <=? List.length m)%nat
            then oneEach (clearGroups gs) m else (clearGroups gs, m))
    as [served rest] eqn:EQ.
  rewrite labels_sortGroup, labels_roundRobinSkipping.
  unfold roundRobin. rewrite labels_fold_give.
  destruct (List.length gs <=? List.length m)%nat.
  - rewrite EQ in O. cbn [fst] in O. now rewrite O, labels_clearGroups.
  - injection EQ as <- <-. apply labels_clearGroups.
Qed.

(** X10.  The equalizer, on any array of at least one group, returns the
    same groups in the same order, each with its id and its name, and
    lists the students of every group by ascending seat number; the
    students it deals are those of the groups it was given and, after
    them, those of the roster that were in no group. *)
Theorem forceEqualDistribution_keeps_labels {E : SortEngine} (gs : list Group)
  (allStudents : list Student) (rs : RandomSource) :
  (0 < List.length gs)%nat ->
  exists gs' rs',
    forceEqualDistribution gs allStudents rs = Returned (gs', rs')
    /\ labels gs' = labels gs
    /\ Forall (fun g => Sorted Z.le (map Student.id (Group.students g))) gs'
    /\ Permutation (members gs')
         (members gs
          ++ filter (fun s => negb (existsb (hasId (Student.id s)) (members gs)))
                    allStudents).
Proof.
  intros HG.
  pose proof (forceEqualDistribution_refines allStudents rs HG) as R.
  pose proof (shuffledPools_perm gs allStudents rs) as SP.
  destruct (shuffledPools gs allStudents rs) as [[m f] rs'].
  exists (redistribute m f gs), rs'. split; [exact R|].
  split; [apply labels_redistribute|]. split.
  - unfold redistribute.
    destruct (if (List.length gs <=? List.length m)%nat
              then oneEach (clearGroups gs) m else (clearGroups gs, m))
      as [served rest].
    apply Forall_forall. intros g Hg. apply in_map_iff in Hg.
    destruct Hg as (g0 & <- & _). unfold sortGroup, Group.withStudents.
    cbn [Group.students]. apply sortById_sorted.
  - destruct (redistribute_spec m f HG) as (_ & _ & P).
    eapply Permutation_trans; [exact P|]. exact SP.
Qed.

Lemma forceEqualDistribution_keeps_labels_witness :
  exists gs' rs',
    forceEqualDistribution (E := insertionEngine) crowdedGroups
                           (students (scenario "1-3,6" "4,5" 3)) midpoint
    = Returned (gs', rs')
    /\ labels gs' = labels crowdedGroups
    /\ Forall (fun g => Sorted Z.le (map Student.id (Group.students g))) gs'
    /\ Permutation (members gs')
         (members crowdedGroups
          ++ filter (fun s => negb (existsb (hasId (Student.id s))
                                            (members crowdedGroups)))
                    (students (scenario "1-3,6" "4,5" 3))).
Proof.
  apply (@forceEqualDistribution_keeps_labels insertionEngine crowdedGroups
           (students (scenario "1-3,6" "4,5" 3)) midpoint).
  simpl. lia.
Defined.

(* ================================================================== *)
(** * Block distribution deals the block students round-robin          *)
(* ================================================================== *)

Definition setAll (i : nat) (m : NumMap) (ids : list Z) : NumMap :=
  fold_left (fun m' studentId => Map_set m' studentId i) ids m.

Lemma setAll_get i ids : forall m z,
  Map_get (setAll i m ids) z
  = if existsb (Z.eqb z) ids then Some i else Map_get m z.
Proof.
  induction ids as [|x ids IH]; intros m z; [reflexivity|].
  unfold setAll in *. cbn [fold_left existsb]. rewrite IH, Map_get_set.
  rewrite (Z.eqb_sym x z). destruct (existsb (Z.eqb z) ids), (z =? x); reflexivity.
Qed.

Lemma blockMap_from (blocks : list (list Z)) : forall k m z,
  let M := fold_left (fun m ib => setAll (fst ib) m (snd ib))
                     (combine (seq k (List.length blocks)) blocks) m in
  (forall i, Map_get M z = Some i ->
             (k <= i < k + List.length blocks)%nat \/ Map_get m z = Some i)
  /\ Map_has M z = Map_has m z || existsb (Z.eqb z) (concat blocks).
Proof.
  induction blocks as [|b blocks IH]; intros k m z.
  - cbn. split; [auto | now rewrite orb_false_r].
  - cbn [List.length seq combine fold_left fst snd concat].
    destruct (IH (S k) (setAll k m b) z) as [I1 I2]. cbv zeta in I1, I2.
    split.
    + intros i Hi. apply I1 in Hi. destruct Hi as [Hi|Hi]; [left; lia|].
      rewrite setAll_get in Hi. destruct (existsb (Z.eqb z) b).
      * injection Hi as <-. left. lia.
      * now right.
    + rewrite I2. unfold Map_has at 1. rewrite setAll_get, existsb_app.
      unfold Map_has. destruct (existsb (Z.eqb z) b), (Map_get m z); reflexivity.
Qed.

Lemma buildBlockStudentMap_spec (blocks : list (list Z)) z :
  (forall i, Map_get (BlockDistributionHandler.buildBlockStudentMap blocks) z = Some i ->
             (i < List.length blocks)%nat)
  /\ Map_has (BlockDistributionHandler.buildBlockStudentMap blocks) z
     = existsb (Z.eqb z) (concat blocks).
Proof.
  destruct (blockMap_from blocks 0 [] z) as [I1 I2]. cbv zeta in I1, I2.
  split.
  - intros i Hi. apply I1 in Hi. destruct Hi as [Hi|Hi]; [lia | discriminate].
  - exact I2.
Qed.

Lemma pushAt_valid (k : nat) (s : Student) (bg : list (list Student)) :
  (k < List.length bg)%nat ->
  Permutation (concat (BlockDistributionHandler.pushAt k s bg)) (s :: concat bg)
  /\ List.length (BlockDistributionHandler.pushAt k s bg) = List.length bg.
Proof.
  intros Hk. unfold BlockDistributionHandler.pushAt.
  destruct (nth_error bg k) as [l|] eqn:E.
  2:{ apply nth_error_None in E. lia. }
  split; [|apply updateNth_length].
  destruct (updateNth_split (l ++ [s]) E) as (l1 & l2 & -> & -> & _).
  rewrite !concat_app. cbn [concat]. perm_count.
Qed.

Lemma collect_exact (M : NumMap) (n : nat) (l : list Student) : forall bg P,
  List.length bg = n ->
  (forall z i, Map_get M z = Some i -> (i < n)%nat) ->
  let result := fold_left (BlockDistributionHandler.collect M) l (bg, P) in
  List.length (fst result) = n
  /\ Permutation (concat (fst result))
                 (concat bg ++ filter (fun s => Map_has M (Student.id s)) l)
  /\ (forall z, In z (snd result)
                <-> In z P \/ exists s, In s l /\ Student.id s = z
                                        /\ Map_has M z = true).
Proof.
  induction l as [|s l IH]; intros bg P Hn HM.
  - cbn. rewrite app_nil_r. split; [assumption|]. split; [apply Permutation_refl|].
    intros z. split; [tauto|]. intros [H|(s & [] & _)]. exact H.
  - cbn [fold_left filter]. unfold BlockDistributionHandler.collect at 2 4 6.
    unfold Map_has at 1. destruct (Map_get M (Student.id s)) as [k|] eqn:EM.
    + destruct (@pushAt_valid k s bg) as [PP PL]; [rewrite Hn; eauto|].
      destruct (IH (BlockDistributionHandler.pushAt k s bg)
                   (Set_add P (Student.id s)) ltac:(congruence) HM)
        as (L & Pm & PS).
      split; [exact L|]. split.
      * eapply Permutation_trans; [exact Pm|]. perm_count.
      * intros z. rewrite PS, Set_add_In. split.
        -- intros [[->|H]|(s' & Hs' & E & Hz)].
           ++ right. exists s. repeat split; [now left|].
              unfold Map_has. now rewrite EM.
           ++ now left.
           ++ right. exists s'. repeat split; [now right | assumption | assumption].
        -- intros [H|(s' & [<-|Hs'] & E & Hz)].
           ++ left. now right.
           ++ left. left. now symmetry.
           ++ right. exists s'. auto.
    + destruct (IH bg P Hn HM) as (L & Pm & PS).
      split; [exact L|]. split; [exact Pm|].
      intros z. rewrite PS. split.
      * intros [H|(s' & Hs' & E & Hz)]; [now left|].
        right. exists s'. repeat split; [now right | assumption | assumption].
      * intros [H|(s' & [<-|Hs'] & E & Hz)]; [now left | | right; exists s'; auto].
        exfalso. subst z. unfold Map_has in Hz. now rewrite EM in Hz.
Qed.

Lemma replay_dealFrom G (pool : list Student) : forall k gs,
  replay (combine pool (map (fun j => (j mod G)%nat) (seq k (List.length pool)))) gs
  = dealFrom G k pool gs.
Proof.
  induction pool as [|s pool IH]; intros k gs; [reflexivity|].
  rewrite dealFrom_cons. cbn [List.length seq map combine].
  unfold replay in *. cbn [fold_left fst snd]. apply IH.
Qed.

Lemma Forall2_perm_concat (A : Type) (l1 l2 : list (list A)) :
  Forall2 (@Permutation A) l1 l2 -> Permutation (concat l1) (concat l2).
Proof.
  induction 1 as [|a b l1 l2 P _ IH]; [constructor|].
  cbn [concat]. now apply Permutation_app.
Qed.

Definition inSomeBlock (blocks : list (list Z)) (s : Student) : bool :=
  existsb (Z.eqb (Student.id s)) (concat blocks).

(** X11.  [distributeBlockStudents] on an array of at least one group
    returns; exactly the students of the pool whose seat number is listed
    in a block are put into groups, each once, and exactly their seat
    numbers are added to the processed ones; and because one pointer runs
    over all the blocks, group [j] receives its round-robin share of all
    of them together: started on empty groups the handler leaves sizes
    that differ by one at most. *)
Theorem distributeBlockStudents_round_robin {E : SortEngine} (gs : list Group)
  (blocks : list (list Z)) (remainingStudents : list Student)
  (processedStudentIds : NumSet) (rs : RandomSource) :
  (0 < List.length gs)%nat ->
  let placed := filter (inSomeBlock blocks) remainingStudents in
  exists gs' processed' rs',
    BlockDistributionHandler.distributeBlockStudents
      gs blocks remainingStudents processedStudentIds rs
    = Returned (gs', processed', rs')
    /\ List.length gs' = List.length gs
    /\ Permutation (members gs') (placed ++ members gs)
    /\ (forall j, (j < List.length gs)%nat ->
          sizeAt gs' j
          = (sizeAt gs j + targetSize (List.length placed) (List.length gs) j)%nat)
    /\ (forall z, In z processed'
                  <-> In z processedStudentIds
                      \/ In z (map Student.id placed)).
Proof.
  intros HG placed.
  unfold BlockDistributionHandler.distributeBlockStudents,
    BlockDistributionHandler.distributeBlockStudentsTraced.
  set (M := BlockDistributionHandler.buildBlockStudentMap blocks).
  assert (HM : forall z i, Map_get M z = Some i -> (i < List.length blocks)%nat).
  { intros z. apply buildBlockStudentMap_spec. }
  assert (EP : filter (fun s => Map_has M (Student.id s)) remainingStudents = placed).
  { unfold placed, inSomeBlock. apply filter_ext. intros s.
    apply buildBlockStudentMap_spec. }
  pose proof (@collect_exact M (List.length blocks) remainingStudents
                (map (fun _ => []) blocks) processedStudentIds
                ltac:(apply length_map) HM) as CE.
  cbv zeta in CE.
  destruct (fold_left (BlockDistributionHandler.collect M) remainingStudents _)
    as [blockGroups processed'].
  cbn [fst snd] in CE. destruct CE as (LB & PB & PS).
  rewrite concat_empties, EP in PB. cbn [app] in PB.
  destruct (@assignBlocks_ok E (List.length gs) blockGroups 0%nat gs rs eq_refl HG)
    as (gs' & logs & rs' & R & L & P).
  rewrite R, !bind_Returned. exists gs', processed', rs'.
  split; [reflexivity|]. split; [exact L|]. split; [|split].
  - eapply Permutation_trans; [exact P|]. now apply Permutation_app_tail.
  - intros j Hj.
    assert (R' : BlockDistributionHandler.assignBlocks (List.length gs) blockGroups
                   (0 mod List.length gs)%nat gs rs = Returned (gs', logs, rs'))
      by (rewrite Nat.Div0.mod_0_l; exact R).
    destruct (assignBlocks_log R') as (_ & Sn & sbs & F2 & Mf & ->).
    assert (Ll : List.length (concat logs) = List.length (concat sbs)).
    { rewrite <- (length_map fst (concat logs)), concat_map, Mf.
      now rewrite <- concat_map, length_map. }
    rewrite Sn, Ll, replay_dealFrom.
    rewrite (dealFrom_sizes HG) by (reflexivity || assumption).
    do 2 f_equal. apply Permutation_length.
    eapply Permutation_trans; [apply Forall2_perm_concat; exact F2 | exact PB].
  - intros z. rewrite PS, in_map_iff. unfold placed.
    pose proof (proj2 (buildBlockStudentMap_spec blocks z)) as BS. fold M in BS.
    split.
    + intros [H|(s & Hs & Ez & Hz)]; [now left|]. right. exists s.
      split; [assumption|]. apply filter_In. split; [assumption|].
      unfold inSomeBlock. rewrite Ez, <- BS. exact Hz.
    + intros [H|(s & Ez & Hs)]; [now left|]. right. exists s.
      apply filter_In in Hs. destruct Hs as [Hs Hb]. repeat split; try assumption.
      unfold inSomeBlock in Hb. rewrite Ez in Hb. rewrite BS. exact Hb.
Qed.

Lemma distributeBlockStudents_round_robin_witness :
  let gs := groups (scenario "1,3,5" "2,4" 2) in
  let pool := students (scenario "1,3,5" "2,4" 2) in
  let placed := filter (inSomeBlock [[1; 2; 3]; [4; 9]]) pool in
  exists gs' processed' rs',
    BlockDistributionHandler.distributeBlockStudents (E := insertionEngine)
      gs [[1; 2; 3]; [4; 9]] pool [] midpoint
    = Returned (gs', processed', rs')
    /\ List.length gs' = List.length gs
    /\ Permutation (members gs') (placed ++ members gs)
    /\ (forall j, (j < List.length gs)%nat ->
          sizeAt gs' j
          = (sizeAt gs j + targetSize (List.length placed) (List.length gs) j)%nat)
    /\ (forall z, In z processed' <-> In z [] \/ In z (map Student.id placed)).
Proof.
  apply (@distributeBlockStudents_round_robin insertionEngine
           (groups (scenario "1,3,5" "2,4" 2)) [[1; 2; 3]; [4; 9]]
           (students (scenario "1,3,5" "2,4" 2)) [] midpoint).
  simpl. lia.
Defined.

(* ================================================================== *)
(** * SameGroupHandler keeps a cluster in one group                    *)
(* ================================================================== *)

(** Student [s] is listed in the group at index [j]. *)
Definition sitsAt (gs : list Group) (j : nat) (s : Student) : Prop :=
  exists g, nth_error gs j = Some g /\ In s (Group.students g).

Lemma sitsAt_give_mono i x gs j s : sitsAt gs j s -> sitsAt (give i x gs) j s.
Proof.
  intros (g & E & I). unfold give.
  destruct (nth_error gs i) as [gi|] eqn:Ei; [|now exists g].
  destruct (Nat.eq_dec i j) as [->|ne].
  - exists (Group.push x gi). split.
    + apply nth_error_updateNth_eq. apply nth_error_Some. congruence.
    + rewrite E in Ei. injection Ei as <-. unfold Group.push, Group.withStudents.
      cbn [Group.students]. apply in_app_iff. now left.
  - exists g. split; [|assumption]. now rewrite nth_error_updateNth_neq.
Qed.

Lemma sitsAt_give i x gs : (i < List.length gs)%nat -> sitsAt (give i x gs) i x.
Proof.
  intros Hi. unfold give.
  destruct (nth_error gs i) as [gi|] eqn:Ei.
  2:{ apply nth_error_None in Ei. lia. }
  exists (Group.push x gi). split; [now apply nth_error_updateNth_eq|].
  unfold Group.push, Group.withStudents. cbn [Group.students].
  apply in_app_iff. right. now left.
Qed.

Lemma addAll_trace target pool : forall available gs P gs' P',
  SameGroupHandler.addAll target available pool gs P = Returned (gs', P') ->
  List.length gs' = List.length gs
  /\ (forall j s, sitsAt gs j s -> sitsAt gs' j s)
  /\ (forall x s, In x available -> find (hasId x) pool = Some s ->
                  sitsAt gs' target s)
  /\ (forall z, In z P' <-> In z P \/ (In z available
                                      /\ existsb (hasId z) pool = true)).
Proof.
  induction available as [|x available IH]; intros gs P gs' P';
    cbn [SameGroupHandler.addAll].
  - intros [= <- <-]. split; [reflexivity|]. split; [auto|]. split.
    + intros x s [].
    + intros z. split; [tauto|]. intros [H|[[] _]]. exact H.
  - destruct (find (hasId x) pool) as [s0|] eqn:Ef.
    + destruct (pushStudent target s0 gs) as [gs1| |] eqn:EP; try discriminate.
      apply pushStudent_Returned in EP. destruct EP as [-> Ht].
      rewrite bind_Returned. intros R. apply IH in R.
      destruct R as (L & Mo & Tg & PS). rewrite give_length in L.
      split; [exact L|]. split; [|split].
      * intros j s Hs. apply Mo. now apply sitsAt_give_mono.
      * intros y s [<-|Hy] Hf.
        -- rewrite Ef in Hf. injection Hf as <-. apply Mo. now apply sitsAt_give.
        -- eapply Tg; eassumption.
      * intros z. rewrite PS, Set_add_In. split.
        -- intros [[->|H]|[H1 H2]]; [right | now left | right].
           ++ split; [now left|]. apply existsb_exists. exists s0.
              apply find_some in Ef. exact Ef.
           ++ split; [now right | assumption].
        -- intros [H|[[<-|H1] H2]]; [left; now right | left; now left | right; auto].
    + intros R. apply IH in R. destruct R as (L & Mo & Tg & PS).
      split; [exact L|]. split; [exact Mo|]. split.
      * intros y s [<-|Hy] Hf; [congruence|]. eapply Tg; eassumption.
      * intros z. rewrite PS. split.
        -- intros [H|[H1 H2]]; [now left | right; split; [now right | assumption]].
        -- intros [H|[[<-|H1] H2]]; [now left | | right; auto].
           exfalso. apply existsb_exists in H2. destruct H2 as (s & Hs & Hid).
           pose proof (find_none _ _ Ef _ Hs). congruence.
Qed.

Lemma concat_NoDup_each (A : Type) (ls : list (list A)) :
  NoDup (concat ls) -> Forall (@NoDup A) ls.
Proof.
  induction ls as [|l ls IH]; intros N; constructor.
  - eapply NoDup_app_remove_r. exact N.
  - apply IH. eapply NoDup_app_remove_l. exact N.
Qed.

Lemma placePairs_trace pool : forall pairs gs P gs' P',
  (0 < List.length gs)%nat ->
  NoDup (concat pairs) ->
  (forall x, In x (concat pairs) -> ~ In x P) ->
  SameGroupHandler.placePairs pairs pool gs P = Returned (gs', P') ->
  List.length gs' = List.length gs
  /\ (forall j s, sitsAt gs j s -> sitsAt gs' j s)
  /\ (forall pair, In pair pairs ->
        exists j, (j < List.length gs)%nat
                  /\ forall x s, In x pair -> find (hasId x) pool = Some s ->
                                 sitsAt gs' j s)
  /\ (forall z, In z P' <-> In z P \/ (In z (concat pairs)
                                      /\ existsb (hasId z) pool = true)).
Proof.
  induction pairs as [|aPair pairs IH]; intros gs P gs' P' HG ND Fresh;
    cbn [SameGroupHandler.placePairs].
  - intros [= <- <-]. split; [reflexivity|]. split; [auto|]. split.
    + intros pair [].
    + intros z. split; [tauto|]. intros [H|[[] _]]. exact H.
  - cbn [concat] in ND, Fresh.
    assert (ND' : NoDup (concat pairs)) by (eapply NoDup_app_remove_l; exact ND).
    set (available := filter _ aPair).
    assert (AV : forall x, In x available
                           <-> In x aPair /\ existsb (hasId x) pool = true).
    { intros x. unfold available. rewrite filter_In, andb_true_iff. split.
      - tauto.
      - intros [H1 H2]. repeat split; try assumption.
        apply negb_true_iff. destruct (Set_has P x) eqn:E; [|reflexivity].
        apply Set_has_In in E. exfalso. apply (Fresh x); [|assumption].
        apply in_app_iff. now left. }
    destruct available as [|a0 rest] eqn:EA.
    + intros R. apply IH in R; try assumption.
      2:{ intros x Hx. apply Fresh. apply in_app_iff. now right. }
      destruct R as (L & Mo & Tg & PS).
      split; [exact L|]. split; [exact Mo|]. split.
      * intros pair [<-|Hp]; [|now apply Tg].
        exists 0%nat. split; [exact HG|]. intros x s Hx Hf. exfalso.
        assert (I : In x []).
        { apply AV. split; [assumption|]. apply existsb_exists. exists s.
          apply find_some in Hf. exact Hf. }
        destruct I.
      * intros z. rewrite PS. split.
        -- intros [H|[H1 H2]]; [now left|]. right. split; [|assumption].
           apply in_app_iff. now right.
        -- intros [H|[H1 H2]]; [now left|]. apply in_app_iff in H1.
           destruct H1 as [H1|H1]; [|right; auto].
           exfalso. assert (I : In z []) by (apply AV; auto). destruct I.
    + rewrite <- EA in *.
      destruct (findAvailableGroup_ok (List.length available) HG) as (t & -> & Ht).
      rewrite bind_Returned.
      destruct (SameGroupHandler.addAll t available pool gs P)
        as [[gs1 P1]| |] eqn:EAdd; try discriminate.
      rewrite bind_Returned.
      destruct (addAll_trace EAdd) as (L1 & Mo1 & Tg1 & PS1).
      intros R. apply IH in R; try assumption.
      2:{ now rewrite L1. }
      2:{ intros x Hx Hp. apply PS1 in Hp. destruct Hp as [Hp|[Hp _]].
          - apply (Fresh x); [|assumption]. apply in_app_iff. now right.
          - apply AV in Hp. apply (NoDup_app_apart ND (proj1 Hp) Hx). }
      destruct R as (L & Mo & Tg & PS).
      split; [congruence|]. split; [|split].
      * intros j s Hs. apply Mo, Mo1. exact Hs.
      * intros pair [<-|Hp].
        -- exists t. split; [exact Ht|]. intros x s Hx Hf. apply Mo.
           apply (Tg1 x); [|assumption]. apply AV. split; [assumption|].
           apply existsb_exists. exists s. apply find_some in Hf. exact Hf.
        -- destruct (Tg pair Hp) as (j & Hj & K). exists j.
           split; [now rewrite <- L1 | exact K].
      * intros z. cbn [concat]. rewrite PS, PS1, AV, in_app_iff. tauto.
Qed.

(** X12.  The loop of the same-group handler over clusters that share no
    seat number, on an array of at least one group: it returns, keeps the
    number of groups and takes nobody out of a group; for every cluster
    there is one group that holds every student of the pool whose seat
    number the cluster names; and the seat numbers it marks as processed
    are exactly those named by a cluster that belong to a student of the
    pool. *)
Theorem placePairs_keeps_together (pool : list Student) (pairs : list (list Z))
  (gs : list Group) :
  (0 < List.length gs)%nat ->
  NoDup (concat pairs) ->
  exists gs' processed',
    SameGroupHandler.placePairs pairs pool gs [] = Returned (gs', processed')
    /\ List.length gs' = List.length gs
    /\ (forall j s, sitsAt gs j s -> sitsAt gs' j s)
    /\ (forall pair, In pair pairs ->
          exists j, (j < List.length gs)%nat
                    /\ forall x s, In x pair -> find (hasId x) pool = Some s ->
                                   sitsAt gs' j s)
    /\ (forall z, In z processed'
                  <-> In z (concat pairs) /\ existsb (hasId z) pool = true).
Proof.
  intros HG ND.
  destruct (@placePairs_ok [] pool pairs gs [] HG (concat_NoDup_each ND))
    as (gs' & P' & R & _).
  exists gs', P'. split; [exact R|].
  destruct (@placePairs_trace pool pairs gs [] gs' P' HG ND
              ltac:(intros x _ []) R) as (L & Mo & Tg & PS).
  split; [exact L|]. split; [exact Mo|]. split; [exact Tg|].
  intros z. rewrite PS. split; [intros [[]|H]; exact H | auto].
Qed.

Lemma placePairs_keeps_together_witness :
  let pool := students (scenario "1-3,6" "4,5" 3) in
  let gs := groups (scenario "1-3,6" "4,5" 3) in
  let pairs := [[1; 2; 3]; [4; 5]] in
  exists gs' processed',
    SameGroupHandler.placePairs pairs pool gs [] = Returned (gs', processed')
    /\ List.length gs' = List.length gs
    /\ (forall j s, sitsAt gs j s -> sitsAt gs' j s)
    /\ (forall pair, In pair pairs ->
          exists j, (j < List.length gs)%nat
                    /\ forall x s, In x pair -> find (hasId x) pool = Some s ->
                                   sitsAt gs' j s)
    /\ (forall z, In z processed'
                  <-> In z (concat pairs) /\ existsb (hasId z) pool = true).
Proof.
  apply (@placePairs_keeps_together (students (scenario "1-3,6" "4,5" 3))
           [[1; 2; 3]; [4; 5]] (groups (scenario "1-3,6" "4,5" 3))).
  - simpl. lia.
  - simpl. repeat constructor; simpl; intuition discriminate.
Defined.

(* ================================================================== *)
(** * BlockDistributionHandler: the records name the blocks' students  *)
(* ================================================================== *)

(** [blockStudentMap.get(student.id) === blockIndex] *)
Definition sentTo (blockStudentMap : NumMap) (blockIndex : nat) (s : Student)
  : bool :=
  match Map_get blockStudentMap (Student.id s) with
  | Some i => (i =? blockIndex)%nat
  | None => false
  end.

(** [blockGroups] when the first loop of [distributeBlockStudents] is
    over: for every block the students of the pool that the map sends to
    it, in the order of the pool. *)
Definition blockGroupsOf (blocks : list (list Z)) (pool : list Student)
  : list (list Student) :=
  map (fun blockIndex =>
         filter (sentTo (BlockDistributionHandler.buildBlockStudentMap blocks)
                        blockIndex) pool)
      (seq 0 (List.length blocks)).

(** Seat number [z] is listed in block [k] and in no later block. *)
Definition lastListedIn (blocks : list (list Z)) (k : nat) (z : Z) : Prop :=
  In z (nth k blocks []) /\ forall j, (k < j)%nat -> ~ In z (nth j blocks []).

Lemma nth_updateNth (A : Type) (d v : A) (l : list A) : forall i j,
  (i < List.length l)%nat ->
  nth j (updateNth i v l) d = if (j =? i)%nat then v else nth j l d.
Proof.
  induction l as [|x l IH]; intros [|i] [|j] H; cbn in *; try lia; try reflexivity.
  apply IH. lia.
Qed.

Lemma pushAt_nth (k j : nat) (s : Student) (bg : list (list Student)) :
  (k < List.length bg)%nat ->
  nth j (BlockDistributionHandler.pushAt k s bg) []
  = nth j bg [] ++ (if (j =? k)%nat then [s] else []).
Proof.
  intros Hk. unfold BlockDistributionHandler.pushAt.
  destruct (nth_error bg k) as [l|] eqn:E.
  2:{ apply nth_error_None in E. lia. }
  rewrite nth_updateNth by exact Hk.
  destruct (Nat.eqb_spec j k) as [->|D]; [|now rewrite app_nil_r].
  apply nth_error_nth with (d := []) in E. now rewrite E.
Qed.

Lemma rows_ext (A : Type) (f : nat -> list A) (l : list (list A)) n :
  List.length l = n -> (forall k, (k < n)%nat -> nth k l [] = f k) ->
  l = map f (seq 0 n).
Proof.
  intros L H. apply (nth_ext _ _ [] (f 0%nat)).
  - now rewrite length_map, length_seq.
  - intros k Hk. rewrite L in Hk. rewrite (H k Hk).
    rewrite (map_nth f (seq 0 n) 0%nat k), seq_nth by exact Hk. reflexivity.
Qed.

Lemma nth_rows (A : Type) (f : nat -> list A) n k :
  nth k (map f (seq 0 n)) [] = if (k <? n)%nat then f k else [].
Proof.
  destruct (Nat.ltb_spec k n) as [Hk|Hk].
  - rewrite (nth_indep _ [] (f 0%nat)) by (now rewrite length_map, length_seq).
    rewrite (map_nth f (seq 0 n) 0%nat k), seq_nth by exact Hk. reflexivity.
  - apply nth_overflow. now rewrite length_map, length_seq.
Qed.

Lemma nth_empties (A B : Type) (l : list B) : forall k,
  nth k (map (fun _ => @nil A) l) [] = [].
Proof. induction l as [|x l IH]; intros [|k]; cbn; auto. Qed.

Lemma collect_blocks (M : NumMap) (n : nat) (l : list Student) : forall bg P,
  List.length bg = n ->
  (forall z i, Map_get M z = Some i -> (i < n)%nat) ->
  fst (fold_left (BlockDistributionHandler.collect M) l (bg, P))
  = map (fun k => nth k bg [] ++ filter (sentTo M k) l) (seq 0 n).
Proof.
  induction l as [|s l IH]; intros bg P Hn HM.
  - cbn [fold_left fst filter]. apply rows_ext; [exact Hn|].
    intros k _. now rewrite app_nil_r.
  - cbn [fold_left]. unfold BlockDistributionHandler.collect at 2.
    destruct (Map_get M (Student.id s)) as [i|] eqn:EM.
    + assert (Hi : (i < List.length bg)%nat) by (rewrite Hn; eauto).
      rewrite IH; [|unfold BlockDistributionHandler.pushAt;
                    destruct (nth_error bg i);
                    [rewrite updateNth_length|]; assumption
                   |exact HM].
      apply map_ext. intros k. rewrite pushAt_nth by exact Hi.
      cbn [filter]. unfold sentTo at 2. rewrite EM, <- app_assoc.
      rewrite (Nat.eqb_sym k i). now destruct (i =? k)%nat.
    + rewrite IH by assumption. apply map_ext. intros k.
      cbn [filter]. unfold sentTo at 2. now rewrite EM.
Qed.

Lemma In_nth_concat (A : Type) (x : A) (ls : list (list A)) :
  In x (concat ls) <-> exists j, In x (nth j ls []).
Proof.
  induction ls as [|l ls IH]; cbn [concat].
  - split; [intros []|]. intros [[|j] H]; exact H.
  - rewrite in_app_iff, IH. split.
    + intros [H|[j H]]; [now exists 0%nat | now exists (S j)].
    + intros [[|j] H]; [now left | right; now exists j].
Qed.

Lemma blockMap_last (blocks : list (list Z)) : forall k m z i,
  Map_get (fold_left (fun m ib => setAll (fst ib) m (snd ib))
                     (combine (seq k (List.length blocks)) blocks) m) z = Some i
  <-> (exists j, i = (k + j)%nat /\ lastListedIn blocks j z)
      \/ (Map_get m z = Some i /\ ~ In z (concat blocks)).
Proof.
  induction blocks as [|b blocks IH]; intros k m z i.
  - cbn. split.
    + intros H. right. split; [exact H|intros []].
    + intros [(j & _ & H & _)|[H _]]; [|exact H]. now destruct j.
  - cbn [List.length seq combine fold_left fst snd concat].
    rewrite IH, setAll_get, in_app_iff.
    assert (Eb : existsb (Z.eqb z) b = true <-> In z b).
    { rewrite existsb_exists. split.
      - intros (y & Hy & E). apply Z.eqb_eq in E. now subst.
      - intros H. exists z. split; [exact H|apply Z.eqb_refl]. }
    split.
    + intros [(j & -> & H1 & H2)|[H Hn]].
      * left. exists (S j). split; [lia|]. split; [exact H1|].
        intros [|j'] Hj'; [lia|]. apply H2. lia.
      * destruct (existsb (Z.eqb z) b) eqn:Ex.
        -- injection H as <-. left. exists 0%nat. split; [lia|].
           split; [now apply Eb|]. intros [|j'] Hj'; [lia|].
           intros Hin. apply Hn, In_nth_concat. now exists j'.
        -- right. split; [exact H|]. intros [Hb|Hc]; [|now apply Hn].
           apply Eb in Hb. congruence.
    + intros [(j & -> & H1 & H2)|[H Hn]].
      * destruct j as [|j].
        -- right. cbn [nth] in H1. apply Eb in H1. rewrite H1.
           split; [f_equal; lia|]. intros Hc. apply In_nth_concat in Hc.
           destruct Hc as [j' Hj']. apply (H2 (S j')); [lia|exact Hj'].
        -- left. exists j. split; [lia|]. split; [exact H1|].
           intros j' Hj'. apply (H2 (S j')). lia.
      * right. destruct (existsb (Z.eqb z) b) eqn:Ex.
        -- exfalso. apply Hn. left. now apply Eb.
        -- split; [exact H|]. intros Hc. apply Hn. now right.
Qed.

Lemma buildBlockStudentMap_last (blocks : list (list Z)) z k :
  Map_get (BlockDistributionHandler.buildBlockStudentMap blocks) z = Some k
  <-> lastListedIn blocks k z.
Proof.
  pose proof (blockMap_last blocks 0 [] z k) as H. cbn [Map_get Nat.add] in H.
  etransitivity; [exact H|]. split.
  - intros [(j & -> & L)|[D _]]; [exact L|discriminate].
  - intros L. left. now exists k.
Qed.

Lemma blockGroupsOf_spec (blocks : list (list Z)) (pool : list Student) k s :
  In s (nth k (blockGroupsOf blocks pool) [])
  <-> In s pool /\ lastListedIn blocks k (Student.id s).
Proof.
  unfold blockGroupsOf. rewrite nth_rows.
  destruct (Nat.ltb_spec k (List.length blocks)) as [Hk|Hk].
  - rewrite filter_In, <- buildBlockStudentMap_last. unfold sentTo.
    destruct (Map_get _ (Student.id s)) as [i|]; [|intuition discriminate].
    rewrite Nat.eqb_eq. intuition congruence.
  - split; [intros []|]. intros [_ [H _]].
    now rewrite nth_overflow in H by exact Hk.
Qed.

Lemma assignStudents_sits G shuffled : forall cur gs gs' last log,
  BlockDistributionHandler.assignStudents G shuffled cur gs
  = Returned (gs', last, log) ->
  (forall j s, sitsAt gs j s -> sitsAt gs' j s)
  /\ (forall z g, In (z, g) log ->
        exists s, In s shuffled /\ Student.id s = z /\ sitsAt gs' g s).
Proof.
  induction shuffled as [|s0 shuffled IH]; intros cur gs gs' last log; simpl.
  - intros [= <- <- <-]. split; [auto|]. intros z g [].
  - destruct (pushStudent cur s0 gs) as [gs1| |] eqn:P; simpl; try discriminate.
    apply pushStudent_Returned in P. destruct P as [-> Hc].
    destruct (BlockDistributionHandler.assignStudents G shuffled _ _)
      as [[[gs2 l2] log2]| |] eqn:R; simpl; try discriminate.
    intros [= <- <- <-]. destruct (IH _ _ _ _ _ R) as [Mo Lg]. split.
    + intros j s H. apply Mo. now apply sitsAt_give_mono.
    + intros z g [[= <- <-]|H].
      * exists s0. split; [now left|]. split; [reflexivity|].
        apply Mo. now apply sitsAt_give.
      * destruct (Lg z g H) as (s & Hs & E & St). exists s. auto.
Qed.

Lemma assignBlocks_sits {E : SortEngine} G blockGroups : forall cur gs rs gs' logs rs',
  BlockDistributionHandler.assignBlocks G blockGroups cur gs rs
  = Returned (gs', logs, rs') ->
  (forall j s, sitsAt gs j s -> sitsAt gs' j s)
  /\ (forall k log z g, nth_error logs k = Some log -> In (z, g) log ->
        exists s, In s (nth k blockGroups []) /\ Student.id s = z
                  /\ sitsAt gs' g s).
Proof.
  induction blockGroups as [|b blockGroups IH]; intros cur gs rs gs' logs rs'; simpl.
  - intros [= <- <- <-]. split; [auto|]. intros [|k] log z g N; discriminate.
  - pose proof (sortRandom_perm b rs) as P0.
    destruct (sortRandom b rs) as [shuffled rs1]; simpl in P0.
    destruct (BlockDistributionHandler.assignStudents G shuffled cur gs)
      as [[[gs1 next] log1]| |] eqn:R; simpl; try discriminate.
    destruct (assignStudents_sits R) as [Mo1 Lg1].
    destruct (BlockDistributionHandler.assignBlocks G blockGroups next gs1 rs1)
      as [[[gs2 logs2] rs2]| |] eqn:R2; simpl; try discriminate.
    intros [= <- <- <-]. destruct (IH _ _ _ _ _ _ R2) as [Mo2 Lg2]. split.
    + intros j s H. now apply Mo2, Mo1.
    + intros [|k] log z g N Hin; cbn [nth_error nth] in *.
      * injection N as <-. destruct (Lg1 z g Hin) as (s & Hs & Ez & St).
        exists s. split; [|split; [exact Ez|now apply Mo2]].
        eapply Permutation_in; [exact P0|exact Hs].
      * exact (Lg2 k log z g N Hin).
Qed.

Lemma Forall2_nth_perm (A B : Type) (f : A -> B) (ls : list (list A))
  (logs : list (list B)) (rows : list (list A)) :
  Forall2 (@Permutation A) ls rows -> logs = map (map f) ls ->
  forall k log, nth_error logs k = Some log ->
                Permutation log (map f (nth k rows [])).
Proof.
  intros F. revert logs. induction F as [|a b ls rows P _ IH]; intros logs ->.
  - intros [|k] log N; discriminate.
  - intros [|k] log N; cbn [map nth_error nth] in *.
    + injection N as <-. now apply Permutation_map.
    + now apply (IH _ eq_refl).
Qed.

(** C6.  One call of [distributeBlockStudents] on an array of at least one
    group returns, with one record of assignments for every block, and the
    pointer runs on over the blocks: taken over all the blocks in order,
    the j-th student assigned goes to group j mod groupCount; so when a
    block's last student went to group g, the next block's first student
    goes to group (g + 1) mod groupCount.  The records are those of the
    pushes made to the blocks' students: the record of block k names
    exactly the students of the pool whose seat number block k is the
    last to list, every student recorded is in the group recorded when
    the call returns, and the groups returned are the given ones with
    these students pushed in the order of the records. *)
Theorem block_pointer_runs_on {E : SortEngine} (gs : list Group)
  (blocks : list (list Z)) (remainingStudents : list Student)
  (processedStudentIds : NumSet) (rs : RandomSource) :
  (0 < List.length gs)%nat ->
  exists gs' processed' logs rs',
    BlockDistributionHandler.distributeBlockStudentsTraced
      gs blocks remainingStudents processedStudentIds rs
    = Returned (gs', processed', logs, rs')
    /\ List.length logs = List.length blocks
    /\ map snd (concat logs)
       = map (fun j => (j mod List.length gs)%nat)
             (seq 0 (List.length (concat logs)))
    /\ (forall before pre s g s' g' post after,
           logs = before ++ (pre ++ [(s, g)]) :: ((s', g') :: post) :: after ->
           g' = ((g + 1) mod List.length gs)%nat)
    /\ (exists shuffledBlocks,
           Forall2 (@Permutation Student) shuffledBlocks
                   (blockGroupsOf blocks remainingStudents)
           /\ map (map fst) logs = map (map Student.id) shuffledBlocks
           /\ gs' = replay (combine (concat shuffledBlocks)
                                    (map snd (concat logs))) gs)
    /\ (forall k s,
           In s (nth k (blockGroupsOf blocks remainingStudents) [])
           <-> In s remainingStudents /\ lastListedIn blocks k (Student.id s))
    /\ (forall k log, nth_error logs k = Some log ->
           Permutation (map fst log)
                       (map Student.id
                            (nth k (blockGroupsOf blocks remainingStudents) []))
           /\ forall z g, In (z, g) log ->
                exists s, In s remainingStudents /\ Student.id s = z
                          /\ lastListedIn blocks k z /\ sitsAt gs' g s).
Proof.
  intros HG. unfold BlockDistributionHandler.distributeBlockStudentsTraced.
  set (M := BlockDistributionHandler.buildBlockStudentMap blocks).
  assert (HM : forall z i, Map_get M z = Some i -> (i < List.length blocks)%nat).
  { intros z. apply buildBlockStudentMap_spec. }
  pose proof (@collect_blocks M (List.length blocks) remainingStudents
                (map (fun _ => []) blocks) processedStudentIds
                ltac:(apply length_map) HM) as CB.
  assert (BG : fst (fold_left (BlockDistributionHandler.collect M) remainingStudents
                      (map (fun _ => []) blocks, processedStudentIds))
               = blockGroupsOf blocks remainingStudents).
  { rewrite CB. unfold blockGroupsOf. fold M. apply map_ext_in.
    intros k _. now rewrite nth_empties. }
  destruct (fold_left _ remainingStudents _) as [blockGroups processed'].
  cbn [fst] in BG. clear CB. subst blockGroups.
  set (blockGroups := blockGroupsOf blocks remainingStudents).
  destruct (@assignBlocks_ok E (List.length gs) blockGroups 0%nat gs rs eq_refl HG)
    as (gs' & logs & rs' & R & _).
  rewrite R, bind_Returned. exists gs', processed', logs, rs'.
  split; [reflexivity|].
  assert (R' : BlockDistributionHandler.assignBlocks (List.length gs) blockGroups
                 (0 mod List.length gs)%nat gs rs = Returned (gs', logs, rs'))
    by (rewrite Nat.Div0.mod_0_l; exact R).
  destruct (assignBlocks_log R') as (L & Sn & sbs & F2 & Mf & EQ).
  destruct (assignBlocks_sits R) as [_ Sits].
  split; [unfold blockGroups, blockGroupsOf in L;
          now rewrite L, length_map, length_seq|].
  split; [exact Sn|]. split; [|split; [|split]].
  - intros before pre s g s' g' post after EL.
    assert (C : concat logs
                = (concat before ++ pre) ++ (s, g) :: (s', g') :: post ++ concat after).
    { rewrite EL, concat_app. simpl. rewrite <- !app_assoc. reflexivity. }
    pose proof (pointer_at Sn C) as K1.
    assert (C2 : concat logs
                 = ((concat before ++ pre) ++ [(s, g)])
                     ++ (s', g') :: post ++ concat after).
    { rewrite C, <- !app_assoc. reflexivity. }
    pose proof (pointer_at Sn C2) as K2.
    simpl in K1, K2. rewrite K2, K1, length_app. simpl.
    now rewrite Nat.Div0.add_mod_idemp_l.
  - exists sbs. split; [exact F2|]. split; [exact Mf|exact EQ].
  - intros k s. apply blockGroupsOf_spec.
  - intros k log N. split.
    + assert (N' : nth_error (map (map fst) logs) k = Some (map fst log))
        by (rewrite nth_error_map, N; reflexivity).
      exact (Forall2_nth_perm F2 Mf N').
    + intros z g Hin. destruct (Sits k log z g N Hin) as (s & Hs & Ez & St).
      apply blockGroupsOf_spec in Hs. destruct Hs as [Hp Hl].
      exists s. rewrite Ez in Hl. auto.
Qed.

Lemma block_pointer_runs_on_witness :
  exists gs' processed' logs rs',
    BlockDistributionHandler.distributeBlockStudentsTraced (E := insertionEngine)
      (groups (scenario "1,3,5" "2,4" 2)) [[1; 2; 3]; [4; 5]]
      (students (scenario "1,3,5" "2,4" 2)) [] midpoint
    = Returned (gs', processed', logs, rs')
    /\ List.length logs = 2%nat
    /\ map snd (concat logs)
       = map (fun j => (j mod 2)%nat) (seq 0 (List.length (concat logs)))
    /\ (forall before pre s g s' g' post after,
           logs = before ++ (pre ++ [(s, g)]) :: ((s', g') :: post) :: after ->
           g' = ((g + 1) mod 2)%nat)
    /\ (exists shuffledBlocks,
           Forall2 (@Permutation Student) shuffledBlocks
                   (blockGroupsOf [[1; 2; 3]; [4; 5]]
                                  (students (scenario "1,3,5" "2,4" 2)))
           /\ map (map fst) logs = map (map Student.id) shuffledBlocks
           /\ gs' = replay (combine (concat shuffledBlocks)
                                    (map snd (concat logs)))
                           (groups (scenario "1,3,5" "2,4" 2)))
    /\ (forall k s,
           In s (nth k (blockGroupsOf [[1; 2; 3]; [4; 5]]
                                      (students (scenario "1,3,5" "2,4" 2))) [])
           <-> In s (students (scenario "1,3,5" "2,4" 2))
               /\ lastListedIn [[1; 2; 3]; [4; 5]] k (Student.id s))
    /\ (forall k log, nth_error logs k = Some log ->
           Permutation (map fst log)
                       (map Student.id
                            (nth k (blockGroupsOf [[1; 2; 3]; [4; 5]]
                                      (students (scenario "1,3,5" "2,4" 2))) []))
           /\ forall z g, In (z, g) log ->
                exists s, In s (students (scenario "1,3,5" "2,4" 2))
                          /\ Student.id s = z
                          /\ lastListedIn [[1; 2; 3]; [4; 5]] k z
                          /\ sitsAt gs' g s).
Proof.
  apply (@block_pointer_runs_on insertionEngine
           (groups (scenario "1,3,5" "2,4" 2)) [[1; 2; 3]; [4; 5]]
           (students (scenario "1,3,5" "2,4" 2)) [] midpoint).
  simpl. lia.
Defined.

(** A seat number listed in two blocks belongs to the later one: with
    the blocks {1, 2} and {2, 3} student 2 is dealt with the second
    block. *)
Example blockGroupsOf_later_block :
  map (map Student.id)
      (blockGroupsOf [[1; 2]; [2; 3]] (students (scenario "1,3,5" "2,4" 2)))
  = [[1]; [2; 3]].
Proof. vm_compute. reflexivity. Qed.

(* ================================================================== *)
(** * GroupingConditionsService: the blocks of the editing state       *)
(* ================================================================== *)

Module ConditionEdits.

(** [cancelEditing] *)
Definition cancelEditing (st : State) : State :=
  {| savedConditions := savedConditions st; editingConditions := [] |}.

(** [resetConditions] *)
Definition resetConditions (st : State) : State :=
  {| savedConditions := defaults; editingConditions := editingConditions st |}.

(** [getConditionState] *)
Definition getConditionState (conditionId : str) (st : State)
  : option GroupingConditionState :=
  find (fun c => str_eqb (ConditionState.id c) conditionId) (savedConditions st).

(** [Partial<GroupingConditionState>]: the keys that are present. *)
Record Updates := mkUpdates {
  newId : option str;
  newType : option str;
  newEnabled : option bool;
  newInput : option str;
  newBlockInputs : option (option (list slot))
}.

Definition orKeep {A} (new : option A) (old : A) : A :=
  match new with Some a => a | None => old end.

(** [{ ...condition, ...updates }] *)
Definition merge (condition : GroupingConditionState) (updates : Updates)
  : GroupingConditionState :=
  {| ConditionState.id := orKeep (newId updates) (ConditionState.id condition);
     ConditionState.type := orKeep (newType updates) (ConditionState.type condition);
     ConditionState.enabled :=
       orKeep (newEnabled updates) (ConditionState.enabled condition);
     ConditionState.input := orKeep (newInput updates) (ConditionState.input condition);
     ConditionState.blockInputs :=
       orKeep (newBlockInputs updates) (ConditionState.blockInputs condition) |}.

(** [updateEditingCondition] *)
Definition updateEditingCondition (conditionId : str) (updates : Updates)
  (st : State) : State :=
  {| savedConditions := savedConditions st;
     editingConditions :=
       map (fun condition =>
              if str_eqb (ConditionState.id condition) conditionId
              then merge condition updates else condition)
           (editingConditions st) |}.

(** The callback of [currentEditing.map] in [addBlock]. *)
Definition withNewBlock (conditionId : str) (condition : GroupingConditionState)
  : outcome GroupingConditionState :=
  match ConditionState.blockInputs condition with
  | Some blockInputs =>
      if str_eqb (ConditionState.id condition) conditionId then
        let newBlockInputs := spread blockInputs ++ [Str []] in
        kept <- nonBlankBlocks newBlockInputs ;;
        Returned {| ConditionState.id := ConditionState.id condition;
                    ConditionState.type := ConditionState.type condition;
                    ConditionState.enabled := ConditionState.enabled condition;
                    ConditionState.input := join newline kept;
                    ConditionState.blockInputs := Some newBlockInputs |}
      else Returned condition
  | None => Returned condition
  end.

(** [addBlock] *)
Definition addBlock (conditionId : str) (st : State) : outcome State :=
  updatedConditions <-
    mapOutcome (withNewBlock conditionId) (editingConditions st) ;;
  Returned {| savedConditions := savedConditions st;
              editingConditions := updatedConditions |}.

(** [blockInputs.filter((_, index) => index !== blockIndex)]: [filter]
    visits no hole, so the result has none. *)
Definition withoutIndex (blockIndex : nat) (blockInputs : list slot) : list slot :=
  map snd
      (filter (fun ib => match snd ib with
                         | Hole => false
                         | _ => negb (fst ib =? blockIndex)%nat
                         end)
              (indexed blockInputs)).

(** The callback of [currentEditing.map] in [removeBlock]. *)
Definition withoutBlock (conditionId : str) (blockIndex : nat)
  (condition : GroupingConditionState) : outcome GroupingConditionState :=
  match ConditionState.blockInputs condition with
  | Some blockInputs =>
      if str_eqb (ConditionState.id condition) conditionId
         && (1 <? List.length blockInputs)%nat then
        let newBlockInputs := withoutIndex blockIndex blockInputs in
        kept <- nonBlankBlocks newBlockInputs ;;
        Returned {| ConditionState.id := ConditionState.id condition;
                    ConditionState.type := ConditionState.type condition;
                    ConditionState.enabled := ConditionState.enabled condition;
                    ConditionState.input := join newline kept;
                    ConditionState.blockInputs := Some newBlockInputs |}
      else Returned condition
  | None => Returned condition
  end.

(** [removeBlock] *)
Definition removeBlock (conditionId : str) (blockIndex : nat) (st : State)
  : outcome State :=
  updatedConditions <-
    mapOutcome (withoutBlock conditionId blockIndex) (editingConditions st) ;;
  Returned {| savedConditions := savedConditions st;
              editingConditions := updatedConditions |}.

End ConditionEdits.

Import ConditionEdits.

(** The strings of a block list, and the merged input they give. *)
Definition stringsOf (blockInputs : list slot) : list str :=
  flat_map (fun s => match s with Str x => [x] | _ => [] end) blockInputs.

Definition merged (blocks : list str) : str :=
  join newline (filter (fun block => nonEmpty (trim block)) blocks).

(** A condition whose block list, if it has one, holds strings only and
    whose [input] is the merged input of these. *)
Definition consistent (c : GroupingConditionState) : Prop :=
  match ConditionState.blockInputs c with
  | Some blockInputs =>
      blockInputs = map Str (stringsOf blockInputs)
      /\ ConditionState.input c = merged (stringsOf blockInputs)
  | None => True
  end.

(** The condition [conditionId] with its blocks changed by [f]. *)
Definition withBlocks (conditionId : str) (f : list str -> list str)
  (c : GroupingConditionState) : GroupingConditionState :=
  match ConditionState.blockInputs c with
  | Some blockInputs =>
      if str_eqb (ConditionState.id c) conditionId then
        {| ConditionState.id := ConditionState.id c;
           ConditionState.type := ConditionState.type c;
           ConditionState.enabled := ConditionState.enabled c;
           ConditionState.input := merged (f (stringsOf blockInputs));
           ConditionState.blockInputs := Some (map Str (f (stringsOf blockInputs))) |}
      else c
  | None => c
  end.

Definition editingWith (conditionId : str) (f : list str -> list str) (st : State)
  : State :=
  {| savedConditions := savedConditions st;
     editingConditions := map (withBlocks conditionId f) (editingConditions st) |}.

Definition setOrAppend (k : nat) (value : str) (l : list str) : list str :=
  if (k <? List.length l)%nat then updateNth k value l else l ++ [value].

Definition removeAt (k : nat) (l : list str) : list str :=
  firstn k l ++ skipn (S k) l.

Definition removeUnlessLast (k : nat) (l : list str) : list str :=
  if (1 <? List.length l)%nat then removeAt k l else l.

Lemma stringsOf_Str l : stringsOf (map Str l) = l.
Proof. induction l as [|x l IH]; simpl; congruence. Qed.

Lemma spread_Str l : spread (map Str l) = map Str l.
Proof. unfold spread. rewrite map_map. reflexivity. Qed.

Lemma nonBlankBlocks_Str l :
  nonBlankBlocks (map Str l)
  = Returned (filter (fun block => nonEmpty (trim block)) l).
Proof.
  induction l as [|x l IH]; [reflexivity|].
  cbn [map nonBlankBlocks filter]. rewrite IH, bind_Returned.
  now destruct (nonEmpty (trim x)).
Qed.

Lemma updateNth_map (A B : Type) (f : A -> B) k v l :
  updateNth k (f v) (map f l) = map f (updateNth k v l).
Proof.
  revert k; induction l as [|x l IH]; intros [|k]; simpl; try reflexivity.
  now rewrite IH.
Qed.

Lemma assignAt_Str k value l :
  (k <= List.length l)%nat ->
  assignAt k value (map Str l) = map Str (setOrAppend k value l).
Proof.
  intros H. unfold assignAt, setOrAppend. rewrite length_map.
  destruct (Nat.ltb_spec k (List.length l)).
  - apply updateNth_map.
  - replace (k - List.length l)%nat with 0%nat by lia.
    cbn [repeat app]. now rewrite map_app.
Qed.

Lemma withoutIndex_after (l : list str) : forall i t,
  (t < i)%nat ->
  map snd
      (filter (fun ib => match snd ib with
                         | Hole => false
                         | _ => negb (fst ib =? t)%nat
                         end)
              (combine (seq i (List.length (map Str l))) (map Str l)))
  = map Str l.
Proof.
  induction l as [|x l IH]; intros i t H; [reflexivity|].
  cbn [map List.length seq combine filter fst snd].
  destruct (Nat.eqb_spec i t); [lia|]. cbn [negb map snd].
  f_equal. apply IH. lia.
Qed.

Lemma withoutIndex_from (l : list str) : forall k i,
  map snd
      (filter (fun ib => match snd ib with
                         | Hole => false
                         | _ => negb (fst ib =? i + k)%nat
                         end)
              (combine (seq i (List.length (map Str l))) (map Str l)))
  = map Str (removeAt k l).
Proof.
  induction l as [|x l IH]; intros k i.
  - unfold removeAt. now rewrite firstn_nil, skipn_nil.
  - cbn [map List.length seq combine filter fst snd].
    destruct k as [|k].
    + rewrite Nat.add_0_r, Nat.eqb_refl. cbn [negb].
      unfold removeAt. cbn [firstn skipn app].
      apply withoutIndex_after. lia.
    + destruct (Nat.eqb_spec i (i + S k)); [lia|]. cbn [negb map snd].
      unfold removeAt. cbn [firstn skipn app map]. f_equal.
      replace (i + S k)%nat with (S i + k)%nat by lia. apply IH.
Qed.

Lemma withoutIndex_Str k l : withoutIndex k (map Str l) = map Str (removeAt k l).
Proof. exact (withoutIndex_from l k 0). Qed.

Lemma mapOutcome_map (A B : Type) (f : A -> outcome B) (g : A -> B) l :
  (forall x, In x l -> f x = Returned (g x)) ->
  mapOutcome f l = Returned (map g l).
Proof.
  induction l as [|x l IH]; intros H; [reflexivity|].
  cbn [mapOutcome map]. rewrite (H x (or_introl eq_refl)), bind_Returned.
  rewrite IH by (intros y Hy; apply H; now right). now rewrite bind_Returned.
Qed.

Lemma consistent_eta (c : GroupingConditionState) blockInputs :
  ConditionState.blockInputs c = Some blockInputs ->
  consistent c ->
  c = {| ConditionState.id := ConditionState.id c;
         ConditionState.type := ConditionState.type c;
         ConditionState.enabled := ConditionState.enabled c;
         ConditionState.input := merged (stringsOf blockInputs);
         ConditionState.blockInputs := Some (map Str (stringsOf blockInputs)) |}.
Proof.
  unfold consistent. destruct c as [i t e inp bi]. cbn. intros ->.
  intros [E1 E2]. now rewrite <- E1, <- E2.
Qed.

Lemma withBlocks_same conditionId f c :
  consistent c ->
  (forall blockInputs, ConditionState.blockInputs c = Some blockInputs ->
                       str_eqb (ConditionState.id c) conditionId = true ->
                       f (stringsOf blockInputs) = stringsOf blockInputs) ->
  withBlocks conditionId f c = c.
Proof.
  intros C H. unfold withBlocks.
  destruct (ConditionState.blockInputs c) as [bi|] eqn:B; [|reflexivity].
  destruct (str_eqb (ConditionState.id c) conditionId) eqn:E; [|reflexivity].
  rewrite (H bi eq_refl eq_refl). symmetry. now apply consistent_eta.
Qed.

Lemma withBlocks_consistent conditionId f c :
  consistent c -> consistent (withBlocks conditionId f c).
Proof.
  intros C. unfold withBlocks.
  destruct (ConditionState.blockInputs c) as [bi|] eqn:B; [|assumption].
  destruct (str_eqb (ConditionState.id c) conditionId); [|assumption].
  unfold consistent. cbn. now rewrite stringsOf_Str.
Qed.

Lemma find_unique conditionId (l : list GroupingConditionState) c c' :
  NoDup (map ConditionState.id l) ->
  find (fun x => str_eqb (ConditionState.id x) conditionId) l = Some c ->
  In c' l -> str_eqb (ConditionState.id c') conditionId = true -> c' = c.
Proof.
  intros ND F I E. apply find_some in F. destruct F as [Ic Ec].
  apply str_eqb_eq in E, Ec.
  assert (K : forall (l0 : list GroupingConditionState) a b,
             NoDup (map ConditionState.id l0) -> In a l0 -> In b l0 ->
             ConditionState.id a = ConditionState.id b -> a = b).
  { clear. induction l0 as [|x l0 IH]; intros a b N [] Hb Eab;
      inversion N as [|? ? Nx N']; subst.
    - destruct Hb as [->|Hb]; [reflexivity|]. exfalso. apply Nx.
      rewrite Eab. now apply in_map.
    - destruct Hb as [->|Hb]; [|now apply IH]. exfalso. apply Nx.
      rewrite <- Eab. now apply in_map. }
  apply (K l); try assumption. congruence.
Qed.

Section BlockEdits.
Variable conditionId : str.
Variable st : State.
Hypothesis FC : Forall consistent (editingConditions st).

Lemma addBlock_spec :
  addBlock conditionId st
  = Returned (editingWith conditionId (fun l => l ++ [[]]) st).
Proof.
  rewrite Forall_forall in FC. unfold addBlock, editingWith.
  rewrite (@mapOutcome_map _ _ (withNewBlock conditionId)
             (withBlocks conditionId (fun l => l ++ [[]]))).
  - now rewrite bind_Returned.
  - intros c Hc. unfold withNewBlock, withBlocks.
    pose proof (FC _ Hc) as C. unfold consistent in C.
    destruct (ConditionState.blockInputs c) as [bi|]; [|reflexivity].
    destruct (str_eqb (ConditionState.id c) conditionId); [|reflexivity].
    destruct C as [E1 _]. remember (stringsOf bi) as l eqn:Hl. clear Hl.
    subst bi. rewrite spread_Str.
    change [Str []] with (map Str [[]]). rewrite <- map_app.
    now rewrite nonBlankBlocks_Str, bind_Returned.
Qed.

Lemma removeBlock_spec blockIndex :
  removeBlock conditionId blockIndex st
  = Returned (editingWith conditionId (removeUnlessLast blockIndex) st).
Proof.
  rewrite Forall_forall in FC. unfold removeBlock, editingWith.
  rewrite (@mapOutcome_map _ _ (withoutBlock conditionId blockIndex)
             (withBlocks conditionId (removeUnlessLast blockIndex))).
  - now rewrite bind_Returned.
  - intros c Hc. unfold withoutBlock, withBlocks, removeUnlessLast.
    pose proof (FC _ Hc) as C.
    destruct (ConditionState.blockInputs c) as [bi|] eqn:B; [|reflexivity].
    destruct (str_eqb (ConditionState.id c) conditionId); [|reflexivity].
    cbn [andb]. pose proof C as C'. unfold consistent in C'. rewrite B in C'.
    destruct C' as [E1 _].
    assert (EL : List.length bi = List.length (stringsOf bi))
      by (rewrite E1 at 1; apply length_map).
    rewrite EL.
    destruct (1 <? List.length (stringsOf bi))%nat.
    + remember (stringsOf bi) as l eqn:Hl. clear Hl EL B C. subst bi.
      rewrite withoutIndex_Str.
      now rewrite nonBlankBlocks_Str, bind_Returned.
    + f_equal. now apply consistent_eta.
Qed.

Lemma updateNth_unchanged (A : Type) (l : list A) : forall k x,
  nth_error l k = Some x -> updateNth k x l = l.
Proof.
  induction l as [|y l IH]; intros [|k] x N; simpl in *; try discriminate.
  - congruence.
  - f_equal. now apply IH.
Qed.

Lemma updateBlockInput_spec blockIndex value :
  NoDup (map ConditionState.id (editingConditions st)) ->
  (forall c blockInputs,
      In c (editingConditions st) ->
      ConditionState.blockInputs c = Some blockInputs ->
      (blockIndex <= List.length blockInputs)%nat) ->
  updateBlockInput conditionId blockIndex value st
  = Returned (editingWith conditionId (setOrAppend blockIndex value) st).
Proof.
  intros ND Bound. rewrite Forall_forall in FC. unfold updateBlockInput.
  destruct (sameValue _ blockIndex value) eqn:SV.
  - f_equal. unfold sameValue in SV.
    destruct (find _ (editingConditions st)) as [c0|] eqn:F; [|discriminate].
    destruct (ConditionState.blockInputs c0) as [bi0|] eqn:B0; [|discriminate].
    destruct (nth_error bi0 blockIndex) as [[| |old]|] eqn:N; try discriminate.
    apply str_eqb_eq in SV. subst old.
    unfold editingWith. destruct st as [saved editing]. cbn in *. f_equal.
    symmetry. rewrite <- (map_id editing) at 2. apply map_ext_in.
    intros c Hc. apply withBlocks_same; [now apply FC|].
    intros bi B E. assert (c = c0) by (eapply find_unique; eassumption).
    subst c0. rewrite B in B0. injection B0 as <-.
    pose proof (FC _ Hc) as C. unfold consistent in C. rewrite B in C.
    destruct C as [E1 _]. rewrite E1 in N. rewrite nth_error_map in N.
    unfold setOrAppend.
    destruct (nth_error (stringsOf bi) blockIndex) as [x|] eqn:N'; [|discriminate].
    cbn in N. injection N as ->.
    assert (blockIndex < List.length (stringsOf bi))%nat
      by (apply nth_error_Some; congruence).
    destruct (Nat.ltb_spec blockIndex (List.length (stringsOf bi))); [|lia].
    now apply updateNth_unchanged.
  - unfold editingWith.
    rewrite (@mapOutcome_map _ _ (withBlockInput conditionId blockIndex value)
               (withBlocks conditionId (setOrAppend blockIndex value))).
    + now rewrite bind_Returned.
    + intros c Hc. unfold withBlockInput, withBlocks.
      pose proof (FC _ Hc) as C. unfold consistent in C.
      pose proof (Bound c) as Bc.
      destruct (ConditionState.blockInputs c) as [bi|]; [|reflexivity].
      destruct (str_eqb (ConditionState.id c) conditionId); [|reflexivity].
      destruct C as [E1 _]. specialize (Bc bi Hc eq_refl).
      remember (stringsOf bi) as l eqn:Hl. clear Hl. subst bi.
      rewrite length_map in Bc. rewrite spread_Str, assignAt_Str by exact Bc.
      now rewrite nonBlankBlocks_Str, bind_Returned.
Qed.

Lemma editingWith_consistent f :
  Forall consistent (editingConditions (editingWith conditionId f st)).
Proof.
  rewrite Forall_forall in FC. unfold editingWith. cbn.
  apply Forall_forall. intros c' Hc'. apply in_map_iff in Hc'.
  destruct Hc' as (c & <- & Hc). apply withBlocks_consistent. now apply FC.
Qed.

End BlockEdits.

Lemma withBlocks_id conditionId f c :
  ConditionState.id (withBlocks conditionId f c) = ConditionState.id c.
Proof.
  unfold withBlocks. destruct (ConditionState.blockInputs c); [|reflexivity].
  now destruct (str_eqb (ConditionState.id c) conditionId).
Qed.

Lemma withBlocks_twice conditionId f g c :
  withBlocks conditionId g (withBlocks conditionId f c)
  = withBlocks conditionId (fun l => g (f l)) c.
Proof.
  unfold withBlocks at 2 3.
  destruct (ConditionState.blockInputs c) as [bi|] eqn:B.
  - destruct (str_eqb (ConditionState.id c) conditionId) eqn:E.
    + unfold withBlocks. cbn. rewrite E. now rewrite stringsOf_Str.
    + unfold withBlocks. now rewrite B, E.
  - unfold withBlocks. now rewrite B.
Qed.

Lemma removeAt_last (l : list str) x : removeAt (List.length l) (l ++ [x]) = l.
Proof.
  unfold removeAt. rewrite firstn_app, Nat.sub_diag, firstn_all. cbn [firstn].
  rewrite app_nil_r.
  rewrite skipn_all2; [apply app_nil_r|]. rewrite length_app. simpl. lia.
Qed.

(** X13.  On an editing state whose conditions have distinct ids, string
    blocks only and the merged input of their blocks as [input], the three
    block operations never throw and act on the block list of the
    condition named as a list operation, storing the merged input of the
    result: [addBlock] appends an empty block; [removeBlock] deletes the
    block at the index, unless only one block is left; [updateBlockInput],
    for an index up to the length, replaces the block or appends it.  The
    state stays of this kind, and the saved conditions are not
    touched. *)
Theorem block_edits_act_on_lists (conditionId : str) (blockIndex : nat)
  (value : str) (st : State) :
  Forall consistent (editingConditions st) ->
  NoDup (map ConditionState.id (editingConditions st)) ->
  addBlock conditionId st
  = Returned (editingWith conditionId (fun l => l ++ [[]]) st)
  /\ removeBlock conditionId blockIndex st
     = Returned (editingWith conditionId (removeUnlessLast blockIndex) st)
  /\ ((forall c blockInputs,
          In c (editingConditions st) ->
          ConditionState.blockInputs c = Some blockInputs ->
          (blockIndex <= List.length blockInputs)%nat) ->
      updateBlockInput conditionId blockIndex value st
      = Returned (editingWith conditionId (setOrAppend blockIndex value) st))
  /\ (forall f, Forall consistent
                  (editingConditions (editingWith conditionId f st))
                /\ savedConditions (editingWith conditionId f st)
                   = savedConditions st).
Proof.
  intros FC ND. split; [now apply addBlock_spec|].
  split; [now apply removeBlock_spec|].
  split; [now apply updateBlockInput_spec|].
  intros f. split; [now apply editingWith_consistent | reflexivity].
Qed.

Lemma initial_editing_consistent :
  Forall consistent (editingConditions (startEditing initial))
  /\ NoDup (map ConditionState.id (editingConditions (startEditing initial))).
Proof.
  split.
  - repeat constructor.
  - cbn. repeat constructor; simpl; intuition discriminate.
Qed.

Lemma block_edits_act_on_lists_witness :
  let st := startEditing initial in
  let conditionId := lit "block-distribution" in
  addBlock conditionId st
  = Returned (editingWith conditionId (fun l => l ++ [[]]) st)
  /\ removeBlock conditionId 1 st
     = Returned (editingWith conditionId (removeUnlessLast 1) st)
  /\ ((forall c blockInputs,
          In c (editingConditions st) ->
          ConditionState.blockInputs c = Some blockInputs ->
          (1 <= List.length blockInputs)%nat) ->
      updateBlockInput conditionId 1 (lit "One") st
      = Returned (editingWith conditionId (setOrAppend 1 (lit "One")) st))
  /\ (forall f, Forall consistent
                  (editingConditions (editingWith conditionId f st))
                /\ savedConditions (editingWith conditionId f st)
                   = savedConditions st).
Proof.
  apply (@block_edits_act_on_lists (lit "block-distribution") 1 (lit "One")
           (startEditing initial)).
  - exact (proj1 initial_editing_consistent).
  - exact (proj2 initial_editing_consistent).
Defined.

(** X14.  On such a state, adding a block to a condition that has at
    least one block and then removing the block at the new last index
    gives back the state as it was; and [removeBlock] never leaves a
    condition that had a block without one. *)
Theorem addBlock_removeBlock_round_trip (conditionId : str) (st : State)
  (c : GroupingConditionState) (blockInputs : list slot) :
  Forall consistent (editingConditions st) ->
  NoDup (map ConditionState.id (editingConditions st)) ->
  find (fun x => str_eqb (ConditionState.id x) conditionId) (editingConditions st)
  = Some c ->
  ConditionState.blockInputs c = Some blockInputs ->
  (1 <= List.length blockInputs)%nat ->
  (st1 <- addBlock conditionId st ;;
   removeBlock conditionId (List.length blockInputs) st1) = Returned st
  /\ forall blockIndex, exists st2,
       removeBlock conditionId blockIndex st = Returned st2
       /\ Forall (fun c2 => forall blocks2,
                    ConditionState.blockInputs c2 = Some blocks2 ->
                    str_eqb (ConditionState.id c2) conditionId = true ->
                    (1 <= List.length blocks2)%nat)
                 (editingConditions st2).
Proof.
  intros FC ND F B HL. split.
  - rewrite addBlock_spec by assumption. rewrite bind_Returned.
    rewrite removeBlock_spec by (now apply editingWith_consistent).
    f_equal. unfold editingWith. destruct st as [saved editing]. cbn in *.
    f_equal. rewrite map_map. rewrite <- (map_id editing) at 2.
    apply map_ext_in. intros c' Hc'. rewrite withBlocks_twice.
    rewrite Forall_forall in FC. apply withBlocks_same; [now apply FC|].
    intros bi' B' E'. assert (c' = c) by (eapply find_unique; eassumption).
    subst c'. rewrite B in B'. injection B' as <-.
    pose proof (FC c Hc') as C. unfold consistent in C. rewrite B in C.
    destruct C as [E1 _].
    assert (EL : List.length blockInputs = List.length (stringsOf blockInputs))
      by (rewrite E1 at 1; apply length_map).
    unfold removeUnlessLast. rewrite length_app. cbn [List.length].
    destruct (Nat.ltb_spec 1 (List.length (stringsOf blockInputs) + 1)); [|lia].
    rewrite EL. apply removeAt_last.
  - intros blockIndex. eexists. split; [now apply removeBlock_spec|].
    unfold editingWith. cbn. apply Forall_forall. intros c2 Hc2.
    apply in_map_iff in Hc2. destruct Hc2 as (c1 & <- & Hc1).
    intros blocks2 B2 E2. rewrite withBlocks_id in E2.
    assert (c1 = c) by (eapply find_unique; eassumption). subst c1.
    unfold withBlocks in B2. rewrite B, E2 in B2. cbn in B2.
    injection B2 as <-. rewrite length_map.
    rewrite Forall_forall in FC.
    pose proof (FC c Hc1) as C. unfold consistent in C. rewrite B in C.
    destruct C as [E1 _].
    assert (EL : List.length blockInputs = List.length (stringsOf blockInputs))
      by (rewrite E1 at 1; apply length_map).
    unfold removeUnlessLast.
    destruct (Nat.ltb_spec 1 (List.length (stringsOf blockInputs))); [|lia].
    unfold removeAt. rewrite length_app, length_firstn, length_skipn. lia.
Qed.

Lemma addBlock_removeBlock_round_trip_witness :
  let st := startEditing initial in
  let conditionId := lit "block-distribution" in
  (st1 <- addBlock conditionId st ;; removeBlock conditionId 3 st1) = Returned st
  /\ forall blockIndex, exists st2,
       removeBlock conditionId blockIndex st = Returned st2
       /\ Forall (fun c2 => forall blocks2,
                    ConditionState.blockInputs c2 = Some blocks2 ->
                    str_eqb (ConditionState.id c2) conditionId = true ->
                    (1 <= List.length blocks2)%nat)
                 (editingConditions st2).
Proof.
  apply (@addBlock_removeBlock_round_trip (lit "block-distribution")
           (startEditing initial)
           (ConditionState.make (lit "block-distribution")
                                (lit "block-distribution") false []
                                (Some [Str []; Str []; Str []]))
           [Str []; Str []; Str []]).
  - exact (proj1 initial_editing_consistent).
  - exact (proj2 initial_editing_consistent).
  - reflexivity.
  - reflexivity.
  - simpl. lia.
Defined.

(** ** An index more than one past the end *)

(** The array after [newBlockInputs[blockIndex] = value] past its end. *)
Definition sparseBlocks (blocks : list str) (blockIndex : nat) (value : str)
  : list slot :=
  map Str blocks ++ repeat Hole (blockIndex - List.length blocks) ++ [Str value].

Definition withoutFrom (i blockIndex : nat) (blockInputs : list slot) : list slot :=
  map snd
      (filter (fun ib => match snd ib with
                         | Hole => false
                         | _ => negb (fst ib =? blockIndex)%nat
                         end)
              (combine (seq i (List.length blockInputs)) blockInputs)).

Lemma withoutFrom_app a : forall i t b,
  withoutFrom i t (a ++ b) = withoutFrom i t a ++ withoutFrom (i + List.length a) t b.
Proof.
  induction a as [|x a IH]; intros i t b.
  - cbn. now rewrite Nat.add_0_r.
  - unfold withoutFrom in *. cbn [app List.length seq combine filter fst snd].
    replace (i + S (List.length a))%nat with (S i + List.length a)%nat by lia.
    destruct x; [apply IH | |];
      (destruct (negb (i =? t)%nat); cbn [map snd app]; [f_equal|]; apply IH).
Qed.

Lemma withoutFrom_miss l : forall i t,
  (t < i \/ i + List.length l <= t)%nat ->
  withoutFrom i t (map Str l) = map Str l.
Proof.
  induction l as [|x l IH]; intros i t H; [reflexivity|].
  unfold withoutFrom in *. cbn [map List.length seq combine filter fst snd] in *.
  destruct (Nat.eqb_spec i t); [lia|]. cbn [negb map snd].
  f_equal. apply IH. lia.
Qed.

Lemma withoutFrom_holes n : forall i t, withoutFrom i t (repeat Hole n) = [].
Proof.
  induction n as [|n IH]; intros i t; [reflexivity|].
  unfold withoutFrom in *. cbn [repeat List.length seq combine filter fst snd].
  apply IH.
Qed.

Lemma withoutFrom_dense b : forall i t,
  Forall (fun s => s <> Undefined) b ->
  withoutFrom i t b = map Str (stringsOf (withoutFrom i t b)).
Proof.
  induction b as [|x b IH]; intros i t H; [reflexivity|].
  inversion H as [|? ? Hx Hb]; subst.
  unfold withoutFrom in *. cbn [List.length seq combine filter fst snd].
  destruct x as [| |s]; [now apply IH | congruence |].
  destruct (negb (i =? t)%nat); [|now apply IH].
  cbn [map snd stringsOf flat_map app]. f_equal. now apply IH.
Qed.

Lemma sparseBlocks_dense l k v : Forall (fun s => s <> Undefined) (sparseBlocks l k v).
Proof.
  unfold sparseBlocks. rewrite !Forall_app. repeat split.
  - apply Forall_forall. intros s Hs. apply in_map_iff in Hs.
    destruct Hs as (x & <- & _). discriminate.
  - apply Forall_forall. intros s Hs. apply repeat_spec in Hs. now subst.
  - repeat constructor. discriminate.
Qed.

Lemma withoutIndex_sparseBlocks l k v :
  (List.length l <= k)%nat ->
  withoutIndex k (sparseBlocks l k v) = map Str l.
Proof.
  intros H. change (withoutFrom 0 k (sparseBlocks l k v) = map Str l).
  unfold sparseBlocks. rewrite !withoutFrom_app, withoutFrom_holes.
  rewrite withoutFrom_miss by (rewrite ?length_map; lia).
  rewrite length_map, repeat_length. cbn [app].
  replace (0 + List.length l + (k - List.length l))%nat with k by lia.
  unfold withoutFrom. cbn. rewrite Nat.eqb_refl. cbn. apply app_nil_r.
Qed.

Lemma nonBlankBlocks_app l rest :
  nonBlankBlocks (map Str l ++ rest)
  = (kept <- nonBlankBlocks rest ;;
     Returned (filter (fun block => nonEmpty (trim block)) l ++ kept)).
Proof.
  induction l as [|x l IH].
  - cbn. now destruct (nonBlankBlocks rest).
  - cbn [map app nonBlankBlocks filter]. rewrite IH.
    destruct (nonBlankBlocks rest); cbn; try reflexivity.
    now destruct (nonEmpty (trim x)).
Qed.

Lemma nonBlankBlocks_holes n rest :
  nonBlankBlocks (repeat Hole n ++ rest) = nonBlankBlocks rest.
Proof. induction n as [|n IH]; [reflexivity|exact IH]. Qed.

Lemma nonBlankBlocks_sparseBlocks l k v :
  nonBlankBlocks (sparseBlocks l k v)
  = Returned (filter (fun block => nonEmpty (trim block)) (l ++ [v])).
Proof.
  unfold sparseBlocks. rewrite nonBlankBlocks_app, nonBlankBlocks_holes.
  rewrite filter_app. cbn. now destruct (nonEmpty (trim v)).
Qed.

Lemma nonBlankBlocks_undefined l rest :
  nonBlankBlocks (map Str l ++ Undefined :: rest) = Thrown TypeError.
Proof. now rewrite nonBlankBlocks_app. Qed.

Lemma assignAt_past k v l :
  (List.length l < k)%nat -> assignAt k v (map Str l) = sparseBlocks l k v.
Proof.
  intros H. unfold assignAt, sparseBlocks. rewrite length_map.
  destruct (Nat.ltb_spec k (List.length l)); [lia|reflexivity].
Qed.

Lemma spread_sparseBlocks l k v :
  (List.length l < k)%nat ->
  exists rest, spread (sparseBlocks l k v) = map Str l ++ Undefined :: rest.
Proof.
  intros H. unfold sparseBlocks, spread. rewrite !map_app, map_map.
  destruct (k - List.length l)%nat as [|n] eqn:E; [lia|].
  cbn [repeat map app]. eexists. reflexivity.
Qed.

Lemma updateNth_keeps_undefined v rest l : forall k,
  k <> List.length l ->
  exists l' rest',
    updateNth k (Str v) (map Str l ++ Undefined :: rest)
    = map Str l' ++ Undefined :: rest'.
Proof.
  induction l as [|x l IH]; intros [|k] H; cbn in *; try lia.
  - exists [], (updateNth k (Str v) rest). reflexivity.
  - exists (v :: l), rest. reflexivity.
  - destruct (IH k) as (l' & rest' & E); [lia|].
    exists (x :: l'), rest'. cbn. now rewrite E.
Qed.

Lemma assignAt_keeps_undefined k v l rest :
  k <> List.length l ->
  exists l' rest',
    assignAt k v (map Str l ++ Undefined :: rest)
    = map Str l' ++ Undefined :: rest'.
Proof.
  intros H. unfold assignAt.
  destruct (k <? _)%nat.
  - now apply updateNth_keeps_undefined.
  - exists l. eexists. rewrite <- app_assoc. cbn [app]. reflexivity.
Qed.

Lemma condition_split conditionId (l : list GroupingConditionState) c :
  NoDup (map ConditionState.id l) ->
  find (fun x => str_eqb (ConditionState.id x) conditionId) l = Some c ->
  exists l1 l2,
    l = l1 ++ c :: l2
    /\ (forall x, In x (l1 ++ l2) ->
                  str_eqb (ConditionState.id x) conditionId = false)
    /\ str_eqb (ConditionState.id c) conditionId = true.
Proof.
  intros ND F. pose proof (find_some _ _ F) as [Ic Ec].
  destruct (in_split _ _ Ic) as (l1 & l2 & ->). exists l1, l2.
  split; [reflexivity|]. split; [|exact Ec].
  intros x Hx. destruct (str_eqb (ConditionState.id x) conditionId) eqn:E;
    [|reflexivity].
  exfalso. rewrite map_app in ND. cbn [map] in ND.
  apply NoDup_remove_2 in ND. apply ND. rewrite <- map_app.
  apply str_eqb_eq in E, Ec. rewrite Ec, <- E. now apply in_map.
Qed.

Lemma mapOutcome_focus (A : Type) (f : A -> outcome A) c l2 : forall l1,
  (forall x, In x (l1 ++ l2) -> f x = Returned x) ->
  mapOutcome f (l1 ++ c :: l2) = (y <- f c ;; Returned (l1 ++ y :: l2)).
Proof.
  induction l1 as [|a l1 IH]; intros H.
  - cbn [app mapOutcome] in *.
    rewrite (@mapOutcome_map _ _ f (fun x => x) l2) by exact H.
    rewrite map_id. now destruct (f c).
  - cbn [app mapOutcome]. rewrite (H a (or_introl eq_refl)), bind_Returned.
    rewrite IH by (intros x Hx; apply H; now right).
    now destruct (f c).
Qed.

Lemma callbacks_skip conditionId x :
  str_eqb (ConditionState.id x) conditionId = false ->
  (forall k v, withBlockInput conditionId k v x = Returned x)
  /\ withNewBlock conditionId x = Returned x
  /\ (forall k, withoutBlock conditionId k x = Returned x).
Proof.
  intros E. unfold withBlockInput, withNewBlock, withoutBlock. rewrite E.
  now destruct (ConditionState.blockInputs x).
Qed.

(** X15.  [updateBlockInput] with an index more than one past the end of
    the block list does not throw, and leaves an array with holes.  From
    then on [addBlock] throws a TypeError, and so does every
    [updateBlockInput] that is not ignored, unless it writes the first
    hole; [removeBlock] still returns, gives a block list of strings
    only whatever its index, and at the index just written gives back the state
    from before the update. *)
Theorem updateBlockInput_past_end (conditionId : str) (blockIndex : nat)
  (value : str) (st : State) (c : GroupingConditionState)
  (blockInputs : list slot) :
  Forall consistent (editingConditions st) ->
  NoDup (map ConditionState.id (editingConditions st)) ->
  find (fun x => str_eqb (ConditionState.id x) conditionId) (editingConditions st)
  = Some c ->
  ConditionState.blockInputs c = Some blockInputs ->
  (List.length blockInputs < blockIndex)%nat ->
  exists st1,
    updateBlockInput conditionId blockIndex value st = Returned st1
    /\ addBlock conditionId st1 = Thrown TypeError
    /\ (forall k v, k <> List.length blockInputs ->
          updateBlockInput conditionId k v st1 = Thrown TypeError
          \/ updateBlockInput conditionId k v st1 = Returned st1)
    /\ (forall k v, (blockIndex < k)%nat ->
          updateBlockInput conditionId k v st1 = Thrown TypeError)
    /\ (forall k, exists st2,
          removeBlock conditionId k st1 = Returned st2
          /\ Forall consistent (editingConditions st2))
    /\ removeBlock conditionId blockIndex st1 = Returned st.
Proof.
  intros FC ND F B HL.
  destruct (condition_split ND F) as (l1 & l2 & EL & Others & Ec).
  assert (Skip : forall x, In x (l1 ++ l2) ->
            (forall k v, withBlockInput conditionId k v x = Returned x)
            /\ withNewBlock conditionId x = Returned x
            /\ (forall k, withoutBlock conditionId k x = Returned x))
    by (intros x Hx; apply callbacks_skip; now apply Others).
  rewrite Forall_forall in FC.
  assert (Hc : In c (editingConditions st))
    by (rewrite EL; apply in_or_app; right; now left).
  pose proof (FC c Hc) as C. pose proof C as C'. unfold consistent in C'.
  rewrite B in C'. destruct C' as [E1 E2].
  remember (stringsOf blockInputs) as l eqn:Hl.
  assert (LL : List.length blockInputs = List.length l)
    by (rewrite E1; apply length_map).
  rewrite LL in *.
  set (c1 := {| ConditionState.id := ConditionState.id c;
                ConditionState.type := ConditionState.type c;
                ConditionState.enabled := ConditionState.enabled c;
                ConditionState.input := merged (l ++ [value]);
                ConditionState.blockInputs :=
                  Some (sparseBlocks l blockIndex value) |}).
  set (st1 := {| savedConditions := savedConditions st;
                 editingConditions := l1 ++ c1 :: l2 |}).
  assert (Ec1 : str_eqb (ConditionState.id c1) conditionId = true) by exact Ec.
  exists st1. split; [|split; [|split; [|split; [|split]]]].
  - unfold updateBlockInput. rewrite F. unfold sameValue. rewrite B.
    assert (N : nth_error blockInputs blockIndex = None)
      by (apply nth_error_None; lia).
    rewrite N, EL.
    rewrite mapOutcome_focus by (intros x Hx; now apply Skip).
    unfold withBlockInput. rewrite B, Ec, E1, spread_Str.
    rewrite assignAt_past by exact HL.
    now rewrite nonBlankBlocks_sparseBlocks.
  - unfold addBlock. cbn [editingConditions st1].
    rewrite mapOutcome_focus by (intros x Hx; now apply Skip).
    unfold withNewBlock. cbn [ConditionState.blockInputs c1]. rewrite Ec1.
    destruct (spread_sparseBlocks value HL) as (rest & ->).
    rewrite <- app_assoc. cbn [app].
    now rewrite nonBlankBlocks_undefined.
  - intros k v Hk. unfold updateBlockInput.
    destruct (sameValue _ k v); [now right|left].
    cbn [editingConditions st1].
    rewrite mapOutcome_focus by (intros x Hx; now apply Skip).
    unfold withBlockInput. cbn [ConditionState.blockInputs c1]. rewrite Ec1.
    destruct (spread_sparseBlocks value HL) as (rest & ->).
    destruct (@assignAt_keeps_undefined k v l rest Hk) as (l' & rest' & ->).
    now rewrite nonBlankBlocks_undefined.
  - intros k v Hk. unfold updateBlockInput.
    assert (F1 : find (fun x => str_eqb (ConditionState.id x) conditionId)
                      (editingConditions st1) = Some c1).
    { cbn [editingConditions st1]. clear - Others Ec1.
      induction l1 as [|a l1 IH]; cbn [app find].
      - now rewrite Ec1.
      - rewrite (Others a (or_introl eq_refl)). apply IH.
        intros x Hx. apply Others. now right. }
    rewrite F1. unfold sameValue. cbn [ConditionState.blockInputs c1].
    assert (N : nth_error (sparseBlocks l blockIndex value) k = None).
    { apply nth_error_None. unfold sparseBlocks.
      rewrite !length_app, length_map, repeat_length. cbn. lia. }
    rewrite N. cbn [editingConditions st1].
    rewrite mapOutcome_focus by (intros x Hx; now apply Skip).
    unfold withBlockInput. cbn [ConditionState.blockInputs c1]. rewrite Ec1.
    destruct (spread_sparseBlocks value HL) as (rest & ->).
    destruct (@assignAt_keeps_undefined k v l rest) as (l' & rest' & ->); [lia|].
    now rewrite nonBlankBlocks_undefined.
  - intros k. unfold removeBlock. cbn [editingConditions st1].
    rewrite mapOutcome_focus by (intros x Hx; now apply Skip).
    unfold withoutBlock. cbn [ConditionState.blockInputs c1]. rewrite Ec1.
    cbn [andb].
    assert (L1 : (1 <? List.length (sparseBlocks l blockIndex value))%nat = true).
    { apply Nat.ltb_lt. unfold sparseBlocks.
      rewrite !length_app, length_map, repeat_length. cbn. lia. }
    rewrite L1.
    pose proof (@withoutFrom_dense (sparseBlocks l blockIndex value) 0 k
                  (sparseBlocks_dense l blockIndex value)) as D.
    change (withoutFrom 0 k (sparseBlocks l blockIndex value))
      with (withoutIndex k (sparseBlocks l blockIndex value)) in D.
    cbv zeta.
    remember (withoutIndex k (sparseBlocks l blockIndex value)) as W eqn:HW.
    clear HW. rewrite D. rewrite nonBlankBlocks_Str, bind_Returned.
    eexists. split; [reflexivity|].
    cbn [editingConditions]. apply Forall_forall. intros x Hx.
    apply in_app_or in Hx. destruct Hx as [Hx|[<-|Hx]].
    + apply FC. rewrite EL. apply in_or_app. now left.
    + unfold consistent. cbn [ConditionState.blockInputs ConditionState.input].
      now rewrite stringsOf_Str.
    + apply FC. rewrite EL. apply in_or_app. right. now right.
  - unfold removeBlock. cbn [editingConditions st1].
    rewrite mapOutcome_focus by (intros x Hx; now apply Skip).
    unfold withoutBlock. cbn [ConditionState.blockInputs c1]. rewrite Ec1.
    cbn [andb].
    assert (L1 : (1 <? List.length (sparseBlocks l blockIndex value))%nat = true).
    { apply Nat.ltb_lt. unfold sparseBlocks.
      rewrite !length_app, length_map, repeat_length. cbn. lia. }
    rewrite L1, withoutIndex_sparseBlocks by lia.
    rewrite nonBlankBlocks_Str, bind_Returned. cbn [ConditionState.id c1
      ConditionState.type ConditionState.enabled].
    fold (merged l). rewrite Hl. rewrite <- (consistent_eta B C).
    rewrite !bind_Returned. cbn [savedConditions st1].
    rewrite <- EL. now destruct st.
Qed.

Lemma updateBlockInput_past_end_witness :
  let st := startEditing initial in
  let conditionId := lit "block-distribution" in
  exists st1,
    updateBlockInput conditionId 5 (lit "Far") st = Returned st1
    /\ addBlock conditionId st1 = Thrown TypeError
    /\ (forall k v, k <> 3%nat ->
          updateBlockInput conditionId k v st1 = Thrown TypeError
          \/ updateBlockInput conditionId k v st1 = Returned st1)
    /\ (forall k v, (5 < k)%nat ->
          updateBlockInput conditionId k v st1 = Thrown TypeError)
    /\ (forall k, exists st2,
          removeBlock conditionId k st1 = Returned st2
          /\ Forall consistent (editingConditions st2))
    /\ removeBlock conditionId 5 st1 = Returned st.
Proof.
  apply (@updateBlockInput_past_end (lit "block-distribution") 5 (lit "Far")
           (startEditing initial)
           (ConditionState.make (lit "block-distribution")
                                (lit "block-distribution") false []
                                (Some [Str []; Str []; Str []]))
           [Str []; Str []; Str []]).
  - exact (proj1 initial_editing_consistent).
  - exact (proj2 initial_editing_consistent).
  - reflexivity.
  - reflexivity.
  - simpl. lia.
Defined.

(** ** An edit session *)

Lemma find_edited conditionId updates (l : list GroupingConditionState) :
  newId updates = None ->
  find (fun c => str_eqb (ConditionState.id c) conditionId)
       (map (fun condition =>
               if str_eqb (ConditionState.id condition) conditionId
               then merge condition updates else condition) l)
  = option_map (fun c => merge c updates)
               (find (fun c => str_eqb (ConditionState.id c) conditionId) l).
Proof.
  intros N. induction l as [|x l IH]; [reflexivity|].
  cbn [map find].
  destruct (str_eqb (ConditionState.id x) conditionId) eqn:E.
  - unfold merge at 1. cbn [ConditionState.id]. rewrite N. cbn [orKeep].
    now rewrite E.
  - now rewrite E.
Qed.

Lemma find_other conditionId other updates (l : list GroupingConditionState) :
  newId updates = None ->
  other <> conditionId ->
  find (fun c => str_eqb (ConditionState.id c) other)
       (map (fun condition =>
               if str_eqb (ConditionState.id condition) conditionId
               then merge condition updates else condition) l)
  = find (fun c => str_eqb (ConditionState.id c) other) l.
Proof.
  intros N D. induction l as [|x l IH]; [reflexivity|].
  cbn [map find].
  destruct (str_eqb (ConditionState.id x) conditionId) eqn:E.
  - unfold merge at 1. cbn [ConditionState.id]. rewrite N. cbn [orKeep].
    destruct (str_eqb (ConditionState.id x) other) eqn:E'; [|exact IH].
    exfalso. apply D. apply str_eqb_eq in E, E'. congruence.
  - destruct (str_eqb (ConditionState.id x) other); [reflexivity|exact IH].
Qed.

(** X16.  An update that leaves the id alone, made in an edit session
    and saved, is read back by [getConditionState] merged into the
    condition of that id (the first one, if several share it), and
    reads no other id differently; cancelled instead of saved, it
    changes nothing that is read. *)
Theorem saved_edit_is_read_back (conditionId other : str) (updates : Updates)
  (st : State) :
  newId updates = None ->
  let edited := updateEditingCondition conditionId updates (startEditing st) in
  getConditionState conditionId (saveConditions edited)
  = option_map (fun c => merge c updates) (getConditionState conditionId st)
  /\ (other <> conditionId ->
      getConditionState other (saveConditions edited)
      = getConditionState other st)
  /\ getConditionState other (cancelEditing edited) = getConditionState other st
  /\ getEnabledConditions (cancelEditing edited) = getEnabledConditions st.
Proof.
  intros N edited. split; [|split; [|split]].
  - now apply find_edited.
  - intros D. now apply find_other.
  - reflexivity.
  - reflexivity.
Qed.

Lemma saved_edit_is_read_back_witness :
  let updates := {| newId := None; newType := None; newEnabled := Some true;
                    newInput := Some (lit "1,2;3,4");
                    newBlockInputs := None |} in
  let conditionId := lit "same-group" in
  let other := lit "gender-ratio" in
  let edited := updateEditingCondition conditionId updates (startEditing initial) in
  getConditionState conditionId (saveConditions edited)
  = option_map (fun c => merge c updates) (getConditionState conditionId initial)
  /\ (other <> conditionId ->
      getConditionState other (saveConditions edited)
      = getConditionState other initial)
  /\ getConditionState other (cancelEditing edited)
     = getConditionState other initial
  /\ getEnabledConditions (cancelEditing edited) = getEnabledConditions initial.
Proof.
  intros updates conditionId other.
  apply (@saved_edit_is_read_back conditionId other updates initial).
  reflexivity.
Defined.

(* ================================================================== *)
(** * StudentService: the roster and its blocks                        *)
(* ================================================================== *)

Module RosterEdits.

(** [removeStudent] *)
Definition removeStudent (studentId : Z) (st : StudentService.State)
  : StudentService.State :=
  updateBlocksAfterStudentChange
    {| students := filter (fun s => negb (Student.id s =? studentId)) (students st);
       groups := groups st;
       blocks := blocks st;
       absentStudents := absentStudents st |}.

(** [setAbsentStudents] *)
Definition setAbsentStudents (input : str) (st : StudentService.State)
  : StudentService.State :=
  let absentIds := parseNumberInput input in
  updateBlocksAfterStudentChange
    {| students :=
         filter (fun s => negb (existsb (Z.eqb (Student.id s)) absentIds))
                (students st);
       groups := groups st;
       blocks := blocks st;
       absentStudents := absentIds |}.

End RosterEdits.

Import RosterEdits.

(** A roster in strictly ascending order of the ids, with blocks that hold
    students of the roster only. *)
Definition rosterOk (st : StudentService.State) : Prop :=
  Sorted Z.lt (map Student.id (students st))
  /\ Forall (fun block => incl block (students st)) (blocks st).

Lemma StronglySorted_filter_ids (R : Z -> Z -> Prop) (p : Student -> bool) l :
  StronglySorted R (map Student.id l) ->
  StronglySorted R (map Student.id (filter p l)).
Proof.
  induction l as [|x l IH]; intros H; [constructor|].
  cbn [map] in H. apply StronglySorted_inv in H. destruct H as [H1 H2].
  cbn [filter]. destruct (p x); [|now apply IH].
  cbn [map]. constructor; [now apply IH|].
  rewrite Forall_forall in *. intros z Hz. apply H2.
  apply in_map_iff in Hz. destruct Hz as (s & <- & Hs).
  apply filter_In in Hs. apply in_map. tauto.
Qed.

Lemma Sorted_lt_filter_ids (p : Student -> bool) l :
  Sorted Z.lt (map Student.id l) -> Sorted Z.lt (map Student.id (filter p l)).
Proof.
  intros H. apply StronglySorted_Sorted, StronglySorted_filter_ids.
  apply Sorted_StronglySorted; [|exact H]. intros a b c. apply Z.lt_trans.
Qed.

Lemma Sorted_le_filter_ids (p : Student -> bool) l :
  Sorted Z.le (map Student.id l) -> Sorted Z.le (map Student.id (filter p l)).
Proof.
  intros H. apply StronglySorted_Sorted, StronglySorted_filter_ids.
  apply Sorted_StronglySorted; [|exact H]. intros a b c. apply Z.le_trans.
Qed.

Lemma Sorted_lt_NoDup l : Sorted Z.lt l -> NoDup l.
Proof.
  intros H. apply Sorted_StronglySorted in H; [|intros a b c; apply Z.lt_trans].
  induction H as [|x l _ IH Hx]; constructor; [|exact IH].
  intros I. rewrite Forall_forall in Hx. specialize (Hx x I). lia.
Qed.

(** Two rosters in strictly ascending order with the same students are
    the same list. *)
Lemma ascending_perm_eq (l1 : list Student) : forall l2,
  Sorted Z.lt (map Student.id l1) -> Sorted Z.lt (map Student.id l2) ->
  Permutation l1 l2 -> l1 = l2.
Proof.
  induction l1 as [|a l1 IH]; intros [|b l2] S1 S2 P.
  - reflexivity.
  - now apply Permutation_nil in P.
  - apply Permutation_sym in P. now apply Permutation_nil in P.
  - assert (T : forall x y z : Z, x < y -> y < z -> x < z)
      by (intros x y z; apply Z.lt_trans).
    pose proof (Sorted_StronglySorted T S1) as SS1.
    pose proof (Sorted_StronglySorted T S2) as SS2.
    cbn [map] in SS1, SS2.
    apply StronglySorted_inv in SS1, SS2.
    destruct SS1 as [_ F1], SS2 as [_ F2]. rewrite Forall_forall in F1, F2.
    assert (E : a = b).
    { destruct (Student_eq_dec a b) as [E|NE]; [exact E|exfalso].
      assert (Ia : In a (b :: l2)) by (eapply Permutation_in; [exact P|now left]).
      assert (Ib : In b (a :: l1))
        by (eapply Permutation_in; [apply Permutation_sym; exact P|now left]).
      destruct Ia as [Ia|Ia]; [congruence|].
      destruct Ib as [Ib|Ib]; [congruence|].
      pose proof (F1 _ (in_map Student.id _ _ Ib)).
      pose proof (F2 _ (in_map Student.id _ _ Ia)). lia. }
    subst b. f_equal. apply IH.
    + cbn [map] in S1. now apply Sorted_inv in S1.
    + cbn [map] in S2. now apply Sorted_inv in S2.
    + now apply Permutation_cons_inv in P.
Qed.

Lemma filter_Permutation (A : Type) (p : A -> bool) l l' :
  Permutation l l' -> Permutation (filter p l) (filter p l').
Proof.
  induction 1 as [|x l l' _ IH|x y l|l l' l'' _ IH1 _ IH2]; cbn [filter].
  - constructor.
  - destruct (p x); [now constructor|exact IH].
  - destruct (p x), (p y); try apply Permutation_refl. apply perm_swap.
  - eapply Permutation_trans; eassumption.
Qed.

Lemma filter_all (A : Type) (p : A -> bool) l :
  (forall x, In x l -> p x = true) -> filter p l = l.
Proof.
  induction l as [|x l IH]; intros H; [reflexivity|].
  cbn [filter]. rewrite (H x (or_introl eq_refl)). f_equal.
  apply IH. intros y Hy. apply H. now right.
Qed.

Lemma hasId_In (s : Student) roster :
  In s roster -> existsb (hasId (Student.id s)) roster = true.
Proof.
  intros H. apply existsb_exists. exists s. split; [exact H|].
  unfold hasId. apply Z.eqb_refl.
Qed.

Lemma hasId_id z roster :
  existsb (hasId z) roster = true <-> In z (map Student.id roster).
Proof.
  rewrite existsb_exists, in_map_iff. unfold hasId.
  split; intros (s & H1 & H2).
  - exists s. split; [now apply Z.eqb_eq|exact H1].
  - exists s. split; [exact H2|now apply Z.eqb_eq].
Qed.

(** The blocks after [updateBlocksAfterStudentChange], when the roster
    went from [old] to [new] and kept the students of [old] whose ids it
    still has. *)
Lemma blocks_follow (old new : list Student) bs :
  Forall (fun block => incl block old) bs ->
  (forall s, In s old -> In (Student.id s) (map Student.id new) -> In s new) ->
  Forall (fun block => incl block new)
         (map (filter (fun s => existsb (hasId (Student.id s)) new)) bs).
Proof.
  intros F K. apply Forall_forall. intros block Hb.
  apply in_map_iff in Hb. destruct Hb as (b & <- & Hb).
  rewrite Forall_forall in F. intros s Hs. apply filter_In in Hs.
  destruct Hs as [Hs E]. apply K; [now apply (F b Hb)|now apply hasId_id].
Qed.

Lemma blocks_stay (roster : list Student) bs :
  Forall (fun block => incl block roster) bs ->
  map (filter (fun s => existsb (hasId (Student.id s)) roster)) bs = bs.
Proof.
  intros F. rewrite <- (map_id bs) at 2. apply map_ext_in. intros b Hb.
  rewrite Forall_forall in F. apply filter_all. intros s Hs.
  apply hasId_In. now apply (F b Hb).
Qed.

Lemma addStudents_returned input gender (st st' : StudentService.State) :
  addStudents input gender st = Returned st' ->
  (forall id, In id (parseNumberInput input) ->
              ~ In id (map Student.id (students st)))
  /\ st' = updateBlocksAfterStudentChange
             {| students :=
                  sortById (students st
                            ++ map (fun id => Student.make id gender)
                                   (parseNumberInput input));
                groups := groups st;
                blocks := blocks st;
                absentStudents := absentStudents st |}.
Proof.
  unfold addStudents.
  destruct (filter _ (parseNumberInput input)) as [|d ds] eqn:EF; [|discriminate].
  intros [= <-]. split; [|reflexivity].
  pose proof (proj1 (filter_nil_iff _ _) EF) as K.
  intros id Hid Hin. specialize (K id Hid). apply mem_In in Hin. congruence.
Qed.

Lemma initializeStudents_ok maleInput femaleInput (st : StudentService.State) :
  (forall z, In z (parseNumberInput maleInput) ->
             ~ In z (parseNumberInput femaleInput)) ->
  rosterOk (initializeStudents maleInput femaleInput st).
Proof.
  intros D. unfold rosterOk, initializeStudents. cbn [students blocks]. split.
  - apply Sorted_le_NoDup_lt; [apply sortById_sorted|].
    eapply Permutation_NoDup.
    { apply Permutation_map, Permutation_sym, Array_sort_perm. }
    rewrite map_app, !map_map. cbn [Student.id]. rewrite !map_id.
    apply NoDup_app; try apply parseNumberInput_NoDup. exact D.
  - repeat constructor. apply incl_refl.
Qed.

Lemma addStudents_ok input gender (st st' : StudentService.State) :
  rosterOk st -> addStudents input gender st = Returned st' -> rosterOk st'.
Proof.
  intros [S B] R. apply addStudents_returned in R. destruct R as [Fresh ->].
  unfold rosterOk, updateBlocksAfterStudentChange. cbn [students blocks]. split.
  - apply Sorted_le_NoDup_lt; [apply sortById_sorted|].
    eapply Permutation_NoDup.
    { apply Permutation_map, Permutation_sym, Array_sort_perm. }
    rewrite map_app, map_map. cbn [Student.id]. rewrite map_id.
    apply NoDup_app;
      [now apply Sorted_lt_NoDup | apply parseNumberInput_NoDup |].
    intros z Hz Hn. exact (Fresh z Hn Hz).
  - apply (blocks_follow B). intros s Hs _.
    eapply Permutation_in; [apply Permutation_sym, Array_sort_perm|].
    apply in_or_app. now left.
Qed.

Lemma removal_ok (p : Student -> bool) (absent : list Z)
  (st : StudentService.State) :
  (forall a b, Student.id a = Student.id b -> p a = p b) ->
  rosterOk st ->
  rosterOk (updateBlocksAfterStudentChange
              {| students := filter p (students st);
                 groups := groups st;
                 blocks := blocks st;
                 absentStudents := absent |}).
Proof.
  intros Pid [S B]. unfold rosterOk, updateBlocksAfterStudentChange.
  cbn [students blocks]. split; [now apply Sorted_lt_filter_ids|].
  apply (blocks_follow B). intros s Hs Hid.
  apply in_map_iff in Hid. destruct Hid as (s' & E & Hs').
  apply filter_In in Hs'. apply filter_In. split; [exact Hs|].
  rewrite (Pid s s'); [tauto|congruence].
Qed.

(** X17.  A roster in strictly ascending order of the ids whose blocks
    hold students of the roster only is what [initializeStudents] sets up
    from two inputs that share no number, and what [addStudents] (when it
    returns), [removeStudent] and [setAbsentStudents] keep.  After
    [setAbsentStudents] the roster holds the students it had whose id is
    not among the numbers of the input, and these numbers are the absent
    ones. *)
Theorem roster_stays_ascending (st : StudentService.State) :
  (forall maleInput femaleInput,
      (forall z, In z (parseNumberInput maleInput) ->
                 ~ In z (parseNumberInput femaleInput)) ->
      rosterOk (initializeStudents maleInput femaleInput st))
  /\ (rosterOk st ->
      (forall input gender st',
          addStudents input gender st = Returned st' -> rosterOk st')
      /\ (forall studentId,
             rosterOk (removeStudent studentId st)
             /\ forall s, In s (students (removeStudent studentId st))
                          <-> In s (students st) /\ Student.id s <> studentId)
      /\ (forall input,
             rosterOk (setAbsentStudents input st)
             /\ absentStudents (setAbsentStudents input st)
                = parseNumberInput input
             /\ forall s, In s (students (setAbsentStudents input st))
                          <-> In s (students st)
                              /\ ~ In (Student.id s) (parseNumberInput input))).
Proof.
  split; [intros m f D; now apply initializeStudents_ok|].
  intros OK. split; [|split].
  - intros input gender st' R. eapply addStudents_ok; eassumption.
  - intros studentId. split.
    + unfold removeStudent. apply removal_ok; [|exact OK].
      intros a b E. now rewrite E.
    + intros s. unfold removeStudent, updateBlocksAfterStudentChange.
      cbn [students]. rewrite filter_In, negb_true_iff, Z.eqb_neq. tauto.
  - intros input. split; [|split].
    + unfold setAbsentStudents. apply removal_ok; [|exact OK].
      intros a b E. now rewrite E.
    + reflexivity.
    + intros s. unfold setAbsentStudents, updateBlocksAfterStudentChange.
      cbn [students]. rewrite filter_In, negb_true_iff.
      rewrite <- not_true_iff_false, mem_In. tauto.
Qed.

(** X18.  On such a roster, students added by [addStudents] are taken
    away again by [setAbsentStudents] with the same input: roster, groups
    and blocks are as before the addition, so the students added had
    entered no block.  When the input names one number, [removeStudent]
    of this number gives back the state itself. *)
Theorem addStudents_is_undone (input : str) (gender : Gender)
  (st st' : StudentService.State) :
  rosterOk st ->
  addStudents input gender st = Returned st' ->
  setAbsentStudents input st'
  = {| students := students st;
       groups := groups st;
       blocks := blocks st;
       absentStudents := parseNumberInput input |}
  /\ blocks st' = blocks st
  /\ forall n, parseNumberInput input = [n] -> removeStudent n st' = st.
Proof.
  intros [S B] R. apply addStudents_returned in R. destruct R as [Fresh ->].
  set (new := map (fun id => Student.make id gender) (parseNumberInput input)).
  set (roster1 := sortById (students st ++ new)).
  assert (P1 : Permutation roster1 (students st ++ new))
    by apply Array_sort_perm.
  assert (B1 : map (filter (fun s => existsb (hasId (Student.id s)) roster1))
                   (blocks st) = blocks st).
  { rewrite <- (map_id (blocks st)) at 2. apply map_ext_in. intros b Hb.
    rewrite Forall_forall in B. apply filter_all. intros s Hs.
    apply hasId_In. eapply Permutation_in; [apply Permutation_sym, P1|].
    apply in_or_app. left. now apply (B b Hb). }
  assert (Undo : forall p : Student -> bool,
             (forall s, In s (students st) -> p s = true) ->
             (forall s, In s new -> p s = false) ->
             filter p roster1 = students st).
  { intros p Keep Drop. apply ascending_perm_eq; [| exact S |].
    - apply Sorted_le_NoDup_lt.
      + apply Sorted_le_filter_ids, sortById_sorted.
      + eapply Permutation_NoDup; [|apply Sorted_lt_NoDup, S].
        apply Permutation_map, Permutation_sym.
        eapply Permutation_trans; [apply filter_Permutation, P1|].
        rewrite filter_app, (filter_all Keep).
        rewrite (proj2 (filter_nil_iff p new) Drop). now rewrite app_nil_r.
    - eapply Permutation_trans; [apply filter_Permutation, P1|].
      rewrite filter_app, (filter_all Keep).
      rewrite (proj2 (filter_nil_iff p new) Drop). now rewrite app_nil_r. }
  split; [|split].
  - unfold setAbsentStudents, updateBlocksAfterStudentChange.
    cbn [students groups blocks absentStudents]. fold new. fold roster1.
    rewrite Undo.
    + rewrite B1. now rewrite (blocks_stay B).
    + intros s Hs. apply negb_true_iff, not_true_iff_false. rewrite mem_In.
      intros I. exact (Fresh _ I (in_map Student.id _ _ Hs)).
    + intros s Hs. apply negb_false_iff, mem_In. unfold new in Hs.
      apply in_map_iff in Hs. now destruct Hs as (z & <- & Hz).
  - exact B1.
  - intros n En. unfold removeStudent, updateBlocksAfterStudentChange.
    cbn [students groups blocks absentStudents]. fold new. fold roster1.
    rewrite Undo.
    + rewrite B1, (blocks_stay B). now destruct st.
    + intros s Hs. apply negb_true_iff, Z.eqb_neq. intros E.
      apply (Fresh n); [rewrite En; now left|].
      rewrite <- E. now apply in_map.
    + intros s Hs. apply negb_false_iff, Z.eqb_eq. unfold new in Hs.
      rewrite En in Hs. cbn in Hs. destruct Hs as [<-|[]]. reflexivity.
Qed.

Lemma scenario_rosterOk : rosterOk (scenario "1,3" "2,4" 2).
Proof.
  split.
  - assert (E : map Student.id (students (scenario "1,3" "2,4" 2)) = [1; 2; 3; 4])
      by (vm_compute; reflexivity).
    rewrite E. repeat constructor.
  - unfold scenario, initializeGroups, initializeStudents. cbn [blocks students].
    apply Forall_cons; [apply incl_refl | apply Forall_nil].
Qed.

Lemma roster_stays_ascending_witness :
  let st := scenario "1,3" "2,4" 2 in
  rosterOk st
  /\ rosterOk (removeStudent 3 st)
  /\ rosterOk (setAbsentStudents (lit "2-3") st)
  /\ forall s, In s (students (setAbsentStudents (lit "2-3") st))
               <-> In s (students st)
                   /\ ~ In (Student.id s) (parseNumberInput (lit "2-3")).
Proof.
  intros st. split; [exact scenario_rosterOk|].
  destruct (roster_stays_ascending st) as [_ K].
  destruct (K scenario_rosterOk) as (_ & R & A).
  split; [exact (proj1 (R 3))|].
  split; [exact (proj1 (A (lit "2-3")))|].
  exact (proj2 (proj2 (A (lit "2-3")))).
Defined.

Lemma addStudents_is_undone_witness :
  let st := scenario "1,3" "2,4" 2 in
  let st' := updateBlocksAfterStudentChange
               {| students := sortById (students st ++ [Student.make 7 female]);
                  groups := groups st;
                  blocks := blocks st;
                  absentStudents := absentStudents st |} in
  rosterOk st
  /\ addStudents (lit "7") female st = Returned st'
  /\ setAbsentStudents (lit "7") st'
     = {| students := students st;
          groups := groups st;
          blocks := blocks st;
          absentStudents := parseNumberInput (lit "7") |}
  /\ blocks st' = blocks st
  /\ forall n, parseNumberInput (lit "7") = [n] -> removeStudent n st' = st.
Proof.
  intros st st'. split; [exact scenario_rosterOk|].
  split; [vm_compute; reflexivity|].
  apply (@addStudents_is_undone (lit "7") female st st').
  - exact scenario_rosterOk.
  - vm_compute; reflexivity.
Defined.

(* ================================================================== *)
(** * StudentService: moving a student by hand                         *)
(* ================================================================== *)

Module GroupMoves.

(** Where a student is dragged from or to: the list of the available
    students (the id "available") or the group "group-n". *)
Inductive place := available | inGroup (groupId : nat).

(** [groups.find((g) => g.id === groupId)], with the index of the group
    found: the group object is changed in place. *)
Definition findGroup (groupId : nat) (groups : list Group) : option (nat * Group) :=
  find (fun ig => (Group.id (snd ig) =? groupId)%nat) (indexed groups).

(** [students.filter((s) => s.id !== studentId)] *)
Definition without (studentId : Z) (l : list Student) : list Student :=
  filter (fun s => negb (Student.id s =? studentId)) l.

(** [moveStudentToGroup] *)
Definition moveStudentToGroup (studentId : Z) (fromGroupId toGroupId : place)
  (st : StudentService.State) : StudentService.State :=
  let updated groups' :=
    {| students := students st;
       groups := groups';
       blocks := blocks st;
       absentStudents := absentStudents st |} in
  match fromGroupId, toGroupId with
  | available, available => st
  | inGroup fromId, available =>
      updated
        match findGroup fromId (groups st) with
        | Some (i, fromGroup) =>
            updateNth i
              (Group.withStudents (without studentId (Group.students fromGroup))
                                  fromGroup)
              (groups st)
        | None => groups st
        end
  | available, inGroup toId =>
      updated
        match findGroup toId (groups st), find (hasId studentId) (students st) with
        | Some (j, toGroup), Some student =>
            updateNth j (Group.push student toGroup) (groups st)
        | _, _ => groups st
        end
  | inGroup fromId, inGroup toId =>
      updated
        match findGroup fromId (groups st), findGroup toId (groups st) with
        | Some (i, fromGroup), Some (j, _) =>
            match find (hasId studentId) (Group.students fromGroup) with
            | Some student =>
                let groups1 :=
                  updateNth i
                    (Group.withStudents
                       (without studentId (Group.students fromGroup)) fromGroup)
                    (groups st) in
                match nth_error groups1 j with
                | Some toGroup => updateNth j (Group.push student toGroup) groups1
                | None => groups1
                end
            | None => groups st
            end
        | _, _ => groups st
        end
  end.

End GroupMoves.

Import GroupMoves.

Lemma findGroup_nth groupId gs i g :
  findGroup groupId gs = Some (i, g) ->
  nth_error gs i = Some g /\ Group.id g = groupId.
Proof.
  intros F. apply find_some in F. destruct F as [I E]. cbn in E.
  apply Nat.eqb_eq in E. split; [|exact E].
  apply In_nth_error in I. destruct I as [k K].
  rewrite nth_error_indexed in K.
  destruct (nth_error gs k) as [x|] eqn:N; [|discriminate].
  cbn in K. now injection K as <- <-.
Qed.

Lemma count_members_update x i g g' gs :
  nth_error gs i = Some g ->
  (count_occ Student_eq_dec (members (updateNth i g' gs)) x
   + count_occ Student_eq_dec (Group.students g) x
   = count_occ Student_eq_dec (members gs) x
     + count_occ Student_eq_dec (Group.students g') x)%nat.
Proof.
  intros N. destruct (updateNth_split g' N) as (l1 & l2 & -> & -> & _).
  rewrite !members_app. cbn [members flat_map].
  rewrite !count_occ_app. lia.
Qed.

Lemma ids_updateNth i l g gs :
  nth_error gs i = Some g ->
  map Group.id (updateNth i (Group.withStudents l g) gs) = map Group.id gs.
Proof.
  intros N.
  destruct (updateNth_split (Group.withStudents l g) N) as (l1 & l2 & -> & -> & _).
  now rewrite !map_app.
Qed.

Lemma without_none studentId l :
  ~ In studentId (map Student.id l) -> without studentId l = l.
Proof.
  intros H. apply filter_all. intros s Hs. apply negb_true_iff, Z.eqb_neq.
  intros E. apply H. rewrite <- E. now apply in_map.
Qed.

Lemma without_one studentId l student :
  NoDup (map Student.id l) ->
  find (hasId studentId) l = Some student ->
  Permutation (student :: without studentId l) l.
Proof.
  induction l as [|a l IH]; intros ND F; [discriminate|].
  cbn [map] in ND. inversion ND as [|? ? Na ND']; subst.
  cbn [find] in F. unfold without. cbn [filter]. unfold hasId in F at 1.
  destruct (Z.eqb_spec (Student.id a) studentId) as [E|NE].
  - injection F as <-. cbn [negb]. fold (without studentId l).
    rewrite without_none; [apply Permutation_refl|]. now rewrite <- E.
  - cbn [negb]. fold (without studentId l).
    eapply Permutation_trans; [apply perm_swap|]. apply perm_skip.
    now apply IH.
Qed.

Lemma group_ids_NoDup gs i g :
  NoDup (map Student.id (members gs)) -> nth_error gs i = Some g ->
  NoDup (map Student.id (Group.students g)).
Proof.
  intros ND N. apply nth_error_split in N. destruct N as (l1 & l2 & -> & _).
  rewrite members_app in ND. cbn [members flat_map] in ND.
  rewrite !map_app in ND. apply NoDup_app_remove_l in ND.
  now apply NoDup_app_remove_r in ND.
Qed.

Lemma groups_apart gs i j g g' z :
  NoDup (map Student.id (members gs)) ->
  i <> j -> nth_error gs i = Some g -> nth_error gs j = Some g' ->
  In z (map Student.id (Group.students g)) ->
  ~ In z (map Student.id (Group.students g')).
Proof.
  intros ND D Ni Nj Hz Hz'.
  pose proof (proj1 (NoDup_count_occ Z.eq_dec _) ND z) as C.
  fold (cnt z (members gs)) in C.
  pose proof (@cnt_members_update z i g (Group.withStudents [] g) gs Ni) as C1.
  assert (Nj' : nth_error (updateNth i (Group.withStudents [] g) gs) j = Some g')
    by (now rewrite nth_error_updateNth_neq).
  pose proof (@cnt_members_update z j g' (Group.withStudents [] g') _ Nj') as C2.
  cbn [Group.students Group.withStudents] in C1, C2. rewrite cnt_nil in C1, C2.
  apply (count_occ_In Z.eq_dec) in Hz, Hz'.
  fold (cnt z (Group.students g)) in Hz. fold (cnt z (Group.students g')) in Hz'.
  lia.
Qed.

Lemma between_groups_members (studentId : Z) (fromId toId : nat)
  (st : StudentService.State) :
  NoDup (map Student.id (members (groups st))) ->
  Permutation
    (members (groups (moveStudentToGroup studentId (inGroup fromId)
                                         (inGroup toId) st)))
    (members (groups st)).
Proof.
  intros ND. unfold moveStudentToGroup. cbn [groups].
  destruct (findGroup fromId (groups st)) as [[i fromGroup]|] eqn:Ff;
    [|apply Permutation_refl].
  destruct (findGroup toId (groups st)) as [[j toGroup]|] eqn:Ft;
    [|apply Permutation_refl].
  destruct (find (hasId studentId) (Group.students fromGroup)) as [student|] eqn:Fs;
    [|apply Permutation_refl].
  destruct (findGroup_nth Ff) as [Ni _].
  set (fromGroup1 := Group.withStudents
                       (without studentId (Group.students fromGroup)) fromGroup).
  set (groups1 := updateNth i fromGroup1 (groups st)).
  pose proof (without_one (group_ids_NoDup ND Ni) Fs) as W.
  pose proof (fun x => @count_members_update x i fromGroup fromGroup1 _ Ni) as C1.
  fold groups1 in C1.
  destruct (nth_error groups1 j) as [toGroup1|] eqn:Nj1.
  - apply (Permutation_count_occ Student_eq_dec). intro x. specialize (C1 x).
    pose proof (@count_members_update x j toGroup1 (Group.push student toGroup1)
                  _ Nj1) as C2.
    pose proof (proj1 (Permutation_count_occ Student_eq_dec _ _) W x) as C3.
    cbn [Group.students Group.push Group.withStudents fromGroup1] in C1, C2.
    rewrite count_occ_app in C2. cbn [count_occ] in C2, C3.
    destruct (Student_eq_dec student x); lia.
  - exfalso. apply nth_error_None in Nj1. unfold groups1 in Nj1.
    rewrite updateNth_length in Nj1. destruct (findGroup_nth Ft) as [Nj _].
    assert (j < List.length (groups st))%nat by (apply nth_error_Some; congruence).
    lia.
Qed.

(** X19.  When no id sits twice in the groups, dragging a student from
    one group to another keeps everyone seated exactly once: the groups
    hold the same students as before, under the same group ids, and the
    roster is not touched.  When both groups exist and the student sits in
    the first, the student ends as the last one of the second group, also
    when the two groups are the same. *)
Theorem moveStudentToGroup_keeps_everyone (studentId : Z) (fromId toId : nat)
  (st : StudentService.State) :
  NoDup (map Student.id (members (groups st))) ->
  let st' := moveStudentToGroup studentId (inGroup fromId) (inGroup toId) st in
  Permutation (members (groups st')) (members (groups st))
  /\ map Group.id (groups st') = map Group.id (groups st)
  /\ students st' = students st
  /\ forall i j fromGroup toGroup student,
       findGroup fromId (groups st) = Some (i, fromGroup) ->
       findGroup toId (groups st) = Some (j, toGroup) ->
       find (hasId studentId) (Group.students fromGroup) = Some student ->
       exists toGroup',
         nth_error (groups st') j = Some toGroup'
         /\ Group.students toGroup'
            = without studentId (Group.students toGroup) ++ [student]
         /\ (i <> j ->
             Group.students toGroup' = Group.students toGroup ++ [student]
             /\ exists fromGroup',
                 nth_error (groups st') i = Some fromGroup'
                 /\ Group.students fromGroup'
                    = without studentId (Group.students fromGroup)).
Proof.
  intros ND st'.
  split; [exact (between_groups_members studentId fromId toId ND)|].
  unfold st', moveStudentToGroup. cbn [groups students].
  destruct (findGroup fromId (groups st)) as [[i fromGroup]|] eqn:Ff.
  2:{ repeat (split; [reflexivity|]). intros; congruence. }
  destruct (findGroup toId (groups st)) as [[j toGroup]|] eqn:Ft.
  2:{ repeat (split; [reflexivity|]). intros; congruence. }
  destruct (find (hasId studentId) (Group.students fromGroup)) as [student|] eqn:Fs.
  2:{ repeat (split; [reflexivity|]). intros; congruence. }
  destruct (findGroup_nth Ff) as [Ni _]. destruct (findGroup_nth Ft) as [Nj _].
  set (fromGroup1 := Group.withStudents
                       (without studentId (Group.students fromGroup)) fromGroup).
  set (groups1 := updateNth i fromGroup1 (groups st)).
  assert (Lj : (j < List.length groups1)%nat).
  { unfold groups1. rewrite updateNth_length. apply nth_error_Some. congruence. }
  destruct (nth_error groups1 j) as [toGroup1|] eqn:Nj1;
    [|apply nth_error_None in Nj1; lia].
  pose proof (without_one (group_ids_NoDup ND Ni) Fs) as W.
  assert (Sid : In studentId (map Student.id (Group.students fromGroup))).
  { apply find_some in Fs. destruct Fs as [I E]. unfold hasId in E.
    apply Z.eqb_eq in E. rewrite <- E. now apply in_map. }
  assert (T1 : Group.students toGroup1
               = without studentId (Group.students toGroup)).
  { destruct (Nat.eq_dec i j) as [<-|D].
    - unfold groups1 in Nj1. rewrite nth_error_updateNth_eq in Nj1
        by (apply nth_error_Some; congruence).
      injection Nj1 as <-. cbn. congruence.
    - unfold groups1 in Nj1. rewrite nth_error_updateNth_neq in Nj1 by exact D.
      rewrite Nj in Nj1. injection Nj1 as <-. symmetry. apply without_none.
      eapply groups_apart; eassumption. }
  split; [|split].
  - unfold Group.push. rewrite (ids_updateNth _ Nj1).
    unfold groups1, fromGroup1. now apply ids_updateNth.
  - reflexivity.
  - intros i' j' fromGroup' toGroup' student' [= <- <-] [= <- <-] Fs'.
    rewrite Fs in Fs'. injection Fs' as <-.
    exists (Group.push student toGroup1). split; [|split].
    + now apply nth_error_updateNth_eq.
    + cbn. now rewrite T1.
    + intros D. split.
      * cbn. rewrite T1. f_equal. apply without_none.
        eapply groups_apart; eassumption.
      * exists fromGroup1. split; [|reflexivity].
        rewrite nth_error_updateNth_neq by congruence.
        unfold groups1. apply nth_error_updateNth_eq.
        apply nth_error_Some. congruence.
Qed.

(** The roster 1-3 (male), 4, 5 (female) seated as [crowdedGroups]. *)
Definition seatedState : StudentService.State :=
  {| students := students (scenario "1-3" "4,5" 3);
     groups := crowdedGroups;
     blocks := blocks (scenario "1-3" "4,5" 3);
     absentStudents := [] |}.

Lemma seatedState_NoDup : NoDup (map Student.id (members (groups seatedState))).
Proof.
  assert (E : map Student.id (members (groups seatedState)) = [1; 2; 3; 4; 5])
    by (vm_compute; reflexivity).
  rewrite E. repeat constructor; simpl; intuition discriminate.
Qed.

Lemma moveStudentToGroup_keeps_everyone_witness :
  NoDup (map Student.id (members (groups seatedState)))
  /\ let st' := moveStudentToGroup 2 (inGroup 1) (inGroup 3) seatedState in
     Permutation (members (groups st')) (members (groups seatedState))
     /\ map Group.id (groups st') = map Group.id (groups seatedState)
     /\ students st' = students seatedState
     /\ forall i j fromGroup toGroup student,
          findGroup 1 (groups seatedState) = Some (i, fromGroup) ->
          findGroup 3 (groups seatedState) = Some (j, toGroup) ->
          find (hasId 2) (Group.students fromGroup) = Some student ->
          exists toGroup',
            nth_error (groups st') j = Some toGroup'
            /\ Group.students toGroup'
               = without 2 (Group.students toGroup) ++ [student]
            /\ (i <> j ->
                Group.students toGroup' = Group.students toGroup ++ [student]
                /\ exists fromGroup',
                    nth_error (groups st') i = Some fromGroup'
                    /\ Group.students fromGroup'
                       = without 2 (Group.students fromGroup)).
Proof.
  split; [exact seatedState_NoDup|].
  apply (@moveStudentToGroup_keeps_everyone 2 1 3 seatedState).
  exact seatedState_NoDup.
Defined.

Example moveStudentToGroup_scenarios :
  map (fun g => map Student.id (Group.students g))
      (groups (moveStudentToGroup 2 (inGroup 1) (inGroup 3) seatedState))
  = [[1; 3]; [4; 5]; [2]]
  /\ map (fun g => map Student.id (Group.students g))
         (groups (moveStudentToGroup 2 (inGroup 1) (inGroup 1) seatedState))
     = [[1; 3; 2]; [4; 5]; []]
  /\ map (fun g => map Student.id (Group.students g))
         (groups (moveStudentToGroup 4 (inGroup 1) (inGroup 3) seatedState))
     = [[1; 2; 3]; [4; 5]; []]
  /\ map (fun g => map Student.id (Group.students g))
         (groups (moveStudentToGroup 5 available (inGroup 3) seatedState))
     = [[1; 2; 3]; [4; 5]; [5]].
Proof. repeat split; vm_compute; reflexivity. Qed.

Lemma find_indexed_same (gs : list Group) : forall gs' k groupId j g,
  map Group.id gs' = map Group.id gs ->
  find (fun ig => (Group.id (snd ig) =? groupId)%nat)
       (combine (seq k (List.length gs)) gs) = Some (j, g) ->
  exists g',
    find (fun ig => (Group.id (snd ig) =? groupId)%nat)
         (combine (seq k (List.length gs')) gs') = Some (j, g')
    /\ nth_error gs' (j - k) = Some g' /\ (k <= j)%nat.
Proof.
  induction gs as [|x gs IH]; intros [|x' gs'] k groupId j g E F;
    try discriminate.
  cbn [map] in E. injection E as Ex E.
  cbn [List.length seq combine find snd] in *. rewrite Ex.
  destruct (Group.id x =? groupId)%nat.
  - injection F as <- <-. exists x'. rewrite Nat.sub_diag. now repeat split.
  - destruct (IH gs' (S k) groupId j g E F) as (g' & F' & N & L).
    exists g'. split; [exact F'|]. split; [|lia].
    replace (j - k)%nat with (S (j - S k)) by lia. exact N.
Qed.

Lemma findGroup_same_ids gs gs' groupId j g :
  map Group.id gs' = map Group.id gs ->
  findGroup groupId gs = Some (j, g) ->
  exists g', findGroup groupId gs' = Some (j, g') /\ nth_error gs' j = Some g'.
Proof.
  intros E F. destruct (@find_indexed_same gs gs' 0 groupId j g E F)
    as (g' & F' & N & _).
  exists g'. split; [exact F'|]. now rewrite Nat.sub_0_r in N.
Qed.

(** X20.  Dragging a seated student to the available list and from there
    to a group gives the groups that dragging the student to that group at
    once gives, when both groups exist and the roster knows the student as
    the group does. *)
Theorem move_through_available (studentId : Z) (fromId toId : nat)
  (st : StudentService.State) (i j : nat) (fromGroup toGroup : Group)
  (student : Student) :
  findGroup fromId (groups st) = Some (i, fromGroup) ->
  findGroup toId (groups st) = Some (j, toGroup) ->
  find (hasId studentId) (Group.students fromGroup) = Some student ->
  find (hasId studentId) (students st) = Some student ->
  moveStudentToGroup studentId available (inGroup toId)
    (moveStudentToGroup studentId (inGroup fromId) available st)
  = moveStudentToGroup studentId (inGroup fromId) (inGroup toId) st.
Proof.
  intros Ff Ft Fs Fr. unfold moveStudentToGroup.
  cbn [students groups blocks absentStudents]. rewrite Ff, Ft, Fs, Fr.
  destruct (findGroup_nth Ff) as [Ni _].
  set (groups1 := updateNth i _ (groups st)).
  assert (E : map Group.id groups1 = map Group.id (groups st))
    by (now apply ids_updateNth).
  destruct (findGroup_same_ids E Ft) as (toGroup1 & -> & ->). reflexivity.
Qed.

Lemma move_through_available_witness :
  moveStudentToGroup 2 available (inGroup 3)
    (moveStudentToGroup 2 (inGroup 1) available seatedState)
  = moveStudentToGroup 2 (inGroup 1) (inGroup 3) seatedState.
Proof.
  apply (@move_through_available 2 1 3 seatedState 0 2
           (Group.make 1 1 (seated [1; 2; 3] male))
           (Group.make 3 3 [])
           (Student.make 2 male)); reflexivity.
Defined.

(* ================================================================== *)
(** * GenderRatioHandler: the ideal size is a cap                      *)
(* ================================================================== *)

Section SortHead.
Variable A : Type.
Variable cmp : A -> A -> Z.
Variable key : A -> Z.
Hypothesis cmp_le : forall a b, cmp a b <= 0 -> key a <= key b.
Hypothesis cmp_gt : forall a b, 0 < cmp a b -> key b <= key a.

Lemma sortInsert_head x : forall sorted h t,
  (forall h' t', sorted = h' :: t' -> forall y, In y sorted -> key h' <= key y) ->
  sortInsert cmp x sorted = h :: t ->
  forall y, In y (x :: sorted) -> key h <= key y.
Proof.
  intros [|y0 l] h t M E y Hy; cbn [sortInsert] in E.
  - injection E as <- <-. destruct Hy as [<-|[]]. lia.
  - specialize (M y0 l eq_refl).
    destruct (Z.leb_spec (cmp x y0) 0) as [L|L]; injection E as <- <-.
    + destruct Hy as [<-|Hy]; [lia|].
      pose proof (cmp_le L). pose proof (M y Hy). lia.
    + destruct Hy as [<-|Hy]; [now apply cmp_gt|]. now apply M.
Qed.

Lemma Array_sort_head (l : list A) : forall h t,
  Array_sort cmp l = h :: t -> forall y, In y l -> key h <= key y.
Proof.
  induction l as [|x l IH]; intros h t E y Hy; [destruct Hy|].
  cbn [Array_sort fold_right] in E. fold (Array_sort cmp l) in E.
  assert (K : forall y, In y (x :: Array_sort cmp l) -> key h <= key y).
  { apply (sortInsert_head (t := t)); [|exact E].
    intros h' t' E' z Hz. apply (IH h' t' E').
    eapply Permutation_in; [apply Array_sort_perm|exact Hz]. }
  destruct Hy as [<-|Hy]; [apply K; now left|].
  apply K. right. eapply Permutation_in; [apply Permutation_sym, Array_sort_perm|].
  exact Hy.
Qed.

End SortHead.

Lemma compareStats_overCapacity g ideal a b :
  (GenderRatioHandler.compareStats g ideal a b <= 0 ->
   GenderRatioHandler.overCapacity ideal a <= GenderRatioHandler.overCapacity ideal b)
  /\ (0 < GenderRatioHandler.compareStats g ideal a b ->
      GenderRatioHandler.overCapacity ideal b <= GenderRatioHandler.overCapacity ideal a).
Proof.
  unfold GenderRatioHandler.compareStats. cbv zeta.
  destruct (Z.eqb_spec (GenderRatioHandler.overCapacity ideal a)
                       (GenderRatioHandler.overCapacity ideal b)) as [E|NE];
    cbn [negb].
  - split; intros _; rewrite E; apply Z.le_refl.
  - split; intros H; lia.
Qed.

Lemma list_sum_cons x l : list_sum (x :: l) = (x + list_sum l)%nat.
Proof. reflexivity. Qed.

Definition totals (stats : list GenderRatioHandler.Stat) : nat :=
  list_sum (map GenderRatioHandler.total stats).

Lemma totals_perm stats stats' :
  Permutation stats stats' -> totals stats = totals stats'.
Proof.
  unfold totals. induction 1; cbn [map]; rewrite ?list_sum_cons; lia.
Qed.

Lemma some_stat_has_room ideal stats :
  (totals stats < List.length stats * ideal)%nat ->
  exists s, In s stats /\ (GenderRatioHandler.total s < ideal)%nat.
Proof.
  unfold totals. induction stats as [|s stats IH]; cbn [map List.length];
    rewrite ?list_sum_cons.
  - lia.
  - intros H. destruct (Nat.ltb_spec (GenderRatioHandler.total s) ideal) as [L|L].
    + exists s. split; [now left|exact L].
    + destruct IH as (s' & I & L'); [lia|]. exists s'. split; [now right|exact L'].
Qed.

(** What the statistics know about the groups: one entry for every
    group, and its [total] is the size of the group. *)
Definition statsTrack (stats : list GenderRatioHandler.Stat) (gs : list Group)
  : Prop :=
  Permutation (map GenderRatioHandler.index stats) (seq 0 (List.length gs))
  /\ Forall (fun s => GenderRatioHandler.total s
                      = sizeAt gs (GenderRatioHandler.index s)) stats.

Lemma statsTrack_perm stats stats' gs :
  Permutation stats stats' -> statsTrack stats gs -> statsTrack stats' gs.
Proof.
  intros P [I T]. split.
  - eapply Permutation_trans; [|exact I].
    apply Permutation_map, Permutation_sym, P.
  - eapply Permutation_Forall; eassumption.
Qed.

Lemma count_index g s :
  GenderRatioHandler.index (GenderRatioHandler.count g s) = GenderRatioHandler.index s.
Proof. now destruct g. Qed.

Lemma count_total g s :
  GenderRatioHandler.total (GenderRatioHandler.count g s)
  = S (GenderRatioHandler.total s).
Proof. now destruct g. Qed.

Lemma place_capped g ideal (bound : nat -> nat) shuffled : forall stats gs,
  statsTrack stats gs ->
  (totals stats + List.length shuffled <= List.length stats * ideal)%nat ->
  Forall (fun s => (GenderRatioHandler.total s
                    <= Nat.max (bound (GenderRatioHandler.index s)) ideal)%nat)
         stats ->
  exists stats' gs',
    GenderRatioHandler.place g ideal shuffled stats gs = Returned (stats', gs')
    /\ statsTrack stats' gs'
    /\ List.length stats' = List.length stats
    /\ totals stats' = (totals stats + List.length shuffled)%nat
    /\ Forall (fun s => (GenderRatioHandler.total s
                         <= Nat.max (bound (GenderRatioHandler.index s)) ideal)%nat)
              stats'.
Proof.
  induction shuffled as [|student shuffled IH]; intros stats gs Tr Budget Cap.
  - exists stats, gs. cbn. repeat split; try tauto; try lia. apply Tr. apply Tr.
  - cbn [GenderRatioHandler.place].
    pose proof (Array_sort_perm (GenderRatioHandler.compareStats g ideal) stats)
      as PS.
    pose proof (@Array_sort_head _ (GenderRatioHandler.compareStats g ideal)
                  (GenderRatioHandler.overCapacity ideal)
                  (fun a b => proj1 (compareStats_overCapacity g ideal a b))
                  (fun a b => proj2 (compareStats_overCapacity g ideal a b))
                  stats) as Head.
    destruct (Array_sort (GenderRatioHandler.compareStats g ideal) stats)
      as [|target others] eqn:ES.
    { apply Permutation_nil in PS. subst stats. cbn in Budget. lia. }
    specialize (Head target others eq_refl).
    assert (Tr' : statsTrack (target :: others) gs)
      by (eapply statsTrack_perm; [apply Permutation_sym, PS|exact Tr]).
    destruct Tr' as [I T].
    assert (Room : (GenderRatioHandler.total target < ideal)%nat).
    { destruct (@some_stat_has_room ideal stats) as (s & Hs & L);
        [cbn [List.length] in Budget; lia|].
      specialize (Head s Hs). unfold GenderRatioHandler.overCapacity in Head. lia. }
    assert (Lt : (GenderRatioHandler.index target < List.length gs)%nat).
    { assert (In (GenderRatioHandler.index target) (seq 0 (List.length gs)))
        by (eapply Permutation_in; [exact I|now left]).
      apply in_seq in H. lia. }
    rewrite pushStudent_give by exact Lt. rewrite bind_Returned.
    assert (ND : NoDup (map GenderRatioHandler.index (target :: others))).
    { eapply Permutation_NoDup; [apply Permutation_sym, I|apply seq_NoDup]. }
    cbn [map] in ND. inversion ND as [|? ? Nt _]; subst.
    inversion T as [|? ? Tt To]; subst.
    assert (CapS : Forall (fun s => (GenderRatioHandler.total s
                      <= Nat.max (bound (GenderRatioHandler.index s)) ideal)%nat)
                          (target :: others))
      by (eapply Permutation_Forall; [apply Permutation_sym, PS|exact Cap]).
    inversion CapS as [|? ? _ CapO]; subst.
    destruct (IH (GenderRatioHandler.count g target :: others)
                 (give (GenderRatioHandler.index target) student gs))
      as (stats' & gs' & E & Tr2 & L2 & S2 & C2).
    + split.
      * cbn [map]. rewrite count_index, give_length. exact I.
      * constructor.
        -- rewrite count_index, count_total, sizeAt_give by exact Lt.
           rewrite Nat.eqb_refl. lia.
        -- apply Forall_forall. intros s Hs. rewrite Forall_forall in To.
           rewrite sizeAt_give by exact Lt.
           destruct (Nat.eqb_spec (GenderRatioHandler.index s)
                                  (GenderRatioHandler.index target)) as [Ei|NEi].
           ++ exfalso. apply Nt. rewrite <- Ei. now apply in_map.
           ++ rewrite (To s Hs). lia.
    + pose proof (totals_perm PS) as TP. unfold totals in *.
      pose proof (Permutation_length PS) as LP.
      cbn [map List.length] in *. rewrite ?list_sum_cons in *.
      rewrite count_total. lia.
    + constructor; [rewrite count_index, count_total; lia|exact CapO].
    + exists stats', gs'. split; [exact E|]. split; [exact Tr2|].
      pose proof (totals_perm PS) as TP. unfold totals in *.
      pose proof (Permutation_length PS) as LP.
      cbn [map List.length] in *. rewrite ?list_sum_cons in *.
      rewrite count_total in S2.
      repeat split; try lia. exact C2.
Qed.

Lemma ceilDiv_covers a b :
  (0 < b)%nat -> (a <= b * GenderRatioHandler.ceilDiv a b)%nat.
Proof.
  intros H. unfold GenderRatioHandler.ceilDiv.
  pose proof (Nat.div_mod_eq (a + b - 1) b) as E.
  pose proof (Nat.mod_upper_bound (a + b - 1) b). nia.
Qed.

Lemma fold_left_sizes gs : forall acc,
  fold_left (fun sum g => (sum + Group.size g)%nat) gs acc
  = (acc + list_sum (map Group.size gs))%nat.
Proof.
  induction gs as [|g gs IH]; intros acc; cbn [fold_left map];
    rewrite ?list_sum_cons; [cbn; lia|].
  rewrite IH. lia.
Qed.

Lemma indexed_fst (A : Type) (l : list A) :
  map fst (indexed l) = seq 0 (List.length l).
Proof.
  unfold indexed. generalize 0%nat.
  induction l as [|x l IH]; intros k; cbn; [reflexivity|]. now rewrite IH.
Qed.

Lemma indexed_snd (A : Type) (l : list A) : map snd (indexed l) = l.
Proof.
  unfold indexed. generalize 0%nat.
  induction l as [|x l IH]; intros k; cbn; [reflexivity|]. now rewrite IH.
Qed.

Lemma statOf_tracks gs :
  statsTrack (map GenderRatioHandler.statOf (indexed gs)) gs
  /\ List.length (map GenderRatioHandler.statOf (indexed gs)) = List.length gs
  /\ totals (map GenderRatioHandler.statOf (indexed gs))
     = list_sum (map Group.size gs).
Proof.
  assert (K : forall ig, GenderRatioHandler.total (GenderRatioHandler.statOf ig)
                         = Group.size (snd ig)).
  { intros [i x]. cbn. apply gender_split. }
  split; [split|split].
  - rewrite map_map. cbn [GenderRatioHandler.statOf GenderRatioHandler.index].
    rewrite indexed_fst. apply Permutation_refl.
  - apply Forall_forall. intros s Hs. apply in_map_iff in Hs.
    destruct Hs as ([i x] & <- & Hix). rewrite K.
    apply In_indexed in Hix. cbn. unfold sizeAt. now rewrite Hix.
  - now rewrite length_map, indexed_length.
  - unfold totals. rewrite map_map.
    rewrite (map_ext _ (fun ig => Group.size (snd ig)) K).
    rewrite <- (map_map snd Group.size). now rewrite indexed_snd.
Qed.

(** X21.  With at least one group, [GenderRatioHandler] returns, and no
    group ends above the larger of its size before and the ideal size,
    the number of all students seated or waiting divided by the number
    of groups and rounded up.  So on empty groups no group gets more
    than the students divided by the groups, rounded up. *)
Theorem genderRatio_caps_groups (context : GroupingContext) (rs : RandomSource) :
  (0 < List.length (Context.groups context))%nat ->
  let idealGroupSize :=
    GenderRatioHandler.ceilDiv
      (List.length (Context.remainingStudents context)
       + list_sum (map Group.size (Context.groups context)))
      (List.length (Context.groups context)) in
  exists result rs',
    GenderRatioHandler.process context rs = Returned (result, rs')
    /\ (forall i,
          sizeAt (Result.groups result) i
          <= Nat.max (sizeAt (Context.groups context) i) idealGroupSize)%nat
    /\ (members (Context.groups context) = [] ->
        forall i, (sizeAt (Result.groups result) i
                   <= GenderRatioHandler.ceilDiv
                        (List.length (Context.remainingStudents context))
                        (List.length (Context.groups context)))%nat).
Proof.
  intros HG ideal.
  assert (Main : exists result rs',
    GenderRatioHandler.process context rs = Returned (result, rs')
    /\ (forall i,
          sizeAt (Result.groups result) i
          <= Nat.max (sizeAt (Context.groups context) i) ideal)%nat).
  { unfold GenderRatioHandler.process.
    destruct (findCondition "gender-ratio" context).
    2:{ eexists _, _. split; [reflexivity|]. cbn. intros i. lia. }
    rewrite copyGroups_id.
    set (pool := Context.remainingStudents context) in *.
    set (gs := Context.groups context) in *.
    pose proof (gender_split pool) as GS.
    destruct ((List.length (filter isMale pool) =? 0)%nat
              && (List.length (filter isFemale pool) =? 0)%nat).
    { eexists _, _. split; [reflexivity|]. cbn. intros i. lia. }
    pose proof (shuffleArray_perm (filter isMale pool) rs) as PM.
    destruct (shuffleArray (filter isMale pool) rs) as [sm rs1].
    pose proof (shuffleArray_perm (filter isFemale pool) rs1) as PF.
    destruct (shuffleArray (filter isFemale pool) rs1) as [sf rs2].
    cbn [fst] in PM, PF.
    apply Permutation_length in PM, PF.
    rewrite fold_left_sizes. rewrite GS. cbn [Nat.add]. fold ideal.
    destruct (statOf_tracks gs) as (Tr & Len & Tot).
    pose proof (@ceilDiv_covers
                  (List.length pool + list_sum (map Group.size gs))
                  (List.length gs) HG) as Cover.
    fold ideal in Cover.
    destruct (@place_capped male ideal (sizeAt gs) sm
                (map GenderRatioHandler.statOf (indexed gs)) gs)
      as (st1 & g1 & -> & Tr1 & L1 & T1 & C1).
    - exact Tr.
    - rewrite Len, Tot. nia.
    - apply Forall_forall. intros s Hs. destruct Tr as [_ T].
      rewrite Forall_forall in T. rewrite (T s Hs). lia.
    - rewrite bind_Returned.
      destruct (@place_capped female ideal (sizeAt gs) sf st1 g1)
        as (st2 & g2 & -> & Tr2 & L2 & T2 & C2).
      + exact Tr1.
      + rewrite L1, T1, Len, Tot. nia.
      + exact C1.
      + rewrite bind_Returned. eexists _, _. split; [reflexivity|].
        cbn [Result.groups]. intros i.
        destruct Tr2 as [I2 T2'].
        assert (LG : List.length g2 = List.length gs).
        { apply Permutation_length in I2.
          rewrite length_map, length_seq in I2. lia. }
        destruct (Nat.ltb_spec i (List.length g2)) as [Hi|Hi].
        * assert (Ii : In i (map GenderRatioHandler.index st2)).
          { eapply Permutation_in; [apply Permutation_sym, I2|].
            apply in_seq. lia. }
          apply in_map_iff in Ii. destruct Ii as (s & <- & Hs).
          rewrite Forall_forall in T2', C2.
          rewrite <- (T2' s Hs). now apply C2.
        * unfold sizeAt at 1.
          rewrite (proj2 (nth_error_None g2 i)) by exact Hi. lia. }
  destruct Main as (result & rs' & E & Cap).
  exists result, rs'. split; [exact E|]. split; [exact Cap|].
  intros Empty i. specialize (Cap i).
  pose proof (members_nil_all_empty Empty) as AE.
  assert (Z0 : list_sum (map Group.size (Context.groups context)) = 0%nat).
  { clear - AE. induction AE as [|g gs Hg _ IH]; [reflexivity|].
    cbn [map]. rewrite list_sum_cons, IH. unfold Group.size. now rewrite Hg. }
  assert (S0 : sizeAt (Context.groups context) i = 0%nat).
  { unfold sizeAt. destruct (nth_error (Context.groups context) i) as [g|] eqn:N;
      [|reflexivity].
    rewrite Forall_forall in AE. unfold Group.size.
    now rewrite (AE g (nth_error_In _ _ N)). }
  unfold ideal in Cap. rewrite Z0, S0, Nat.add_0_r in Cap. lia.
Qed.

(** Two boys and two girls for three groups, with the gender ratio
    enabled. *)
Definition ratioContext : GroupingContext :=
  let st := scenario "1,2" "3,4" 3 in
  {| Context.students := students st;
     Context.groups := groups st;
     Context.conditions := [ enabledCondition "gender-ratio" "" ];
     Context.remainingStudents := students st |}.

Lemma genderRatio_caps_groups_witness :
  (0 < List.length (Context.groups ratioContext))%nat
  /\ let idealGroupSize :=
       GenderRatioHandler.ceilDiv
         (List.length (Context.remainingStudents ratioContext)
          + list_sum (map Group.size (Context.groups ratioContext)))
         (List.length (Context.groups ratioContext)) in
     exists result rs',
       GenderRatioHandler.process ratioContext midpoint = Returned (result, rs')
       /\ (forall i,
             sizeAt (Result.groups result) i
             <= Nat.max (sizeAt (Context.groups ratioContext) i) idealGroupSize)%nat
       /\ (members (Context.groups ratioContext) = [] ->
           forall i, (sizeAt (Result.groups result) i
                      <= GenderRatioHandler.ceilDiv
                           (List.length (Context.remainingStudents ratioContext))
                           (List.length (Context.groups ratioContext)))%nat).
Proof.
  split; [cbn; lia|].
  apply (@genderRatio_caps_groups ratioContext midpoint). cbn. lia.
Defined.

(** The cap is no balance: the handler seats the four students in two
    groups of two, the ideal size, and leaves the third group empty. *)
Example genderRatio_leaves_a_group_empty :
  match GenderRatioHandler.process ratioContext midpoint with
  | Returned (result, _) =>
      map (fun g => map Student.id (Group.students g)) (Result.groups result)
      = [[1; 4]; [2; 3]; []]
  | _ => False
  end.
Proof. vm_compute. reflexivity. Qed.

(* ================================================================== *)
(** * DifferentGroupHandler: a cluster that is still waiting           *)
(* ================================================================== *)

(** [studentIds.includes(student.id)] *)
Definition inCluster (studentIds : list Z) (s : Student) : bool :=
  existsb (Z.eqb (Student.id s)) studentIds.

(** The students of the pool that the ids name, in the order of the ids. *)
Definition named (pool : list Student) (ids : list Z) : list Student :=
  flat_map (fun studentId => match find (hasId studentId) pool with
                             | Some student => [student]
                             | None => []
                             end) ids.

Lemma recordGroup_none studentIds i ss : forall m,
  (forall s, In s ss -> inCluster studentIds s = false) ->
  fold_left (DifferentGroupHandler.recordGroup studentIds i) ss m = m.
Proof.
  induction ss as [|s ss IH]; intros m H; [reflexivity|].
  cbn [fold_left]. unfold DifferentGroupHandler.recordGroup at 2.
  pose proof (H s (or_introl eq_refl)) as E. unfold inCluster in E. rewrite E.
  apply IH. intros s' Hs'. apply H. now right.
Qed.

Lemma buildStudentGroupMap_none gs studentIds :
  (forall s, In s (members gs) -> inCluster studentIds s = false) ->
  DifferentGroupHandler.buildStudentGroupMap gs studentIds = [].
Proof.
  intros H. unfold DifferentGroupHandler.buildStudentGroupMap.
  assert (K : forall (l : list (nat * Group)) m,
             (forall ig s, In ig l -> In s (Group.students (snd ig)) ->
                           inCluster studentIds s = false) ->
             fold_left (fun m ig =>
                          fold_left (DifferentGroupHandler.recordGroup studentIds (fst ig))
                                    (Group.students (snd ig)) m) l m = m).
  { induction l as [|ig l IH]; intros m Hl; [reflexivity|].
    cbn [fold_left]. rewrite recordGroup_none.
    - apply IH. intros ig' s I1 I2. apply (Hl ig' s); [now right|exact I2].
    - intros s Hs. apply (Hl ig s); [now left|exact Hs]. }
  apply K. intros [i g] s Hig Hs. apply H. apply In_indexed in Hig.
  unfold members. apply in_flat_map. exists g. split; [|exact Hs].
  eapply nth_error_In; eassumption.
Qed.

Lemma IndexSet_has_In used i : IndexSet_has used i = true <-> In i used.
Proof.
  unfold IndexSet_has. rewrite existsb_exists. split.
  - intros (y & I & E). apply Nat.eqb_eq in E. now subst.
  - intros I. exists i. split; [assumption | apply Nat.eqb_refl].
Qed.

(** As long as the cluster has used fewer groups than there are, a group
    it has not used is found, and the sort puts one of them first. *)
Lemma unused_group_first used gs :
  NoDup used -> (List.length used < List.length gs)%nat ->
  exists i g rest,
    Array_sort DifferentGroupHandler.bySize
      (filter (fun ig => negb (IndexSet_has used (fst ig))) (indexed gs))
    = (i, g) :: rest
    /\ ~ In i used /\ nth_error gs i = Some g.
Proof.
  intros ND L.
  set (unused := filter (fun ig => negb (IndexSet_has used (fst ig))) (indexed gs)).
  pose proof (Array_sort_perm DifferentGroupHandler.bySize unused) as PS.
  destruct (Array_sort DifferentGroupHandler.bySize unused) as [|[i g] rest] eqn:ES.
  - exfalso. apply Permutation_nil in PS.
    pose proof (proj1 (filter_nil_iff _ _) PS) as K.
    assert (I : incl (seq 0 (List.length gs)) used).
    { intros i Hi. apply in_seq in Hi.
      destruct (nth_error gs i) as [g|] eqn:N;
        [|apply nth_error_None in N; lia].
      specialize (K (i, g) (proj2 (In_indexed gs i g) N)). cbn in K.
      apply negb_false_iff in K. now apply IndexSet_has_In. }
    pose proof (NoDup_incl_length (seq_NoDup _ _) I) as LL.
    rewrite length_seq in LL. lia.
  - exists i, g, rest. split; [reflexivity|].
    assert (I : In (i, g) unused)
      by (eapply Permutation_in; [exact PS|now left]).
    apply filter_In in I. destruct I as [I U]. cbn in U.
    apply negb_true_iff in U. split.
    + intros Hi. apply IndexSet_has_In in Hi. congruence.
    + now apply In_indexed.
Qed.

Lemma placeUnplaced_separates studentIds pool : forall L used gs P,
  incl L studentIds ->
  NoDup used ->
  (List.length used + List.length L <= List.length gs)%nat ->
  (forall j, (countAt (inCluster studentIds) gs j
              <= if IndexSet_has used j then 1 else 0)%nat) ->
  exists gs' P',
    DifferentGroupHandler.placeUnplaced [] L used gs pool P = Returned (gs', P')
    /\ List.length gs' = List.length gs
    /\ (forall j, (countAt (inCluster studentIds) gs' j <= 1)%nat)
    /\ Permutation (members gs') (members gs ++ named pool L)
    /\ (forall z, Set_has P' z = true
                  <-> Set_has P z = true
                      \/ (In z L /\ In z (map Student.id pool))).
Proof.
  induction L as [|x L IH]; intros used gs P Sub ND Len Cap.
  - exists gs, P. cbn. split; [reflexivity|]. split; [reflexivity|].
    split; [|split].
    + intros j. specialize (Cap j). destruct (IndexSet_has used j); lia.
    + rewrite app_nil_r. apply Permutation_refl.
    + intros z. tauto.
  - cbn [DifferentGroupHandler.placeUnplaced Map_has Map_get].
    cbn [named flat_map]. fold (named pool L).
    assert (Sub' : incl L studentIds)
      by (intros y Hy; apply Sub; now right).
    destruct (find (hasId x) pool) as [student|] eqn:F.
    + cbn [List.length] in Len.
      destruct (@unused_group_first used gs ND) as (i & g & rest & -> & Ni & Ng);
        [lia|].
      rewrite bind_Returned.
      assert (Li : (i < List.length gs)%nat)
        by (apply nth_error_Some; congruence).
      rewrite pushStudent_give by exact Li. rewrite bind_Returned.
      assert (Has : IndexSet_has used i = false).
      { apply not_true_iff_false. intros H. apply Ni.
        now apply IndexSet_has_In. }
      assert (Add : IndexSet_add used i = used ++ [i])
        by (unfold IndexSet_add; now rewrite Has).
      destruct (IH (IndexSet_add used i) (give i student gs) (Set_add P x))
        as (gs' & P' & E & L' & C' & M' & S').
      * exact Sub'.
      * rewrite Add. apply NoDup_app; [exact ND|repeat constructor; auto|].
        intros y Hy [<-|[]]. contradiction.
      * rewrite Add, length_app, give_length. cbn [List.length]. lia.
      * intros j. rewrite countAt_give by exact Li. specialize (Cap j).
        destruct (Nat.eqb_spec j i) as [->|NE].
        -- rewrite Has in Cap.
           assert (IndexSet_has (IndexSet_add used i) i = true)
             by (apply IndexSet_has_In; rewrite Add; apply in_or_app;
                 right; now left).
           rewrite H. destruct (inCluster studentIds student); lia.
        -- assert (IndexSet_has (IndexSet_add used i) j = IndexSet_has used j).
           { apply eq_true_iff_eq. rewrite !IndexSet_has_In, Add, in_app_iff.
             cbn. intuition congruence. }
           rewrite H. lia.
      * exists gs', P'. split; [exact E|]. rewrite give_length in L'.
        split; [exact L'|]. split; [exact C'|]. split.
        -- pose proof (members_give student Li) as MG.
           cbn [app]. perm_count.
        -- intros z. rewrite S', Set_has_add, orb_true_iff, Z.eqb_eq.
           cbn [In]. split.
           ++ intros [[->|H]|[H1 H2]]; auto.
              right. split; [now left|].
              apply find_some in F. destruct F as [I E']. unfold hasId in E'.
              apply Z.eqb_eq in E'. rewrite <- E'. now apply in_map.
           ++ intros [H|[[->|H1] H2]]; auto.
    + destruct (IH used gs P) as (gs' & P' & E & L' & C' & M' & S').
      * exact Sub'.
      * exact ND.
      * cbn [List.length] in Len. lia.
      * exact Cap.
      * exists gs', P'. split; [exact E|]. split; [exact L'|].
        split; [exact C'|]. split; [exact M'|].
        intros z. rewrite S'. cbn [In]. split.
        -- intros [H|[H1 H2]]; auto.
        -- intros [H|[[->|H1] H2]]; auto.
           exfalso. apply in_map_iff in H2. destruct H2 as (s & Es & Hs).
           apply (find_none _ _ F) in Hs. unfold hasId in Hs.
           apply Z.eqb_neq in Hs. contradiction.
Qed.

(** X22.  A cluster of which no member is seated yet, with at most as
    many ids as there are groups: [assignToDifferentGroups] returns, seats
    the members that wait in the pool and nobody else, no two of them in
    the same group, marks them as processed and leaves the pool as it
    is. *)
Theorem assignToDifferentGroups_separates (groups : list Group)
  (studentIds : list Z) (remainingStudents : list Student)
  (processedStudentIds : NumSet) :
  (forall s, In s (members groups) -> inCluster studentIds s = false) ->
  (List.length studentIds <= List.length groups)%nat ->
  exists groups' processed',
    DifferentGroupHandler.assignToDifferentGroups
      groups studentIds remainingStudents processedStudentIds
    = Returned (groups', remainingStudents, processed')
    /\ List.length groups' = List.length groups
    /\ (forall j, (countAt (inCluster studentIds) groups' j <= 1)%nat)
    /\ Permutation (members groups')
                   (members groups ++ named remainingStudents studentIds)
    /\ (forall z, Set_has processed' z = true
                  <-> Set_has processedStudentIds z = true
                      \/ (In z studentIds
                          /\ In z (map Student.id remainingStudents))).
Proof.
  intros None Len. unfold DifferentGroupHandler.assignToDifferentGroups.
  rewrite (buildStudentGroupMap_none None). cbn [DifferentGroupHandler.valuesSet
    map fold_left]. rewrite bind_Returned.
  destruct (@placeUnplaced_separates studentIds remainingStudents studentIds []
              groups processedStudentIds)
    as (gs' & P' & E & L' & C' & M' & S').
  - apply incl_refl.
  - constructor.
  - cbn [List.length]. lia.
  - intros j. cbn. unfold countAt.
    destruct (nth_error groups j) as [g|] eqn:N; [|lia].
    assert (Z0 : filter (inCluster studentIds) (Group.students g) = []).
    { apply filter_nil_iff. intros s Hs. apply None. unfold members.
      apply in_flat_map. exists g. split; [|exact Hs].
      eapply nth_error_In; eassumption. }
    rewrite Z0. cbn. lia.
  - rewrite E, bind_Returned. exists gs', P'. repeat split; try assumption.
    + now apply S'.
    + now apply S'.
Qed.

Lemma assignToDifferentGroups_separates_witness :
  let groups := [ Group.make 1 1 []; Group.make 2 2 [];
                  Group.make 3 3 (seated [4; 5] female) ] in
  let pool := seated [1; 2; 3] male in
  (forall s, In s (members groups) -> inCluster [1; 2; 3] s = false)
  /\ (List.length [1; 2; 3]%Z <= List.length groups)%nat
  /\ exists groups' processed',
       DifferentGroupHandler.assignToDifferentGroups groups [1; 2; 3] pool []
       = Returned (groups', pool, processed')
       /\ List.length groups' = List.length groups
       /\ (forall j, (countAt (inCluster [1; 2; 3]%Z) groups' j <= 1)%nat)
       /\ Permutation (members groups') (members groups ++ named pool [1; 2; 3])
       /\ (forall z, Set_has processed' z = true
                     <-> Set_has [] z = true
                         \/ (In z [1; 2; 3] /\ In z (map Student.id pool))).
Proof.
  intros groups pool.
  assert (H1 : forall s, In s (members groups) -> inCluster [1; 2; 3] s = false)
    by (intros s [<-|[<-|[]]]; reflexivity).
  assert (H2 : (List.length [1; 2; 3]%Z <= List.length groups)%nat)
    by (cbn; lia).
  split; [exact H1|]. split; [exact H2|].
  exact (@assignToDifferentGroups_separates groups [1; 2; 3] pool [] H1 H2).
Defined.

(* ================================================================== *)
(** * GroupingComponent: the students that wait                        *)
(* ================================================================== *)

(** [availableStudents]: the roster students whose id sits in no group. *)
Definition availableStudents (st : StudentService.State) : list Student :=
  let allStudents := students st in
  let groupedStudents :=
    flat_map (fun g => map Student.id (Group.students g)) (groups st) in
  filter (fun s => negb (existsb (Z.eqb (Student.id s)) groupedStudents))
         allStudents.

(** The roster names nobody twice, and the groups seat roster students,
    nobody twice. *)
Definition seatsOk (st : StudentService.State) : Prop :=
  NoDup (map Student.id (students st))
  /\ NoDup (map Student.id (members (groups st)))
  /\ incl (members (groups st)) (students st).

Lemma grouped_ids gs :
  flat_map (fun g => map Student.id (Group.students g)) gs
  = map Student.id (members gs).
Proof.
  induction gs as [|g gs IH]; [reflexivity|].
  cbn [flat_map members]. fold (members gs). now rewrite map_app, IH.
Qed.

Lemma filter_split_perm (A : Type) (p : A -> bool) l :
  Permutation (filter p l ++ filter (fun x => negb (p x)) l) l.
Proof.
  induction l as [|x l IH]; [constructor|].
  cbn [filter]. destruct (p x); cbn [negb app].
  - now apply perm_skip.
  - eapply Permutation_trans; [apply Permutation_sym, Permutation_middle|].
    now apply perm_skip.
Qed.

Lemma same_id_same_student (roster : list Student) a b :
  NoDup (map Student.id roster) -> In a roster -> In b roster ->
  Student.id a = Student.id b -> a = b.
Proof.
  induction roster as [|x l IH]; intros N [] Hb Eab;
    inversion N as [|? ? Nx N']; subst.
  - destruct Hb as [->|Hb]; [reflexivity|]. exfalso. apply Nx.
    rewrite Eab. now apply in_map.
  - destruct Hb as [->|Hb]; [|now apply IH]. exfalso. apply Nx.
    rewrite <- Eab. now apply in_map.
Qed.

(** Seated and waiting students make up the roster. *)
Lemma seats_partition (st : StudentService.State) :
  seatsOk st ->
  Permutation (members (groups st) ++ availableStudents st) (students st).
Proof.
  intros (NR & NS & Sub). unfold availableStudents. cbv zeta.
  rewrite grouped_ids.
  set (seatedId := fun s : Student =>
                     existsb (Z.eqb (Student.id s))
                             (map Student.id (members (groups st)))).
  eapply Permutation_trans; [|apply (filter_split_perm seatedId)].
  apply Permutation_app_tail. apply NoDup_Permutation.
  - eapply NoDup_map_inv. exact NS.
  - apply NoDup_filter. eapply NoDup_map_inv. exact NR.
  - intros s. rewrite filter_In. unfold seatedId. rewrite mem_In. split.
    + intros Hs. split; [now apply Sub|now apply in_map].
    + intros [Hs Hid]. apply in_map_iff in Hid. destruct Hid as (m & Em & Hm).
      rewrite (@same_id_same_student (students st) s m); auto.
Qed.

Lemma updated_members_sub gs i g l :
  nth_error gs i = Some g ->
  (forall s, In s l -> In s (Group.students g)) ->
  NoDup (map Student.id l) ->
  NoDup (map Student.id (members gs)) ->
  NoDup (map Student.id (members (updateNth i (Group.withStudents l g) gs)))
  /\ incl (members (updateNth i (Group.withStudents l g) gs)) (members gs).
Proof.
  intros N Sub NDl ND.
  destruct (updateNth_split (Group.withStudents l g) N) as (l1 & l2 & -> & -> & _).
  rewrite !members_app in *. cbn [members flat_map Group.students
    Group.withStudents] in *. fold (members l2) in *.
  rewrite !map_app in *. split.
  - apply NoDup_app_remove_l in ND as ND2.
    assert (ND1 : NoDup (map Student.id (members l1))).
    { clear - ND. induction (map Student.id (members l1)) as [|x l IH];
        [constructor|].
      cbn in ND. inversion ND as [|? ? Nx ND']; subst.
      constructor; [|now apply IH].
      intros I. apply Nx. apply in_or_app. now left. }
    assert (In1 : forall z, In z (map Student.id l) ->
                            In z (map Student.id (Group.students g))).
    { intros z Hz. apply in_map_iff in Hz. destruct Hz as (s & <- & Hs).
      apply in_map. now apply Sub. }
    pose proof (proj1 (NoDup_count_occ Z.eq_dec _) ND) as C.
    apply (NoDup_count_occ Z.eq_dec). intros z. specialize (C z).
    rewrite !count_occ_app in *.
    pose proof (proj1 (NoDup_count_occ Z.eq_dec _) NDl z) as Cl.
    destruct (in_dec Z.eq_dec z (map Student.id l)) as [I|NI].
    + apply In1 in I. apply (count_occ_In Z.eq_dec) in I. lia.
    + apply (count_occ_not_In Z.eq_dec) in NI. lia.
  - intros s Hs. rewrite !in_app_iff in *.
    destruct Hs as [Hs|[Hs|Hs]]; auto.
Qed.

Lemma without_sub studentId l s : In s (without studentId l) -> In s l.
Proof. unfold without. intros H. now apply filter_In in H. Qed.

Lemma without_NoDup studentId l :
  NoDup (map Student.id l) -> NoDup (map Student.id (without studentId l)).
Proof.
  unfold without. induction l as [|x l IH]; intros H; [constructor|].
  cbn [map] in H. inversion H as [|? ? Nx H']; subst. cbn [filter].
  destruct (negb (Student.id x =? studentId)); [|now apply IH].
  cbn [map]. constructor; [|now apply IH].
  intros I. apply Nx. apply in_map_iff in I. destruct I as (s & E & Hs).
  apply filter_In in Hs. rewrite <- E. apply in_map. tauto.
Qed.

(** X23.  Dragging keeps the page consistent.  When the roster names
    nobody twice and the groups seat roster students, nobody twice, then
    after [moveStudentToGroup], for a student who is dragged out of the
    available list only if in no group, this is still so, and the
    students in the groups together with [availableStudents] are exactly
    the roster. *)
Theorem dragging_keeps_the_roster (studentId : Z) (fromGroupId toGroupId : place)
  (st : StudentService.State) :
  seatsOk st ->
  (fromGroupId = available ->
   ~ In studentId (map Student.id (members (groups st)))) ->
  let st' := moveStudentToGroup studentId fromGroupId toGroupId st in
  seatsOk st'
  /\ students st' = students st
  /\ Permutation (members (groups st') ++ availableStudents st') (students st).
Proof.
  intros OK Free st'.
  assert (K : seatsOk st' /\ students st' = students st).
  { destruct OK as (NR & NS & Sub). unfold st', moveStudentToGroup.
    destruct fromGroupId as [|fromId], toGroupId as [|toId].
    - repeat split; assumption.
    - specialize (Free eq_refl).
      split; [|reflexivity]. unfold seatsOk. cbn [students groups].
      split; [exact NR|].
      destruct (findGroup toId (groups st)) as [[j toGroup]|] eqn:Ft;
        [|split; assumption].
      destruct (find (hasId studentId) (students st)) as [student|] eqn:Fs;
        [|split; assumption].
      destruct (findGroup_nth Ft) as [Nj _].
      assert (Lj : (j < List.length (groups st))%nat)
        by (apply nth_error_Some; congruence).
      pose proof (members_give student Lj) as MG. unfold give in MG.
      rewrite Nj in MG.
      apply find_some in Fs. destruct Fs as [Is Es]. unfold hasId in Es.
      apply Z.eqb_eq in Es. split.
      + eapply Permutation_NoDup;
          [apply Permutation_map, Permutation_sym, MG|].
        cbn [map]. constructor; [now rewrite Es|exact NS].
      + intros s Hs. eapply Permutation_in in Hs; [|exact MG].
        destruct Hs as [<-|Hs]; [exact Is|now apply Sub].
    - split; [|reflexivity]. unfold seatsOk. cbn [students groups].
      split; [exact NR|].
      destruct (findGroup fromId (groups st)) as [[i fromGroup]|] eqn:Ff;
        [|split; assumption].
      destruct (findGroup_nth Ff) as [Ni _].
      destruct (@updated_members_sub (groups st) i fromGroup
                  (without studentId (Group.students fromGroup)) Ni)
        as [N' S'].
      + intros s. apply without_sub.
      + apply without_NoDup. eapply group_ids_NoDup; eassumption.
      + exact NS.
      + split; [exact N'|]. intros s Hs. apply Sub. now apply S'.
    - pose proof (between_groups_members studentId fromId toId NS) as P.
      split; [|reflexivity]. unfold seatsOk.
      change (students (moveStudentToGroup studentId (inGroup fromId)
                                           (inGroup toId) st))
        with (students st).
      split; [exact NR|]. split.
      + eapply Permutation_NoDup;
          [apply Permutation_map, Permutation_sym, P|exact NS].
      + intros s Hs. apply Sub. eapply Permutation_in; [exact P|exact Hs]. }
  destruct K as [OK' E]. split; [exact OK'|]. split; [exact E|].
  rewrite <- E. now apply seats_partition.
Qed.

Lemma seatedState_seatsOk : seatsOk seatedState.
Proof.
  split; [|split].
  - assert (E : map Student.id (students seatedState) = [1; 2; 3; 4; 5])
      by (vm_compute; reflexivity).
    rewrite E. repeat constructor; simpl; intuition discriminate.
  - exact seatedState_NoDup.
  - assert (E : members (groups seatedState) = students seatedState)
      by (vm_compute; reflexivity).
    rewrite E. apply incl_refl.
Qed.

Lemma dragging_keeps_the_roster_witness :
  let st' := moveStudentToGroup 2 (inGroup 1) available seatedState in
  seatsOk seatedState
  /\ seatsOk st'
  /\ students st' = students seatedState
  /\ Permutation (members (groups st') ++ availableStudents st')
                 (students seatedState).
Proof.
  intros st'. split; [exact seatedState_seatsOk|].
  apply (@dragging_keeps_the_roster 2 (inGroup 1) available seatedState).
  - exact seatedState_seatsOk.
  - discriminate.
Defined.

Example availableStudents_scenarios :
  map Student.id (availableStudents seatedState) = []
  /\ map Student.id
       (availableStudents (moveStudentToGroup 2 (inGroup 1) available seatedState))
     = [2]
  /\ map Student.id
       (availableStudents
          (moveStudentToGroup 2 available (inGroup 3)
             (moveStudentToGroup 2 (inGroup 1) available seatedState)))
     = [].
Proof. repeat split; vm_compute; reflexivity. Qed.

(* ================================================================== *)
(** * The dialog's check for clusters that contradict each other       *)
(* ================================================================== *)

Module LogicConflict.

(** [parseStudentIds] *)
Definition parseStudentIds (input : str) : list Z :=
  let parts := map trim (split ","%char input) in
  sortNumbers (flat_map (fun part => match parseInt part with
                                     | Some num => [num]
                                     | None => []
                                     end) parts).

(** [parseAllStudentIds] *)
Definition parseAllStudentIds (input : str) : list Z :=
  flat_map parseStudentIds (segments input).

(** The body of [for (const diffSegment of differentGroupSegments)]. *)
Definition noteConflicts (sameGroupStudentIds : list Z)
  (conflictingStudents : NumSet) (diffSegment : str) : NumSet :=
  let diffStudentIds := parseStudentIds diffSegment in
  let studentsInSameGroup :=
    filter (fun id => existsb (Z.eqb id) sameGroupStudentIds) diffStudentIds in
  if (2 <=? List.length studentsInSameGroup)%nat
  then fold_left Set_add studentsInSameGroup conflictingStudents
  else conflictingStudents.

Definition conflictingStudents (sameGroupInput differentGroupInput : str) : NumSet :=
  fold_left (noteConflicts (parseAllStudentIds sameGroupInput))
            (segments differentGroupInput) [].

(** [validationErrors], as far as the message about a logic conflict
    goes: the numbers that the message prints, if it is pushed.  Without
    groups nothing is checked. *)
Definition logicConflict (groupCount : nat)
  (conditions : list GroupingConditionState) : option (list Z) :=
  if (groupCount =? 0)%nat then None
  else
    let enabledOfType (type : string) :=
      find (fun c => str_eqb (ConditionState.type c) (lit type)
                     && ConditionState.enabled c) conditions in
    match enabledOfType "same-group"%string,
          enabledOfType "different-group"%string with
    | Some sameGroupCondition, Some differentGroupCondition =>
        let sameGroupInput := ConditionState.input sameGroupCondition in
        let differentGroupInput := ConditionState.input differentGroupCondition in
        if nonEmpty sameGroupInput && nonEmpty differentGroupInput then
          match conflictingStudents sameGroupInput differentGroupInput with
          | [] => None
          | conflicting => Some (sortNumbers conflicting)
          end
        else None
    | _, _ => None
    end.

End LogicConflict.

Import LogicConflict.

Lemma parseStudentIds_In group z :
  In z (LogicConflict.parseStudentIds group) <-> In z (idsOf group).
Proof. unfold LogicConflict.parseStudentIds. cbv zeta. apply sortNumbers_In. Qed.

Lemma fold_Set_add_nonnil l : forall P, P <> [] \/ l <> [] ->
  fold_left Set_add l P <> [].
Proof.
  induction l as [|x l IH]; intros P H; cbn [fold_left].
  - destruct H as [H|H]; [exact H|congruence].
  - apply IH. left. apply Set_add_nonnil.
Qed.

Lemma noteConflicts_grows same l : forall P,
  P <> [] -> fold_left (noteConflicts same) l P <> [].
Proof.
  induction l as [|d l IH]; intros P H; cbn [fold_left]; [exact H|].
  apply IH. unfold noteConflicts. cbv zeta.
  destruct (2 <=? _)%nat; [|exact H]. apply fold_Set_add_nonnil. now left.
Qed.

Lemma noteConflicts_found same l d : forall P,
  In d l ->
  (2 <= List.length (filter (fun id => existsb (Z.eqb id) same)
                            (LogicConflict.parseStudentIds d)))%nat ->
  fold_left (noteConflicts same) l P <> [].
Proof.
  induction l as [|d' l IH]; intros P [] L; cbn [fold_left].
  - subst d'. apply noteConflicts_grows. unfold noteConflicts. cbv zeta.
    destruct (Nat.leb_spec 2 (List.length
               (filter (fun id => existsb (Z.eqb id) same)
                       (LogicConflict.parseStudentIds d)))); [|lia].
    apply fold_Set_add_nonnil. right. intros E. rewrite E in L. cbn in L. lia.
  - now apply IH.
Qed.

Lemma two_distinct_members (l : list Z) a b :
  a <> b -> In a l -> In b l -> (2 <= List.length l)%nat.
Proof.
  intros D Ha Hb.
  destruct l as [|x [|y l]]; cbn in *; [tauto | intuition congruence | lia].
Qed.

Lemma noteConflicts_sound same l : forall P z,
  In z (fold_left (noteConflicts same) l P) ->
  In z P \/ (In z same /\ exists d, In d l /\ In z (LogicConflict.parseStudentIds d)).
Proof.
  induction l as [|d l IH]; intros P z H; cbn [fold_left] in H; [now left|].
  apply IH in H. destruct H as [H|(H1 & d' & H2 & H3)].
  - unfold noteConflicts in H. cbv zeta in H.
    destruct (2 <=? _)%nat; [|now left].
    apply Set_has_In in H. rewrite fold_Set_add_has, orb_true_iff in H.
    destruct H as [H|H]; [left; now apply Set_has_In|].
    apply Set_has_In, filter_In in H. destruct H as [H1 H2].
    right. split; [now apply mem_In|]. exists d. split; [now left|exact H1].
  - right. split; [exact H1|]. exists d'. split; [now right|exact H3].
Qed.

(** X24.  When there are groups and the dialog reports no logic
    conflict, the two handlers are not asked for the impossible: of the
    clusters the same-group handler reads from the enabled same-group
    input and the clusters the different-group handler reads from the
    enabled different-group input, no two share two students.  A conflict
    that is reported lists numbers that both inputs name. *)
Theorem logicConflict_sound (groupCount : nat)
  (conditions : list GroupingConditionState)
  (sameGroupCondition differentGroupCondition : GroupingConditionState) :
  (0 < groupCount)%nat ->
  find (fun c => str_eqb (ConditionState.type c) (lit "same-group")
                 && ConditionState.enabled c) conditions
  = Some sameGroupCondition ->
  find (fun c => str_eqb (ConditionState.type c) (lit "different-group")
                 && ConditionState.enabled c) conditions
  = Some differentGroupCondition ->
  match logicConflict groupCount conditions with
  | None =>
      forall together apart a b,
        In together (parseSameGroupInput (ConditionState.input sameGroupCondition)) ->
        In apart (parseDifferentGroupInput
                    (ConditionState.input differentGroupCondition)) ->
        In a together -> In b together -> In a apart -> In b apart -> a = b
  | Some conflictList =>
      conflictList <> []
      /\ forall z, In z conflictList ->
           In z (LogicConflict.parseAllStudentIds
                   (ConditionState.input sameGroupCondition))
           /\ exists diffSegment,
                In diffSegment (segments (ConditionState.input differentGroupCondition))
                /\ In z (LogicConflict.parseStudentIds diffSegment)
  end.
Proof.
  intros HG Fs Fd. unfold logicConflict. cbv zeta.
  destruct (Nat.eqb_spec groupCount 0) as [E0|_]; [lia|]. rewrite Fs, Fd.
  set (sameInput := ConditionState.input sameGroupCondition).
  set (diffInput := ConditionState.input differentGroupCondition).
  assert (Clash : forall together apart a b,
            In together (parseSameGroupInput sameInput) ->
            In apart (parseDifferentGroupInput diffInput) ->
            In a together -> In b together -> In a apart -> In b apart ->
            a <> b ->
            conflictingStudents sameInput diffInput <> []).
  { intros together apart a b Ht Ha Iat Ibt Iaa Iba D.
    rewrite parseSameGroupInput_segments in Ht.
    change (parseDifferentGroupInput diffInput)
      with (parseSameGroupInput diffInput) in Ha.
    rewrite parseSameGroupInput_segments in Ha.
    apply in_flat_map in Ht, Ha.
    destruct Ht as (s & Hs & Cs), Ha as (d & Hd & Cd).
    apply clusterOf_spec in Cs, Cd.
    destruct Cs as (_ & -> & _), Cd as (_ & -> & _).
    rewrite sortNumbers_In in Iat, Ibt, Iaa, Iba.
    unfold conflictingStudents. apply (noteConflicts_found (d := d)); [exact Hd|].
    assert (All : forall z, In z (idsOf s) ->
                            In z (LogicConflict.parseAllStudentIds sameInput)).
    { intros z Hz. unfold LogicConflict.parseAllStudentIds.
      apply in_flat_map. exists s. split; [exact Hs|].
      now apply parseStudentIds_In. }
    apply (@two_distinct_members _ a b D);
      apply filter_In; (split; [now apply parseStudentIds_In|]);
      apply mem_In; now apply All. }
  destruct (nonEmpty sameInput && nonEmpty diffInput) eqn:NE.
  - destruct (conflictingStudents sameInput diffInput) as [|c cs] eqn:EC.
    + intros together apart a b Ht Ha Iat Ibt Iaa Iba.
      destruct (Z.eq_dec a b) as [E|D]; [exact E|exfalso].
      now apply (Clash together apart a b).
    + split.
      * intros E. apply (f_equal (@List.length Z)) in E.
        unfold sortNumbers in E. rewrite Array_sort_length in E. discriminate.
      * intros z Hz. rewrite sortNumbers_In in Hz. rewrite <- EC in Hz.
        unfold conflictingStudents in Hz. apply noteConflicts_sound in Hz.
        destruct Hz as [[]|Hz]. exact Hz.
  - intros together apart a b Ht Ha Iat Ibt Iaa Iba.
    apply andb_false_iff in NE.
    assert (Nil : forall input, nonEmpty input = false ->
                                parseSameGroupInput input = []).
    { intros input H. destruct input; [reflexivity|discriminate]. }
    destruct NE as [NE|NE].
    + rewrite (Nil _ NE) in Ht. destruct Ht.
    + change (parseDifferentGroupInput diffInput)
        with (parseSameGroupInput diffInput) in Ha.
      rewrite (Nil _ NE) in Ha. destruct Ha.
Qed.

Definition enabledState (type input : string) : GroupingConditionState :=
  {| ConditionState.id := lit type;
     ConditionState.type := lit type;
     ConditionState.enabled := true;
     ConditionState.input := lit input;
     ConditionState.blockInputs := None |}.

Lemma logicConflict_sound_witness :
  let sameGroupCondition := enabledState "same-group" "1,2;4,5" in
  let differentGroupCondition := enabledState "different-group" "1,3" in
  let conditions := [sameGroupCondition; differentGroupCondition] in
  match logicConflict 3 conditions with
  | None =>
      forall together apart a b,
        In together (parseSameGroupInput (ConditionState.input sameGroupCondition)) ->
        In apart (parseDifferentGroupInput
                    (ConditionState.input differentGroupCondition)) ->
        In a together -> In b together -> In a apart -> In b apart -> a = b
  | Some conflictList =>
      conflictList <> []
      /\ forall z, In z conflictList ->
           In z (LogicConflict.parseAllStudentIds
                   (ConditionState.input sameGroupCondition))
           /\ exists diffSegment,
                In diffSegment (segments (ConditionState.input differentGroupCondition))
                /\ In z (LogicConflict.parseStudentIds diffSegment)
  end.
Proof.
  intros sameGroupCondition differentGroupCondition conditions.
  apply (@logicConflict_sound 3 conditions sameGroupCondition
           differentGroupCondition); [lia | reflexivity | reflexivity].
Defined.

(** The check compares a cluster that is to be kept apart with all the
    numbers of the same-group input at once: 1 and 4 sit in two
    different same-group clusters, and are reported all the same.
    Without groups nothing is reported, not even 1 and 2 that are to be
    together and apart. *)
Example logicConflict_across_clusters :
  let conditions := [ enabledState "same-group" "1,2;4,5";
                      enabledState "different-group" "1,4" ] in
  logicConflict 3 conditions = Some [1; 4]
  /\ logicConflict 0 [ enabledState "same-group" "1,2";
                       enabledState "different-group" "1,2" ] = None
  /\ parseSameGroupInput (lit "1,2;4,5") = [[1; 2]; [4; 5]]
  /\ parseDifferentGroupInput (lit "1,4") = [[1; 4]].
Proof. repeat split; vm_compute; reflexivity. Qed.

(* ================================================================== *)
(** * StudentService: the leaders of the groups                        *)
(* ================================================================== *)

Module Leaders.

(** A student object with its [isLeader] flag.  The roster and the groups
    hold references to the same objects, so the flags live in a store and
    a group holds references into it. *)
Record Member := mkMember { person : Student; isLeader : bool }.

Definition Store := list Member.

Record Seats := mkSeats { groupId : nat; refs : list nat }.

Record World := mkWorld { store : Store; seats : list Seats }.

(** [s.isLeader] and [s.id] for the object behind a reference. *)
Definition leaderOf (st : Store) (r : nat) : bool :=
  match nth_error st r with Some m => isLeader m | None => false end.

Definition idOf (st : Store) (r : nat) : Z :=
  match nth_error st r with Some m => Student.id (person m) | None => 0 end.

(** [s.isLeader = b] *)
Definition setLeader (r : nat) (b : bool) (st : Store) : Store :=
  match nth_error st r with
  | Some m => updateNth r {| person := person m; isLeader := b |} st
  | None => st
  end.

(** The comparator of the three sorts: the leader first, then by id. *)
Definition leaderFirst (st : Store) (a b : nat) : Z :=
  if leaderOf st a && negb (leaderOf st b) then -1
  else if negb (leaderOf st a) && leaderOf st b then 1
  else idOf st a - idOf st b.

(** [group.students.forEach((s) => { if (s.id === studentId) s.isLeader =
    !s.isLeader; else s.isLeader = false; })] *)
Definition toggleEach (studentId : Z) (rs : list nat) (st : Store) : Store :=
  fold_left (fun st r =>
               if idOf st r =? studentId
               then setLeader r (negb (leaderOf st r)) st
               else setLeader r false st) rs st.

Definition findSeats (groupId' : nat) (l : list Seats) : option (nat * Seats) :=
  find (fun ig => (groupId (snd ig) =? groupId')%nat) (indexed l).

(** [toggleLeader] *)
Definition toggleLeader (groupId' : nat) (studentId : Z) (w : World) : World :=
  match findSeats groupId' (seats w) with
  | Some (i, group) =>
      let st := toggleEach studentId (refs group) (store w) in
      {| store := st;
         seats := updateNth i {| groupId := groupId group;
                                 refs := Array_sort (leaderFirst st) (refs group) |}
                            (seats w) |}
  | None => w
  end.

(** [Math.floor(Math.random() * length)] *)
Definition randomBelow (length : nat) (rs : RandomSource) : nat * RandomSource :=
  let '(d, rs') := Math_random rs in
  (Z.to_nat (Qfloor (value d * inject_Z (Z.of_nat length))), rs').

(** The body of [groups.forEach((group) => { ... })] in
    [selectRandomLeaders]. *)
Definition electIn (acc : Store * list Seats * RandomSource) (group : Seats)
  : Store * list Seats * RandomSource :=
  let '(st, done, rs) := acc in
  let st1 := fold_left (fun st r => setLeader r false st) (refs group) st in
  match refs group with
  | [] => (st1, done ++ [group], rs)
  | _ :: _ =>
      let '(randomIndex, rs') := randomBelow (List.length (refs group)) rs in
      let st2 :=
        match nth_error (refs group) randomIndex with
        | Some r => setLeader r true st1
        | None => st1
        end in
      (st2,
       done ++ [{| groupId := groupId group;
                   refs := Array_sort (leaderFirst st2) (refs group) |}],
       rs')
  end.

(** [selectRandomLeaders] *)
Definition selectRandomLeaders (w : World) (rs : RandomSource)
  : World * RandomSource :=
  let '(st, groups', rs') := fold_left electIn (seats w) (store w, [], rs) in
  ({| store := st; seats := groups' |}, rs').

End Leaders.

Import Leaders.

(** ** Sorting with a total comparator *)

Section SortTotal.
Variable A : Type.
Variable cmp : A -> A -> Z.
Hypothesis cmp_total : forall a b, 0 < cmp a b -> cmp b a <= 0.

Lemma sortInsert_sorted x l :
  Sorted (fun a b => cmp a b <= 0) l ->
  Sorted (fun a b => cmp a b <= 0) (sortInsert cmp x l).
Proof.
  induction l as [|y l IH]; intros S; cbn [sortInsert].
  - repeat constructor.
  - destruct (Z.leb_spec (cmp x y) 0) as [L|L].
    + constructor; [exact S|]. constructor. exact L.
    + apply Sorted_inv in S. destruct S as [S H].
      constructor; [now apply IH|].
      destruct l as [|z l]; cbn [sortInsert].
      * constructor. now apply cmp_total.
      * destruct (cmp x z <=? 0); constructor.
        -- now apply cmp_total.
        -- now inversion H.
Qed.

Lemma Array_sort_sorted l : Sorted (fun a b => cmp a b <= 0) (Array_sort cmp l).
Proof.
  induction l as [|x l IH]; [constructor|].
  cbn [Array_sort fold_right]. now apply sortInsert_sorted.
Qed.

End SortTotal.

(** ** The store *)

Lemma setLeader_length r b st : List.length (setLeader r b st) = List.length st.
Proof.
  unfold setLeader. destruct (nth_error st r); [apply updateNth_length|reflexivity].
Qed.

Lemma idOf_setLeader r b st r' : idOf (setLeader r b st) r' = idOf st r'.
Proof.
  unfold setLeader, idOf. destruct (nth_error st r) as [m|] eqn:E; [|reflexivity].
  destruct (Nat.eq_dec r r') as [<-|D].
  - rewrite nth_error_updateNth_eq by (apply nth_error_Some; congruence).
    now rewrite E.
  - now rewrite nth_error_updateNth_neq.
Qed.

Lemma leaderOf_setLeader r b st r' :
  (r < List.length st)%nat ->
  leaderOf (setLeader r b st) r' = if (r' =? r)%nat then b else leaderOf st r'.
Proof.
  intros L. unfold setLeader, leaderOf.
  destruct (nth_error st r) as [m|] eqn:E;
    [|apply nth_error_None in E; lia].
  destruct (Nat.eqb_spec r' r) as [->|D].
  - now rewrite nth_error_updateNth_eq.
  - now rewrite nth_error_updateNth_neq by congruence.
Qed.

Lemma toggleEach_spec studentId rs : forall st,
  NoDup rs -> Forall (fun r => (r < List.length st)%nat) rs ->
  List.length (toggleEach studentId rs st) = List.length st
  /\ (forall r, idOf (toggleEach studentId rs st) r = idOf st r)
  /\ (forall r, leaderOf (toggleEach studentId rs st) r
                = if existsb (Nat.eqb r) rs
                  then (idOf st r =? studentId) && negb (leaderOf st r)
                  else leaderOf st r).
Proof.
  induction rs as [|x rs IH]; intros st ND V.
  - cbn. auto.
  - inversion ND as [|? ? Nx ND']; subst. inversion V as [|? ? Vx V']; subst.
    unfold toggleEach. cbn [fold_left].
    set (st1 := if idOf st x =? studentId
                then setLeader x (negb (leaderOf st x)) st
                else setLeader x false st).
    assert (L1 : List.length st1 = List.length st)
      by (unfold st1; destruct (idOf st x =? studentId); apply setLeader_length).
    assert (I1 : forall r, idOf st1 r = idOf st r)
      by (intros r; unfold st1; destruct (idOf st x =? studentId);
          apply idOf_setLeader).
    assert (B1 : forall r, leaderOf st1 r
                           = if (r =? x)%nat
                             then (idOf st x =? studentId) && negb (leaderOf st x)
                             else leaderOf st r).
    { intros r. unfold st1. destruct (idOf st x =? studentId);
        rewrite leaderOf_setLeader by exact Vx; reflexivity. }
    fold (toggleEach studentId rs st1).
    destruct (IH st1 ND') as (L & I & B).
    { eapply Forall_impl; [|exact V']. intros r Hr. cbn in Hr. lia. }
    split; [lia|]. split; [intros r; now rewrite I, I1|].
    intros r. rewrite B, B1, I1. cbn [existsb].
    destruct (Nat.eqb_spec r x) as [->|D]; cbn [orb].
    + assert (E : existsb (Nat.eqb x) rs = false).
      { apply not_true_iff_false. intros H. apply Nx.
        apply existsb_exists in H. destruct H as (y & Hy & Ey).
        apply Nat.eqb_eq in Ey. now subst. }
      now rewrite E.
    + destruct (existsb (Nat.eqb r) rs); reflexivity.
Qed.

(** ** The comparator *)

Definition leaderKey (st : Store) (r : nat) : Z := if leaderOf st r then 0 else 1.

Lemma leaderFirst_key st a b :
  (leaderFirst st a b <= 0 -> leaderKey st a <= leaderKey st b)
  /\ (0 < leaderFirst st a b -> leaderKey st b <= leaderKey st a).
Proof.
  unfold leaderFirst, leaderKey.
  destruct (leaderOf st a), (leaderOf st b); cbn; lia.
Qed.

Lemma leaderFirst_total st a b :
  0 < leaderFirst st a b -> leaderFirst st b a <= 0.
Proof.
  unfold leaderFirst. destruct (leaderOf st a), (leaderOf st b); cbn; lia.
Qed.

Lemma leaderFirst_trans st a b c :
  leaderFirst st a b <= 0 -> leaderFirst st b c <= 0 -> leaderFirst st a c <= 0.
Proof.
  unfold leaderFirst.
  destruct (leaderOf st a), (leaderOf st b), (leaderOf st c); cbn; lia.
Qed.

Lemma leaderFirst_ids st a b :
  leaderOf st a = false -> leaderOf st b = false ->
  leaderFirst st a b <= 0 -> idOf st a <= idOf st b.
Proof. unfold leaderFirst. intros -> ->. cbn. lia. Qed.

Lemma StronglySorted_filter (A : Type) (R : A -> A -> Prop) (p : A -> bool) l :
  StronglySorted R l -> StronglySorted R (filter p l).
Proof.
  induction 1 as [|x l _ IH Hx]; cbn [filter]; [constructor|].
  destruct (p x); [|exact IH]. constructor; [exact IH|].
  rewrite Forall_forall in *. intros y Hy. apply Hx.
  apply filter_In in Hy. tauto.
Qed.

Lemma NoDup_map_same (A B : Type) (f : A -> B) l a b :
  NoDup (map f l) -> In a l -> In b l -> f a = f b -> a = b.
Proof.
  induction l as [|x l IH]; intros N [] Hb Eab;
    cbn [map] in N; inversion N as [|? ? Nx N']; subst.
  - destruct Hb as [->|Hb]; [reflexivity|]. exfalso. apply Nx.
    rewrite Eab. now apply in_map.
  - destruct Hb as [->|Hb]; [|now apply IH]. exfalso. apply Nx.
    rewrite <- Eab. now apply in_map.
Qed.

Lemma nonLeaders_by_id st l :
  StronglySorted (fun a b => leaderFirst st a b <= 0) l ->
  StronglySorted Z.le
    (map (idOf st) (filter (fun r => negb (leaderOf st r)) l)).
Proof.
  induction 1 as [|x l _ IH Hx]; cbn [filter]; [constructor|].
  destruct (leaderOf st x) eqn:Lx; cbn [negb]; [exact IH|].
  cbn [map]. constructor; [exact IH|].
  apply Forall_forall. intros z Hz. apply in_map_iff in Hz.
  destruct Hz as (y & <- & Hy). apply filter_In in Hy. destruct Hy as [Hy Ly].
  apply negb_true_iff in Ly. rewrite Forall_forall in Hx.
  apply leaderFirst_ids; auto.
Qed.

(** What the sort of a group leaves, for a store in which the ids of the
    group are distinct and at most the students of one id lead. *)
Lemma sorted_leader_first st rs :
  NoDup (map (idOf st) rs) ->
  (forall a b, In a rs -> In b rs -> leaderOf st a = true ->
               leaderOf st b = true -> idOf st a = idOf st b) ->
  let rs' := Array_sort (leaderFirst st) rs in
  Permutation rs' rs
  /\ (forall r, In r rs' -> leaderOf st r = true -> hd_error rs' = Some r)
  /\ Sorted Z.le (map (idOf st) (filter (fun r => negb (leaderOf st r)) rs')).
Proof.
  intros ND One rs'.
  pose proof (Array_sort_perm (leaderFirst st) rs) as P. fold rs' in P.
  split; [exact P|]. split.
  - intros r Hr Lr.
    pose proof (@Array_sort_head _ (leaderFirst st) (leaderKey st)
                  (fun a b => proj1 (leaderFirst_key st a b))
                  (fun a b => proj2 (leaderFirst_key st a b)) rs) as Head.
    fold rs' in Head. destruct rs' as [|h t] eqn:E; [destruct Hr|].
    cbn [hd_error]. f_equal.
    assert (Ir : In r rs) by (eapply Permutation_in; [exact P|exact Hr]).
    assert (Ih : In h rs) by (eapply Permutation_in; [exact P|now left]).
    specialize (Head h t eq_refl r Ir). unfold leaderKey in Head.
    rewrite Lr in Head.
    destruct (leaderOf st h) eqn:Lh; [|lia].
    apply (NoDup_map_same ND Ih Ir). now apply One.
  - pose proof (Array_sort_sorted (@leaderFirst_total st) rs) as S.
    fold rs' in S.
    apply Sorted_StronglySorted in S;
      [|intros a b c; apply leaderFirst_trans].
    apply StronglySorted_Sorted. now apply nonLeaders_by_id.
Qed.

(** X25.  [toggleLeader] on a group whose students are distinct objects
    with distinct ids leaves the group with the same students and at most
    one leader: a student of the group leads afterwards exactly if the id
    is the one given and the student did not lead before.  The leader, if
    there is one, comes first, and the others follow by ascending id.
    No id changes, no flag outside the group changes and no other group
    is touched. *)
Theorem toggleLeader_one_leader (groupId' : nat) (studentId : Z) (w : World)
  (i : nat) (group : Seats) :
  findSeats groupId' (seats w) = Some (i, group) ->
  NoDup (refs group) ->
  Forall (fun r => (r < List.length (store w))%nat) (refs group) ->
  NoDup (map (idOf (store w)) (refs group)) ->
  let w' := toggleLeader groupId' studentId w in
  exists group',
    nth_error (seats w') i = Some group'
    /\ groupId group' = groupId group
    /\ Permutation (refs group') (refs group)
    /\ (forall r, In r (refs group') ->
          (leaderOf (store w') r = true
           <-> idOf (store w) r = studentId /\ leaderOf (store w) r = false))
    /\ (forall r, In r (refs group') -> leaderOf (store w') r = true ->
                  hd_error (refs group') = Some r)
    /\ Sorted Z.le (map (idOf (store w'))
                        (filter (fun r => negb (leaderOf (store w') r))
                                (refs group')))
    /\ (forall r, idOf (store w') r = idOf (store w) r)
    /\ (forall r, ~ In r (refs group) ->
                  leaderOf (store w') r = leaderOf (store w) r)
    /\ (forall j, j <> i -> nth_error (seats w') j = nth_error (seats w) j).
Proof.
  intros F ND V NI w'. unfold w', toggleLeader. rewrite F.
  cbn [store seats].
  destruct (toggleEach_spec studentId ND V) as (L & I & B).
  set (st := toggleEach studentId (refs group) (store w)) in *.
  assert (Ni : nth_error (seats w) i = Some group).
  { apply find_some in F. destruct F as [F _]. now apply In_indexed in F. }
  assert (Inside : forall r, In r (refs group) ->
                     existsb (Nat.eqb r) (refs group) = true).
  { intros r Hr. apply existsb_exists. exists r. split; [exact Hr|].
    apply Nat.eqb_refl. }
  assert (Lead : forall r, In r (refs group) ->
            (leaderOf st r = true
             <-> idOf (store w) r = studentId /\ leaderOf (store w) r = false)).
  { intros r Hr. rewrite B, (Inside r Hr), andb_true_iff, Z.eqb_eq,
      negb_true_iff. tauto. }
  destruct (@sorted_leader_first st (refs group)) as (P & H & S).
  { erewrite map_ext; [exact NI|]. intros r. apply I. }
  { intros a b Ha Hb La Lb. apply Lead in La, Lb; [|assumption..].
    rewrite !I. destruct La as [-> _], Lb as [-> _]. reflexivity. }
  eexists. split.
  { apply nth_error_updateNth_eq. apply nth_error_Some. congruence. }
  cbn [groupId refs]. split; [reflexivity|]. split; [exact P|].
  split.
  { intros r Hr. apply Lead. eapply Permutation_in; [exact P|exact Hr]. }
  split; [exact H|]. split; [exact S|]. split; [exact I|]. split.
  - intros r Hr. rewrite B.
    assert (E : existsb (Nat.eqb r) (refs group) = false).
    { apply not_true_iff_false. intros K. apply Hr.
      apply existsb_exists in K. destruct K as (y & Hy & Ey).
      apply Nat.eqb_eq in Ey. now subst. }
    now rewrite E.
  - intros j D. now apply nth_error_updateNth_neq.
Qed.

(** ** selectRandomLeaders *)

Lemma randomBelow_lt n rs : (0 < n)%nat -> (fst (randomBelow n rs) < n)%nat.
Proof.
  intros H. destruct n as [|n]; [lia|].
  pose proof (randomIndex_le n rs) as L.
  unfold randomBelow, randomIndex in *.
  destruct (Math_random rs) as [d rs']. cbn [fst] in *.
  replace (Z.of_nat (S n)) with (Z.of_nat n + 1) by lia. lia.
Qed.

Lemma resetAll_spec rs : forall st,
  Forall (fun r => (r < List.length st)%nat) rs ->
  let st1 := fold_left (fun st r => setLeader r false st) rs st in
  List.length st1 = List.length st
  /\ (forall r, idOf st1 r = idOf st r)
  /\ (forall r, leaderOf st1 r
                = if existsb (Nat.eqb r) rs then false else leaderOf st r).
Proof.
  induction rs as [|x rs IH]; intros st V; cbn [fold_left existsb].
  - auto.
  - inversion V as [|? ? Vx V']; subst.
    destruct (IH (setLeader x false st)) as (L & I & B).
    { eapply Forall_impl; [|exact V']. intros r Hr. cbn in Hr.
      now rewrite setLeader_length. }
    cbv zeta in *. rewrite setLeader_length in L.
    split; [exact L|]. split; [intros r; now rewrite I, idOf_setLeader|].
    intros r. rewrite B, leaderOf_setLeader by exact Vx.
    destruct (Nat.eqb_spec r x); cbn [orb];
      destruct (existsb (Nat.eqb r) rs); reflexivity.
Qed.

(** A group after the election: the same students, the first of them
    the only leader, the others by ascending id. *)
Definition elected (st : Store) (group group' : Seats) : Prop :=
  groupId group' = groupId group
  /\ Permutation (refs group') (refs group)
  /\ (refs group <> [] ->
      exists leader others,
        refs group' = leader :: others
        /\ leaderOf st leader = true
        /\ Forall (fun r => leaderOf st r = false) others
        /\ Sorted Z.le (map (idOf st) others)).

Lemma elected_stable st st' group group' :
  (forall r, In r (refs group) -> leaderOf st' r = leaderOf st r) ->
  (forall r, idOf st' r = idOf st r) ->
  elected st group group' -> elected st' group group'.
Proof.
  intros HL HI (E & P & K). split; [exact E|]. split; [exact P|].
  intros NE. destruct (K NE) as (leader & others & R & L & O & S).
  exists leader, others. split; [exact R|].
  assert (Sub : forall r, In r (refs group') -> In r (refs group))
    by (intros r Hr; eapply Permutation_in; [exact P|exact Hr]).
  rewrite R in Sub. split; [|split].
  - rewrite HL; [exact L|]. apply Sub. now left.
  - apply Forall_forall. intros r Hr. rewrite Forall_forall in O.
    rewrite HL; [now apply O|]. apply Sub. now right.
  - erewrite map_ext; [exact S|]. intros r. apply HI.
Qed.

Lemma not_among r rs : ~ In r rs -> existsb (Nat.eqb r) rs = false.
Proof.
  intros H. apply not_true_iff_false. intros K. apply H.
  apply existsb_exists in K. destruct K as (y & Hy & Ey).
  apply Nat.eqb_eq in Ey. now subst.
Qed.

Lemma electIn_spec st done rs group :
  NoDup (refs group) ->
  Forall (fun r => (r < List.length st)%nat) (refs group) ->
  NoDup (map (idOf st) (refs group)) ->
  exists st' group' rs',
    electIn (st, done, rs) group = (st', done ++ [group'], rs')
    /\ elected st' group group'
    /\ List.length st' = List.length st
    /\ (forall r, idOf st' r = idOf st r)
    /\ (forall r, ~ In r (refs group) -> leaderOf st' r = leaderOf st r).
Proof.
  intros ND V NI. unfold electIn.
  destruct (resetAll_spec V) as (L1 & I1 & B1). cbv zeta in L1, I1, B1.
  set (st1 := fold_left (fun st r => setLeader r false st) (refs group) st) in *.
  destruct (refs group) as [|r0 rest] eqn:ER.
  - exists st1, group, rs. split; [reflexivity|]. split; [|split; [|split]].
    + split; [reflexivity|]. split; [apply Permutation_refl|].
      rewrite ER. congruence.
    + exact L1.
    + exact I1.
    + intros r _. now rewrite B1.
  - rewrite <- ER in *.
    assert (Pos : (0 < List.length (refs group))%nat) by (rewrite ER; cbn; lia).
    pose proof (randomBelow_lt rs Pos) as LT.
    destruct (randomBelow (List.length (refs group)) rs) as [k rs'].
    cbn [fst] in LT.
    destruct (nth_error (refs group) k) as [chosen|] eqn:Nk;
      [|apply nth_error_None in Nk; lia].
    assert (Ic : In chosen (refs group)) by (eapply nth_error_In; eassumption).
    assert (Vc : (chosen < List.length st1)%nat).
    { rewrite Forall_forall in V. rewrite L1. now apply V. }
    set (st2 := setLeader chosen true st1).
    assert (I2 : forall r, idOf st2 r = idOf st r)
      by (intros r; unfold st2; now rewrite idOf_setLeader, I1).
    assert (B2 : forall r, leaderOf st2 r
                           = if (r =? chosen)%nat then true
                             else if existsb (Nat.eqb r) (refs group) then false
                                  else leaderOf st r).
    { intros r. unfold st2. rewrite leaderOf_setLeader by exact Vc.
      now rewrite B1. }
    assert (Only : forall r, In r (refs group) ->
                             leaderOf st2 r = true -> r = chosen).
    { intros r Hr. rewrite B2. destruct (Nat.eqb_spec r chosen); [auto|].
      assert (E : existsb (Nat.eqb r) (refs group) = true).
      { apply existsb_exists. exists r. split; [exact Hr|apply Nat.eqb_refl]. }
      rewrite E. discriminate. }
    destruct (@sorted_leader_first st2 (refs group)) as (P & H & S).
    { erewrite map_ext; [exact NI|]. intros r. apply I2. }
    { intros a b Ha Hb La Lb. apply Only in La, Lb; try assumption.
      now subst. }
    exists st2, {| groupId := groupId group;
                   refs := Array_sort (leaderFirst st2) (refs group) |}, rs'.
    split; [reflexivity|]. split; [|split; [|split]].
    + split; [reflexivity|]. cbn [refs]. split; [exact P|]. intros _.
      assert (Lc : leaderOf st2 chosen = true)
        by (rewrite B2; now rewrite Nat.eqb_refl).
      assert (Hc : In chosen (Array_sort (leaderFirst st2) (refs group)))
        by (eapply Permutation_in; [apply Permutation_sym, P|exact Ic]).
      specialize (H chosen Hc Lc).
      assert (ND' : NoDup (Array_sort (leaderFirst st2) (refs group)))
        by (eapply Permutation_NoDup; [apply Permutation_sym, P|exact ND]).
      destruct (Array_sort (leaderFirst st2) (refs group)) as [|h t] eqn:EA;
        [discriminate|].
      cbn [hd_error] in H. injection H as ->.
      exists chosen, t. split; [reflexivity|]. split; [exact Lc|].
      inversion ND' as [|? ? Nh NDt]; subst.
      assert (O : Forall (fun r => leaderOf st2 r = false) t).
      { apply Forall_forall. intros r Hr. apply not_true_iff_false.
        intros Lr. apply Nh.
        assert (r = chosen); [|now subst].
        apply Only; [|exact Lr].
        eapply Permutation_in; [exact P|now right]. }
      split; [exact O|].
      cbn [filter] in S. rewrite Lc in S. cbn [negb] in S.
      rewrite filter_all in S; [exact S|].
      intros r Hr. rewrite Forall_forall in O. now rewrite (O r Hr).
    + unfold st2. now rewrite setLeader_length.
    + exact I2.
    + intros r Hr. rewrite B2, (not_among Hr).
      destruct (Nat.eqb_spec r chosen) as [->|]; [contradiction|reflexivity].
Qed.

Lemma elect_all groups : forall st done rs,
  NoDup (concat (map refs groups)) ->
  Forall (fun r => (r < List.length st)%nat) (concat (map refs groups)) ->
  Forall (fun group => NoDup (map (idOf st) (refs group))) groups ->
  exists st' groups' rs',
    fold_left electIn groups (st, done, rs) = (st', done ++ groups', rs')
    /\ Forall2 (elected st') groups groups'
    /\ (forall r, idOf st' r = idOf st r)
    /\ (forall r, ~ In r (concat (map refs groups)) ->
                  leaderOf st' r = leaderOf st r).
Proof.
  induction groups as [|g groups IH]; intros st done rs ND V NI.
  - exists st, [], rs. cbn. rewrite app_nil_r. auto.
  - cbn [map concat] in ND, V. cbn [fold_left].
    apply Forall_app in V. destruct V as [Vg V'].
    inversion NI as [|? ? NIg NI']; subst.
    destruct (@electIn_spec st done rs g) as (st1 & g' & rs1 & -> & Q & L & I & B).
    { eapply NoDup_app_remove_r. exact ND. }
    { exact Vg. }
    { exact NIg. }
    destruct (IH st1 (done ++ [g']) rs1) as (st' & gs' & rs' & E & Q' & I' & B').
    { eapply NoDup_app_remove_l. exact ND. }
    { eapply Forall_impl; [|exact V']. intros r Hr. cbn in Hr. lia. }
    { eapply Forall_impl; [|exact NI']. intros group Hg. cbn in Hg.
      erewrite map_ext; [exact Hg|]. intros r. apply I. }
    exists st', (g' :: gs'), rs'. split.
    { etransitivity; [exact E|]. now rewrite <- app_assoc. }
    split; [|split].
    + constructor; [|exact Q'].
      apply (elected_stable (st := st1)); [| exact I' | exact Q].
      intros r Hr. apply B'. intros Hr'.
      exact (NoDup_app_apart ND Hr Hr').
    + intros r. now rewrite I', I.
    + intros r Hr. cbn [map concat] in Hr. rewrite in_app_iff in Hr.
      rewrite B' by tauto. apply B. tauto.
Qed.

(** X26.  When the groups hold distinct, existing student objects, none
    in two groups, and no group holds an id twice, [selectRandomLeaders]
    gives every group that has students exactly one leader, whatever the
    random source: each group keeps its students, its first student is
    the leader, no other student of it leads, and the others follow by
    ascending id.  No id changes, and a student in no group keeps the
    flag. *)
Theorem selectRandomLeaders_one_each (w : World) (rs : RandomSource) :
  NoDup (concat (map refs (seats w))) ->
  Forall (fun r => (r < List.length (store w))%nat) (concat (map refs (seats w))) ->
  Forall (fun group => NoDup (map (idOf (store w)) (refs group))) (seats w) ->
  let w' := fst (selectRandomLeaders w rs) in
  Forall2 (elected (store w')) (seats w) (seats w')
  /\ (forall r, idOf (store w') r = idOf (store w) r)
  /\ (forall r, ~ In r (concat (map refs (seats w))) ->
                leaderOf (store w') r = leaderOf (store w) r).
Proof.
  intros ND V NI w'. unfold w', selectRandomLeaders.
  destruct (@elect_all (seats w) (store w) [] rs ND V NI)
    as (st' & gs' & rs' & E & Q & I & B).
  remember (fold_left electIn (seats w) (store w, [], rs)) as result eqn:R.
  assert (E' : result = (st', gs', rs')) by (rewrite R; exact E).
  rewrite E'. cbn [fst store seats]. auto.
Qed.

(** The students 1, 2, 3 (male) and 4, 5 (female) as objects 0 to 4,
    seated as in [crowdedGroups], nobody leading. *)
Definition ledWorld : World :=
  {| store := map (fun s => {| person := s; isLeader := false |})
                  (seated [1; 2; 3] male ++ seated [4; 5] female);
     seats := [ {| groupId := 1; refs := [0; 1; 2]%nat |};
                {| groupId := 2; refs := [3; 4]%nat |};
                {| groupId := 3; refs := [] |} ] |}.

Lemma ledWorld_ok :
  NoDup (concat (map refs (seats ledWorld)))
  /\ Forall (fun r => (r < List.length (store ledWorld))%nat)
            (concat (map refs (seats ledWorld)))
  /\ Forall (fun group => NoDup (map (idOf (store ledWorld)) (refs group)))
            (seats ledWorld).
Proof.
  split; [|split].
  - cbn. repeat constructor; simpl; intuition discriminate.
  - cbn. repeat constructor.
  - cbn. repeat constructor; simpl; intuition discriminate.
Qed.

Lemma toggleLeader_one_leader_witness :
  let w' := toggleLeader 1 2 ledWorld in
  exists group',
    nth_error (seats w') 0 = Some group'
    /\ groupId group' = 1%nat
    /\ Permutation (refs group') [0; 1; 2]%nat
    /\ (forall r, In r (refs group') ->
          (leaderOf (store w') r = true
           <-> idOf (store ledWorld) r = 2 /\ leaderOf (store ledWorld) r = false))
    /\ (forall r, In r (refs group') -> leaderOf (store w') r = true ->
                  hd_error (refs group') = Some r)
    /\ Sorted Z.le (map (idOf (store w'))
                        (filter (fun r => negb (leaderOf (store w') r))
                                (refs group')))
    /\ (forall r, idOf (store w') r = idOf (store ledWorld) r)
    /\ (forall r, ~ In r [0; 1; 2]%nat ->
                  leaderOf (store w') r = leaderOf (store ledWorld) r)
    /\ (forall j, j <> 0%nat ->
                  nth_error (seats w') j = nth_error (seats ledWorld) j).
Proof.
  apply (@toggleLeader_one_leader 1 2 ledWorld 0
           {| groupId := 1; refs := [0; 1; 2]%nat |}).
  - reflexivity.
  - cbn. repeat constructor; simpl; intuition discriminate.
  - cbn. repeat constructor.
  - cbn. repeat constructor; simpl; intuition discriminate.
Defined.

Lemma selectRandomLeaders_one_each_witness :
  let w' := fst (selectRandomLeaders ledWorld midpoint) in
  Forall2 (elected (store w')) (seats ledWorld) (seats w')
  /\ (forall r, idOf (store w') r = idOf (store ledWorld) r)
  /\ (forall r, ~ In r (concat (map refs (seats ledWorld))) ->
                leaderOf (store w') r = leaderOf (store ledWorld) r).
Proof.
  apply (@selectRandomLeaders_one_each ledWorld midpoint).
  - exact (proj1 ledWorld_ok).
  - exact (proj1 (proj2 ledWorld_ok)).
  - exact (proj2 (proj2 ledWorld_ok)).
Defined.

(** Student 2 is made the leader of the first group and comes first;
    toggled again, nobody leads and the group is in the order of the
    ids.  Making student 3 the leader takes the flag from student 2. *)
Example toggleLeader_scenarios :
  let w1 := toggleLeader 1 2 ledWorld in
  let w2 := toggleLeader 1 2 w1 in
  let w3 := toggleLeader 1 3 w1 in
  map refs (seats w1) = [[1; 0; 2]; [3; 4]; []]%nat
  /\ map isLeader (store w1) = [false; true; false; false; false]
  /\ map refs (seats w2) = [[0; 1; 2]; [3; 4]; []]%nat
  /\ map isLeader (store w2) = [false; false; false; false; false]
  /\ map refs (seats w3) = [[2; 0; 1]; [3; 4]; []]%nat
  /\ map isLeader (store w3) = [false; false; true; false; false]
  /\ map refs (seats (fst (selectRandomLeaders ledWorld midpoint)))
     = [[1; 0; 2]; [4; 3]; []]%nat.
Proof. repeat split; vm_compute; reflexivity. Qed.

(* ================================================================== *)
(** * HomeComponent: from the two inputs to the roster                 *)
(* ================================================================== *)

Module Home.

(** The messages of the page, by kind and with the data they print. *)
Inductive InputError :=
| RepeatedWithFemale (duplicates : list Z)
| RepeatedWithMale (duplicates : list Z).

Inductive Message := NoMessage | AtLeastOneStudent | FewerStudentsThanGroups.

(** The signals of the page that the three methods read or write, but
    for the flag [hasGrouped], which they only reset. *)
Record Page := mkPage {
  maleInput : str;
  femaleInput : str;
  groupCount : nat;
  errorMessage : Message;
  lastModifiedInput : option Gender;
  maleInputErrors : list InputError;
  femaleInputErrors : list InputError;
  duplicateNumbers : list Z;
  previewStudents : list Student
}.

(** [updatePreview].  [parseNumberInput] does not throw, so no [catch]
    block is entered. *)
Definition updatePreview (page : Page) : Page :=
  let maleNumbers :=
    if nonEmpty (trim (maleInput page)) then parseNumberInput (maleInput page)
    else [] in
  let femaleNumbers :=
    if nonEmpty (trim (femaleInput page)) then parseNumberInput (femaleInput page)
    else [] in
  let duplicates :=
    filter (fun num => existsb (Z.eqb num) femaleNumbers) maleNumbers in
  let repeated := (0 <? List.length duplicates)%nat in
  let maleErrors :=
    match repeated, lastModifiedInput page with
    | true, Some male => [RepeatedWithFemale duplicates]
    | _, _ => []
    end in
  let femaleErrors :=
    match repeated, lastModifiedInput page with
    | true, Some female => [RepeatedWithMale duplicates]
    | _, _ => []
    end in
  {| maleInput := maleInput page;
     femaleInput := femaleInput page;
     groupCount := groupCount page;
     errorMessage := NoMessage;
     lastModifiedInput := lastModifiedInput page;
     maleInputErrors := maleErrors;
     femaleInputErrors := femaleErrors;
     duplicateNumbers := duplicates;
     previewStudents :=
       match maleErrors, femaleErrors with
       | [], [] =>
           sortById (map (fun id => Student.make id male) maleNumbers
                     ++ map (fun id => Student.make id female) femaleNumbers)
       | _, _ => []
       end |}.

(** [canInitialize] *)
Definition canInitialize (page : Page) : bool :=
  (nonEmpty (trim (maleInput page)) || nonEmpty (trim (femaleInput page)))
  && (2 <=? groupCount page)%nat
  && (0 <? List.length (previewStudents page))%nat
  && (List.length (maleInputErrors page) =? 0)%nat
  && (List.length (femaleInputErrors page) =? 0)%nat
  && (List.length (duplicateNumbers page) =? 0)%nat.

Definition withMessage (m : Message) (page : Page) : Page :=
  {| maleInput := maleInput page;
     femaleInput := femaleInput page;
     groupCount := groupCount page;
     errorMessage := m;
     lastModifiedInput := lastModifiedInput page;
     maleInputErrors := maleInputErrors page;
     femaleInputErrors := femaleInputErrors page;
     duplicateNumbers := duplicateNumbers page;
     previewStudents := previewStudents page |}.

(** [initializeFromInputs], on the page and the signals of the
    service. *)
Definition initializeFromInputs (page : Page) (st : StudentService.State)
  : Page * StudentService.State :=
  let page1 := updatePreview page in
  if (List.length (previewStudents page1) =? 0)%nat then
    (withMessage AtLeastOneStudent page1, st)
  else if (List.length (previewStudents page1) <? groupCount page1)%nat then
    (withMessage FewerStudentsThanGroups page1, st)
  else
    (page1,
     initializeGroups (groupCount page1)
       (initializeStudents (maleInput page1) (femaleInput page1) st)).

End Home.

Import Home.

Lemma parseNumberInput_nothing input :
  nonEmpty (trim input) = false -> parseNumberInput input = [].
Proof.
  intros H. assert (E : trim input = []) by (destruct (trim input); [reflexivity|discriminate]).
  destruct (trim_decompose input) as (w1 & w2 & B1 & B2 & D).
  rewrite E in D. cbn [app] in D.
  assert (B : blank input) by (rewrite D; apply blank_app; now split).
  unfold parseNumberInput. cbv zeta.
  assert (K : forall l, Forall blank l -> flat_map expandPart (map trim l) = []).
  { induction 1 as [|w l Bw _ IH]; [reflexivity|].
    cbn [map flat_map]. rewrite (trim_blank Bw), IH. reflexivity. }
  rewrite (K _ (split_blank ","%char B)). reflexivity.
Qed.

Lemma numbers_of_input input :
  (if nonEmpty (trim input) then parseNumberInput input else [])
  = parseNumberInput input.
Proof.
  destruct (nonEmpty (trim input)) eqn:E; [reflexivity|].
  symmetry. now apply parseNumberInput_nothing.
Qed.

Lemma members_no_students (l : list nat) :
  members (map (fun i => Group.make (i + 1) (i + 1) []) l) = [].
Proof. induction l as [|i l IH]; [reflexivity|exact IH]. Qed.

(** X27.  When [canInitialize] holds for the page as [updatePreview]
    leaves it, [initializeFromInputs] either refuses because there are
    fewer students than groups and leaves the service as it is, or loads
    exactly the students of the preview: a roster in strictly ascending
    order of the ids, in one block, with at least as many students as
    groups, and at least two groups, all of them empty. *)
Theorem canInitialize_gives_a_roster (page : Page) (st : StudentService.State) :
  canInitialize (updatePreview page) = true ->
  let page' := fst (initializeFromInputs page st) in
  let st' := snd (initializeFromInputs page st) in
  (errorMessage page' = FewerStudentsThanGroups /\ st' = st
   /\ (List.length (previewStudents page') < groupCount page)%nat)
  \/ (errorMessage page' = NoMessage
      /\ rosterOk st'
      /\ students st' = previewStudents page'
      /\ blocks st' = [students st']
      /\ (groupCount page <= List.length (students st'))%nat
      /\ List.length (groups st') = groupCount page
      /\ (2 <= groupCount page)%nat
      /\ members (groups st') = []).
Proof.
  intros Can page' st'. unfold canInitialize in Can.
  repeat rewrite andb_true_iff in Can.
  destruct Can as (((((_ & G2) & Pos) & ME) & FE) & Dup).
  apply Nat.leb_le in G2. apply Nat.ltb_lt in Pos.
  apply Nat.eqb_eq in ME, FE, Dup.
  unfold page', st', initializeFromInputs.
  set (page1 := updatePreview page) in *.
  destruct (Nat.eqb_spec (List.length (previewStudents page1)) 0) as [Z0|_];
    [lia|].
  destruct (Nat.ltb_spec (List.length (previewStudents page1)) (groupCount page1))
    as [Few|Enough]; cbn [fst snd].
  - left. repeat split. exact Few.
  - right.
    assert (D : duplicateNumbers page1 = [])
      by (now apply length_zero_iff_nil).
    unfold page1, updatePreview in D. cbv zeta in D. cbn [duplicateNumbers] in D.
    rewrite !numbers_of_input in D.
    assert (Apart : forall z, In z (parseNumberInput (maleInput page)) ->
                              ~ In z (parseNumberInput (femaleInput page))).
    { intros z Hz Hf. pose proof (proj1 (filter_nil_iff _ _) D z Hz) as K.
      cbn beta in K. apply mem_In in Hf. congruence. }
    assert (P : previewStudents page1
                = sortById (map (fun id => Student.make id male)
                                (parseNumberInput (maleInput page))
                            ++ map (fun id => Student.make id female)
                                   (parseNumberInput (femaleInput page)))).
    { unfold page1, updatePreview. cbv zeta. cbn [previewStudents].
      rewrite !numbers_of_input, D. reflexivity. }
    pose proof (@initializeStudents_ok (maleInput page) (femaleInput page) st Apart)
      as OK.
    set (st1 := initializeGroups (groupCount page1)
                  (initializeStudents (maleInput page1) (femaleInput page1) st)).
    assert (S : students st1 = previewStudents page1) by (now rewrite P).
    split; [reflexivity|]. split; [exact OK|].
    split; [exact S|]. split; [reflexivity|].
    split; [rewrite S; exact Enough|].
    split; [unfold st1; cbn [groups initializeGroups];
            now rewrite length_map, length_seq|].
    split; [exact G2|]. cbn [groups]. apply members_no_students.
Qed.

Definition freshPage (maleInput femaleInput : string) (groupCount : nat)
  (lastModifiedInput : option Gender) : Page :=
  {| maleInput := lit maleInput;
     femaleInput := lit femaleInput;
     groupCount := groupCount;
     errorMessage := NoMessage;
     lastModifiedInput := lastModifiedInput;
     maleInputErrors := [];
     femaleInputErrors := [];
     duplicateNumbers := [];
     previewStudents := [] |}.

Lemma canInitialize_gives_a_roster_witness :
  let page := freshPage "1-3" "4,5" 2 (Some female) in
  let page' := fst (initializeFromInputs page StudentService.initial) in
  let st' := snd (initializeFromInputs page StudentService.initial) in
  (errorMessage page' = FewerStudentsThanGroups
   /\ st' = StudentService.initial
   /\ (List.length (previewStudents page') < groupCount page)%nat)
  \/ (errorMessage page' = NoMessage
      /\ rosterOk st'
      /\ students st' = previewStudents page'
      /\ blocks st' = [students st']
      /\ (groupCount page <= List.length (students st'))%nat
      /\ List.length (groups st') = groupCount page
      /\ (2 <= groupCount page)%nat
      /\ members (groups st') = []).
Proof.
  apply (@canInitialize_gives_a_roster (freshPage "1-3" "4,5" 2 (Some female))
           StudentService.initial).
  vm_compute. reflexivity.
Defined.

(** The check of the two inputs against each other sits in
    [canInitialize] and in the error lists, not in
    [initializeFromInputs]: while no input has been marked as modified, a
    number given for both a boy and a girl raises no error, the preview
    is not emptied, and the roster is loaded with the number twice. *)
Example initializeFromInputs_loads_a_number_twice :
  let page := freshPage "1,2" "2,3" 2 None in
  canInitialize (updatePreview page) = false
  /\ duplicateNumbers (updatePreview page) = [2]
  /\ map Student.id
         (students (snd (initializeFromInputs page StudentService.initial)))
     = [1; 2; 2; 3]
  /\ previewStudents
       (updatePreview (freshPage "1,2" "2,3" 2 (Some male))) = [].
Proof. repeat split; vm_compute; reflexivity. Qed.

(* ================================================================== *)
(** * SameGroupHandler: a group for every cluster                      *)
(* ================================================================== *)

Lemma withStudents_same g : Group.withStudents (Group.students g) g = g.
Proof. now destruct g. Qed.

Lemma addAll_exact target pool : forall ids gs P g,
  nth_error gs target = Some g ->
  exists P',
    SameGroupHandler.addAll target ids pool gs P
    = Returned (updateNth target
                  (Group.withStudents (Group.students g ++ named pool ids) g) gs,
                P').
Proof.
  induction ids as [|x ids IH]; intros gs P g N;
    cbn [SameGroupHandler.addAll named flat_map].
  - exists P. rewrite app_nil_r, withStudents_same.
    now rewrite (updateNth_same N).
  - fold (named pool ids).
    destruct (find (hasId x) pool) as [s|] eqn:F.
    + assert (Lt : (target < List.length gs)%nat)
        by (apply nth_error_Some; congruence).
      rewrite pushStudent_give by exact Lt. rewrite bind_Returned.
      unfold give. rewrite N.
      destruct (IH (updateNth target (Group.push s g) gs) (Set_add P x)
                   (Group.push s g)) as (P' & ->).
      { now apply nth_error_updateNth_eq. }
      exists P'. rewrite updateNth_twice. cbn [Group.push Group.students
        Group.withStudents Group.id Group.name app].
      now rewrite <- app_assoc.
    + cbn [app]. now apply IH.
Qed.

Lemma named_filter pool (p : Z -> bool) ids :
  (forall x, In x ids -> p x = existsb (hasId x) pool) ->
  named pool (filter p ids) = named pool ids.
Proof.
  induction ids as [|x ids IH]; intros H; [reflexivity|].
  cbn [filter named flat_map]. fold (named pool ids).
  rewrite (H x (or_introl eq_refl)).
  destruct (existsb (hasId x) pool) eqn:E.
  - cbn [named flat_map]. fold (named pool (filter p ids)).
    rewrite IH; [reflexivity|]. intros y Hy. apply H. now right.
  - assert (F : find (hasId x) pool = None).
    { destruct (find (hasId x) pool) as [s|] eqn:F; [|reflexivity].
      apply find_some in F. destruct F as [I Hs].
      assert (existsb (hasId x) pool = true)
        by (apply existsb_exists; now exists s).
      congruence. }
    rewrite F. cbn [app]. apply IH. intros y Hy. apply H. now right.
Qed.

Lemma named_length pool ids : (List.length (named pool ids) <= List.length ids)%nat.
Proof.
  induction ids as [|x ids IH]; [reflexivity|].
  cbn [named flat_map]. fold (named pool ids). rewrite length_app.
  destruct (find (hasId x) pool); cbn [List.length]; lia.
Qed.

(** The clusters of which a student waits in the pool. *)
Definition waitingClusters (pool : list Student) (pairs : list (list Z))
  : list (list Z) :=
  filter (fun pair => existsb (fun studentId => existsb (hasId studentId) pool) pair)
         pairs.

(** The groups with the waiting students of the first cluster in the
    first group, of the second in the second, and so on. *)
Fixpoint seatClusters (pool : list Student) (clusters : list (list Z))
  (gs : list Group) : list Group :=
  match clusters, gs with
  | cluster :: clusters', g :: gs' =>
      Group.withStudents (named pool cluster) g :: seatClusters pool clusters' gs'
  | _, _ => gs
  end.

Lemma seatClusters_length pool : forall clusters gs,
  List.length (seatClusters pool clusters gs) = List.length gs.
Proof.
  induction clusters as [|c clusters IH]; intros [|g gs]; cbn; auto.
Qed.

Lemma seatClusters_nth pool : forall clusters gs j,
  nth_error (seatClusters pool clusters gs) j
  = match nth_error gs j with
    | Some g =>
        Some (match nth_error clusters j with
              | Some cluster => Group.withStudents (named pool cluster) g
              | None => g
              end)
    | None => None
    end.
Proof.
  induction clusters as [|c clusters IH]; intros [|g gs] [|j];
    cbn [seatClusters nth_error]; try reflexivity.
  - now destruct (nth_error gs j).
  - apply IH.
Qed.

Definition indexedFrom (A : Type) (k : nat) (l : list A) : list (nat * A) :=
  combine (seq k (List.length l)) l.

Lemma indexedFrom_app (A : Type) (l1 l2 : list A) : forall k,
  indexedFrom k (l1 ++ l2)
  = indexedFrom k l1 ++ indexedFrom (k + List.length l1) l2.
Proof.
  unfold indexedFrom. induction l1 as [|x l1 IH]; intros k; cbn.
  - now rewrite Nat.add_0_r.
  - rewrite IH. now rewrite Nat.add_succ_r.
Qed.

Lemma indexedFrom_snd (A : Type) (l : list A) : forall k p,
  In p (indexedFrom k l) -> In (snd p) l.
Proof.
  unfold indexedFrom. induction l as [|x l IH]; intros k p; cbn; [tauto|].
  intros [<-|H]; [now left|right; eauto].
Qed.

Section FirstEmpty.
Variable requiredCapacity : nat.
Hypothesis fits_empty :
  (requiredCapacity <= SameGroupHandler.maxStudentsPerGroup)%nat.

Let step := fun minGroup currentGroup : nat * Group =>
  if (Group.size (snd currentGroup) <? Group.size (snd minGroup))%nat
  then currentGroup else minGroup.

Lemma reduce_stays (x : nat * Group) (l : list (nat * Group)) :
  Group.size (snd x) = 0%nat -> fold_left step l x = x.
Proof.
  intros Z0. induction l as [|c l IH]; [reflexivity|].
  cbn [fold_left]. unfold step at 2. rewrite Z0.
  destruct (Nat.ltb_spec (Group.size (snd c)) 0); [lia|exact IH].
Qed.

Lemma reduce_reaches (x : nat * Group) (after : list (nat * Group)) :
  Group.size (snd x) = 0%nat ->
  forall before m,
    (0 < Group.size (snd m))%nat ->
    Forall (fun p => (0 < Group.size (snd p))%nat) before ->
    fold_left step (before ++ x :: after) m = x.
Proof.
  intros Z0. induction before as [|c before IH]; intros m Hm Hb.
  - cbn [app fold_left]. unfold step at 2. rewrite Z0.
    destruct (Nat.ltb_spec 0 (Group.size (snd m))); [|lia].
    now apply reduce_stays.
  - inversion Hb as [|? ? Hc Hb']; subst. cbn [app fold_left].
    apply IH; [|exact Hb']. unfold step.
    now destruct (Group.size (snd c) <? Group.size (snd m))%nat.
Qed.

Lemma leastOf_first_empty (x : nat * Group) (before after : list (nat * Group)) :
  Group.size (snd x) = 0%nat ->
  Forall (fun p => (0 < Group.size (snd p))%nat) before ->
  SameGroupHandler.leastOf (before ++ x :: after) = Returned (fst x).
Proof.
  intros Z0 Hb. unfold SameGroupHandler.leastOf. fold step.
  destruct before as [|m before]; cbn [app].
  - now rewrite reduce_stays.
  - inversion Hb; subst. now rewrite reduce_reaches.
Qed.

(** With groups that hold students followed by empty groups, a cluster
    of at most eight is sent to the first empty group. *)
Lemma findAvailableGroup_first_empty (filled empties : list Group) (e : Group) :
  Forall (fun g => Group.students g <> []) filled ->
  Group.students e = [] ->
  SameGroupHandler.findAvailableGroup (filled ++ e :: empties) requiredCapacity
  = Returned (List.length filled).
Proof.
  intros Hf He. unfold SameGroupHandler.findAvailableGroup. cbv zeta.
  set (fits := fun ig : nat * Group =>
                 SameGroupHandler.canFitInGroup (snd ig) requiredCapacity).
  change (indexed (filled ++ e :: empties))
    with (indexedFrom 0 (filled ++ e :: empties)).
  rewrite indexedFrom_app. cbn [Nat.add].
  change (indexedFrom (List.length filled) (e :: empties))
    with ((List.length filled, e)
            :: indexedFrom (S (List.length filled)) empties).
  rewrite filter_app. cbn [filter].
  assert (Fe : fits (List.length filled, e) = true).
  { unfold fits, SameGroupHandler.canFitInGroup, Group.size. cbn [snd].
    rewrite He. now apply Nat.leb_le. }
  rewrite Fe.
  assert (Pos : Forall (fun p => (0 < Group.size (snd p))%nat)
                       (filter fits (indexedFrom 0 filled))).
  { apply Forall_forall. intros p Hp. apply filter_In in Hp. destruct Hp as [Hp _].
    apply indexedFrom_snd in Hp. rewrite Forall_forall in Hf.
    specialize (Hf _ Hp). unfold Group.size.
    destruct (Group.students (snd p)); [congruence|cbn; lia]. }
  assert (Z0 : Group.size (snd (List.length filled, e)) = 0%nat)
    by (unfold Group.size; cbn [snd]; now rewrite He).
  pose proof (leastOf_first_empty
                (filter fits (indexedFrom (S (List.length filled)) empties))
                Z0 Pos) as L.
  cbn [fst] in L. rewrite <- L.
  now destruct (filter fits (indexedFrom 0 filled)).
Qed.

End FirstEmpty.

Lemma updateNth_middle (A : Type) (l1 l2 : list A) x v :
  updateNth (List.length l1) v (l1 ++ x :: l2) = l1 ++ v :: l2.
Proof. induction l1 as [|y l1 IH]; cbn; [reflexivity|now rewrite IH]. Qed.

Lemma named_nonempty pool ids :
  existsb (fun studentId => existsb (hasId studentId) pool) ids = true
  <-> named pool ids <> [].
Proof.
  induction ids as [|x ids IH]; cbn [existsb named flat_map].
  - split; [discriminate|congruence].
  - fold (named pool ids). rewrite orb_true_iff, IH.
    destruct (find (hasId x) pool) as [s|] eqn:F.
    + assert (existsb (hasId x) pool = true).
      { apply find_some in F. apply existsb_exists. now exists s. }
      split; [intros _; discriminate|now left].
    + assert (existsb (hasId x) pool = false).
      { apply not_true_iff_false. intros H. apply existsb_exists in H.
        destruct H as (s & Hs & E). eapply find_none in F; [|exact Hs]. congruence. }
      cbn [app]. split; [intros [H'|H']; [congruence|exact H']|now right].
Qed.

Lemma waitingClusters_cons pool aPair pairs :
  waitingClusters pool (aPair :: pairs)
  = if existsb (fun studentId => existsb (hasId studentId) pool) aPair
    then aPair :: waitingClusters pool pairs
    else waitingClusters pool pairs.
Proof. reflexivity. Qed.

Lemma placePairs_fills pool : forall pairs filled empties P,
  Forall (fun g => Group.students g <> []) filled ->
  Forall (fun g => Group.students g = []) empties ->
  NoDup (concat pairs) ->
  (forall x, In x (concat pairs) -> ~ In x P) ->
  Forall (fun pair => (List.length pair
                       <= SameGroupHandler.maxStudentsPerGroup)%nat) pairs ->
  (List.length (waitingClusters pool pairs) <= List.length empties)%nat ->
  exists P',
    SameGroupHandler.placePairs pairs pool (filled ++ empties) P
    = Returned (filled ++ seatClusters pool (waitingClusters pool pairs) empties, P').
Proof.
  induction pairs as [|aPair pairs IH]; intros filled empties P Hf He ND Fresh Small Room;
    cbn [SameGroupHandler.placePairs].
  - exists P. reflexivity.
  - cbn [concat] in ND, Fresh.
    inversion Small as [|? ? Sa Small']; subst.
    assert (ND' : NoDup (concat pairs)) by (eapply NoDup_app_remove_l; exact ND).
    set (waiting := fun studentId =>
                      existsb (hasId studentId) pool && negb (Set_has P studentId)).
    assert (W : forall x, In x aPair -> waiting x = existsb (hasId x) pool).
    { intros x Hx. unfold waiting.
      assert (E : Set_has P x = false).
      { apply not_true_iff_false. intros H. apply Set_has_In in H.
        apply (Fresh x); [apply in_or_app; now left|exact H]. }
      rewrite E. apply andb_true_r. }
    pose proof (named_filter W) as NF.
    assert (EW : existsb (fun studentId => existsb (hasId studentId) pool) aPair
                 = match filter waiting aPair with [] => false | _ :: _ => true end).
    { clear - W. induction aPair as [|x aPair IHa]; [reflexivity|].
      cbn [existsb filter]. rewrite (W x (or_introl eq_refl)).
      destruct (existsb (hasId x) pool); [reflexivity|]. cbn [orb].
      apply IHa. intros y Hy. apply W. now right. }
    rewrite waitingClusters_cons, EW in Room. rewrite waitingClusters_cons, EW.
    destruct (filter waiting aPair) as [|a0 available] eqn:EA.
    + apply IH; try assumption.
      intros x Hx. apply Fresh. apply in_or_app. now right.
    + assert (NE : named pool aPair <> []).
      { apply named_nonempty. rewrite EW. reflexivity. }
      clear EW. rewrite <- EA in *.
      destruct empties as [|e empties]; [cbn in Room; lia|].
      inversion He as [|? ? Ee He']; subst.
      assert (Cap : (List.length (filter waiting aPair)
                     <= SameGroupHandler.maxStudentsPerGroup)%nat).
      { pose proof (filter_length_le waiting aPair). lia. }
      rewrite (findAvailableGroup_first_empty Cap empties Hf Ee), bind_Returned.
      assert (Ni : nth_error (filled ++ e :: empties) (List.length filled) = Some e).
      { rewrite nth_error_app2 by lia. now rewrite Nat.sub_diag. }
      destruct (@addAll_exact (List.length filled) pool (filter waiting aPair)
                  (filled ++ e :: empties) P e Ni) as (P1 & EQ).
      pose proof (addAll_trace EQ) as (_ & _ & _ & PS).
      rewrite EQ, bind_Returned. rewrite Ee, NF in *. cbn [app] in *.
      set (g1 := Group.withStudents (named pool aPair) e) in *.
      rewrite updateNth_middle.
      destruct (IH (filled ++ [g1]) empties P1) as (P' & R); try assumption.
      { apply Forall_app. split; [exact Hf|]. constructor; [|constructor].
        unfold g1. cbn [Group.withStudents Group.students]. exact NE. }
      { intros x Hx HP. apply PS in HP. destruct HP as [HP|[HP _]].
        - apply (Fresh x); [apply in_or_app; now right|exact HP].
        - apply filter_In in HP. destruct HP as [HP _].
          exact (NoDup_app_apart ND HP Hx). }
      { cbn [List.length] in Room. lia. }
      exists P'. rewrite <- !app_assoc in R. cbn [app] in R. rewrite R.
      reflexivity.
Qed.

(** X28.  On empty groups, clusters that share no seat number and name
    at most eight numbers each are each given a group of their own, as
    long as there are groups enough for the clusters that have a student
    waiting: the loop over the clusters returns, and the k-th of these
    clusters has its waiting students, in the order of the cluster, as
    the whole of group k; the groups after them stay empty.  So every
    group ends empty or with exactly the waiting students of one cluster,
    and none with more than eight. *)
Theorem sameGroup_gives_every_cluster_a_group (pool : list Student)
  (pairs : list (list Z)) (gs : list Group) :
  members gs = [] ->
  NoDup (concat pairs) ->
  Forall (fun pair => (List.length pair
                       <= SameGroupHandler.maxStudentsPerGroup)%nat) pairs ->
  (List.length (waitingClusters pool pairs) <= List.length gs)%nat ->
  exists gs' processed',
    SameGroupHandler.placePairs pairs pool gs [] = Returned (gs', processed')
    /\ gs' = seatClusters pool (waitingClusters pool pairs) gs
    /\ List.length gs' = List.length gs
    /\ (forall k pair, nth_error (waitingClusters pool pairs) k = Some pair ->
          exists g g', nth_error gs k = Some g /\ nth_error gs' k = Some g'
                       /\ Group.id g' = Group.id g
                       /\ Group.students g' = named pool pair
                       /\ named pool pair <> [])
    /\ (forall j g, nth_error gs j = Some g ->
          exists g', nth_error gs' j = Some g'
                     /\ Group.id g' = Group.id g
                     /\ (Group.students g' = []
                         \/ exists pair, In pair pairs
                                         /\ Group.students g' = named pool pair))
    /\ (forall j, (sizeAt gs' j <= SameGroupHandler.maxStudentsPerGroup)%nat).
Proof.
  intros Empty ND Small Count.
  pose proof (members_nil_all_empty Empty) as AE.
  destruct (@placePairs_fills pool pairs [] gs [] (Forall_nil _) AE ND) as (P' & R).
  { intros x _ []. }
  { exact Small. }
  { exact Count. }
  cbn [app] in R.
  exists (seatClusters pool (waitingClusters pool pairs) gs), P'.
  split; [exact R|]. split; [reflexivity|].
  split; [apply seatClusters_length|].
  assert (Each : forall j g, nth_error gs j = Some g ->
            exists g', nth_error (seatClusters pool (waitingClusters pool pairs) gs) j
                       = Some g'
                       /\ Group.id g' = Group.id g
                       /\ (Group.students g' = []
                           \/ exists pair, In pair pairs
                                           /\ Group.students g' = named pool pair)).
  { intros j g N. rewrite seatClusters_nth, N.
    destruct (nth_error (waitingClusters pool pairs) j) as [pair|] eqn:Np.
    - eexists. split; [reflexivity|]. split; [reflexivity|]. right.
      exists pair. split; [|reflexivity].
      apply nth_error_In in Np. apply filter_In in Np. tauto.
    - exists g. split; [reflexivity|]. split; [reflexivity|]. left.
      rewrite Forall_forall in AE. apply AE. eapply nth_error_In; eassumption. }
  split; [|split; [exact Each|]].
  - intros k pair Np.
    assert (Hk : (k < List.length gs)%nat).
    { assert (k < List.length (waitingClusters pool pairs))%nat
        by (apply nth_error_Some; congruence). lia. }
    destruct (nth_error gs k) as [g|] eqn:N.
    2:{ apply nth_error_None in N. lia. }
    exists g, (Group.withStudents (named pool pair) g).
    split; [reflexivity|]. rewrite seatClusters_nth, N, Np.
    split; [reflexivity|]. split; [reflexivity|]. split; [reflexivity|].
    apply named_nonempty. apply nth_error_In in Np. apply filter_In in Np. tauto.
  - intros j. unfold sizeAt.
    destruct (nth_error (seatClusters pool (waitingClusters pool pairs) gs) j)
      as [g'|] eqn:N'; [|lia].
    destruct (nth_error gs j) as [g|] eqn:N.
    + destruct (Each j g N) as (g2 & N2 & _ & K). rewrite N' in N2.
      injection N2 as <-. unfold Group.size.
      destruct K as [->|(pair & Hp & ->)]; [cbn; lia|].
      rewrite Forall_forall in Small. pose proof (Small pair Hp).
      pose proof (named_length pool pair). lia.
    + rewrite seatClusters_nth, N in N'. discriminate.
Qed.

Lemma sameGroup_gives_every_cluster_a_group_witness :
  let pool := seated [1; 2; 3] male ++ seated [4; 5] female in
  let pairs := [[1; 2]; [8; 9]; [4; 5; 7]] in
  let gs := [ Group.make 1 1 []; Group.make 2 2 []; Group.make 3 3 [] ] in
  exists gs' processed',
    SameGroupHandler.placePairs pairs pool gs [] = Returned (gs', processed')
    /\ gs' = seatClusters pool (waitingClusters pool pairs) gs
    /\ List.length gs' = List.length gs
    /\ (forall k pair, nth_error (waitingClusters pool pairs) k = Some pair ->
          exists g g', nth_error gs k = Some g /\ nth_error gs' k = Some g'
                       /\ Group.id g' = Group.id g
                       /\ Group.students g' = named pool pair
                       /\ named pool pair <> [])
    /\ (forall j g, nth_error gs j = Some g ->
          exists g', nth_error gs' j = Some g'
                     /\ Group.id g' = Group.id g
                     /\ (Group.students g' = []
                         \/ exists pair, In pair pairs
                                         /\ Group.students g' = named pool pair))
    /\ (forall j, (sizeAt gs' j <= SameGroupHandler.maxStudentsPerGroup)%nat).
Proof.
  apply (@sameGroup_gives_every_cluster_a_group
           (seated [1; 2; 3] male ++ seated [4; 5] female)
           [[1; 2]; [8; 9]; [4; 5; 7]]
           [ Group.make 1 1 []; Group.make 2 2 []; Group.make 3 3 [] ]).
  - reflexivity.
  - cbn. repeat constructor; simpl; intuition discriminate.
  - repeat constructor; cbn; lia.
  - vm_compute. lia.
Defined.

(** The clusters 1, 2 and 4, 5, 7 have students waiting, the cluster 8, 9
    has none and takes no group. *)
Example sameGroup_clusters_scenario :
  exists processed',
    SameGroupHandler.placePairs
      [[1; 2]; [8; 9]; [4; 5; 7]]
      (seated [1; 2; 3] male ++ seated [4; 5] female)
      [ Group.make 1 1 []; Group.make 2 2 []; Group.make 3 3 [] ] []
    = Returned ([ Group.make 1 1 (seated [1; 2] male);
                  Group.make 2 2 (seated [4; 5] female);
                  Group.make 3 3 [] ], processed').
Proof. eexists. vm_compute. reflexivity. Qed.

(* ================================================================== *)
(** * GenderRatioHandler: the boys are spread evenly                   *)
(* ================================================================== *)

Section SortHeadOn.
Variable A : Type.
Variable cmp : A -> A -> Z.
Variable key : A -> Z.
Variable Q : A -> Prop.
Hypothesis cmp_le : forall a b, Q a -> Q b -> cmp a b <= 0 -> key a <= key b.
Hypothesis cmp_gt : forall a b, Q a -> Q b -> 0 < cmp a b -> key b <= key a.

Lemma sortInsert_head_on x : forall sorted h t,
  Q x -> Forall Q sorted ->
  (forall h' t', sorted = h' :: t' -> forall y, In y sorted -> key h' <= key y) ->
  sortInsert cmp x sorted = h :: t ->
  forall y, In y (x :: sorted) -> key h <= key y.
Proof.
  intros [|y0 l] h t Qx Qs M E y Hy; cbn [sortInsert] in E.
  - injection E as <- <-. destruct Hy as [<-|[]]. lia.
  - specialize (M y0 l eq_refl). inversion Qs as [|? ? Q0 _]; subst.
    destruct (Z.leb_spec (cmp x y0) 0) as [L|L]; injection E as <- <-.
    + destruct Hy as [<-|Hy]; [lia|].
      pose proof (cmp_le Qx Q0 L). pose proof (M y Hy). lia.
    + destruct Hy as [<-|Hy]; [now apply cmp_gt|]. now apply M.
Qed.

Lemma Array_sort_head_on (l : list A) : forall h t,
  Forall Q l ->
  Array_sort cmp l = h :: t -> forall y, In y l -> key h <= key y.
Proof.
  induction l as [|x l IH]; intros h t QL E y Hy; [destruct Hy|].
  inversion QL as [|? ? Qx Ql]; subst.
  cbn [Array_sort fold_right] in E. fold (Array_sort cmp l) in E.
  assert (K : forall y, In y (x :: Array_sort cmp l) -> key h <= key y).
  { apply (sortInsert_head_on (t := t)); [exact Qx| | |exact E].
    - eapply Permutation_Forall; [apply Permutation_sym, Array_sort_perm|exact Ql].
    - intros h' t' E' z Hz. apply (IH h' t' Ql E').
      eapply Permutation_in; [apply Array_sort_perm|exact Hz]. }
  destruct Hy as [<-|Hy]; [apply K; now left|].
  apply K. right. eapply Permutation_in; [apply Permutation_sym, Array_sort_perm|].
  exact Hy.
Qed.

End SortHeadOn.

(** A statistic of a group without girls. *)
Definition boysOnly (s : GenderRatioHandler.Stat) : Prop :=
  GenderRatioHandler.females s = 0%nat
  /\ GenderRatioHandler.males s = GenderRatioHandler.total s.

(** For a boy, among groups without girls, the comparator ranks by
    size: the excess over the ideal size grows with the size, and the
    second key is the number of boys. *)
Lemma compareStats_boys ideal a b :
  boysOnly a -> boysOnly b ->
  (GenderRatioHandler.compareStats male ideal a b <= 0 ->
   Z.of_nat (GenderRatioHandler.total a) <= Z.of_nat (GenderRatioHandler.total b))
  /\ (0 < GenderRatioHandler.compareStats male ideal a b ->
      Z.of_nat (GenderRatioHandler.total b) <= Z.of_nat (GenderRatioHandler.total a)).
Proof.
  intros [Fa Ma] [Fb Mb].
  unfold GenderRatioHandler.compareStats, GenderRatioHandler.overCapacity.
  cbv zeta. rewrite Fa, Fb, Ma, Mb.
  destruct (Z.eqb_spec
              (Z.max 0 (Z.of_nat (GenderRatioHandler.total a) + 1 - Z.of_nat ideal))
              (Z.max 0 (Z.of_nat (GenderRatioHandler.total b) + 1 - Z.of_nat ideal)));
    cbn [negb]; [|lia].
  destruct (Z.eqb_spec (Z.of_nat 0 - Z.of_nat (GenderRatioHandler.total a))
                       (Z.of_nat 0 - Z.of_nat (GenderRatioHandler.total b)));
    cbn [negb]; lia.
Qed.

Lemma place_boys_level ideal d shuffled : forall stats gs,
  (1 <= d)%nat ->
  statsTrack stats gs -> Forall boysOnly stats ->
  (0 < List.length gs)%nat ->
  spreadWithin d gs ->
  exists stats' gs',
    GenderRatioHandler.place male ideal shuffled stats gs = Returned (stats', gs')
    /\ statsTrack stats' gs'
    /\ List.length gs' = List.length gs
    /\ spreadWithin d gs'.
Proof.
  induction shuffled as [|student shuffled IH]; intros stats gs Hd Tr Boys HG Sp.
  - exists stats, gs. cbn. auto.
  - cbn [GenderRatioHandler.place].
    pose proof (Array_sort_perm (GenderRatioHandler.compareStats male ideal) stats)
      as PS.
    pose proof (@Array_sort_head_on _ (GenderRatioHandler.compareStats male ideal)
                  (fun s => Z.of_nat (GenderRatioHandler.total s)) boysOnly
                  (fun a b Qa Qb => proj1 (compareStats_boys ideal Qa Qb))
                  (fun a b Qa Qb => proj2 (compareStats_boys ideal Qa Qb))
                  stats) as Head.
    destruct (Array_sort (GenderRatioHandler.compareStats male ideal) stats)
      as [|target others] eqn:ES.
    { apply Permutation_nil in PS. subst stats. destruct Tr as [I _].
      cbn in I. apply Permutation_length in I. rewrite length_seq in I.
      cbn in I. lia. }
    specialize (Head target others Boys eq_refl).
    assert (Tr' : statsTrack (target :: others) gs)
      by (eapply statsTrack_perm; [apply Permutation_sym, PS|exact Tr]).
    destruct Tr' as [I T].
    assert (Boys' : Forall boysOnly (target :: others))
      by (eapply Permutation_Forall; [apply Permutation_sym, PS|exact Boys]).
    assert (Lt : (GenderRatioHandler.index target < List.length gs)%nat).
    { assert (In (GenderRatioHandler.index target) (seq 0 (List.length gs)))
        by (eapply Permutation_in; [exact I|now left]).
      apply in_seq in H. lia. }
    assert (Least : forall j, (j < List.length gs)%nat ->
                (sizeAt gs (GenderRatioHandler.index target) <= sizeAt gs j)%nat).
    { intros j Hj.
      assert (Ij : In j (map GenderRatioHandler.index (target :: others))).
      { eapply Permutation_in; [apply Permutation_sym, I|]. apply in_seq. lia. }
      apply in_map_iff in Ij. destruct Ij as (s & <- & Hs).
      rewrite Forall_forall in T.
      rewrite <- (T target (or_introl eq_refl)), <- (T s Hs).
      assert (In s stats) by (eapply Permutation_in; [exact PS|exact Hs]).
      specialize (Head s H). lia. }
    rewrite pushStudent_give by exact Lt. rewrite bind_Returned.
    assert (ND : NoDup (map GenderRatioHandler.index (target :: others))).
    { eapply Permutation_NoDup; [apply Permutation_sym, I|apply seq_NoDup]. }
    cbn [map] in ND. inversion ND as [|? ? Nt _]; subst.
    inversion T as [|? ? Tt To]; subst.
    inversion Boys' as [|? ? Bt Bo]; subst.
    destruct (IH (GenderRatioHandler.count male target :: others)
                 (give (GenderRatioHandler.index target) student gs) Hd)
      as (stats' & gs' & E & Tr2 & L2 & S2).
    + split.
      * cbn [map]. rewrite count_index, give_length. exact I.
      * constructor.
        -- rewrite count_index, count_total, sizeAt_give by exact Lt.
           rewrite Nat.eqb_refl. lia.
        -- apply Forall_forall. intros s Hs. rewrite Forall_forall in To.
           rewrite sizeAt_give by exact Lt.
           destruct (Nat.eqb_spec (GenderRatioHandler.index s)
                                  (GenderRatioHandler.index target)) as [Ei|NEi].
           ++ exfalso. apply Nt. rewrite <- Ei. now apply in_map.
           ++ rewrite (To s Hs). lia.
    + constructor; [|exact Bo]. destruct Bt as [Bf Bm].
      split; cbn; [exact Bf|now rewrite Bm].
    + now rewrite give_length.
    + intros a b Ha Hb. rewrite give_length in Ha, Hb.
      rewrite !sizeAt_give by exact Lt.
      specialize (Sp a b Ha Hb). pose proof (Least b Hb).
      destruct (Nat.eqb_spec a (GenderRatioHandler.index target)),
               (Nat.eqb_spec b (GenderRatioHandler.index target)); subst; lia.
    + exists stats', gs'. rewrite give_length in L2. auto.
Qed.

Lemma place_counts (p : Student -> bool) g ideal shuffled : forall stats gs stats' gs',
  Forall (fun s => p s = false) shuffled ->
  GenderRatioHandler.place g ideal shuffled stats gs = Returned (stats', gs') ->
  forall j, countAt p gs' j = countAt p gs j.
Proof.
  induction shuffled as [|student shuffled IH]; intros stats gs stats' gs' NP;
    cbn [GenderRatioHandler.place].
  - intros [= <- <-] j. reflexivity.
  - inversion NP as [|? ? Ps NP']; subst.
    destruct (Array_sort _ stats) as [|target others]; [discriminate|].
    destruct (pushStudent (GenderRatioHandler.index target) student gs)
      as [gs1| |] eqn:EP; try discriminate.
    apply pushStudent_Returned in EP. destruct EP as [-> Ht].
    rewrite bind_Returned. intros R j.
    rewrite (IH _ _ _ _ NP' R j), countAt_give by exact Ht.
    rewrite Ps. destruct (j =? _)%nat; lia.
Qed.

Lemma all_boys_countAt gs j :
  Forall (fun s => isMale s = true) (members gs) ->
  countAt isMale gs j = sizeAt gs j.
Proof.
  intros H. unfold countAt, sizeAt, Group.size.
  destruct (nth_error gs j) as [g|] eqn:N; [|reflexivity].
  rewrite filter_all; [reflexivity|].
  intros s Hs. rewrite Forall_forall in H. apply H.
  unfold members. apply in_flat_map. exists g. split; [|exact Hs].
  eapply nth_error_In; eassumption.
Qed.

Lemma girl_is_no_boy s : isFemale s = true -> isMale s = false.
Proof. unfold isFemale, isMale. now destruct (Student.gender s). Qed.

Lemma boy_is_no_girl s : isMale s = true -> isFemale s = false.
Proof. unfold isFemale, isMale. now destruct (Student.gender s). Qed.

Lemma statOf_boysOnly gs :
  Forall (fun s => isMale s = true) (members gs) ->
  Forall boysOnly (map GenderRatioHandler.statOf (indexed gs)).
Proof.
  intros H. apply Forall_forall. intros st Hst. apply in_map_iff in Hst.
  destruct Hst as ([i g] & <- & Hig). apply In_indexed in Hig.
  assert (F0 : filter isFemale (Group.students g) = []).
  { apply filter_nil_iff. intros s Hs. apply boy_is_no_girl.
    rewrite Forall_forall in H. apply H. unfold members.
    apply in_flat_map. exists g. split; [|exact Hs].
    eapply nth_error_In; eassumption. }
  unfold boysOnly, GenderRatioHandler.statOf. cbn. rewrite F0. cbn. lia.
Qed.

(** Every boy goes to a group that is least occupied when he is placed:
    a group that has grown is, from then on, at most one ahead of any
    other group. *)
Lemma place_boys_least ideal (base : nat -> nat) shuffled : forall stats gs,
  statsTrack stats gs -> Forall boysOnly stats ->
  (0 < List.length gs)%nat ->
  (forall i j, (i < List.length gs)%nat -> (j < List.length gs)%nat ->
      sizeAt gs i = base i \/ (sizeAt gs i <= sizeAt gs j + 1)%nat) ->
  exists stats' gs',
    GenderRatioHandler.place male ideal shuffled stats gs = Returned (stats', gs')
    /\ List.length gs' = List.length gs
    /\ (forall i j, (i < List.length gs)%nat -> (j < List.length gs)%nat ->
          sizeAt gs' i = base i \/ (sizeAt gs' i <= sizeAt gs' j + 1)%nat).
Proof.
  induction shuffled as [|student shuffled IH]; intros stats gs Tr Boys HG Inv.
  - exists stats, gs. cbn. auto.
  - cbn [GenderRatioHandler.place].
    pose proof (Array_sort_perm (GenderRatioHandler.compareStats male ideal) stats)
      as PS.
    pose proof (@Array_sort_head_on _ (GenderRatioHandler.compareStats male ideal)
                  (fun s => Z.of_nat (GenderRatioHandler.total s)) boysOnly
                  (fun a b Qa Qb => proj1 (compareStats_boys ideal Qa Qb))
                  (fun a b Qa Qb => proj2 (compareStats_boys ideal Qa Qb))
                  stats) as Head.
    destruct (Array_sort (GenderRatioHandler.compareStats male ideal) stats)
      as [|target others] eqn:ES.
    { apply Permutation_nil in PS. subst stats. destruct Tr as [I _].
      cbn in I. apply Permutation_length in I. rewrite length_seq in I.
      cbn in I. lia. }
    specialize (Head target others Boys eq_refl).
    assert (Tr' : statsTrack (target :: others) gs)
      by (eapply statsTrack_perm; [apply Permutation_sym, PS|exact Tr]).
    destruct Tr' as [I T].
    assert (Boys' : Forall boysOnly (target :: others))
      by (eapply Permutation_Forall; [apply Permutation_sym, PS|exact Boys]).
    assert (Lt : (GenderRatioHandler.index target < List.length gs)%nat).
    { assert (In (GenderRatioHandler.index target) (seq 0 (List.length gs)))
        by (eapply Permutation_in; [exact I|now left]).
      apply in_seq in H. lia. }
    assert (Least : forall j, (j < List.length gs)%nat ->
                (sizeAt gs (GenderRatioHandler.index target) <= sizeAt gs j)%nat).
    { intros j Hj.
      assert (Ij : In j (map GenderRatioHandler.index (target :: others))).
      { eapply Permutation_in; [apply Permutation_sym, I|]. apply in_seq. lia. }
      apply in_map_iff in Ij. destruct Ij as (s & <- & Hs).
      rewrite Forall_forall in T.
      rewrite <- (T target (or_introl eq_refl)), <- (T s Hs).
      assert (In s stats) by (eapply Permutation_in; [exact PS|exact Hs]).
      specialize (Head s H). lia. }
    rewrite pushStudent_give by exact Lt. rewrite bind_Returned.
    assert (ND : NoDup (map GenderRatioHandler.index (target :: others))).
    { eapply Permutation_NoDup; [apply Permutation_sym, I|apply seq_NoDup]. }
    cbn [map] in ND. inversion ND as [|? ? Nt _]; subst.
    inversion T as [|? ? Tt To]; subst.
    inversion Boys' as [|? ? Bt Bo]; subst.
    destruct (IH (GenderRatioHandler.count male target :: others)
                 (give (GenderRatioHandler.index target) student gs))
      as (stats' & gs' & E & L2 & Inv2).
    + split.
      * cbn [map]. rewrite count_index, give_length. exact I.
      * constructor.
        -- rewrite count_index, count_total, sizeAt_give by exact Lt.
           rewrite Nat.eqb_refl. lia.
        -- apply Forall_forall. intros s Hs. rewrite Forall_forall in To.
           rewrite sizeAt_give by exact Lt.
           destruct (Nat.eqb_spec (GenderRatioHandler.index s)
                                  (GenderRatioHandler.index target)) as [Ei|NEi].
           ++ exfalso. apply Nt. rewrite <- Ei. now apply in_map.
           ++ rewrite (To s Hs). lia.
    + constructor; [|exact Bo]. destruct Bt as [Bf Bm].
      split; cbn; [exact Bf|now rewrite Bm].
    + now rewrite give_length.
    + intros a b Ha Hb. rewrite give_length in Ha, Hb.
      rewrite !sizeAt_give by exact Lt.
      specialize (Inv a b Ha Hb). pose proof (Least b Hb).
      destruct (Nat.eqb_spec a (GenderRatioHandler.index target)),
               (Nat.eqb_spec b (GenderRatioHandler.index target)); subst; lia.
    + exists stats', gs'. rewrite !give_length in *. auto.
Qed.

Lemma isFemale_not_male s : isFemale s = negb (isMale s).
Proof. unfold isFemale, isMale. now destruct (Student.gender s). Qed.

(** X29.  When no girl is seated yet, [GenderRatioHandler] (with its
    condition enabled, and on at least one group) seats every student of
    the pool and sends every boy to a group that is least occupied when
    he is placed, whatever the ideal size: a group that has received a
    boy ends with at most one boy more than any other group.  So the
    numbers of boys in two groups differ afterwards by at most what the
    group sizes differed by before, and by one at most when the groups
    were empty. *)
Theorem genderRatio_spreads_the_boys (context : GroupingContext)
  (rs : RandomSource) (d : nat) :
  (0 < List.length (Context.groups context))%nat ->
  (1 <= d)%nat ->
  Forall (fun s => isMale s = true) (members (Context.groups context)) ->
  spreadWithin d (Context.groups context) ->
  exists result rs',
    GenderRatioHandler.process context rs = Returned (result, rs')
    /\ List.length (Result.groups result) = List.length (Context.groups context)
    /\ (findCondition "gender-ratio" context <> None ->
        Permutation (members (Result.groups result))
                    (Context.remainingStudents context
                       ++ members (Context.groups context)))
    /\ (forall i j,
          (i < List.length (Context.groups context))%nat ->
          (j < List.length (Context.groups context))%nat ->
          countAt isMale (Result.groups result) i
          = countAt isMale (Context.groups context) i
          \/ (countAt isMale (Result.groups result) i
              <= countAt isMale (Result.groups result) j + 1)%nat)
    /\ (forall i j,
          (i < List.length (Context.groups context))%nat ->
          (j < List.length (Context.groups context))%nat ->
          (countAt isMale (Result.groups result) i
           <= countAt isMale (Result.groups result) j + d)%nat).
Proof.
  intros HG Hd Boys Sp. unfold GenderRatioHandler.process.
  assert (Same : forall i j,
            (i < List.length (Context.groups context))%nat ->
            (j < List.length (Context.groups context))%nat ->
            (countAt isMale (Context.groups context) i
             <= countAt isMale (Context.groups context) j + d)%nat).
  { intros i j Hi Hj. rewrite !all_boys_countAt by exact Boys. now apply Sp. }
  destruct (findCondition "gender-ratio" context).
  2:{ eexists _, _. split; [reflexivity|]. cbn.
      split; [reflexivity|]. split; [congruence|]. split; [auto|exact Same]. }
  rewrite copyGroups_id.
  set (pool := Context.remainingStudents context) in *.
  set (gs := Context.groups context) in *.
  pose proof (filter_split_perm isMale pool) as Split.
  rewrite (filter_ext (fun x => negb (isMale x)) isFemale) in Split
    by (intros s; now rewrite isFemale_not_male).
  destruct ((List.length (filter isMale pool) =? 0)%nat
            && (List.length (filter isFemale pool) =? 0)%nat) eqn:Nobody.
  { eexists _, _. split; [reflexivity|]. cbn.
    split; [reflexivity|]. split; [|split; [auto|exact Same]].
    intros _. apply andb_true_iff in Nobody. destruct Nobody as [N1 N2].
    apply Nat.eqb_eq, length_zero_iff_nil in N1, N2. rewrite N1, N2 in Split.
    apply Permutation_nil in Split. now rewrite Split. }
  pose proof (shuffleArray_perm (filter isMale pool) rs) as PM.
  destruct (shuffleArray (filter isMale pool) rs) as [sm rs1].
  pose proof (shuffleArray_perm (filter isFemale pool) rs1) as PF.
  destruct (shuffleArray (filter isFemale pool) rs1) as [sf rs2].
  cbn [fst] in PM, PF.
  set (ideal := GenderRatioHandler.ceilDiv _ _).
  destruct (statOf_tracks gs) as (Tr & _ & _).
  destruct (@place_boys_level ideal d sm (map GenderRatioHandler.statOf (indexed gs))
              gs Hd Tr (statOf_boysOnly Boys) HG Sp)
    as (st1 & g1 & E1 & Tr1 & L1 & Sp1).
  destruct (@place_boys_least ideal (sizeAt gs) sm
              (map GenderRatioHandler.statOf (indexed gs)) gs Tr
              (statOf_boysOnly Boys) HG ltac:(auto))
    as (st1'' & g1'' & E1'' & _ & Least1).
  rewrite E1 in E1''. injection E1'' as <- <-.
  destruct (@place_ok male ideal sm (map GenderRatioHandler.statOf (indexed gs)) gs)
    as (st1' & g1' & E1' & N1 & F1 & _ & P1).
  { destruct gs; [cbn in HG; lia|discriminate]. }
  { apply Forall_forall. intros st Hst. apply in_map_iff in Hst.
    destruct Hst as ([i x] & <- & Hix). apply In_indexed in Hix. cbn.
    apply nth_error_Some. congruence. }
  rewrite E1 in E1'. injection E1' as <- <-.
  rewrite E1, bind_Returned.
  destruct (@place_ok female ideal sf st1 g1 N1 F1)
    as (st2 & g2 & E2 & _ & _ & L2 & P2).
  rewrite E2, bind_Returned.
  eexists _, _. split; [reflexivity|]. cbn [Result.groups].
  split; [lia|].
  assert (NB : Forall (fun s => isMale s = false) sf).
  { apply Forall_forall. intros s Hs. apply girl_is_no_boy.
    eapply Permutation_in in Hs; [|exact PF]. apply filter_In in Hs. tauto. }
  assert (B1 : Forall (fun s => isMale s = true) (members g1)).
  { apply Forall_forall. intros s Hs.
    eapply Permutation_in in Hs; [|exact P1]. apply in_app_or in Hs.
    destruct Hs as [Hs|Hs].
    - eapply Permutation_in in Hs; [|exact PM]. apply filter_In in Hs. tauto.
    - rewrite Forall_forall in Boys. now apply Boys. }
  split; [|split].
  - intros _.
    eapply Permutation_trans; [exact P2|].
    eapply Permutation_trans;
      [apply Permutation_app; [exact PF|exact P1]|].
    eapply Permutation_trans;
      [apply Permutation_app_head, Permutation_app_tail; exact PM|].
    rewrite app_assoc. apply Permutation_app_tail.
    eapply Permutation_trans; [apply Permutation_app_comm|exact Split].
  - intros i j Hi Hj. rewrite !(place_counts NB E2).
    rewrite !all_boys_countAt by assumption. now apply Least1.
  - intros i j Hi Hj. rewrite !(place_counts NB E2).
    rewrite !all_boys_countAt by exact B1. apply Sp1; lia.
Qed.

Lemma genderRatio_spreads_the_boys_witness :
  exists result rs',
    GenderRatioHandler.process ratioContext midpoint = Returned (result, rs')
    /\ List.length (Result.groups result) = List.length (Context.groups ratioContext)
    /\ (findCondition "gender-ratio" ratioContext <> None ->
        Permutation (members (Result.groups result))
                    (Context.remainingStudents ratioContext
                       ++ members (Context.groups ratioContext)))
    /\ (forall i j,
          (i < List.length (Context.groups ratioContext))%nat ->
          (j < List.length (Context.groups ratioContext))%nat ->
          countAt isMale (Result.groups result) i
          = countAt isMale (Context.groups ratioContext) i
          \/ (countAt isMale (Result.groups result) i
              <= countAt isMale (Result.groups result) j + 1)%nat)
    /\ (forall i j,
          (i < List.length (Context.groups ratioContext))%nat ->
          (j < List.length (Context.groups ratioContext))%nat ->
          (countAt isMale (Result.groups result) i
           <= countAt isMale (Result.groups result) j + 1)%nat).
Proof.
  apply (@genderRatio_spreads_the_boys ratioContext midpoint 1).
  - cbn. lia.
  - lia.
  - constructor.
  - intros i j _ _. assert (Z0 : forall k, sizeAt (Context.groups ratioContext) k = 0%nat)
      by (intros [|[|[|[|k]]]]; reflexivity).
    rewrite !Z0. lia.
Defined.

(* ================================================================== *)
(** * DifferentGroupHandler: a cluster whose seated members are apart  *)
(* ================================================================== *)

(** ** The map from seat numbers to groups *)

Lemma Map_set_keys m k v :
  map fst (Map_set m k v)
  = if Map_has m k then map fst m else map fst m ++ [k].
Proof.
  induction m as [|[a b] m IH]; [reflexivity|].
  cbn [Map_set]. unfold Map_has in *. cbn [Map_get].
  destruct (Z.eqb_spec a k) as [->|D]; [reflexivity|].
  cbn [map fst]. rewrite IH. now destruct (Map_get m k).
Qed.

Lemma Map_has_keys m k : Map_has m k = true <-> In k (map fst m).
Proof.
  unfold Map_has. induction m as [|[a b] m IH]; cbn [Map_get map fst In].
  - split; [discriminate|tauto].
  - destruct (Z.eqb_spec a k) as [->|D]; [tauto|].
    rewrite IH. split; [tauto|]. intros [E|H]; [contradiction|exact H].
Qed.

Lemma Map_set_NoDup m k v : NoDup (map fst m) -> NoDup (map fst (Map_set m k v)).
Proof.
  intros H. rewrite Map_set_keys. destruct (Map_has m k) eqn:E; [exact H|].
  apply NoDup_app; [exact H|repeat constructor; auto|].
  intros x Hx [<-|[]]. apply Map_has_keys in Hx. congruence.
Qed.

Lemma Map_get_value m k v : Map_get m k = Some v -> In v (map snd m).
Proof.
  induction m as [|[a b] m IH]; cbn [Map_get map snd In]; [discriminate|].
  destruct (a =? k); [intros [= ->]; now left|]. intros H. right. now apply IH.
Qed.

Lemma buildStudentGroupMap_NoDup gs studentIds :
  NoDup (map fst (DifferentGroupHandler.buildStudentGroupMap gs studentIds)).
Proof.
  unfold DifferentGroupHandler.buildStudentGroupMap.
  assert (Inner : forall i ss m, NoDup (map fst m) ->
            NoDup (map fst (fold_left
                              (DifferentGroupHandler.recordGroup studentIds i) ss m))).
  { induction ss as [|s ss IH]; intros m H; [exact H|].
    cbn [fold_left]. apply IH. unfold DifferentGroupHandler.recordGroup.
    destruct (existsb _ studentIds); [now apply Map_set_NoDup|exact H]. }
  assert (Outer : forall (l : list (nat * Group)) m, NoDup (map fst m) ->
            NoDup (map fst
                     (fold_left (fun m ig =>
                                   fold_left (DifferentGroupHandler.recordGroup
                                                studentIds (fst ig))
                                             (Group.students (snd ig)) m) l m))).
  { induction l as [|ig l IH]; intros m H; [exact H|].
    cbn [fold_left]. apply IH. now apply Inner. }
  apply Outer. constructor.
Qed.

Lemma IndexSet_add_In used i j : In j (IndexSet_add used i) <-> j = i \/ In j used.
Proof.
  unfold IndexSet_add. destruct (IndexSet_has used i) eqn:E.
  - apply IndexSet_has_In in E. split; [tauto|]. intros [->|H]; assumption.
  - rewrite in_app_iff. cbn. intuition.
Qed.

Lemma fold_IndexSet_add l : forall acc,
  NoDup acc ->
  NoDup (fold_left IndexSet_add l acc)
  /\ (forall j, In j (fold_left IndexSet_add l acc) <-> In j acc \/ In j l)
  /\ (List.length (fold_left IndexSet_add l acc)
      <= List.length acc + List.length l)%nat.
Proof.
  induction l as [|x l IH]; intros acc ND; cbn [fold_left].
  - split; [exact ND|]. split; [intros j; cbn; tauto|lia].
  - assert (ND' : NoDup (IndexSet_add acc x)).
    { unfold IndexSet_add. destruct (IndexSet_has acc x) eqn:E; [exact ND|].
      apply NoDup_app; [exact ND|repeat constructor; auto|].
      intros y Hy [<-|[]]. apply IndexSet_has_In in Hy. congruence. }
    destruct (IH _ ND') as (N & I & L). split; [exact N|]. split.
    + intros j. rewrite I, IndexSet_add_In. cbn [In].
      split; [intros [[->|H]|H] | intros [H|[->|H]]]; auto.
    + assert (List.length (IndexSet_add acc x) <= S (List.length acc))%nat.
      { unfold IndexSet_add. destruct (IndexSet_has acc x);
          [lia|rewrite length_app; cbn; lia]. }
      cbn [List.length]. lia.
Qed.

Section SeatedApart.
Variable gs : list Group.
Variable studentIds : list Z.
Hypothesis ids_NoDup : NoDup studentIds.
Hypothesis seats_NoDup : NoDup (map Student.id (members gs)).
Hypothesis apart : forall j, (countAt (inCluster studentIds) gs j <= 1)%nat.

Let M := DifferentGroupHandler.buildStudentGroupMap gs studentIds.
Let used := DifferentGroupHandler.valuesSet M.

Lemma seatedMap_has x :
  Map_has M x = true <-> In x studentIds /\ In x (map Student.id (members gs)).
Proof.
  split.
  - unfold Map_has. destruct (Map_get M x) as [c|] eqn:E; [|discriminate].
    intros _. apply scanGroups_get in E. destruct E as [E|(g & H1 & H2 & H3)];
      [discriminate|].
    split; [exact H2|]. apply In_indexed in H1.
    apply in_map_iff in H3. destruct H3 as (s & <- & Hs). apply in_map.
    unfold members. apply in_flat_map. exists g. split; [|exact Hs].
    eapply nth_error_In; eassumption.
  - intros [H1 H2]. apply studentGroupMap_has; [exact H1|]. now apply cnt_pos_In.
Qed.

(** The group a seated member sits in is the one the map gives. *)
Lemma seatedMap_get j g s :
  nth_error gs j = Some g -> In s (Group.students g) ->
  inCluster studentIds s = true ->
  Map_get M (Student.id s) = Some j.
Proof.
  intros N Hs C. unfold inCluster in C. apply mem_In in C.
  assert (Has : Map_has M (Student.id s) = true).
  { apply seatedMap_has. split; [exact C|]. apply in_map.
    unfold members. apply in_flat_map. exists g. split; [|exact Hs].
    eapply nth_error_In; eassumption. }
  unfold Map_has in Has. destruct (Map_get M (Student.id s)) as [c|] eqn:E;
    [|discriminate].
  f_equal. destruct (studentGroupMap_get E) as (g' & N' & H').
  apply in_map_iff in H'. destruct H' as (s' & Es & Hs').
  destruct (Nat.eq_dec c j) as [e|D]; [exact e|exfalso].
  eapply (@groups_apart gs c j g' g (Student.id s)); try eassumption.
  - rewrite <- Es. now apply in_map.
  - now apply in_map.
Qed.

Lemma used_spec :
  NoDup used
  /\ (forall j, ~ In j used -> countAt (inCluster studentIds) gs j = 0%nat)
  /\ (List.length used
      + List.length (filter (fun x => negb (Map_has M x)) studentIds)
      <= List.length studentIds)%nat.
Proof.
  unfold used, DifferentGroupHandler.valuesSet.
  destruct (@fold_IndexSet_add (map snd M) [] (NoDup_nil _)) as (N & I & L).
  split; [exact N|]. split.
  - intros j Hj. unfold countAt.
    destruct (nth_error gs j) as [g|] eqn:Ng; [|reflexivity].
    destruct (filter (inCluster studentIds) (Group.students g)) as [|s l] eqn:EF;
      [reflexivity|exfalso].
    assert (Hs : In s (filter (inCluster studentIds) (Group.students g)))
      by (rewrite EF; now left).
    apply filter_In in Hs. destruct Hs as [Hs C].
    apply Hj. apply I. right.
    apply (@Map_get_value M (Student.id s)). now apply (@seatedMap_get j g s).
  - cbn [List.length] in L. rewrite length_map in L.
    assert (K : (List.length M <= List.length (filter (Map_has M) studentIds))%nat).
    { rewrite <- (length_map fst M).
      apply NoDup_incl_length; [apply buildStudentGroupMap_NoDup|].
      intros k Hk. apply Map_has_keys in Hk. apply filter_In.
      split; [|exact Hk]. now apply seatedMap_has in Hk. }
    pose proof (filter_length (Map_has M) studentIds). lia.
Qed.

(** At most one id of the cluster is mapped to a given group. *)
Lemma one_member_per_group c :
  tl (filter (fun studentId => match Map_get M studentId with
                               | Some i => (i =? c)%nat
                               | None => false
                               end) studentIds) = [].
Proof.
  set (inC := fun studentId => match Map_get M studentId with
                               | Some i => (i =? c)%nat
                               | None => false
                               end).
  assert (ND : NoDup (filter inC studentIds)) by (now apply NoDup_filter).
  destruct (filter inC studentIds) as [|x [|y l]] eqn:EF; try reflexivity.
  exfalso.
  assert (Hx : In x (filter inC studentIds)) by (rewrite EF; now left).
  assert (Hy : In y (filter inC studentIds)) by (rewrite EF; right; now left).
  assert (D : x <> y).
  { inversion ND as [|? ? Nx _]; subst. intros ->. apply Nx. now left. }
  apply filter_In in Hx, Hy. destruct Hx as [Ix Cx], Hy as [Iy Cy].
  unfold inC in Cx, Cy.
  destruct (Map_get M x) as [cx|] eqn:Ex; [|discriminate].
  destruct (Map_get M y) as [cy|] eqn:Ey; [|discriminate].
  apply Nat.eqb_eq in Cx, Cy. subst cx cy.
  destruct (studentGroupMap_get Ex) as (g & Ng & Hgx).
  destruct (studentGroupMap_get Ey) as (g' & Ng' & Hgy).
  rewrite Ng in Ng'. injection Ng' as <-.
  apply in_map_iff in Hgx, Hgy.
  destruct Hgx as (sx & Esx & Hsx), Hgy as (sy & Esy & Hsy).
  pose proof (apart c) as A. unfold countAt in A. rewrite Ng in A.
  assert (In sx (filter (inCluster studentIds) (Group.students g))).
  { apply filter_In. split; [exact Hsx|]. unfold inCluster. apply mem_In.
    now rewrite Esx. }
  assert (In sy (filter (inCluster studentIds) (Group.students g))).
  { apply filter_In. split; [exact Hsy|]. unfold inCluster. apply mem_In.
    now rewrite Esy. }
  assert (sx <> sy) by congruence.
  destruct (filter (inCluster studentIds) (Group.students g)) as [|a [|b r]];
    cbn in *; [tauto|intuition congruence|lia].
Qed.

End SeatedApart.

Lemma placeUnplaced_apart studentIds pool M : forall L used gs P,
  incl L studentIds ->
  NoDup used ->
  (List.length used + List.length (filter (fun x => negb (Map_has M x)) L)
   <= List.length gs)%nat ->
  (forall j, (countAt (inCluster studentIds) gs j
              <= if IndexSet_has used j then 1 else 0)%nat) ->
  exists gs' P',
    DifferentGroupHandler.placeUnplaced M L used gs pool P = Returned (gs', P')
    /\ List.length gs' = List.length gs
    /\ (forall j, (countAt (inCluster studentIds) gs' j <= 1)%nat)
    /\ (forall j s, sitsAt gs j s -> sitsAt gs' j s)
    /\ Permutation (members gs')
                   (members gs
                    ++ named pool (filter (fun x => negb (Map_has M x)) L)).
Proof.
  induction L as [|x L IH]; intros used gs P Sub ND Len Cap.
  - exists gs, P. cbn. split; [reflexivity|]. split; [reflexivity|].
    split; [|split].
    + intros j. specialize (Cap j). destruct (IndexSet_has used j); lia.
    + auto.
    + rewrite app_nil_r. apply Permutation_refl.
  - cbn [DifferentGroupHandler.placeUnplaced filter].
    assert (Sub' : incl L studentIds)
      by (intros y Hy; apply Sub; now right).
    cbn [filter] in Len.
    destruct (Map_has M x) eqn:HM; cbn [negb] in *.
    + now apply IH.
    + cbn [named flat_map List.length] in *.
      fold (named pool (filter (fun x => negb (Map_has M x)) L)).
      destruct (find (hasId x) pool) as [student|] eqn:F.
      * destruct (@unused_group_first used gs ND) as (i & g & rest & -> & Ni & Ng);
          [lia|].
        rewrite bind_Returned.
        assert (Li : (i < List.length gs)%nat)
          by (apply nth_error_Some; congruence).
        rewrite pushStudent_give by exact Li. rewrite bind_Returned.
        assert (Has : IndexSet_has used i = false).
        { apply not_true_iff_false. intros H. apply Ni.
          now apply IndexSet_has_In. }
        assert (Add : IndexSet_add used i = used ++ [i])
          by (unfold IndexSet_add; now rewrite Has).
        destruct (IH (IndexSet_add used i) (give i student gs) (Set_add P x))
          as (gs' & P' & E & L' & C' & S' & M').
        -- exact Sub'.
        -- rewrite Add. apply NoDup_app; [exact ND|repeat constructor; auto|].
           intros y Hy [<-|[]]. contradiction.
        -- rewrite Add, length_app, give_length. cbn [List.length]. lia.
        -- intros j. rewrite countAt_give by exact Li. specialize (Cap j).
           destruct (Nat.eqb_spec j i) as [->|NE].
           ++ rewrite Has in Cap.
              assert (IndexSet_has (IndexSet_add used i) i = true)
                by (apply IndexSet_has_In; rewrite Add; apply in_or_app;
                    right; now left).
              rewrite H. destruct (inCluster studentIds student); lia.
           ++ assert (IndexSet_has (IndexSet_add used i) j = IndexSet_has used j).
              { apply eq_true_iff_eq. rewrite !IndexSet_has_In, Add, in_app_iff.
                cbn. intuition congruence. }
              rewrite H. lia.
        -- exists gs', P'. split; [exact E|]. rewrite give_length in L'.
           split; [exact L'|]. split; [exact C'|]. split.
           ++ intros j s Hs. apply S'. now apply sitsAt_give_mono.
           ++ pose proof (members_give student Li) as MG.
              cbn [app]. perm_count.
      * cbn [app]. apply IH; try assumption. lia.
Qed.

(** X30.  When nobody is seated twice and the seated members of a
    cluster of distinct numbers, at most as many as the groups, sit in
    groups of their own, [assignToDifferentGroups] returns and keeps the
    cluster apart: nobody is taken out of a group, the members that are
    not seated and wait in the pool are seated, nobody else is, and no
    group ends with two members of the cluster.  The pool is left as it
    is. *)
Theorem assignToDifferentGroups_keeps_apart (groups : list Group)
  (studentIds : list Z) (remainingStudents : list Student)
  (processedStudentIds : NumSet) :
  NoDup studentIds ->
  NoDup (map Student.id (members groups)) ->
  (forall j, (countAt (inCluster studentIds) groups j <= 1)%nat) ->
  (List.length studentIds <= List.length groups)%nat ->
  exists groups' processed',
    DifferentGroupHandler.assignToDifferentGroups
      groups studentIds remainingStudents processedStudentIds
    = Returned (groups', remainingStudents, processed')
    /\ List.length groups' = List.length groups
    /\ (forall j, (countAt (inCluster studentIds) groups' j <= 1)%nat)
    /\ (forall j s, sitsAt groups j s -> sitsAt groups' j s)
    /\ Permutation
         (members groups')
         (members groups
          ++ named remainingStudents
               (filter (fun x => negb (existsb (Z.eqb x)
                                               (map Student.id (members groups))))
                       studentIds)).
Proof.
  intros NI NS Apart Len.
  unfold DifferentGroupHandler.assignToDifferentGroups. cbv zeta.
  set (M := DifferentGroupHandler.buildStudentGroupMap groups studentIds).
  set (used := DifferentGroupHandler.valuesSet M).
  destruct (@used_spec groups studentIds NS) as (NU & Zero & Count).
  fold M in Zero, Count. fold used in NU, Zero, Count.
  assert (Waiting : filter (fun x => negb (Map_has M x)) studentIds
                    = filter (fun x => negb (existsb (Z.eqb x)
                                               (map Student.id (members groups))))
                             studentIds).
  { apply filter_ext_in. intros x Hx. f_equal. apply eq_true_iff_eq.
    unfold M. rewrite (seatedMap_has groups studentIds x), mem_In. tauto. }
  assert (Cap : forall j, (countAt (inCluster studentIds) groups j
                           <= if IndexSet_has used j then 1 else 0)%nat).
  { intros j. destruct (IndexSet_has used j) eqn:E; [apply Apart|].
    rewrite Zero; [lia|]. intros H. apply IndexSet_has_In in H. congruence. }
  assert (Place : forall processed1,
            exists gs' P',
              DifferentGroupHandler.placeUnplaced M studentIds used groups
                remainingStudents processed1 = Returned (gs', P')
              /\ List.length gs' = List.length groups
              /\ (forall j, (countAt (inCluster studentIds) gs' j <= 1)%nat)
              /\ (forall j s, sitsAt groups j s -> sitsAt gs' j s)
              /\ Permutation
                   (members gs')
                   (members groups
                    ++ named remainingStudents
                         (filter (fun x => negb (Map_has M x)) studentIds))).
  { intros processed1. apply placeUnplaced_apart; try assumption.
    - apply incl_refl.
    - lia. }
  rewrite Waiting in Place.
  pose proof (@one_member_per_group groups studentIds NI Apart) as One.
  fold M in One.
  clearbody used. clear NU Zero Count Cap.
  destruct used as [|c [|c' rest]].
  - rewrite bind_Returned.
    destruct (Place processedStudentIds) as (gs' & P' & -> & K).
    rewrite bind_Returned. now exists gs', P'.
  - rewrite (One c). cbn [DifferentGroupHandler.evict]. rewrite !bind_Returned.
    cbn [DifferentGroupHandler.redistributeStudents].
    destruct (Place (fold_left Set_add studentIds processedStudentIds))
      as (gs' & P' & -> & K).
    rewrite bind_Returned. now exists gs', P'.
  - rewrite bind_Returned.
    destruct (Place (fold_left (fun p studentId =>
                                  if Map_has M studentId
                                  then Set_add p studentId else p)
                               studentIds processedStudentIds))
      as (gs' & P' & -> & K).
    rewrite bind_Returned. now exists gs', P'.
Qed.

Lemma assignToDifferentGroups_keeps_apart_witness :
  let groups := [ Group.make 1 1 (seated [1] male);
                  Group.make 2 2 (seated [4; 5] female);
                  Group.make 3 3 [] ] in
  let pool := seated [2; 3] male in
  exists groups' processed',
    DifferentGroupHandler.assignToDifferentGroups groups [1; 2; 3] pool []
    = Returned (groups', pool, processed')
    /\ List.length groups' = List.length groups
    /\ (forall j, (countAt (inCluster [1; 2; 3]%Z) groups' j <= 1)%nat)
    /\ (forall j s, sitsAt groups j s -> sitsAt groups' j s)
    /\ Permutation
         (members groups')
         (members groups
          ++ named pool
               (filter (fun x => negb (existsb (Z.eqb x)
                                               (map Student.id (members groups))))
                       [1; 2; 3])).
Proof.
  intros groups pool.
  apply (@assignToDifferentGroups_keeps_apart groups [1; 2; 3] pool []).
  - repeat constructor; simpl; intuition discriminate.
  - cbn. repeat constructor; simpl; intuition discriminate.
  - intros [|[|[|[|j]]]]; cbn; lia.
  - cbn. lia.
Defined.

(** Student 1 sits alone in the first group; 2 and 3 wait.  They are
    sent to the two other groups, the emptier one first. *)
Example assignToDifferentGroups_seated_and_waiting :
  exists groups' pool' processed',
    DifferentGroupHandler.assignToDifferentGroups
      [ Group.make 1 1 (seated [1] male);
        Group.make 2 2 (seated [4; 5] female);
        Group.make 3 3 [] ]
      [1; 2; 3] (seated [2; 3] male) []
    = Returned (groups', pool', processed')
    /\ seatNumbers groups' = [[1]; [4; 5; 3]; [2]].
Proof. eexists _, _, _. split; vm_compute; reflexivity. Qed.

(* ================================================================== *)
(** * The messages for a cluster that names a seat number twice        *)
(* ================================================================== *)

(** ** The dialog's list of errors *)

Module DialogValidation.

(** The messages that [validationErrors] pushes, by their prefix and
    with the error they print. *)
Inductive Message :=
| SameGroupMessage (error : ValidationError)
| DifferentGroupMessage (error : DifferentGroupError)
| LogicConflictMessage (conflictList : list Z).

(** The body of [conditions.forEach((condition) => { ... })]. *)
Definition checkCondition (maxStudentsPerGroup groupCount : nat)
  (condition : GroupingConditionState) : list Message :=
  if negb (ConditionState.enabled condition) then []
  else
    (if str_eqb (ConditionState.type condition) (lit "same-group")
        && nonEmpty (ConditionState.input condition)
     then match validateSameGroupInput (ConditionState.input condition)
                                       maxStudentsPerGroup with
          | Some error => [SameGroupMessage error]
          | None => []
          end
     else [])
    ++ (if str_eqb (ConditionState.type condition) (lit "different-group")
           && nonEmpty (ConditionState.input condition)
        then match validateDifferentGroupInput (ConditionState.input condition)
                                               groupCount with
             | Some error => [DifferentGroupMessage error]
             | None => []
             end
        else []).

(** [validationErrors], for the editing conditions, the number of
    students and the number of groups that it reads. *)
Definition validationErrors (conditions : list GroupingConditionState)
  (totalStudents groupCount : nat) : list Message :=
  if (groupCount =? 0)%nat then []
  else
    let maxStudentsPerGroup := GenderRatioHandler.ceilDiv totalStudents groupCount in
    flat_map (checkCondition maxStudentsPerGroup groupCount) conditions
    ++ match logicConflict groupCount conditions with
       | Some conflictList => [LogicConflictMessage conflictList]
       | None => []
       end.

End DialogValidation.

Import DialogValidation.

(** ** The conditions of StudentService and their validation *)

Module ConditionsSignal.

(** [config: any] of a [GroupingCondition], with the two fields that
    hold clusters: [pairs] of the same-group condition and [groups] of
    the different-group condition.  [validateConditions] reads [groups]
    only. *)
Record Config := mkConfig {
  pairs : option (list (list Z));
  groups : option (list (list Z))
}.

Record Condition := make {
  id : str;
  type : str;
  enabled : bool;
  priority : nat;
  config : Config
}.

(** The message of [validateConditions], with the two numbers it
    prints. *)
Inductive Message := TooFewGroups (people groupCount : nat).

(** The initial value of [conditionsSignal]. *)
Definition initial : list Condition :=
  [ make (lit "same-group") (lit "same-group") false 1 (mkConfig (Some []) None);
    make (lit "different-group") (lit "different-group") false 2
         (mkConfig None (Some []));
    make (lit "gender-ratio") (lit "gender-ratio") false 3 (mkConfig None None);
    make (lit "block-distribution") (lit "block-distribution") false 4
         (mkConfig None None) ].

(** [Partial<GroupingCondition>] *)
Record Updates := mkUpdates {
  newId : option str;
  newType : option str;
  newEnabled : option bool;
  newPriority : option nat;
  newConfig : option Config
}.

(** [updateCondition]: [{ ...c, ...updates }] for the condition of the
    id. *)
Definition updateCondition (conditionId : str) (updates : Updates)
  (conditions : list Condition) : list Condition :=
  map (fun c =>
         if str_eqb (id c) conditionId
         then make (ConditionEdits.orKeep (newId updates) (id c))
                   (ConditionEdits.orKeep (newType updates) (type c))
                   (ConditionEdits.orKeep (newEnabled updates) (enabled c))
                   (ConditionEdits.orKeep (newPriority updates) (priority c))
                   (ConditionEdits.orKeep (newConfig updates) (config c))
         else c)
      conditions.

(** [validateConditions], for the conditions and the number of groups
    that it reads. *)
Definition validateConditions (conditionsSignal : list Condition)
  (groupCount : nat) : list Message :=
  let conditions := filter enabled conditionsSignal in
  match find (fun c => str_eqb (type c) (lit "different-group")) conditions with
  | Some differentGroupCondition =>
      let groups := match groups (config differentGroupCondition) with
                    | Some groups => groups
                    | None => []
                    end in
      flat_map (fun group =>
                  if (groupCount <? List.length group)%nat
                  then [TooFewGroups (List.length group) groupCount]
                  else [])
               groups
  | None => []
  end.

End ConditionsSignal.

(** ** What the dialog answers *)



(** An editing condition of the same-group kind, enabled, with the given
    input. *)
Definition sameGroupState (input : string) : GroupingConditionState :=
  {| ConditionState.id := lit "same-group";
     ConditionState.type := lit "same-group";
     ConditionState.enabled := true;
     ConditionState.input := lit input;
     ConditionState.blockInputs := None |}.







(** The dialog on inputs with the cluster "1,1,2": after an accepted
    cluster it is named with its number 1; after a cluster with a hyphen
    the message is the one about the characters allowed.  The test of
    StudentService: three to be kept apart with two groups. *)
Example duplicate_cluster_messages :
  validationErrors [sameGroupState "3,4; 1,1,2"] 10 2
     = [SameGroupMessage (GroupHasError (lit "1,1,2") (Error [1]))]
  /\ parseSameGroupInput (lit "3-4;1,1,2") = []
  /\ validateSameGroupInput (lit "3-4;1,1,2") 5 = Some OnlyDigitsCommasSemicolons
  /\ ConditionsSignal.validateConditions
       (ConditionsSignal.updateCondition
          (lit "different-group")
          (ConditionsSignal.mkUpdates None None (Some true) None
             (Some (ConditionsSignal.mkConfig None (Some [[1; 2; 3]]))))
          ConditionsSignal.initial) 2
     = [ConditionsSignal.TooFewGroups 3 2].
Proof. repeat split; vm_compute; reflexivity. Qed.
